(** * AnalisadorPython: lexical scanner and recursive-descent parser

    A shallow embedding of [analisador_lexical.py], [analisador_sintatico.py]
    and the [try] block of [main.py], followed by the properties proved about
    them.

    Conventions of the embedding.
    - A Python [str] used as text is a [list ascii]; token lexemes, token
      kinds, node labels and messages are [string]s.
    - Python integers that only count upwards (positions, lines, columns)
      are [nat]; the one subtraction of the program, [len(self.tokens) - 1],
      is carried out in [Z].
    - A method that mutates [self] is a function in the monad [M]: it takes
      the object's fields and returns either a value with the new fields, a
      raised exception, or [OutOfFuel].
    - Every [while] loop is a [Fixpoint] on a fuel counter that is spent one
      unit per iteration (and per recursive call in the parser); running out
      is the outcome [OutOfFuel], which stands for a run that has not
      returned yet.
    - The rules of the parser come twice: in [Parser] as they are written,
      which is how they run on a call stack without bound, and in [Framed]
      with the frames of the interpreter's call stack counted, where a call
      that finds no free frame raises [RecursionError].
    - Subscripting ([self.text[i]], [self.tokens[i]]) goes through
      [getitem], which raises [IndexError] out of range as Python does. *)

From Stdlib Require Import Bool Arith Lia List NArith ZArith Ascii String.
From Stdlib Require Import DecimalString DecimalNat.
Import ListNotations.

Set Implicit Arguments.
Set Warnings "-register-all".

(** ** Characters *)

Definition LF : ascii := ascii_of_nat 10.
Definition CR : ascii := ascii_of_nat 13.
Definition TAB : ascii := ascii_of_nat 9.
Definition SPACE : ascii := ascii_of_nat 32.

(** [c in s] for a one-character [c]. *)
Definition char_in (c : ascii) (s : list ascii) : bool :=
  existsb (Ascii.eqb c) s.

(** [' \t\n'] *)
Definition whitespace : list ascii := [SPACE; TAB; LF].

(** [string.ascii_letters] *)
Definition ascii_letters : list ascii :=
  list_ascii_of_string "abcdefghijklmnopqrstuvwxyzABCDEFGHIJKLMNOPQRSTUVWXYZ".

(** [a <= c <= b] on characters compares code points. *)
Definition char_between (a c b : ascii) : bool :=
  (N_of_ascii a <=? N_of_ascii c)%N && (N_of_ascii c <=? N_of_ascii b)%N.

(** ['0' <= c <= '9'] *)
Definition is_digit (c : ascii) : bool := char_between "0" c "9".

(** [str.lower()], on the characters an identifier can hold. *)
Definition lower_char (c : ascii) : ascii :=
  if char_between "A" c "Z" then ascii_of_N (N_of_ascii c + 32) else c.

Definition lower (s : string) : string :=
  string_of_list_ascii (map lower_char (list_ascii_of_string s)).

(** [s + c] for a one-character [c]. *)
Definition snoc (s : string) (c : ascii) : string :=
  (s ++ String c EmptyString)%string.

(** [str(x)] of an optional string, as an f-string prints it. *)
Definition str_of (v : option string) : string :=
  match v with Some s => s | None => "None"%string end.

(** ** Tokens and exceptions *)

Module Token.
Record t : Type := mk {
  type : string;
  value : option string;
  line : nat;
  column : nat
}.
End Token.

(** The exceptions the program can raise: its own two, the [IndexError]
    of an out-of-range subscript, and the [RecursionError] of a call for
    which the interpreter's call stack has no frame left. *)
Inductive exn : Type :=
| LexicalError (message : string) (line column : nat) (char : option ascii)
| SyntaxError_ (message : string) (token : Token.t)
| IndexError
| RecursionError.

(** ** Runs of a method *)

Inductive result (S A : Type) : Type :=
| Ok (a : A) (s : S)
| Raise (e : exn)
| OutOfFuel.

Arguments Raise {S A} e.
Arguments OutOfFuel {S A}.

Definition M (S A : Type) : Type := S -> result S A.

Definition ret {S A} (a : A) : M S A := fun s => Ok a s.

Definition bind {S A B} (m : M S A) (k : A -> M S B) : M S B :=
  fun s => match m s with
           | Ok a s' => k a s'
           | Raise e => Raise e
           | OutOfFuel => OutOfFuel
           end.

Definition raise {S A} (e : exn) : M S A := fun _ => Raise e.
Definition out_of_fuel {S A} : M S A := fun _ => OutOfFuel.
Definition get {S} : M S S := fun s => Ok s s.
Definition modify {S} (f : S -> S) : M S unit := fun s => Ok tt (f s).

Declare Scope monad_scope.
Delimit Scope monad_scope with monad.
Notation "x <- m ;; k" := (bind m (fun x => k))
  (at level 61, m at next level, right associativity) : monad_scope.
Notation "m ;; k" := (bind m (fun _ => k))
  (at level 61, right associativity) : monad_scope.
Open Scope monad_scope.

(** [l[i]] *)
Definition getitem {S A} (l : list A) (i : nat) : M S A :=
  match nth_error l i with
  | Some a => ret a
  | None => raise IndexError
  end.

(** [x or d] on an optional integer: [None] and [0] are falsy. *)
Definition or_default (x : option nat) (d : nat) : nat :=
  match x with
  | Some (S n) => S n
  | _ => d
  end.

(** ** analisador_lexical.py *)

Module Lexer.

Record state : Type := mk {
  text : list ascii;
  pos : nat;
  length : nat;
  current_char : option ascii;
  line : nat;
  col : nat
}.

Definition set_pos (p : nat) (st : state) : state :=
  mk (text st) p (length st) (current_char st) (line st) (col st).
Definition set_current_char (c : option ascii) (st : state) : state :=
  mk (text st) (pos st) (length st) c (line st) (col st).
Definition set_line (l : nat) (st : state) : state :=
  mk (text st) (pos st) (length st) (current_char st) l (col st).
Definition set_col (k : nat) (st : state) : state :=
  mk (text st) (pos st) (length st) (current_char st) (line st) k.

(** The table [RESERVED]. *)
Definition RESERVED : list (string * string) :=
  [ ("int", "INT"); ("float", "FLOAT");
    ("inicio", "INICIO"); ("decls", "DECLS"); ("fimdecls", "FIMDECLS");
    ("codigo", "CODIGO"); ("fimprog", "FIMPROG");
    ("leia", "LEIA"); ("escreva", "ESCREVA");
    ("se", "SE"); ("entao", "ENTAO"); ("bloco", "BLOCO");
    ("fimbloco", "FIMBLOCO");
    ("e", "E"); ("ou", "OU");
    ("print", "PRINT"); ("while", "WHILE"); ("else", "ELSE") ]%string.

(** [d.get(k, default)] *)
Fixpoint dict_get (d : list (string * string)) (k default : string) : string :=
  match d with
  | [] => default
  | (k', v) :: d' => if String.eqb k k' then v else dict_get d' k default
  end.

(** [text.replace('\r\n', '\n')] *)
Fixpoint replace_crlf (s : list ascii) : list ascii :=
  match s with
  | [] => []
  | c :: t =>
      if Ascii.eqb c CR then
        match t with
        | c' :: t' => if Ascii.eqb c' LF then LF :: replace_crlf t'
                      else c :: replace_crlf t
        | [] => [c]
        end
      else c :: replace_crlf t
  end.

(** [text.replace('\r', '\n')] *)
Definition replace_cr (s : list ascii) : list ascii :=
  map (fun c => if Ascii.eqb c CR then LF else c) s.

(** [Lexer.__init__] *)
Definition init (src : list ascii) : state :=
  let text := replace_cr (replace_crlf src) in
  mk text 0 (List.length text) (nth_error text 0) 1 1.

(** [x == c] for an optional character [x]. *)
Definition opt_is (x : option ascii) (c : ascii) : bool :=
  match x with Some x' => Ascii.eqb x' c | None => false end.

(** [Lexer.advance] *)
Definition advance : M state unit :=
  st <- get ;;
  (if opt_is (current_char st) LF
   then modify (fun st => set_col 0 (set_line (line st + 1) st))
   else ret tt) ;;
  modify (fun st => set_pos (pos st + 1) st) ;;
  st <- get ;;
  if length st <=? pos st then
    modify (set_current_char None)
  else
    c <- getitem (text st) (pos st) ;;
    modify (set_current_char (Some c)) ;;
    modify (fun st => set_col (col st + 1) st).

(** [Lexer.peek] *)
Definition peek (n : nat) : M state (option ascii) :=
  st <- get ;;
  let peek_pos := pos st + n in
  if length st <=? peek_pos then ret None
  else c <- getitem (text st) peek_pos ;; ret (Some c).

(** The loop of [Lexer.peek_next_non_whitespace], on its local [pos]. *)
Fixpoint peek_next_non_whitespace_loop (fuel : nat) (p : nat)
  : M state nat :=
  match fuel with
  | 0 => out_of_fuel
  | S fuel' =>
      st <- get ;;
      if p <? length st then
        c <- getitem (text st) p ;;
        if char_in c whitespace
        then peek_next_non_whitespace_loop fuel' (p + 1)
        else ret p
      else ret p
  end.

(** [Lexer.peek_next_non_whitespace] *)
Definition peek_next_non_whitespace (fuel : nat) : M state (option ascii) :=
  st <- get ;;
  p <- peek_next_non_whitespace_loop fuel (pos st) ;;
  if p <? length st then c <- getitem (text st) p ;; ret (Some c)
  else ret None.

(** [Lexer.error] *)
Definition error {A} (message : string) (char : option ascii)
    (line_ col_ : option nat) : M state A :=
  st <- get ;;
  raise (LexicalError message (or_default line_ (line st))
           (or_default col_ (col st)) char).

(** [Lexer.skip_whitespace] *)
Fixpoint skip_whitespace (fuel : nat) : M state unit :=
  match fuel with
  | 0 => out_of_fuel
  | S fuel' =>
      st <- get ;;
      match current_char st with
      | Some c =>
          if char_in c whitespace
          then advance ;; skip_whitespace fuel'
          else ret tt
      | None => ret tt
      end
  end.

(** [Lexer.skip_line_comment] *)
Fixpoint skip_line_comment (fuel : nat) : M state unit :=
  match fuel with
  | 0 => out_of_fuel
  | S fuel' =>
      st <- get ;;
      match current_char st with
      | Some c =>
          if negb (Ascii.eqb c LF)
          then advance ;; skip_line_comment fuel'
          else ret tt
      | None => ret tt
      end
  end.

(** [self.current_char is None or not ('0' <= self.current_char <= '9')] *)
Definition not_a_digit (x : option ascii) : bool :=
  match x with Some c => negb (is_digit c) | None => true end.

(** [self.peek() == c] *)
Definition peek_is (c : ascii) : M state bool :=
  nxt <- peek 1 ;; ret (opt_is nxt c).

(** [self.peek() is not None and '0' <= self.peek() <= '9'] *)
Definition peek_is_digit : M state bool :=
  nxt <- peek 1 ;; ret (negb (not_a_digit nxt)).

(** [b and m], [b or m]: the right operand runs only when it decides. *)
Definition and_then (b : bool) (m : M state bool) : M state bool :=
  if b then m else ret false.
Definition or_else (b : bool) (m : M state bool) : M state bool :=
  if b then ret true else m.

(** The [while] loop of [Lexer.skip_block_comment]; [start_line] and
    [start_col] are the locals saved on entry. *)
Fixpoint skip_block_comment_loop (fuel : nat) (start_line start_col : nat)
  : M state unit :=
  match fuel with
  | 0 => out_of_fuel
  | S fuel' =>
      st <- get ;;
      match current_char st with
      | Some c =>
          closes <- and_then (Ascii.eqb c "*") (peek_is "/") ;;
          if closes then
            advance ;; advance ;; ret tt
          else
            advance ;; skip_block_comment_loop fuel' start_line start_col
      | None =>
          error "Unterminated block comment" None
            (Some start_line) (Some start_col)
      end
  end.

(** [Lexer.skip_block_comment] *)
Definition skip_block_comment (fuel : nat) : M state unit :=
  st <- get ;;
  let start_line := line st in
  let start_col := col st in
  advance ;;
  advance ;;
  skip_block_comment_loop fuel start_line start_col.

(** The loop [while self.current_char is not None and
    '0' <= self.current_char <= '9'] of [Lexer.number], which occurs three
    times there with the same body; [num_str] is the accumulated local. *)
Fixpoint number_digits (fuel : nat) (num_str : string) : M state string :=
  match fuel with
  | 0 => out_of_fuel
  | S fuel' =>
      st <- get ;;
      match current_char st with
      | Some c =>
          if is_digit c
          then advance ;; number_digits fuel' (snoc num_str c)
          else ret num_str
      | None => ret num_str
      end
  end.

(** [Lexer.number] *)
Definition number (fuel : nat) : M state Token.t :=
  st <- get ;;
  let start_line := line st in
  let start_col := col st in
  let num_str := EmptyString in
  if opt_is (current_char st) "." then
    let num_str := snoc num_str "." in
    advance ;;
    st <- get ;;
    (if not_a_digit (current_char st) then
       error "Invalid numeric constant: '.' not followed by digits"
         (Some "."%char) (Some start_line) (Some start_col)
     else ret tt) ;;
    num_str <- number_digits fuel num_str ;;
    ret (Token.mk "NUMBER" (Some num_str) start_line start_col)
  else
    num_str <- number_digits fuel num_str ;;
    st <- get ;;
    num_str <-
      (if opt_is (current_char st) "." then
         let num_str := snoc num_str "." in
         advance ;;
         st <- get ;;
         (if not_a_digit (current_char st) then
            error "Invalid numeric constant: digits required after decimal point"
              (Some "."%char) (Some start_line) (Some start_col)
          else ret tt) ;;
         number_digits fuel num_str
       else ret num_str) ;;
    st <- get ;;
    (if opt_is (current_char st) "." then
       error "Invalid numeric constant: multiple decimal points"
         (Some "."%char) None None
     else ret tt) ;;
    ret (Token.mk "NUMBER" (Some num_str) start_line start_col).

(** [c in string.ascii_letters or c == '_' or '0' <= c <= '9'] *)
Definition is_ident_char (c : ascii) : bool :=
  char_in c ascii_letters || Ascii.eqb c "_" || is_digit c.

(** The [while] loop of [Lexer.identifier_or_keyword]. *)
Fixpoint identifier_chars (fuel : nat) (result : string) : M state string :=
  match fuel with
  | 0 => out_of_fuel
  | S fuel' =>
      st <- get ;;
      match current_char st with
      | Some c =>
          if is_ident_char c
          then advance ;; identifier_chars fuel' (snoc result c)
          else ret result
      | None => ret result
      end
  end.

(** [Lexer.identifier_or_keyword] *)
Definition identifier_or_keyword (fuel : nat) : M state Token.t :=
  st <- get ;;
  let start_line := line st in
  let start_col := col st in
  let result := EmptyString in
  match current_char st with
  | None =>
      error "Unexpected end while parsing identifier" None
        (Some start_line) (Some start_col)
  | Some c =>
      (if negb (char_in c ascii_letters) && negb (Ascii.eqb c "_") then
         error "Identifiers must start with ASCII letter or underscore"
           (Some c) (Some start_line) (Some start_col)
       else ret tt) ;;
      result <- identifier_chars fuel result ;;
      let typ := dict_get RESERVED (lower result) "IDENTIFIER" in
      ret (Token.mk typ (Some result) start_line start_col)
  end.

(** A one-character token: build it at the current position, then advance. *)
Definition single (type value : string) : M state Token.t :=
  st <- get ;;
  let t := Token.mk type (Some value) (line st) (col st) in
  advance ;;
  ret t.

(** The branches for [>], [<] and [=]: one character of lookahead chooses
    between the two-character and the one-character operator. *)
Definition one_or_two (type2 value2 type1 value1 : string)
  : M state Token.t :=
  st <- get ;;
  let start_line := line st in
  let start_col := col st in
  eq <- peek_is "=" ;;
  if eq then
    advance ;; advance ;;
    ret (Token.mk type2 (Some value2) start_line start_col)
  else
    advance ;;
    ret (Token.mk type1 (Some value1) start_line start_col).

(** [Lexer.get_next_token] *)
Fixpoint get_next_token (fuel : nat) : M state Token.t :=
  match fuel with
  | 0 => out_of_fuel
  | S fuel' =>
      st <- get ;;
      match current_char st with
      | None => ret (Token.mk "EOF" None (line st) (col st))
      | Some c =>
          if char_in c whitespace then
            skip_whitespace fuel' ;; get_next_token fuel'
          else if Ascii.eqb c "#" then
            skip_line_comment fuel' ;; get_next_token fuel'
          else
          opens <- and_then (Ascii.eqb c "/") (peek_is "*") ;;
          if opens then
            skip_block_comment fuel' ;; get_next_token fuel'
          else if Ascii.eqb c "+" then single "PLUS" "+"
          else if Ascii.eqb c "-" then single "MINUS" "-"
          else if Ascii.eqb c "*" then single "MUL" "*"
          else if Ascii.eqb c "/" then single "DIV" "/"
          else if Ascii.eqb c "(" then single "LPAREN" "("
          else if Ascii.eqb c ")" then single "RPAREN" ")"
          else if Ascii.eqb c ">" then one_or_two "GE" ">=" "GT" ">"
          else if Ascii.eqb c "<" then one_or_two "LE" "<=" "LT" "<"
          else if Ascii.eqb c "!" then
            let start_line := line st in
            let start_col := col st in
            eq <- peek_is "=" ;;
            if eq then
              advance ;; advance ;;
              ret (Token.mk "NE" (Some "!="%string) start_line start_col)
            else
              error "Unexpected '!' (expected '!=')" (Some "!"%char)
                (Some start_line) (Some start_col)
          else if Ascii.eqb c "=" then one_or_two "EQ" "==" "ASSIGN" "="
          else
          num <- or_else (is_digit c)
                   (and_then (Ascii.eqb c ".") peek_is_digit) ;;
          if num then
            token <- number fuel' ;;
            next_char <- peek_next_non_whitespace fuel' ;;
            if opt_is next_char "." then
              error "Invalid numeric constant: unexpected '.' after number"
                (Some "."%char) (Some (Token.line token))
                (Some (Token.column token))
            else ret token
          else if char_in c ascii_letters || Ascii.eqb c "_" then
            identifier_or_keyword fuel'
          else if Ascii.eqb c ":" then single "COLON" ":"
          else
            error "Invalid character" (Some c)
              (Some (line st)) (Some (col st))
      end
  end.

(** The loop of [Lexer.tokenize]; [tokens] is the list built so far. *)
Fixpoint tokenize_loop (fuel : nat) (tokens : list Token.t)
  : M state (list Token.t) :=
  match fuel with
  | 0 => out_of_fuel
  | S fuel' =>
      tok <- get_next_token fuel' ;;
      let tokens := tokens ++ [tok] in
      if String.eqb (Token.type tok) "EOF" then ret tokens
      else tokenize_loop fuel' tokens
  end.

(** [Lexer.tokenize] *)
Definition tokenize (fuel : nat) : M state (list Token.t) :=
  tokenize_loop fuel [].

End Lexer.

(** ** analisador_sintatico.py *)

(** [class Node]: a label and the list of children. The label of an operator
    node is the operator token's [value], which the [Token] class types as
    optional, so a label is an optional string. *)
Module Node.
Inductive t : Type :=
| mk (label : option string) (children : list t).

Definition label (n : t) : option string :=
  match n with mk l _ => l end.
Definition children (n : t) : list t :=
  match n with mk _ c => c end.

(** [Node(label)] *)
Definition new (l : string) : t := mk (Some l) [].

(** [Node.add_child] *)
Definition add_child (n child : t) : t :=
  mk (label n) (children n ++ [child]).
End Node.

(** [s in (a, b, ...)] *)
Definition str_in (s : string) (l : list string) : bool :=
  existsb (String.eqb s) l.

(** The truth value of an optional string: [None] and the empty string are
    falsy. *)
Definition truthy (v : option string) : bool :=
  match v with
  | Some (String _ _) => true
  | _ => false
  end.

Module Parser.

(** The fields of [Parser] that parsing uses; [node_counter] and [graph]
    belong to the rendering of the finished tree. *)
Record state : Type := mk {
  tokens : list Token.t;
  pos : nat;
  current_token : Token.t
}.

Definition set_pos (p : nat) (st : state) : state :=
  mk (tokens st) p (current_token st).
Definition set_current_token (t : Token.t) (st : state) : state :=
  mk (tokens st) (pos st) t.

(** [Parser.__init__]: tokenizes the whole text, then points at the first
    token. *)
Definition init (fuel : nat) (lexer : Lexer.state) : result state unit :=
  match Lexer.tokenize fuel lexer with
  | Ok toks _ =>
      match nth_error toks 0 with
      | Some t => Ok tt (mk toks 0 t)
      | None => Raise IndexError
      end
  | Raise e => Raise e
  | OutOfFuel => OutOfFuel
  end.

(** [Parser.advance] *)
Definition advance : M state unit :=
  st <- get ;;
  if (Z.of_nat (pos st) <? Z.of_nat (List.length (tokens st)) - 1)%Z then
    modify (fun st => set_pos (pos st + 1) st) ;;
    st <- get ;;
    t <- getitem (tokens st) (pos st) ;;
    modify (set_current_token t)
  else ret tt.

(** [Parser.eat] *)
Definition eat (token_type : string) : M state Node.t :=
  st <- get ;;
  let tok := current_token st in
  if String.eqb (Token.type tok) token_type then
    let node :=
      Node.new (if truthy (Token.value tok)
                then token_type ++ "(" ++ str_of (Token.value tok) ++ ")"
                else token_type)%string in
    advance ;;
    ret node
  else
    raise (SyntaxError_
             ("Esperado " ++ token_type ++ ", encontrado " ++ Token.type tok)
             tok).

(** [Parser.peek_next_type] *)
Definition peek_next_type (offset : nat) : M state (option string) :=
  st <- get ;;
  let idx := pos st + offset in
  if idx <? List.length (tokens st) then
    t <- getitem (tokens st) idx ;; ret (Some (Token.type t))
  else ret None.

(** [Parser.peek_is_colon] *)
Definition peek_is_colon : M state bool :=
  st <- get ;;
  if pos st + 1 <? List.length (tokens st) then
    t <- getitem (tokens st) (pos st + 1) ;;
    ret (String.eqb (Token.type t) "COLON")
  else ret false.

(** [Parser.parse_decl] *)
Definition parse_decl : M state Node.t :=
  let node := Node.new "Decl" in
  c <- eat "IDENTIFIER" ;;
  let node := Node.add_child node c in
  c <- eat "COLON" ;;
  let node := Node.add_child node c in
  st <- get ;;
  if str_in (Token.type (current_token st)) ["INT"; "FLOAT"]%string then
    c <- eat (Token.type (current_token st)) ;;
    ret (Node.add_child node c)
  else
    raise (SyntaxError_
             "Tipo esperado (INT ou FLOAT) após ':' na declaração"
             (current_token st)).

(** The [while] loop of [Parser.parse_decls]. *)
Fixpoint parse_decls_loop (fuel : nat) (node : Node.t) : M state Node.t :=
  match fuel with
  | 0 => out_of_fuel
  | S fuel' =>
      st <- get ;;
      if negb (str_in (Token.type (current_token st))
                 ["FIMDECLS"; "EOF"]%string) then
        colon <- (if String.eqb (Token.type (current_token st)) "IDENTIFIER"
                  then peek_is_colon else ret false) ;;
        if colon then
          c <- parse_decl ;;
          parse_decls_loop fuel' (Node.add_child node c)
        else
          raise (SyntaxError_
                   "Esperado declaração de variável no formato 'nome:TIPO' ou 'FIMDECLS' para terminar DECLS"
                   (current_token st))
      else ret node
  end.

(** [Parser.parse_decls] *)
Definition parse_decls (fuel : nat) : M state Node.t :=
  parse_decls_loop fuel (Node.new "Decls").

(** [node.children.pop()] *)
Definition pop_child (node : Node.t) : M state (Node.t * Node.t) :=
  match rev (Node.children node) with
  | last :: front => ret (last, Node.mk (Node.label node) (rev front))
  | [] => raise IndexError
  end.

(** The body shared by the operator branches of the four expression
    rules: make the operator node [op], advance, move the last child of
    [node] under [op], parse the right operand, hang it under [op] and
    hang [op] under [node]. *)
Definition wrap_operator (op : Node.t) (node : Node.t)
    (operand : M state Node.t) : M state Node.t :=
  advance ;;
  p <- pop_child node ;;
  let (last, node) := p in
  let op := Node.add_child op last in
  right <- operand ;;
  let op := Node.add_child op right in
  ret (Node.add_child node op).

(** The expression rules. Each rule is one function; a rule with a
    [while] loop has the loop as a second function that carries [node]. *)
Fixpoint parse_expressao_logica (fuel : nat) : M state Node.t :=
  match fuel with
  | 0 => out_of_fuel
  | S fuel' =>
      let node := Node.new "ExpressaoLogica" in
      c <- parse_expressao_relacional fuel' ;;
      parse_expressao_logica_loop fuel' (Node.add_child node c)
  end

with parse_expressao_logica_loop (fuel : nat) (node : Node.t)
  : M state Node.t :=
  match fuel with
  | 0 => out_of_fuel
  | S fuel' =>
      st <- get ;;
      if str_in (Token.type (current_token st)) ["E"; "OU"]%string then
        let op := Node.new (Token.type (current_token st)) in
        node <- wrap_operator op node (parse_expressao_relacional fuel') ;;
        parse_expressao_logica_loop fuel' node
      else ret node
  end

with parse_expressao_relacional (fuel : nat) : M state Node.t :=
  match fuel with
  | 0 => out_of_fuel
  | S fuel' =>
      let node := Node.new "ExpressaoRelacional" in
      c <- parse_expressao_aritmetica fuel' ;;
      let node := Node.add_child node c in
      st <- get ;;
      if str_in (Token.type (current_token st))
           ["GT"; "LT"; "GE"; "LE"; "EQ"; "NE"]%string then
        let op := Node.mk (Token.value (current_token st)) [] in
        wrap_operator op node (parse_expressao_aritmetica fuel')
      else ret node
  end

with parse_expressao_aritmetica (fuel : nat) : M state Node.t :=
  match fuel with
  | 0 => out_of_fuel
  | S fuel' =>
      let node := Node.new "ExpressaoAritmetica" in
      c <- parse_termo fuel' ;;
      parse_expressao_aritmetica_loop fuel' (Node.add_child node c)
  end

with parse_expressao_aritmetica_loop (fuel : nat) (node : Node.t)
  : M state Node.t :=
  match fuel with
  | 0 => out_of_fuel
  | S fuel' =>
      st <- get ;;
      if str_in (Token.type (current_token st)) ["PLUS"; "MINUS"]%string then
        let op := Node.mk (Token.value (current_token st)) [] in
        node <- wrap_operator op node (parse_termo fuel') ;;
        parse_expressao_aritmetica_loop fuel' node
      else ret node
  end

with parse_termo (fuel : nat) : M state Node.t :=
  match fuel with
  | 0 => out_of_fuel
  | S fuel' =>
      let node := Node.new "Termo" in
      c <- parse_fator fuel' ;;
      parse_termo_loop fuel' (Node.add_child node c)
  end

with parse_termo_loop (fuel : nat) (node : Node.t) : M state Node.t :=
  match fuel with
  | 0 => out_of_fuel
  | S fuel' =>
      st <- get ;;
      if str_in (Token.type (current_token st)) ["MUL"; "DIV"]%string then
        let op := Node.mk (Token.value (current_token st)) [] in
        node <- wrap_operator op node (parse_fator fuel') ;;
        parse_termo_loop fuel' node
      else ret node
  end

with parse_fator (fuel : nat) : M state Node.t :=
  match fuel with
  | 0 => out_of_fuel
  | S fuel' =>
      st <- get ;;
      let tok := current_token st in
      if str_in (Token.type tok) ["NUMBER"; "IDENTIFIER"]%string then
        let node :=
          Node.new (Token.type tok ++ "(" ++ str_of (Token.value tok) ++ ")")
        in
        advance ;;
        ret node
      else if String.eqb (Token.type tok) "LPAREN" then
        let node := Node.new "Group" in
        c <- eat "LPAREN" ;;
        let node := Node.add_child node c in
        c <- parse_expressao_logica fuel' ;;
        let node := Node.add_child node c in
        c <- eat "RPAREN" ;;
        ret (Node.add_child node c)
      else
        raise (SyntaxError_ "Fator inesperado na expressão" tok)
  end.

(** [Parser.parse_atribuicao] *)
Definition parse_atribuicao (fuel : nat) : M state Node.t :=
  let node := Node.new "Atribuicao" in
  c <- eat "IDENTIFIER" ;;
  let node := Node.add_child node c in
  c <- eat "ASSIGN" ;;
  let node := Node.add_child node c in
  c <- parse_expressao_logica fuel ;;
  ret (Node.add_child node c).

(** The statement rules. *)
Fixpoint parse_comandos (fuel : nat) : M state Node.t :=
  match fuel with
  | 0 => out_of_fuel
  | S fuel' => parse_comandos_loop fuel' (Node.new "Comandos")
  end

with parse_comandos_loop (fuel : nat) (node : Node.t) : M state Node.t :=
  match fuel with
  | 0 => out_of_fuel
  | S fuel' =>
      st <- get ;;
      if negb (str_in (Token.type (current_token st))
                 ["FIMPROG"; "FIMBLOCO"; "FIMDECLS"; "EOF"]%string) then
        c <- parse_comando fuel' ;;
        parse_comandos_loop fuel' (Node.add_child node c)
      else ret node
  end

with parse_comando (fuel : nat) : M state Node.t :=
  match fuel with
  | 0 => out_of_fuel
  | S fuel' =>
      let node := Node.new "Comando" in
      st <- get ;;
      let ttype := Token.type (current_token st) in
      if String.eqb ttype "LEIA" then
        c <- eat "LEIA" ;;
        let node := Node.add_child node c in
        c <- eat "IDENTIFIER" ;;
        ret (Node.add_child node c)
      else if String.eqb ttype "ESCREVA" then
        c <- eat "ESCREVA" ;;
        let node := Node.add_child node c in
        c <- eat "LPAREN" ;;
        let node := Node.add_child node c in
        st <- get ;;
        if str_in (Token.type (current_token st))
             ["IDENTIFIER"; "NUMBER"]%string then
          c <- eat (Token.type (current_token st)) ;;
          let node := Node.add_child node c in
          c <- eat "RPAREN" ;;
          ret (Node.add_child node c)
        else
          raise (SyntaxError_
                   "Esperado identificador ou número dentro de ESCREVA(...)"
                   (current_token st))
      else if String.eqb ttype "SE" then
        c <- parse_if fuel' ;;
        ret (Node.add_child node c)
      else if String.eqb ttype "IDENTIFIER" then
        next_type <- peek_next_type 1 ;;
        if match next_type with
           | Some t => String.eqb t "ASSIGN"
           | None => false
           end then
          c <- parse_atribuicao fuel' ;;
          ret (Node.add_child node c)
        else
          raise (SyntaxError_
                   ("Esperado '=' (ASSIGN) após identificador no início do comando, encontrado "
                    ++ str_of next_type)
                   (current_token st))
      else
        raise (SyntaxError_ "Comando inválido" (current_token st))
  end

with parse_if (fuel : nat) : M state Node.t :=
  match fuel with
  | 0 => out_of_fuel
  | S fuel' =>
      let node := Node.new "Condicional" in
      c <- eat "SE" ;;
      let node := Node.add_child node c in
      c <- parse_expressao_logica fuel' ;;
      let node := Node.add_child node c in
      c <- eat "ENTAO" ;;
      let node := Node.add_child node c in
      c <- eat "BLOCO" ;;
      let node := Node.add_child node c in
      c <- parse_comandos fuel' ;;
      let node := Node.add_child node c in
      c <- eat "FIMBLOCO" ;;
      ret (Node.add_child node c)
  end.

(** [Parser.parse_programa], up to the finished [root]; drawing the graph
    and printing the success message come after and do not change it. *)
Definition parse_programa (fuel : nat) : M state Node.t :=
  let root := Node.new "Programa" in
  c <- eat "INICIO" ;;
  let root := Node.add_child root c in
  c <- eat "DECLS" ;;
  let root := Node.add_child root c in
  c <- parse_decls fuel ;;
  let root := Node.add_child root c in
  c <- eat "FIMDECLS" ;;
  let root := Node.add_child root c in
  c <- eat "CODIGO" ;;
  let root := Node.add_child root c in
  c <- parse_comandos fuel ;;
  let root := Node.add_child root c in
  c <- eat "FIMPROG" ;;
  ret (Node.add_child root c).

End Parser.

(** *** Drawing the tree *)


(** [graphviz.Digraph], as far as the program uses it: the comment it is
    made with and the statements that [attr], [node] and [edge] add to its
    body, in the order of the calls. *)
Module Digraph.
Inductive statement : Type :=
| attr (kw : string) (attrs : list (string * string))
| node (name : string) (label : option string)
| edge (tail_name head_name : string).

Record t : Type := mk {
  comment : string;
  body : list statement
}.

Definition add (s : statement) (g : t) : t := mk (comment g) (body g ++ [s]).
End Digraph.

Module Drawing.

(** The fields of [Parser] that drawing the tree uses. *)
Record state : Type := mk {
  node_counter : nat;
  graph : Digraph.t
}.

(** What [Parser.__init__] sets them to. *)
Definition init : state :=
  mk 0
     (Digraph.add
        (Digraph.attr "node"
           [("shape", "ellipse"); ("style", "filled");
            ("color", "lightgrey"); ("fontname", "Arial")]%string)
        (Digraph.mk "Árvore Sintática" [])).

(** A call of a method of [self.graph] that adds a statement. *)
Definition call (s : Digraph.statement) (st : state) : state :=
  mk (node_counter st) (Digraph.add s (graph st)).


End Drawing.

(** ** main.py *)

(** What the [try] block of [main] ends in: the tree, one of the two
    faults that it reports, or an exception that it does not catch,
    [IndexError] ([Crash]) or [RecursionError] ([Overflow]). *)
Inductive outcome : Type :=
| Success (root : Node.t)
| LexicalFault (message : string) (line column : nat) (char : option ascii)
| SyntaxFault (message : string) (token : Token.t)
| Crash
| Overflow
| NoAnswer.

(** The [try] block of [main]: [Lexer(src)], [Parser(lexer)],
    [parser.parse_programa()], and the two [except] clauses, on a call
    stack without bound. *)
Definition analyse (fuel : nat) (src : list ascii) : outcome :=
  let lexer := Lexer.init src in
  match Parser.init fuel lexer with
  | Ok _ parser =>
      match Parser.parse_programa fuel parser with
      | Ok root _ => Success root
      | Raise (LexicalError m l c ch) => LexicalFault m l c ch
      | Raise (SyntaxError_ m t) => SyntaxFault m t
      | Raise IndexError => Crash
      | Raise RecursionError => Overflow
      | OutOfFuel => NoAnswer
      end
  | Raise (LexicalError m l c ch) => LexicalFault m l c ch
  | Raise (SyntaxError_ m t) => SyntaxFault m t
  | Raise IndexError => Crash
  | Raise RecursionError => Overflow
  | OutOfFuel => NoAnswer
  end.

(** ** The call stack *)

(** The interpreter runs the methods on a call stack of bounded depth
    ([sys.getrecursionlimit()], 1000 unless it is changed, which the
    program does not do): a call of a method of the source takes a frame
    for as long as it runs, and a call made when no frame is free raises
    [RecursionError]. The rules of [Parser] above are the rules on a stack
    without bound; here they are again with the frames counted. Every
    method takes the number of frames that are free where it is called;
    its body runs with one frame less. Calls of built-ins ([len],
    [list.append], [list.pop], string formatting) are not counted. The
    scanner has loops only and its calls are at most six deep, so the
    count starts with the parser. *)
Module Framed.
Import Parser.

(** A call with [frames] frames free of a method whose body, given the
    frames left for its own calls, is [body]. *)
Definition call {A} (frames : nat) (body : nat -> M state A) : M state A :=
  match frames with
  | 0 => raise RecursionError
  | S free => body free
  end.

(** [Node(label)]: [Node.__init__] calls nothing. *)
Definition new_node (frames : nat) (label : option string)
  : M state Node.t :=
  call frames (fun _ => ret (Node.mk label [])).

(** [node.add_child(child)] *)
Definition add_child (frames : nat) (node child : Node.t)
  : M state Node.t :=
  call frames (fun _ => ret (Node.add_child node child)).

(** [SyntaxError_(message, token)]: [SyntaxError_.__init__] formats its
    message and calls the initializer of [Exception], a built-in. *)
Definition syntax_error (frames : nat) (message : string) (token : Token.t)
  : M state exn :=
  call frames (fun _ => ret (SyntaxError_ message token)).

(** [Parser.advance] *)
Definition advance (frames : nat) : M state unit :=
  call frames (fun _ => Parser.advance).

(** [Parser.peek_next_type] *)
Definition peek_next_type (frames : nat) (offset : nat)
  : M state (option string) :=
  call frames (fun _ => Parser.peek_next_type offset).

(** [Parser.peek_is_colon] *)
Definition peek_is_colon (frames : nat) : M state bool :=
  call frames (fun _ => Parser.peek_is_colon).

(** [Parser.eat] *)
Definition eat (frames : nat) (token_type : string) : M state Node.t :=
  call frames (fun free =>
    st <- get ;;
    let tok := current_token st in
    if String.eqb (Token.type tok) token_type then
      node <- new_node free
                (Some (if truthy (Token.value tok)
                       then token_type ++ "(" ++ str_of (Token.value tok)
                            ++ ")"
                       else token_type)%string) ;;
      advance free ;;
      ret node
    else
      e <- syntax_error free
             ("Esperado " ++ token_type ++ ", encontrado " ++ Token.type tok)
             tok ;;
      raise e).

(** [Parser.parse_decl] *)
Definition parse_decl (frames : nat) : M state Node.t :=
  call frames (fun free =>
    node <- new_node free (Some "Decl"%string) ;;
    c <- eat free "IDENTIFIER" ;;
    node <- add_child free node c ;;
    c <- eat free "COLON" ;;
    node <- add_child free node c ;;
    st <- get ;;
    if str_in (Token.type (current_token st)) ["INT"; "FLOAT"]%string then
      c <- eat free (Token.type (current_token st)) ;;
      add_child free node c
    else
      e <- syntax_error free
             "Tipo esperado (INT ou FLOAT) após ':' na declaração"
             (current_token st) ;;
      raise e).

(** The [while] loop of [Parser.parse_decls], which runs in the frame of
    [parse_decls]. *)
Fixpoint parse_decls_loop (fuel free : nat) (node : Node.t)
  : M state Node.t :=
  match fuel with
  | 0 => out_of_fuel
  | S fuel' =>
      st <- get ;;
      if negb (str_in (Token.type (current_token st))
                 ["FIMDECLS"; "EOF"]%string) then
        colon <- (if String.eqb (Token.type (current_token st)) "IDENTIFIER"
                  then peek_is_colon free else ret false) ;;
        if colon then
          c <- parse_decl free ;;
          node <- add_child free node c ;;
          parse_decls_loop fuel' free node
        else
          e <- syntax_error free
                 "Esperado declaração de variável no formato 'nome:TIPO' ou 'FIMDECLS' para terminar DECLS"
                 (current_token st) ;;
          raise e
      else ret node
  end.

(** [Parser.parse_decls] *)
Definition parse_decls (fuel frames : nat) : M state Node.t :=
  call frames (fun free =>
    node <- new_node free (Some "Decls"%string) ;;
    parse_decls_loop fuel free node).

(** The body shared by the operator branches of the four expression
    rules, after the operator node [op] is made; it runs in the frame of
    the rule. *)
Definition wrap_operator (free : nat) (op : Node.t) (node : Node.t)
    (operand : M state Node.t) : M state Node.t :=
  advance free ;;
  p <- pop_child node ;;
  let (last, node) := p in
  op <- add_child free op last ;;
  right <- operand ;;
  op <- add_child free op right ;;
  add_child free node op.

(** The expression rules. A loop runs in the frame of its rule. *)
Fixpoint parse_expressao_logica (fuel frames : nat) : M state Node.t :=
  match fuel with
  | 0 => out_of_fuel
  | S fuel' =>
      call frames (fun free =>
        node <- new_node free (Some "ExpressaoLogica"%string) ;;
        c <- parse_expressao_relacional fuel' free ;;
        node <- add_child free node c ;;
        parse_expressao_logica_loop fuel' free node)
  end

with parse_expressao_logica_loop (fuel free : nat) (node : Node.t)
  : M state Node.t :=
  match fuel with
  | 0 => out_of_fuel
  | S fuel' =>
      st <- get ;;
      if str_in (Token.type (current_token st)) ["E"; "OU"]%string then
        op <- new_node free (Some (Token.type (current_token st))) ;;
        node <- wrap_operator free op node
                  (parse_expressao_relacional fuel' free) ;;
        parse_expressao_logica_loop fuel' free node
      else ret node
  end

with parse_expressao_relacional (fuel frames : nat) : M state Node.t :=
  match fuel with
  | 0 => out_of_fuel
  | S fuel' =>
      call frames (fun free =>
        node <- new_node free (Some "ExpressaoRelacional"%string) ;;
        c <- parse_expressao_aritmetica fuel' free ;;
        node <- add_child free node c ;;
        st <- get ;;
        if str_in (Token.type (current_token st))
             ["GT"; "LT"; "GE"; "LE"; "EQ"; "NE"]%string then
          op <- new_node free (Token.value (current_token st)) ;;
          wrap_operator free op node (parse_expressao_aritmetica fuel' free)
        else ret node)
  end

with parse_expressao_aritmetica (fuel frames : nat) : M state Node.t :=
  match fuel with
  | 0 => out_of_fuel
  | S fuel' =>
      call frames (fun free =>
        node <- new_node free (Some "ExpressaoAritmetica"%string) ;;
        c <- parse_termo fuel' free ;;
        node <- add_child free node c ;;
        parse_expressao_aritmetica_loop fuel' free node)
  end

with parse_expressao_aritmetica_loop (fuel free : nat) (node : Node.t)
  : M state Node.t :=
  match fuel with
  | 0 => out_of_fuel
  | S fuel' =>
      st <- get ;;
      if str_in (Token.type (current_token st)) ["PLUS"; "MINUS"]%string then
        op <- new_node free (Token.value (current_token st)) ;;
        node <- wrap_operator free op node (parse_termo fuel' free) ;;
        parse_expressao_aritmetica_loop fuel' free node
      else ret node
  end

with parse_termo (fuel frames : nat) : M state Node.t :=
  match fuel with
  | 0 => out_of_fuel
  | S fuel' =>
      call frames (fun free =>
        node <- new_node free (Some "Termo"%string) ;;
        c <- parse_fator fuel' free ;;
        node <- add_child free node c ;;
        parse_termo_loop fuel' free node)
  end

with parse_termo_loop (fuel free : nat) (node : Node.t) : M state Node.t :=
  match fuel with
  | 0 => out_of_fuel
  | S fuel' =>
      st <- get ;;
      if str_in (Token.type (current_token st)) ["MUL"; "DIV"]%string then
        op <- new_node free (Token.value (current_token st)) ;;
        node <- wrap_operator free op node (parse_fator fuel' free) ;;
        parse_termo_loop fuel' free node
      else ret node
  end

with parse_fator (fuel frames : nat) : M state Node.t :=
  match fuel with
  | 0 => out_of_fuel
  | S fuel' =>
      call frames (fun free =>
        st <- get ;;
        let tok := current_token st in
        if str_in (Token.type tok) ["NUMBER"; "IDENTIFIER"]%string then
          node <- new_node free
                    (Some (Token.type tok ++ "("
                           ++ str_of (Token.value tok) ++ ")")%string) ;;
          advance free ;;
          ret node
        else if String.eqb (Token.type tok) "LPAREN" then
          node <- new_node free (Some "Group"%string) ;;
          c <- eat free "LPAREN" ;;
          node <- add_child free node c ;;
          c <- parse_expressao_logica fuel' free ;;
          node <- add_child free node c ;;
          c <- eat free "RPAREN" ;;
          add_child free node c
        else
          e <- syntax_error free "Fator inesperado na expressão" tok ;;
          raise e)
  end.

(** [Parser.parse_atribuicao] *)
Definition parse_atribuicao (fuel frames : nat) : M state Node.t :=
  call frames (fun free =>
    node <- new_node free (Some "Atribuicao"%string) ;;
    c <- eat free "IDENTIFIER" ;;
    node <- add_child free node c ;;
    c <- eat free "ASSIGN" ;;
    node <- add_child free node c ;;
    c <- parse_expressao_logica fuel free ;;
    add_child free node c).

(** The statement rules. *)
Fixpoint parse_comandos (fuel frames : nat) : M state Node.t :=
  match fuel with
  | 0 => out_of_fuel
  | S fuel' =>
      call frames (fun free =>
        node <- new_node free (Some "Comandos"%string) ;;
        parse_comandos_loop fuel' free node)
  end

with parse_comandos_loop (fuel free : nat) (node : Node.t)
  : M state Node.t :=
  match fuel with
  | 0 => out_of_fuel
  | S fuel' =>
      st <- get ;;
      if negb (str_in (Token.type (current_token st))
                 ["FIMPROG"; "FIMBLOCO"; "FIMDECLS"; "EOF"]%string) then
        c <- parse_comando fuel' free ;;
        node <- add_child free node c ;;
        parse_comandos_loop fuel' free node
      else ret node
  end

with parse_comando (fuel frames : nat) : M state Node.t :=
  match fuel with
  | 0 => out_of_fuel
  | S fuel' =>
      call frames (fun free =>
        node <- new_node free (Some "Comando"%string) ;;
        st <- get ;;
        let ttype := Token.type (current_token st) in
        if String.eqb ttype "LEIA" then
          c <- eat free "LEIA" ;;
          node <- add_child free node c ;;
          c <- eat free "IDENTIFIER" ;;
          add_child free node c
        else if String.eqb ttype "ESCREVA" then
          c <- eat free "ESCREVA" ;;
          node <- add_child free node c ;;
          c <- eat free "LPAREN" ;;
          node <- add_child free node c ;;
          st <- get ;;
          if str_in (Token.type (current_token st))
               ["IDENTIFIER"; "NUMBER"]%string then
            c <- eat free (Token.type (current_token st)) ;;
            node <- add_child free node c ;;
            c <- eat free "RPAREN" ;;
            add_child free node c
          else
            e <- syntax_error free
                   "Esperado identificador ou número dentro de ESCREVA(...)"
                   (current_token st) ;;
            raise e
        else if String.eqb ttype "SE" then
          c <- parse_if fuel' free ;;
          add_child free node c
        else if String.eqb ttype "IDENTIFIER" then
          next_type <- peek_next_type free 1 ;;
          if match next_type with
             | Some t => String.eqb t "ASSIGN"
             | None => false
             end then
            c <- parse_atribuicao fuel' free ;;
            add_child free node c
          else
            e <- syntax_error free
                   ("Esperado '=' (ASSIGN) após identificador no início do comando, encontrado "
                    ++ str_of next_type)
                   (current_token st) ;;
            raise e
        else
          e <- syntax_error free "Comando inválido" (current_token st) ;;
          raise e)
  end

with parse_if (fuel frames : nat) : M state Node.t :=
  match fuel with
  | 0 => out_of_fuel
  | S fuel' =>
      call frames (fun free =>
        node <- new_node free (Some "Condicional"%string) ;;
        c <- eat free "SE" ;;
        node <- add_child free node c ;;
        c <- parse_expressao_logica fuel' free ;;
        node <- add_child free node c ;;
        c <- eat free "ENTAO" ;;
        node <- add_child free node c ;;
        c <- eat free "BLOCO" ;;
        node <- add_child free node c ;;
        c <- parse_comandos fuel' free ;;
        node <- add_child free node c ;;
        c <- eat free "FIMBLOCO" ;;
        add_child free node c)
  end.

(** [Parser.parse_programa], up to the finished [root]. *)
Definition parse_programa (fuel frames : nat) : M state Node.t :=
  call frames (fun free =>
    root <- new_node free (Some "Programa"%string) ;;
    c <- eat free "INICIO" ;;
    root <- add_child free root c ;;
    c <- eat free "DECLS" ;;
    root <- add_child free root c ;;
    c <- parse_decls fuel free ;;
    root <- add_child free root c ;;
    c <- eat free "FIMDECLS" ;;
    root <- add_child free root c ;;
    c <- eat free "CODIGO" ;;
    root <- add_child free root c ;;
    c <- parse_comandos fuel free ;;
    root <- add_child free root c ;;
    c <- eat free "FIMPROG" ;;
    add_child free root c).

(** The [try] block of [main] when [frames] frames are free in it. The
    frames of the scanner are not counted: [Parser.__init__], [tokenize],
    [get_next_token], [number], [error] and [LexicalError.__init__] are
    its deepest chain of calls, so with six frames free or more the
    scanner runs as on the unbounded stack. *)
Definition analyse (fuel frames : nat) (src : list ascii) : outcome :=
  let lexer := Lexer.init src in
  match Parser.init fuel lexer with
  | Ok _ parser =>
      match parse_programa fuel frames parser with
      | Ok root _ => Success root
      | Raise (LexicalError m l c ch) => LexicalFault m l c ch
      | Raise (SyntaxError_ m t) => SyntaxFault m t
      | Raise IndexError => Crash
      | Raise RecursionError => Overflow
      | OutOfFuel => NoAnswer
      end
  | Raise (LexicalError m l c ch) => LexicalFault m l c ch
  | Raise (SyntaxError_ m t) => SyntaxFault m t
  | Raise IndexError => Crash
  | Raise RecursionError => Overflow
  | OutOfFuel => NoAnswer
  end.

End Framed.

(** * Properties *)

(** ** Reasoning about runs *)

(** [wp m Q E s]: the run of [m] from [s] returns a value and a state that
    satisfy [Q], or raises an exception that satisfies [E]; it does not run
    out of fuel. *)
Definition wp {S A} (m : M S A) (Q : A -> S -> Prop) (E : exn -> Prop)
    (s : S) : Prop :=
  match m s with
  | Ok a s' => Q a s'
  | Raise e => E e
  | OutOfFuel => False
  end.

Section WP.
Context {S : Type}.
Implicit Types (s : S) (E : exn -> Prop).

Lemma wp_ret A (a : A) (Q : A -> S -> Prop) E s :
  Q a s -> wp (ret a) Q E s.
Proof. exact (fun H => H). Qed.

Lemma wp_bind A B (m : M S A) (k : A -> M S B) (Q : B -> S -> Prop) E s :
  wp m (fun a s' => wp (k a) Q E s') E s -> wp (bind m k) Q E s.
Proof. unfold wp, bind. destruct (m s); auto. Qed.

Lemma wp_conseq A (m : M S A) (Q Q' : A -> S -> Prop) E E' s :
  wp m Q E s ->
  (forall a s', Q a s' -> Q' a s') ->
  (forall e, E e -> E' e) ->
  wp m Q' E' s.
Proof. unfold wp. destruct (m s); auto. Qed.

Lemma wp_get (Q : S -> S -> Prop) E s : Q s s -> wp get Q E s.
Proof. exact (fun H => H). Qed.

Lemma wp_raise A (e : exn) (Q : A -> S -> Prop) E s :
  E e -> wp (raise e) Q E s.
Proof. exact (fun H => H). Qed.

End WP.

(** The exceptions of the two analysers. *)
Definition is_lexical (e : exn) : Prop :=
  match e with LexicalError _ _ _ _ => True | _ => False end.
Definition is_syntax (e : exn) : Prop :=
  match e with SyntaxError_ _ _ => True | _ => False end.

(** ** More fuel changes nothing *)

(** [refines m m']: wherever [m] gives an answer, [m'] gives the same. *)
Definition refines {S A} (m m' : M S A) : Prop :=
  forall s, m s <> OutOfFuel -> m' s = m s.

Section Refines.
Context {S : Type}.

Lemma refines_refl A (m : M S A) : refines m m.
Proof. intros s _. reflexivity. Qed.

Lemma refines_bind A B (m m' : M S A) (k k' : A -> M S B) :
  refines m m' -> (forall a, refines (k a) (k' a)) ->
  refines (bind m k) (bind m' k').
Proof.
  intros Hm Hk s. unfold bind. intros H.
  rewrite Hm by (destruct (m s); congruence).
  destruct (m s); auto. apply Hk. assumption.
Qed.

Lemma refines_out_of_fuel A (m : M S A) : refines out_of_fuel m.
Proof. intros s H. exfalso. apply H. reflexivity. Qed.
End Refines.

Create HintDb mono.

(** Walks two runs of the same code that differ in their fuel only. *)
Ltac refines_step :=
  match goal with
  | |- refines out_of_fuel _ => apply refines_out_of_fuel
  | |- refines ?m ?m => apply refines_refl
  | |- refines (bind _ _) (bind _ _) => apply refines_bind; [|intros ?]
  | |- refines (match ?x with _ => _ end) (match ?x with _ => _ end) =>
      destruct x
  | |- refines _ _ => solve [eauto with mono]
  end.
Ltac refines_tac := repeat refines_step.

(** ** Lists *)

Lemma nth_error_hd_skipn A (l : list A) n :
  nth_error l n = hd_error (skipn n l).
Proof.
  revert n. induction l as [|a l IH]; intros [|n]; cbn; auto.
Qed.

Lemma skipn_succ_tl A (l : list A) n : skipn (n + 1) l = tl (skipn n l).
Proof.
  revert n. induction l as [|a l IH]; intros [|n]; cbn; auto.
Qed.

Lemma nth_error_add_skipn A (l : list A) n m :
  nth_error l (n + m) = nth_error (skipn n l) m.
Proof.
  revert n. induction l as [|a l IH]; intros [|n]; cbn; auto.
  destruct m; reflexivity.
Qed.

(** ** The scanner's cursor *)

Module LexerFacts.
Import Lexer.

(** The 1-based line and column of the character at index [p] of a text:
    start from line 1, column 1; a newline before [p] opens a new line at
    column 1, any other character moves one column to the right. *)
Definition step_position (lc : nat * nat) (c : ascii) : nat * nat :=
  if Ascii.eqb c LF then (fst lc + 1, 1) else (fst lc, snd lc + 1).

Definition position (txt : list ascii) (p : nat) : nat * nat :=
  fold_left step_position (firstn p txt) (1, 1).

(** What [__init__] establishes and every method keeps: [length] is the
    length of [text], the cursor is inside the text or just past its end,
    [current_char] is the character under it, [line] is the line of the
    cursor and, while a character is under the cursor, [col] is its
    column. *)
Record wf (st : state) : Prop := {
  wf_length : length st = List.length (text st);
  wf_pos : pos st <= length st;
  wf_char : current_char st = nth_error (text st) (pos st);
  wf_line : line st = fst (position (text st) (pos st));
  wf_col : pos st < length st -> col st = snd (position (text st) (pos st))
}.

(** The characters from the cursor on. *)
Definition rest (st : state) : list ascii := skipn (pos st) (text st).

(** The state [advance] leaves. *)
Definition advanced (st : state) : state :=
  let nl := opt_is (current_char st) LF in
  let p := pos st + 1 in
  mk (text st) p (length st) (nth_error (text st) p)
     (if nl then line st + 1 else line st)
     (if length st <=? p
      then (if nl then 0 else col st)
      else (if nl then 0 else col st) + 1).

(** [n] times [advance]. *)
Fixpoint adv (n : nat) (st : state) : state :=
  match n with
  | 0 => st
  | S n' => adv n' (advanced st)
  end.

(** The longest prefix of [l] whose characters satisfy [p]. *)
Fixpoint span (p : ascii -> bool) (l : list ascii) : list ascii :=
  match l with
  | c :: l' => if p c then c :: span p l' else []
  | [] => []
  end.

Lemma position_ge_1 txt p :
  1 <= fst (position txt p) /\ 1 <= snd (position txt p).
Proof.
  unfold position. generalize (firstn p txt). intros l.
  assert (H : forall lc, 1 <= fst lc /\ 1 <= snd lc ->
              1 <= fst (fold_left step_position l lc)
              /\ 1 <= snd (fold_left step_position l lc)).
  { induction l as [|c l IH]; intros lc Hlc; cbn [fold_left]; auto.
    apply IH. unfold step_position.
    destruct (Ascii.eqb c LF); cbn [fst snd]; lia. }
  apply H. cbn. lia.
Qed.

Lemma position_succ txt p c :
  nth_error txt p = Some c ->
  position txt (p + 1) = step_position (position txt p) c.
Proof.
  intros H. unfold position.
  replace (firstn (p + 1) txt) with (firstn p txt ++ [c]).
  - rewrite fold_left_app. reflexivity.
  - revert p H. induction txt as [|a txt IH]; intros [|p] H; cbn in *;
      try congruence.
    f_equal. apply IH. assumption.
Qed.

Lemma wf_init src : wf (init src).
Proof.
  unfold init. split; cbn [text pos length current_char line col]; auto.
  lia.
Qed.

Lemma advance_eq st : wf st -> advance st = Ok tt (advanced st).
Proof.
  intros [Hl _ Hc _ _]. unfold advance, advanced, bind, get, modify, ret.
  destruct (opt_is (current_char st) LF); cbn;
    destruct (length st <=? pos st + 1) eqn:Hle; cbn.
  - rewrite Hl in Hle. apply Nat.leb_le in Hle.
    apply nth_error_None in Hle. rewrite Hle. reflexivity.
  - rewrite Hl in Hle. apply Nat.leb_gt in Hle.
    apply nth_error_Some in Hle. unfold getitem.
    destruct (nth_error (text st) (pos st + 1)); [reflexivity|congruence].
  - rewrite Hl in Hle. apply Nat.leb_le in Hle.
    apply nth_error_None in Hle. rewrite Hle. reflexivity.
  - rewrite Hl in Hle. apply Nat.leb_gt in Hle.
    apply nth_error_Some in Hle. unfold getitem.
    destruct (nth_error (text st) (pos st + 1)); [reflexivity|congruence].
Qed.

(** A character under the cursor means the cursor is inside the text. *)
Lemma char_some_lt st c :
  wf st -> current_char st = Some c -> pos st < length st.
Proof.
  intros [Hl _ Hc _ _] H. rewrite Hc in H. rewrite Hl.
  apply nth_error_Some. congruence.
Qed.

Lemma char_none_eq st :
  wf st -> current_char st = None -> pos st = length st.
Proof.
  intros [Hl Hp Hc _ _] H. rewrite Hc in H.
  apply nth_error_None in H. lia.
Qed.

Lemma wf_advanced st c :
  wf st -> current_char st = Some c -> wf (advanced st).
Proof.
  intros Hwf Hsome. pose proof (char_some_lt Hwf Hsome) as Hlt.
  destruct Hwf as [Hl Hp Hc Hline Hcol]. unfold advanced.
  assert (Hnth : nth_error (text st) (pos st) = Some c) by congruence.
  split; cbn [text pos length current_char line col]; auto.
  - lia.
  - rewrite (position_succ _ _ Hnth). unfold step_position.
    rewrite Hsome. cbn [opt_is]. destruct (Ascii.eqb c LF); cbn [fst]; lia.
  - intros Hlt'. apply Nat.leb_gt in Hlt'. rewrite Hlt'.
    rewrite (position_succ _ _ Hnth). unfold step_position.
    rewrite Hsome. cbn [opt_is].
    destruct (Ascii.eqb c LF); cbn [snd]; auto.
Qed.

Lemma rest_char st : wf st -> current_char st = hd_error (rest st).
Proof.
  intros [_ _ Hc _ _]. rewrite Hc. apply nth_error_hd_skipn.
Qed.

Lemma rest_advanced st : rest (advanced st) = tl (rest st).
Proof. apply skipn_succ_tl. Qed.

Lemma rest_length st : wf st -> List.length (rest st) = length st - pos st.
Proof.
  intros [Hl _ _ _ _]. unfold rest. rewrite length_skipn. lia.
Qed.

Lemma rest_cons st c r :
  wf st -> rest st = c :: r ->
  current_char st = Some c /\ wf (advanced st) /\ rest (advanced st) = r.
Proof.
  intros Hwf Hr. assert (Hc : current_char st = Some c).
  { rewrite (rest_char Hwf), Hr. reflexivity. }
  split; [assumption|]. split.
  - exact (wf_advanced Hwf Hc).
  - rewrite rest_advanced, Hr. reflexivity.
Qed.

Lemma text_advanced st : text (advanced st) = text st.
Proof. reflexivity. Qed.

Lemma pos_advanced st : pos (advanced st) = pos st + 1.
Proof. reflexivity. Qed.

Lemma text_adv n st : text (adv n st) = text st.
Proof. revert st. induction n; intros; cbn; auto. rewrite IHn. reflexivity. Qed.

Lemma pos_adv n st : pos (adv n st) = pos st + n.
Proof.
  revert st. induction n; intros; cbn [adv]; [lia|].
  rewrite IHn. cbn. lia.
Qed.

Lemma rest_adv n st : rest (adv n st) = skipn n (rest st).
Proof.
  revert st. induction n; intros; cbn [adv]; [reflexivity|].
  rewrite IHn, rest_advanced. destruct (rest st); cbn; auto.
  apply skipn_nil.
Qed.

Lemma wf_adv n st :
  wf st -> n <= List.length (rest st) -> wf (adv n st).
Proof.
  revert st. induction n; intros st Hwf Hn; cbn [adv]; auto.
  destruct (rest st) as [|c r] eqn:Hr; cbn in Hn; [lia|].
  destruct (rest_cons Hwf Hr) as (_ & Hwf' & Hr').
  apply IHn; auto. rewrite Hr'. lia.
Qed.

Lemma span_length p l : List.length (span p l) <= List.length l.
Proof.
  induction l as [|c l IH]; cbn; auto. destruct (p c); cbn; lia.
Qed.

Lemma span_nonempty p c r : p c = true -> 1 <= List.length (span p (c :: r)).
Proof. intros H. cbn [span]. rewrite H. cbn. lia. Qed.

Lemma span_app p l r :
  forallb p l = true ->
  match r with c :: _ => p c = false | [] => True end ->
  span p (l ++ r) = l.
Proof.
  intros Hl Hr. induction l as [|c l IH]; cbn [app span forallb] in *.
  - destruct r; cbn [span]; auto. rewrite Hr. reflexivity.
  - apply andb_prop in Hl. destruct Hl as [-> Hl]. f_equal. auto.
Qed.

Lemma peek_eq st n :
  wf st -> peek n st = Ok (nth_error (text st) (pos st + n)) st.
Proof.
  intros [Hl _ _ _ _]. unfold peek, bind, get, ret.
  destruct (length st <=? pos st + n) eqn:Hle.
  - rewrite Hl in Hle. apply Nat.leb_le in Hle.
    apply nth_error_None in Hle. rewrite Hle. reflexivity.
  - rewrite Hl in Hle. apply Nat.leb_gt in Hle.
    apply nth_error_Some in Hle. unfold getitem.
    destruct (nth_error (text st) (pos st + n)); [reflexivity|congruence].
Qed.

Lemma nth_rest st n : nth_error (text st) (pos st + n) = nth_error (rest st) n.
Proof. apply nth_error_add_skipn. Qed.

Lemma peek_is_eq st c :
  wf st -> peek_is c st = Ok (opt_is (nth_error (rest st) 1) c) st.
Proof.
  intros H. unfold peek_is, bind. rewrite peek_eq, nth_rest by assumption.
  reflexivity.
Qed.

Lemma peek_is_digit_eq st :
  wf st ->
  peek_is_digit st = Ok (negb (not_a_digit (nth_error (rest st) 1))) st.
Proof.
  intros H. unfold peek_is_digit, bind.
  rewrite peek_eq, nth_rest by assumption. reflexivity.
Qed.

(** *** The loops that advance while a test holds *)

Section While.
Variable A : Type.
Variable p : ascii -> bool.
Variable g : A -> ascii -> A.
Variable F : nat -> A -> M state A.
Hypothesis F_0 : forall a, F 0 a = out_of_fuel.
Hypothesis F_S : forall fuel a,
  F (S fuel) a =
  (st <- get ;;
   match current_char st with
   | Some c => if p c then advance ;; F fuel (g a c) else ret a
   | None => ret a
   end).

(** With more fuel than characters that pass the test, the loop returns
    having advanced exactly over them. *)
Lemma while_eq fuel a st :
  wf st ->
  List.length (span p (rest st)) < fuel ->
  F fuel a st
  = Ok (fold_left g (span p (rest st)) a)
       (adv (List.length (span p (rest st))) st).
Proof.
  revert a st. induction fuel as [|fuel IH]; intros a st Hwf Hlt; [lia|].
  rewrite F_S. unfold bind at 1. unfold get at 1.
  destruct (rest st) as [|c r] eqn:Hr.
  - rewrite (rest_char Hwf), Hr. reflexivity.
  - destruct (rest_cons Hwf Hr) as (Hc & Hwf' & Hr').
    rewrite Hc. cbn [span] in *. destruct (p c); [|reflexivity].
    cbn [List.length fold_left adv] in *. unfold bind.
    rewrite (advance_eq Hwf). rewrite IH; auto; rewrite Hr'; auto. lia.
Qed.
End While.

Lemma skip_whitespace_eq fuel st :
  wf st ->
  let n := List.length (span (fun c => char_in c whitespace) (rest st)) in
  n < fuel ->
  skip_whitespace fuel st = Ok tt (adv n st).
Proof.
  intros Hwf n Hn.
  rewrite (@while_eq unit (fun c => char_in c whitespace) (fun _ _ => tt)
             (fun f _ => skip_whitespace f)) with (a := tt); auto.
  - f_equal. destruct (fold_left _ _ _). reflexivity.
  - intros f []. reflexivity.
Qed.

Lemma skip_line_comment_eq fuel st :
  wf st ->
  let n := List.length (span (fun c => negb (Ascii.eqb c LF)) (rest st)) in
  n < fuel ->
  skip_line_comment fuel st = Ok tt (adv n st).
Proof.
  intros Hwf n Hn.
  rewrite (@while_eq unit (fun c => negb (Ascii.eqb c LF)) (fun _ _ => tt)
             (fun f _ => skip_line_comment f)) with (a := tt); auto.
  - f_equal. destruct (fold_left _ _ _). reflexivity.
  - intros f []. reflexivity.
Qed.

Lemma number_digits_eq fuel num_str st :
  wf st ->
  let ds := span is_digit (rest st) in
  List.length ds < fuel ->
  number_digits fuel num_str st
  = Ok (fold_left snoc ds num_str) (adv (List.length ds) st).
Proof.
  intros Hwf ds Hn.
  apply (@while_eq string is_digit snoc number_digits); auto.
Qed.

Lemma identifier_chars_eq fuel result st :
  wf st ->
  let cs := span is_ident_char (rest st) in
  List.length cs < fuel ->
  identifier_chars fuel result st
  = Ok (fold_left snoc cs result) (adv (List.length cs) st).
Proof.
  intros Hwf cs Hn.
  apply (@while_eq string is_ident_char snoc identifier_chars); auto.
Qed.

(** *** Single steps *)

Create HintDb wf.
#[local] Hint Resolve wf_adv wf_advanced span_length : wf.

Lemma opt_is_eq x c : opt_is x c = true -> x = Some c.
Proof.
  destruct x as [a|]; cbn; [|discriminate].
  intros H. apply Ascii.eqb_eq in H. congruence.
Qed.

Lemma rest_nonempty st c :
  wf st -> current_char st = Some c -> exists r, rest st = c :: r.
Proof.
  intros Hwf Hc. rewrite (rest_char Hwf) in Hc.
  destruct (rest st) as [|a r]; cbn in Hc; [discriminate|].
  exists r. congruence.
Qed.

Lemma single_eq type value st c :
  wf st -> current_char st = Some c ->
  single type value st
  = Ok (Token.mk type (Some value) (line st) (col st)) (advanced st).
Proof.
  intros Hwf Hc. unfold single, bind, get, ret.
  rewrite (advance_eq Hwf). reflexivity.
Qed.

Lemma one_or_two_eq type2 value2 type1 value1 st c :
  wf st -> current_char st = Some c ->
  one_or_two type2 value2 type1 value1 st
  = if opt_is (nth_error (rest st) 1) "="
    then Ok (Token.mk type2 (Some value2) (line st) (col st)) (adv 2 st)
    else Ok (Token.mk type1 (Some value1) (line st) (col st)) (adv 1 st).
Proof.
  intros Hwf Hc. unfold one_or_two, bind, get, ret.
  rewrite (peek_is_eq _ Hwf).
  destruct (opt_is (nth_error (rest st) 1) "=") eqn:Heq.
  - rewrite (advance_eq Hwf).
    assert (Hwf' : wf (advanced st)) by eauto with wf.
    rewrite (advance_eq Hwf'). reflexivity.
  - rewrite (advance_eq Hwf). reflexivity.
Qed.

(** The first character after the whitespace that starts at the cursor. *)
Definition next_non_whitespace (st : state) : option ascii :=
  nth_error (rest st)
    (List.length (span (fun c => char_in c whitespace) (rest st))).

Lemma peek_next_non_whitespace_loop_eq fuel p st :
  length st = List.length (text st) ->
  let n := List.length (span (fun c => char_in c whitespace)
                          (skipn p (text st))) in
  n < fuel ->
  peek_next_non_whitespace_loop fuel p st = Ok (p + n) st.
Proof.
  intros Hl. revert p. induction fuel as [|fuel IH]; intros p n Hn; [lia|].
  cbn [peek_next_non_whitespace_loop]. unfold bind, get, ret.
  destruct (p <? length st) eqn:Hlt.
  - apply Nat.ltb_lt in Hlt. rewrite Hl in Hlt.
    apply nth_error_Some in Hlt. unfold getitem.
    pose proof (nth_error_hd_skipn (text st) p) as Hhd.
    pose proof (skipn_succ_tl (text st) p) as Htl.
    destruct (nth_error (text st) p) as [c|] eqn:Hc; [|congruence].
    subst n. destruct (skipn p (text st)) as [|c' r]; cbn in Hhd;
      [discriminate|].
    injection Hhd as <-. cbn [span] in *. cbn [ret].
    destruct (char_in c whitespace).
    + cbn [List.length] in *. cbn [tl] in Htl.
      rewrite IH; rewrite Htl; [|lia]. f_equal. lia.
    + cbn. f_equal. lia.
  - apply Nat.ltb_ge in Hlt. rewrite Hl in Hlt. subst n.
    rewrite skipn_all2 by assumption. cbn. f_equal. lia.
Qed.

Lemma peek_next_non_whitespace_eq fuel st :
  wf st ->
  List.length (rest st) < fuel ->
  peek_next_non_whitespace fuel st = Ok (next_non_whitespace st) st.
Proof.
  intros Hwf Hf. pose proof (wf_length Hwf) as Hl.
  unfold peek_next_non_whitespace, bind, get.
  rewrite peek_next_non_whitespace_loop_eq; auto.
  2:{ fold (rest st).
      pose proof (span_length (fun c => char_in c whitespace) (rest st)).
      lia. }
  fold (rest st). unfold next_non_whitespace.
  set (n := List.length (span _ (rest st))).
  rewrite <- nth_rest.
  destruct (pos st + n <? length st) eqn:Hlt.
  - apply Nat.ltb_lt in Hlt. rewrite Hl in Hlt.
    apply nth_error_Some in Hlt. unfold getitem.
    destruct (nth_error (text st) (pos st + n)); [reflexivity|congruence].
  - apply Nat.ltb_ge in Hlt. rewrite Hl in Hlt.
    apply nth_error_None in Hlt. rewrite Hlt. reflexivity.
Qed.

(** *** Block comments *)

(** The index of the first ["*/"] in a list of characters. *)
Fixpoint find_close (l : list ascii) : option nat :=
  match l with
  | c :: l' =>
      if Ascii.eqb c "*" && opt_is (hd_error l') "/" then Some 0
      else option_map S (find_close l')
  | [] => None
  end.

Lemma find_close_bound l k : find_close l = Some k -> k + 2 <= List.length l.
Proof.
  revert k. induction l as [|c l IH]; intros k; cbn [find_close];
    [discriminate|].
  destruct (Ascii.eqb c "*" && opt_is (hd_error l) "/") eqn:Hc.
  - intros [= <-]. apply andb_prop in Hc. destruct Hc as [_ Hc].
    destruct l; cbn in *; [discriminate|lia].
  - destruct (find_close l) as [k'|]; cbn; [|discriminate].
    intros [= <-]. specialize (IH k' eq_refl). cbn. lia.
Qed.

Lemma wf_line_ge_1 st : wf st -> 1 <= line st.
Proof.
  intros Hwf. rewrite (wf_line Hwf). apply position_ge_1.
Qed.

Lemma wf_col_ge_1 st c : wf st -> current_char st = Some c -> 1 <= col st.
Proof.
  intros Hwf Hc. rewrite (wf_col Hwf (char_some_lt Hwf Hc)).
  apply position_ge_1.
Qed.

Lemma or_default_some n d : 1 <= n -> or_default (Some n) d = n.
Proof. destruct n; [lia|reflexivity]. Qed.

Lemma skip_block_comment_loop_eq fuel sl sc st :
  wf st -> List.length (rest st) < fuel -> 1 <= sl -> 1 <= sc ->
  skip_block_comment_loop fuel sl sc st
  = match find_close (rest st) with
    | Some k => Ok tt (adv (k + 2) st)
    | None => Raise (LexicalError "Unterminated block comment" sl sc None)
    end.
Proof.
  intros Hwf Hf Hsl Hsc. revert st Hwf Hf.
  induction fuel as [|fuel IH]; intros st Hwf Hf; [lia|].
  cbn [skip_block_comment_loop]. unfold bind at 1. unfold get at 1.
  destruct (rest st) as [|c r] eqn:Hr.
  - rewrite (rest_char Hwf), Hr. cbn [hd_error find_close].
    unfold error, bind, get, raise.
    rewrite !or_default_some by assumption. reflexivity.
  - destruct (rest_cons Hwf Hr) as (Hc & Hwf' & Hr').
    rewrite Hc. cbn [find_close]. unfold bind at 1.
    assert (Hand : and_then (Ascii.eqb c "*") (peek_is "/") st
                   = Ok (Ascii.eqb c "*" && opt_is (hd_error r) "/") st).
    { unfold and_then. destruct (Ascii.eqb c "*"); [|reflexivity].
      rewrite (peek_is_eq _ Hwf), Hr. destruct r; reflexivity. }
    rewrite Hand.
    destruct (Ascii.eqb c "*" && opt_is (hd_error r) "/") eqn:Hclose.
    + unfold bind, ret. rewrite (advance_eq Hwf).
      apply andb_prop in Hclose. destruct Hclose as [_ Hclose].
      apply opt_is_eq in Hclose.
      assert (Hc' : current_char (advanced st) = Some "/"%char).
      { rewrite (rest_char Hwf'), Hr'. assumption. }
      rewrite (advance_eq Hwf'). reflexivity.
    + unfold bind. rewrite (advance_eq Hwf).
      rewrite IH; auto.
      * rewrite Hr'. destruct (find_close r) as [k|]; cbn [option_map];
          reflexivity.
      * rewrite Hr'. cbn in Hf. lia.
Qed.

Lemma skip_block_comment_eq fuel st r :
  wf st -> rest st = "/"%char :: "*"%char :: r ->
  List.length (rest st) < fuel ->
  skip_block_comment fuel st
  = match find_close r with
    | Some k => Ok tt (adv (k + 4) st)
    | None =>
        Raise (LexicalError "Unterminated block comment"
                 (line st) (col st) None)
    end.
Proof.
  intros Hwf Hr Hf. unfold skip_block_comment, bind, get.
  destruct (rest_cons Hwf Hr) as (Hc & Hwf1 & Hr1).
  destruct (rest_cons Hwf1 Hr1) as (Hc1 & Hwf2 & Hr2).
  rewrite (advance_eq Hwf), (advance_eq Hwf1).
  rewrite skip_block_comment_loop_eq; auto.
  - rewrite Hr2. destruct (find_close r) as [k|]; [|reflexivity].
    replace (k + 4) with (2 + (k + 2)) by lia. reflexivity.
  - rewrite Hr2. rewrite Hr in Hf. cbn in Hf. lia.
  - apply wf_line_ge_1; assumption.
  - eapply wf_col_ge_1; eassumption.
Qed.

(** *** Numeric literals *)

(** The state after the digits that start at the cursor, and the lexeme
    [acc] extended with them: what a digit loop of [number] computes. *)
Definition after_digits (st : state) : state :=
  adv (List.length (span is_digit (rest st))) st.
Definition with_digits (acc : string) (st : state) : string :=
  fold_left snoc (span is_digit (rest st)) acc.

(** [number] with each digit loop replaced by what it computes. *)
Definition number_of (st : state) : result state Token.t :=
  let start_line := line st in
  let start_col := col st in
  if opt_is (current_char st) "." then
    let st1 := advanced st in
    if not_a_digit (current_char st1) then
      Raise (LexicalError
               "Invalid numeric constant: '.' not followed by digits"
               start_line start_col (Some "."%char))
    else
      Ok (Token.mk "NUMBER" (Some (with_digits "." st1))
            start_line start_col)
         (after_digits st1)
  else
    let st1 := after_digits st in
    let num_str := with_digits EmptyString st in
    if opt_is (current_char st1) "." then
      let st2 := advanced st1 in
      if not_a_digit (current_char st2) then
        Raise (LexicalError
                 "Invalid numeric constant: digits required after decimal point"
                 start_line start_col (Some "."%char))
      else
        let st3 := after_digits st2 in
        if opt_is (current_char st3) "." then
          Raise (LexicalError
                   "Invalid numeric constant: multiple decimal points"
                   (line st3) (col st3) (Some "."%char))
        else
          Ok (Token.mk "NUMBER" (Some (with_digits (snoc num_str ".") st2))
                start_line start_col)
             st3
    else
      Ok (Token.mk "NUMBER" (Some num_str) start_line start_col) st1.

Lemma wf_after_digits st : wf st -> wf (after_digits st).
Proof. intros H. unfold after_digits. auto with wf. Qed.

Lemma text_after_digits st : text (after_digits st) = text st.
Proof. apply text_adv. Qed.

Lemma pos_after_digits st :
  pos (after_digits st) = pos st + List.length (span is_digit (rest st)).
Proof. apply pos_adv. Qed.

Lemma rest_after_digits_length st :
  wf st -> List.length (rest (after_digits st)) <= List.length (rest st).
Proof.
  intros Hwf. unfold after_digits. rewrite rest_adv, length_skipn. lia.
Qed.

Lemma rest_advanced_length st :
  List.length (rest (advanced st)) <= List.length (rest st).
Proof.
  rewrite rest_advanced. destruct (rest st); cbn; lia.
Qed.

Lemma number_eq fuel st c :
  wf st -> current_char st = Some c -> List.length (rest st) < fuel ->
  number fuel st = number_of st.
Proof.
  intros Hwf Hc Hf. pose proof (wf_line_ge_1 Hwf) as Hline.
  pose proof (wf_col_ge_1 Hwf Hc) as Hcol.
  assert (Hwf1 : wf (advanced st)) by eauto with wf.
  pose proof (rest_advanced_length st) as Hlen1.
  pose proof (span_length is_digit (rest st)) as Hs0.
  pose proof (span_length is_digit (rest (advanced st))) as Hs1.
  unfold number, number_of. unfold bind at 1. unfold get at 1.
  destruct (opt_is (current_char st) ".") eqn:Hdot.
  - unfold bind at 1. rewrite (advance_eq Hwf).
    unfold bind at 1. unfold get at 1. unfold bind at 1.
    destruct (not_a_digit (current_char (advanced st))).
    + unfold error, bind, get, raise.
      rewrite !or_default_some by assumption. reflexivity.
    + unfold ret at 1. unfold bind.
      rewrite number_digits_eq by (auto; lia). reflexivity.
  - unfold bind at 1. rewrite number_digits_eq by (auto; lia).
    fold (after_digits st). fold (with_digits EmptyString st).
    assert (Hwf2 : wf (after_digits st)) by (apply wf_after_digits; auto).
    pose proof (rest_after_digits_length Hwf) as Hlen2.
    unfold bind at 1. unfold get at 1. unfold bind at 1.
    destruct (opt_is (current_char (after_digits st)) ".") eqn:Hdot2.
    + apply opt_is_eq in Hdot2.
      assert (Hwf3 : wf (advanced (after_digits st))) by eauto with wf.
      pose proof (rest_advanced_length (after_digits st)) as Hlen3.
      pose proof (span_length is_digit (rest (advanced (after_digits st))))
        as Hs3.
      unfold bind at 1. rewrite (advance_eq Hwf2).
      unfold bind at 1. unfold get at 1. unfold bind at 1.
      destruct (not_a_digit (current_char (advanced (after_digits st)))).
      * unfold error, bind, get, raise.
        rewrite !or_default_some by assumption. reflexivity.
      * unfold ret at 1. rewrite number_digits_eq by (auto; lia).
        fold (after_digits (advanced (after_digits st))).
        fold (with_digits (snoc (with_digits EmptyString st) ".")
                (advanced (after_digits st))).
        unfold bind at 1. unfold get at 1. unfold bind at 1.
        destruct (opt_is (current_char
                            (after_digits (advanced (after_digits st)))) ".").
        -- reflexivity.
        -- reflexivity.
    + unfold ret at 1. unfold bind at 1. unfold get at 1. unfold bind at 1.
      rewrite Hdot2. reflexivity.
Qed.

(** *** Identifiers and keywords *)

Lemma identifier_or_keyword_eq fuel st c :
  wf st -> current_char st = Some c ->
  char_in c ascii_letters || Ascii.eqb c "_" = true ->
  List.length (rest st) < fuel ->
  let cs := span is_ident_char (rest st) in
  let result := fold_left snoc cs EmptyString in
  identifier_or_keyword fuel st
  = Ok (Token.mk (dict_get RESERVED (lower result) "IDENTIFIER")
          (Some result) (line st) (col st))
       (adv (List.length cs) st).
Proof.
  intros Hwf Hc Hstart Hf cs result.
  pose proof (span_length is_ident_char (rest st)) as Hs.
  unfold identifier_or_keyword. unfold bind at 1. unfold get at 1.
  rewrite Hc. unfold bind at 1.
  replace (negb (char_in c ascii_letters) && negb (Ascii.eqb c "_"))
    with false.
  2:{ apply orb_prop in Hstart. destruct Hstart as [-> | ->];
        cbn [negb andb]; auto. rewrite andb_false_r. reflexivity. }
  unfold ret at 1. unfold bind.
  rewrite identifier_chars_eq by (auto; lia). reflexivity.
Qed.

Lemma dict_get_in d k default :
  In (dict_get d k default) (default :: map snd d).
Proof.
  induction d as [|[k' v] d IH]; cbn; auto.
  destruct (String.eqb k k'); auto. destruct IH; auto.
Qed.

Lemma reserved_not_eof k :
  String.eqb (dict_get RESERVED k "IDENTIFIER") "EOF" = false.
Proof.
  pose proof (dict_get_in RESERVED k "IDENTIFIER") as H.
  cbn [RESERVED map snd In] in H.
  repeat (destruct H as [<- | H]; [reflexivity|]). contradiction.
Qed.

Lemma ident_start_is_ident_char c :
  char_in c ascii_letters || Ascii.eqb c "_" = true ->
  is_ident_char c = true.
Proof.
  unfold is_ident_char. intros ->. reflexivity.
Qed.

(** *** One token *)

(** What a call of [get_next_token] from [st] that returns [tok] in state
    [st'] guarantees: the cursor did not move back; the end marker comes
    with the cursor at the end of the text, without a lexeme and with the
    line and column counters as they stand there; any other token starts
    at a character the call went over, and carries that character's line
    and column. *)
Definition token_post (st : state) (tok : Token.t) (st' : state) : Prop :=
  wf st' /\ text st' = text st /\
  if String.eqb (Token.type tok) "EOF" then
    pos st <= pos st' /\ pos st' = length st' /\
    Token.value tok = None /\
    Token.line tok = line st' /\ Token.column tok = col st'
  else
    exists p, pos st <= p /\ p < pos st' /\
              (Token.line tok, Token.column tok) = position (text st) p.

Lemma token_post_at st c st' type value :
  wf st -> current_char st = Some c ->
  wf st' -> text st' = text st -> pos st < pos st' ->
  String.eqb type "EOF" = false ->
  token_post st (Token.mk type value (line st) (col st)) st'.
Proof.
  intros Hwf Hc Hwf' Ht Hp Hty. unfold token_post. cbn [Token.type].
  rewrite Hty. split; [assumption|]. split; [assumption|].
  exists (pos st). repeat split; try lia.
  cbn [Token.line Token.column].
  rewrite (wf_line Hwf), (wf_col Hwf (char_some_lt Hwf Hc)).
  symmetry. apply surjective_pairing.
Qed.

Lemma token_post_here st c n type value :
  wf st -> current_char st = Some c ->
  1 <= n -> n <= List.length (rest st) ->
  String.eqb type "EOF" = false ->
  token_post st (Token.mk type value (line st) (col st)) (adv n st).
Proof.
  intros Hwf Hc Hn Hn' Hty.
  apply token_post_at with (c := c); auto with wf.
  - apply text_adv.
  - rewrite pos_adv. lia.
Qed.

(** A literal that [number] accepts is a [NUMBER] token at the start
    position, and the cursor has moved on. *)
Lemma number_of_post st c :
  wf st -> current_char st = Some c -> is_digit c = true \/ c = "."%char ->
  match number_of st with
  | Ok tok st' =>
      wf st' /\ text st' = text st /\ pos st < pos st' /\
      tok = Token.mk "NUMBER" (Token.value tok) (line st) (col st)
  | Raise e => is_lexical e
  | OutOfFuel => False
  end.
Proof.
  intros Hwf Hc Hstart. unfold number_of.
  destruct (opt_is (current_char st) ".") eqn:Hdot.
  - assert (Hwf1 : wf (advanced st)) by eauto with wf.
    destruct (not_a_digit (current_char (advanced st))); [exact I|].
    split; [apply wf_after_digits; assumption|].
    split; [rewrite text_after_digits; reflexivity|].
    split; [|reflexivity].
    rewrite pos_after_digits, pos_advanced. lia.
  - destruct Hstart as [Hdig | ->].
    2:{ rewrite Hc in Hdot. discriminate. }
    assert (Hn1 : 1 <= List.length (span is_digit (rest st))).
    { destruct (rest_nonempty Hwf Hc) as [r ->].
      apply span_nonempty. assumption. }
    assert (Hwf1 : wf (after_digits st)) by (apply wf_after_digits; auto).
    destruct (opt_is (current_char (after_digits st)) ".") eqn:Hdot2.
    + apply opt_is_eq in Hdot2.
      assert (Hwf2 : wf (advanced (after_digits st))) by eauto with wf.
      destruct (not_a_digit (current_char (advanced (after_digits st))));
        [exact I|].
      destruct (opt_is (current_char
                          (after_digits (advanced (after_digits st)))) ".");
        [exact I|].
      split; [apply wf_after_digits; assumption|].
      split; [rewrite text_after_digits, text_advanced, text_after_digits;
              reflexivity|].
      split; [|reflexivity].
      rewrite pos_after_digits, pos_advanced, pos_after_digits. lia.
    + split; [assumption|].
      split; [rewrite text_after_digits; reflexivity|].
      split; [|reflexivity].
      rewrite pos_after_digits. lia.
Qed.

Lemma token_post_skip st n tok st' :
  token_post (adv n st) tok st' -> token_post st tok st'.
Proof.
  unfold token_post. rewrite text_adv, pos_adv.
  intros (Hwf & Ht & H). split; [assumption|]. split; [assumption|].
  destruct (String.eqb (Token.type tok) "EOF").
  - destruct H as (? & ? & ? & ? & ?). repeat split; auto; lia.
  - destruct H as (p & ? & ? & ?). exists p. repeat split; auto; lia.
Qed.

(** From any state of the scanner, with two units of fuel more than
    characters left, [get_next_token] returns a token or raises a lexical
    error. *)
Lemma get_next_token_total fuel st :
  wf st -> List.length (rest st) + 2 <= fuel ->
  wp (get_next_token fuel) (token_post st) is_lexical st.
Proof.
  revert st. induction fuel as [|fuel IH]; intros st Hwf Hf; [lia|].
  unfold wp. cbn [get_next_token]. unfold bind at 1. unfold get at 1.
  destruct (current_char st) as [c|] eqn:Hc.
  2:{ unfold ret, token_post. cbn [Token.type Token.value Token.line
                                   Token.column String.eqb Ascii.eqb
                                   Bool.eqb].
      pose proof (char_none_eq Hwf Hc).
      split; [assumption|]. repeat split; auto. }
  destruct (rest_nonempty Hwf Hc) as [r Hr].
  assert (Hlen : List.length (rest st) = S (List.length r))
    by (rewrite Hr; reflexivity).
  assert (Hrec : forall n, 1 <= n -> n <= List.length (rest st) ->
            match get_next_token fuel (adv n st) with
            | Ok a s' => token_post st a s'
            | Raise e => is_lexical e
            | OutOfFuel => False
            end).
  { intros n Hn Hn'.
    assert (Hwf' : wf (adv n st)) by auto with wf.
    specialize (IH (adv n st) Hwf'). unfold wp in IH.
    rewrite rest_adv, length_skipn in IH.
    destruct (get_next_token fuel (adv n st)); try (apply IH; lia).
    apply token_post_skip with (n := n). apply IH. lia. }
  assert (Hone : forall type value,
            String.eqb type "EOF" = false ->
            match single type value st with
            | Ok a s' => token_post st a s'
            | Raise e => is_lexical e
            | OutOfFuel => False
            end).
  { intros type value Hty. rewrite (single_eq _ _ Hwf Hc).
    apply (@token_post_here st c 1); auto; lia. }
  assert (Htwo : forall type2 value2 type1 value1,
            String.eqb type2 "EOF" = false ->
            String.eqb type1 "EOF" = false ->
            match one_or_two type2 value2 type1 value1 st with
            | Ok a s' => token_post st a s'
            | Raise e => is_lexical e
            | OutOfFuel => False
            end).
  { intros type2 value2 type1 value1 H2 H1.
    rewrite (one_or_two_eq _ _ _ _ Hwf Hc).
    destruct (opt_is (nth_error (rest st) 1) "=") eqn:Heq.
    - apply (@token_post_here st c 2); auto.
      rewrite Hr in *. destruct r; cbn in *; [discriminate|lia].
    - apply (@token_post_here st c 1); auto; lia. }
  destruct (char_in c whitespace) eqn:Hws.
  { unfold bind. rewrite skip_whitespace_eq; auto.
    - apply Hrec; [|apply span_length].
      rewrite Hr. apply span_nonempty. assumption.
    - pose proof (span_length (fun c => char_in c whitespace) (rest st)).
      lia. }
  destruct (Ascii.eqb c "#") eqn:Hhash.
  { unfold bind. rewrite skip_line_comment_eq; auto.
    - apply Hrec; [|apply span_length].
      rewrite Hr. apply span_nonempty.
      apply Ascii.eqb_eq in Hhash. subst c. reflexivity.
    - pose proof (span_length (fun c => negb (Ascii.eqb c LF)) (rest st)).
      lia. }
  unfold bind at 1.
  assert (Hopens : and_then (Ascii.eqb c "/") (peek_is "*") st
                   = Ok (Ascii.eqb c "/" && opt_is (hd_error r) "*") st).
  { unfold and_then. destruct (Ascii.eqb c "/"); [|reflexivity].
    rewrite (peek_is_eq _ Hwf), Hr. destruct r; reflexivity. }
  rewrite Hopens.
  destruct (Ascii.eqb c "/" && opt_is (hd_error r) "*") eqn:Hblock.
  { apply andb_prop in Hblock. destruct Hblock as [Hc1 Hc2].
    apply Ascii.eqb_eq in Hc1. apply opt_is_eq in Hc2. subst c.
    destruct r as [|c2 r]; cbn in Hc2; [discriminate|].
    injection Hc2 as ->.
    unfold bind. rewrite (skip_block_comment_eq Hwf Hr) by lia.
    destruct (find_close r) as [k|] eqn:Hk; [|exact I].
    apply find_close_bound in Hk. apply Hrec; [lia|].
    rewrite Hr. cbn. lia. }
  destruct (Ascii.eqb c "+"); [apply Hone; reflexivity|].
  destruct (Ascii.eqb c "-"); [apply Hone; reflexivity|].
  destruct (Ascii.eqb c "*"); [apply Hone; reflexivity|].
  destruct (Ascii.eqb c "/"); [apply Hone; reflexivity|].
  destruct (Ascii.eqb c "("); [apply Hone; reflexivity|].
  destruct (Ascii.eqb c ")"); [apply Hone; reflexivity|].
  destruct (Ascii.eqb c ">"); [apply Htwo; reflexivity|].
  destruct (Ascii.eqb c "<"); [apply Htwo; reflexivity|].
  destruct (Ascii.eqb c "!").
  { unfold bind at 1. rewrite (peek_is_eq _ Hwf).
    destruct (opt_is (nth_error (rest st) 1) "=") eqn:Heq.
    - unfold bind, ret. rewrite (advance_eq Hwf).
      assert (Hwf' : wf (advanced st)) by eauto with wf.
      rewrite (advance_eq Hwf').
      apply (@token_post_here st c 2); auto.
      rewrite Hr in *. destruct r; cbn in *; [discriminate|lia].
    - unfold error, bind, get, raise. exact I. }
  destruct (Ascii.eqb c "="); [apply Htwo; reflexivity|].
  unfold bind at 1.
  assert (Hnum : or_else (is_digit c)
                   (and_then (Ascii.eqb c ".") peek_is_digit) st
                 = Ok (is_digit c
                       || (Ascii.eqb c "."
                           && negb (not_a_digit (hd_error r)))) st).
  { unfold or_else, and_then. destruct (is_digit c); [reflexivity|].
    destruct (Ascii.eqb c "."); [|reflexivity].
    rewrite (peek_is_digit_eq Hwf), Hr. destruct r; reflexivity. }
  rewrite Hnum.
  destruct (is_digit c || (Ascii.eqb c "." && negb (not_a_digit (hd_error r))))
    eqn:Hstart.
  { unfold bind at 1. rewrite (number_eq Hwf Hc) by lia.
    assert (Hst : is_digit c = true \/ c = "."%char).
    { apply orb_prop in Hstart. destruct Hstart as [H|H]; auto.
      apply andb_prop in H. destruct H as [H _].
      apply Ascii.eqb_eq in H. auto. }
    pose proof (number_of_post Hwf Hc Hst) as Hpost.
    destruct (number_of st) as [tok st'| |]; auto.
    destruct Hpost as (Hwf' & Ht & Hp & Htok).
    unfold bind at 1.
    assert (Hrest : List.length (rest st') <= List.length (rest st)).
    { rewrite !rest_length by assumption.
      rewrite (wf_length Hwf'), (wf_length Hwf), Ht. lia. }
    rewrite peek_next_non_whitespace_eq by (auto; lia).
    destruct (opt_is (next_non_whitespace st') ".").
    - unfold error, bind, get, raise. exact I.
    - unfold ret. rewrite Htok.
      apply token_post_at with (c := c); auto. }
  destruct (char_in c ascii_letters || Ascii.eqb c "_") eqn:Hid.
  { rewrite (identifier_or_keyword_eq Hwf Hc Hid) by lia.
    apply (@token_post_here st c); auto.
    - rewrite Hr. apply span_nonempty.
      apply ident_start_is_ident_char. assumption.
    - apply span_length.
    - apply reserved_not_eof. }
  destruct (Ascii.eqb c ":"); [apply Hone; reflexivity|].
  unfold error, bind, get, raise. exact I.
Qed.

(** *** The whole text *)

(** A token that is not the end marker and carries the line and column of
    a character of the text at or after [from]. *)
Definition placed (txt : list ascii) (from : nat) (tok : Token.t) : Prop :=
  String.eqb (Token.type tok) "EOF" = false /\
  exists p, from <= p /\ p < List.length txt /\
            (Token.line tok, Token.column tok) = position txt p.

(** What [tokenize] returns from [st], after the tokens [acc] it already
    has: tokens placed in the text, then one end marker. *)
Definition tokenize_post (st : state) (acc toks : list Token.t)
    (st' : state) : Prop :=
  wf st' /\ text st' = text st /\ pos st' = length st' /\
  exists new eof,
    toks = acc ++ new ++ [eof] /\
    Forall (placed (text st) (pos st)) new /\
    Token.type eof = "EOF"%string /\ Token.value eof = None /\
    Token.line eof = line st' /\ Token.column eof = col st'.

Lemma placed_weaken txt from from' tok :
  from <= from' -> placed txt from' tok -> placed txt from tok.
Proof.
  intros Hle (Hty & p & H1 & H2 & H3). split; [assumption|].
  exists p. repeat split; auto. lia.
Qed.

Lemma tokenize_loop_total fuel acc st :
  wf st -> List.length (rest st) + 3 <= fuel ->
  wp (tokenize_loop fuel acc) (tokenize_post st acc) is_lexical st.
Proof.
  revert acc st. induction fuel as [|fuel IH]; intros acc st Hwf Hf; [lia|].
  unfold wp. cbn [tokenize_loop]. unfold bind at 1.
  assert (Hf' : List.length (rest st) + 2 <= fuel) by lia.
  pose proof (get_next_token_total Hwf Hf') as Htok. unfold wp in Htok.
  destruct (get_next_token fuel st) as [tok st'| |]; auto.
  destruct Htok as (Hwf' & Ht & Htok).
  destruct (String.eqb (Token.type tok) "EOF") eqn:Hty.
  - destruct Htok as (Hp & Hend & Hv & Hl & Hc).
    unfold ret, tokenize_post. repeat (split; [assumption|]).
    exists [], tok. apply String.eqb_eq in Hty. repeat split; auto.
  - destruct Htok as (p & Hp1 & Hp2 & Hpos).
    pose proof (wf_pos Hwf') as Hle. pose proof (wf_length Hwf') as Hl'.
    pose proof (wf_length Hwf) as Hl.
    assert (Hrest : List.length (rest st') + 3 <= fuel).
    { rewrite rest_length in * by assumption.
      assert (length st' = length st) by congruence. lia. }
    specialize (IH (acc ++ [tok]) st' Hwf' Hrest). unfold wp in IH.
    destruct (tokenize_loop fuel (acc ++ [tok]) st') as [toks st''| |];
      auto.
    destruct IH as (Hwf'' & Ht' & Hend & new & eof & Htoks & Hnew & Heof).
    unfold tokenize_post. split; [assumption|]. split; [congruence|].
    split; [assumption|].
    exists (tok :: new), eof. split.
    { rewrite Htoks, <- app_assoc. reflexivity. }
    split; [|assumption]. constructor.
    + split; [assumption|]. exists p. repeat split; auto.
      rewrite <- Ht, <- Hl'. lia.
    + rewrite Ht in Hnew. revert Hnew. apply Forall_impl.
      intros t. apply placed_weaken. lia.
Qed.

(** *** Which branch a character takes *)

(** A digit takes none of the branches that come before the numeric one
    in [get_next_token], and it is not the decimal point. *)
Lemma digit_branch c :
  is_digit c = true ->
  char_in c whitespace = false /\
  Ascii.eqb c "#" = false /\ Ascii.eqb c "/" = false /\
  Ascii.eqb c "+" = false /\ Ascii.eqb c "-" = false /\
  Ascii.eqb c "*" = false /\ Ascii.eqb c "(" = false /\
  Ascii.eqb c ")" = false /\ Ascii.eqb c ">" = false /\
  Ascii.eqb c "<" = false /\ Ascii.eqb c "!" = false /\
  Ascii.eqb c "=" = false /\ Ascii.eqb c "." = false.
Proof.
  destruct c as [[] [] [] [] [] [] [] []]; vm_compute; intros H;
    try discriminate H; repeat split.
Qed.

Lemma whitespace_not_dot c :
  char_in c whitespace = true ->
  Ascii.eqb c "." = false /\ is_digit c = false.
Proof.
  destruct c as [[] [] [] [] [] [] [] []]; vm_compute; intros H;
    try discriminate H; repeat split.
Qed.

(** *** What [get_next_token] does at a block comment *)

Lemma get_next_token_block_comment fuel st r :
  wf st -> rest st = "/"%char :: "*"%char :: r ->
  List.length (rest st) < fuel ->
  get_next_token (S fuel) st
  = match find_close r with
    | Some k => get_next_token fuel (adv (k + 4) st)
    | None =>
        Raise (LexicalError "Unterminated block comment"
                 (line st) (col st) None)
    end.
Proof.
  intros Hwf Hr Hf. destruct (rest_cons Hwf Hr) as (Hc & _ & _).
  cbn [get_next_token]. unfold bind at 1. unfold get at 1. rewrite Hc.
  change (char_in "/" whitespace) with false.
  change (Ascii.eqb "/" "#") with false. cbv iota.
  unfold bind at 1. unfold and_then.
  change (Ascii.eqb "/" "/") with true. cbv iota.
  rewrite (peek_is_eq _ Hwf), Hr. cbn [nth_error].
  change (opt_is (Some "*"%char) "*") with true. cbv iota.
  unfold bind at 1. rewrite (skip_block_comment_eq Hwf Hr Hf).
  destruct (find_close r); reflexivity.
Qed.

(** [find_close] finds the first ["*/"]: it answers [k] exactly when a
    ["*/"] starts at index [k] and none starts before, and it answers
    [None] exactly when no ["*/"] occurs. *)
Definition closes_at (l : list ascii) (i : nat) : Prop :=
  nth_error l i = Some "*"%char /\ nth_error l (i + 1) = Some "/"%char.

Lemma closes_at_head c l :
  Ascii.eqb c "*" && opt_is (hd_error l) "/" = true <->
  closes_at (c :: l) 0.
Proof.
  unfold closes_at. cbn [nth_error Nat.add]. split.
  - intros H. apply andb_prop in H. destruct H as [H1 H2].
    apply Ascii.eqb_eq in H1. apply opt_is_eq in H2. subst c.
    destruct l; cbn in *; [discriminate|]. auto.
  - intros [[= ->] H2]. destruct l as [|c' l]; cbn in *; [discriminate|].
    injection H2 as ->. reflexivity.
Qed.

Lemma find_close_some l k :
  find_close l = Some k <->
  closes_at l k /\ forall i, i < k -> ~ closes_at l i.
Proof.
  revert k. induction l as [|c l IH]; intros k; cbn [find_close].
  - split; [discriminate|]. intros [[H _] _]. destruct k; discriminate.
  - destruct (Ascii.eqb c "*" && opt_is (hd_error l) "/") eqn:Hc.
    + apply closes_at_head in Hc. split.
      * intros [= <-]. split; [assumption|]. intros i Hi. lia.
      * intros [Hk Hno]. destruct k; [reflexivity|].
        exfalso. apply (Hno 0); [lia|assumption].
    + assert (Hn0 : ~ closes_at (c :: l) 0).
      { intros H. apply closes_at_head in H. congruence. }
      split.
      * destruct (find_close l) as [k'|] eqn:Hk; cbn [option_map];
          [|discriminate].
        intros [= <-]. destruct (proj1 (IH k') eq_refl) as [Hat Hno].
        split; [exact Hat|]. intros [|i] Hi; [assumption|].
        apply (Hno i). lia.
      * intros [Hk Hno]. destruct k as [|k]; [contradiction|].
        assert (Hk' : find_close l = Some k).
        { apply IH. split; [exact Hk|]. intros i Hi.
          apply (Hno (S i)). lia. }
        rewrite Hk'. reflexivity.
Qed.

Lemma find_close_none l :
  find_close l = None <-> forall i, ~ closes_at l i.
Proof.
  split.
  - induction l as [|c l IH]; cbn [find_close].
    + intros _ i [H _]. destruct i; discriminate.
    + destruct (Ascii.eqb c "*" && opt_is (hd_error l) "/") eqn:Hc;
        [discriminate|].
      destruct (find_close l); cbn [option_map]; [discriminate|].
      intros _ [|i] Hi.
      * apply closes_at_head in Hi. congruence.
      * exact (IH eq_refl i Hi).
  - intros Hno. destruct (find_close l) as [k|] eqn:Hk; [|reflexivity].
    apply find_close_some in Hk. destruct Hk as [Hk _].
    exfalso. exact (Hno k Hk).
Qed.

(** *** What [get_next_token] does at a numeric literal or a dot *)

(** The branch for numeric literals, with the loops of [number] and of
    the lookahead replaced by what they compute. *)
Definition number_branch (st : state) : result state Token.t :=
  match number_of st with
  | Ok token st' =>
      if opt_is (next_non_whitespace st') "." then
        Raise (LexicalError
                 "Invalid numeric constant: unexpected '.' after number"
                 (line st) (col st) (Some "."%char))
      else Ok token st'
  | Raise e => Raise e
  | OutOfFuel => OutOfFuel
  end.

Lemma get_next_token_digit fuel st c :
  wf st -> current_char st = Some c -> is_digit c = true ->
  List.length (rest st) < fuel ->
  get_next_token (S fuel) st = number_branch st.
Proof.
  intros Hwf Hc Hdig Hf.
  destruct (digit_branch _ Hdig)
    as (H1 & H2 & H3 & H4 & H5 & H6 & H7 & H8 & H9 & H10 & H11 & H12 & _).
  cbn [get_next_token]. unfold bind at 1. unfold get at 1. rewrite Hc.
  rewrite H1, H2. unfold bind at 1. unfold and_then at 1. rewrite H3.
  unfold ret at 1. cbv iota.
  rewrite H4, H5, H6, H7, H8, H9, H10, H11, H12.
  unfold bind at 1. unfold or_else. rewrite Hdig. unfold ret at 1.
  cbv iota. unfold bind at 1. rewrite (number_eq Hwf Hc Hf).
  unfold number_branch.
  pose proof (number_of_post Hwf Hc (or_introl Hdig)) as Hpost.
  destruct (number_of st) as [tok st'| |]; auto.
  destruct Hpost as (Hwf' & Ht & Hp & Htok).
  assert (Hrest : List.length (rest st') <= List.length (rest st)).
  { rewrite !rest_length by assumption.
    rewrite (wf_length Hwf'), (wf_length Hwf), Ht. lia. }
  unfold bind at 1. rewrite peek_next_non_whitespace_eq by (auto; lia).
  destruct (opt_is (next_non_whitespace st') "."); [|reflexivity].
  unfold error, bind, get, raise. rewrite Htok.
  cbn [Token.line Token.column].
  rewrite !or_default_some; auto.
  - eapply wf_col_ge_1; eassumption.
  - apply wf_line_ge_1; assumption.
Qed.

Lemma get_next_token_dot fuel st r :
  wf st -> rest st = "."%char :: r ->
  List.length (rest st) < fuel ->
  get_next_token (S fuel) st
  = if not_a_digit (hd_error r) then
      Raise (LexicalError "Invalid character" (line st) (col st)
               (Some "."%char))
    else number_branch st.
Proof.
  intros Hwf Hr Hf. destruct (rest_cons Hwf Hr) as (Hc & _ & _).
  cbn [get_next_token]. unfold bind at 1. unfold get at 1. rewrite Hc.
  change (char_in "." whitespace) with false.
  change (Ascii.eqb "." "#") with false. cbv iota.
  unfold bind at 1. unfold and_then at 1.
  change (Ascii.eqb "." "/") with false. unfold ret at 1. cbv iota.
  change (Ascii.eqb "." "+") with false.
  change (Ascii.eqb "." "-") with false.
  change (Ascii.eqb "." "*") with false.
  change (Ascii.eqb "." "(") with false.
  change (Ascii.eqb "." ")") with false.
  change (Ascii.eqb "." ">") with false.
  change (Ascii.eqb "." "<") with false.
  change (Ascii.eqb "." "!") with false.
  change (Ascii.eqb "." "=") with false. cbv iota.
  unfold bind at 1. unfold or_else, and_then.
  change (is_digit ".") with false. change (Ascii.eqb "." ".") with true.
  cbv iota. rewrite (peek_is_digit_eq Hwf), Hr.
  replace (nth_error ("."%char :: r) 1) with (hd_error r)
    by (destruct r; reflexivity).
  destruct (not_a_digit (hd_error r)) eqn:Hnd; cbn [negb].
  - change (char_in "." ascii_letters || Ascii.eqb "." "_") with false.
    change (Ascii.eqb "." ":") with false. cbv iota.
    unfold error, bind, get, raise.
    rewrite !or_default_some; auto.
    + eapply wf_col_ge_1; eassumption.
    + apply wf_line_ge_1; assumption.
  - unfold bind at 1. rewrite (number_eq Hwf Hc Hf).
    unfold number_branch.
    pose proof (@number_of_post st "." Hwf Hc (or_intror eq_refl)) as Hpost.
    destruct (number_of st) as [tok st'| |]; auto.
    destruct Hpost as (Hwf' & Ht & Hp & Htok).
    assert (Hrest : List.length (rest st') <= List.length (rest st)).
    { rewrite !rest_length by assumption.
      rewrite (wf_length Hwf'), (wf_length Hwf), Ht. lia. }
    unfold bind at 1. rewrite peek_next_non_whitespace_eq by (auto; lia).
    destruct (opt_is (next_non_whitespace st') "."); [|reflexivity].
    unfold error, bind, get, raise. rewrite Htok.
    cbn [Token.line Token.column].
    rewrite !or_default_some; auto.
    + eapply wf_col_ge_1; eassumption.
    + apply wf_line_ge_1; assumption.
Qed.

(** A non-empty run of digits. *)
Definition digits (ds : list ascii) : Prop :=
  ds <> [] /\ forallb is_digit ds = true.

(** A run of spaces, tabs and newlines. *)
Definition blanks (ws : list ascii) : Prop :=
  forallb (fun c => char_in c whitespace) ws = true.

Lemma not_a_digit_span x :
  not_a_digit (hd_error x) = true ->
  match x with c :: _ => is_digit c = false | [] => True end.
Proof.
  destruct x as [|c x]; cbn; auto. intros H.
  apply negb_true_iff in H. assumption.
Qed.

Lemma current_char_adv st n :
  wf st -> n <= List.length (rest st) ->
  current_char (adv n st) = hd_error (skipn n (rest st)).
Proof.
  intros Hwf Hn. rewrite (rest_char (wf_adv Hwf Hn)), rest_adv.
  reflexivity.
Qed.

Lemma skipn_app_exact A (l x : list A) : skipn (List.length l) (l ++ x) = x.
Proof. induction l; cbn; auto. Qed.

(** The digit loop on a text that starts with the digits [ds] and goes on
    with something that is not a digit. *)
Lemma after_digits_app st ds x :
  wf st -> rest st = ds ++ x -> forallb is_digit ds = true ->
  not_a_digit (hd_error x) = true ->
  after_digits st = adv (List.length ds) st /\
  (forall acc, with_digits acc st = fold_left snoc ds acc) /\
  wf (after_digits st) /\ rest (after_digits st) = x /\
  current_char (after_digits st) = hd_error x.
Proof.
  intros Hwf Hr Hds Hx. unfold after_digits, with_digits.
  rewrite Hr, (span_app is_digit ds x Hds (not_a_digit_span x Hx)).
  assert (Hn : List.length ds <= List.length (rest st)).
  { rewrite Hr, length_app. lia. }
  split; [reflexivity|]. split; [reflexivity|].
  split; [apply wf_adv; assumption|].
  split.
  - rewrite rest_adv, Hr. apply skipn_app_exact.
  - rewrite current_char_adv, Hr, skipn_app_exact by assumption.
    reflexivity.
Qed.

Lemma digits_head ds x :
  digits ds ->
  exists d t, ds = d :: t /\ is_digit d = true /\
              not_a_digit (hd_error (ds ++ x)) = false.
Proof.
  intros [Hne Hall]. destruct ds as [|d t]; [contradiction|].
  cbn in Hall. apply andb_prop in Hall. destruct Hall as [Hd _].
  exists d, t. cbn. rewrite Hd. auto.
Qed.

Lemma next_non_whitespace_dot st ws r :
  rest st = ws ++ "."%char :: r -> blanks ws ->
  next_non_whitespace st = Some "."%char.
Proof.
  intros Hr Hws. unfold next_non_whitespace.
  rewrite Hr, (span_app (fun c => char_in c whitespace) ws _ Hws)
    by reflexivity.
  rewrite nth_error_app2, Nat.sub_diag by lia. reflexivity.
Qed.

Lemma blanks_head_not_dot ws x :
  blanks ws -> ws <> [] ->
  opt_is (hd_error (ws ++ x)) "." = false /\
  not_a_digit (hd_error (ws ++ x)) = true.
Proof.
  intros Hws Hne. destruct ws as [|c ws]; [contradiction|].
  unfold blanks in Hws. cbn in Hws. apply andb_prop in Hws.
  destruct Hws as [Hc _].
  destruct (whitespace_not_dot _ Hc) as [H1 H2].
  cbn [app hd_error opt_is not_a_digit]. rewrite H1, H2. auto.
Qed.

(** A raised lexical error whose offending character is the dot. *)
Definition dot_fault (r : result state Token.t) : Prop :=
  exists message l c, r = Raise (LexicalError message l c (Some "."%char)).

(** Digits, a dot, and then no digit. *)
Lemma number_branch_trailing_dot st ds r :
  wf st -> rest st = ds ++ "."%char :: r -> digits ds ->
  not_a_digit (hd_error r) = true ->
  number_branch st
  = Raise (LexicalError
             "Invalid numeric constant: digits required after decimal point"
             (line st) (col st) (Some "."%char)).
Proof.
  intros Hwf Hr Hds Hnd.
  destruct (digits_head ("."%char :: r) Hds) as (d & t & -> & Hd & _).
  destruct (rest_cons Hwf Hr) as (Hc & _ & _).
  destruct (@after_digits_app st (d :: t) ("."%char :: r) Hwf Hr
              (proj2 Hds) eq_refl) as (_ & _ & Hwf1 & Hr1 & Hc1).
  destruct (rest_cons Hwf1 Hr1) as (_ & Hwf2 & Hr2).
  unfold number_branch, number_of. rewrite Hc. cbn [opt_is].
  replace (Ascii.eqb d ".") with false
    by (symmetry; apply (digit_branch _ Hd)).
  rewrite Hc1. cbn [hd_error opt_is].
  change (Ascii.eqb "." ".") with true. cbv iota.
  rewrite (rest_char Hwf2), Hr2, Hnd. reflexivity.
Qed.

(** Digits, then blanks, then a dot. *)
Lemma number_branch_int_blank_dot st ds ws r :
  wf st -> rest st = ds ++ ws ++ "."%char :: r -> digits ds ->
  blanks ws -> ws <> [] ->
  dot_fault (number_branch st).
Proof.
  intros Hwf Hr Hds Hws Hne.
  destruct (digits_head (ws ++ "."%char :: r) Hds) as (d & t & -> & Hd & _).
  destruct (rest_cons Hwf Hr) as (Hc & _ & _).
  destruct (blanks_head_not_dot ("."%char :: r) Hws Hne) as [Hnot Hnd].
  destruct (@after_digits_app st (d :: t) _ Hwf Hr (proj2 Hds) Hnd)
    as (_ & _ & Hwf1 & Hr1 & Hc1).
  unfold number_branch, number_of. rewrite Hc. cbn [opt_is].
  replace (Ascii.eqb d ".") with false
    by (symmetry; apply (digit_branch _ Hd)).
  rewrite Hc1, Hnot.
  rewrite (@next_non_whitespace_dot _ ws r Hr1 Hws).
  change (opt_is (Some "."%char) ".") with true. cbv iota.
  do 3 eexists. reflexivity.
Qed.

(** The text [ds2 ws . r] from [st2] on, after the dot of a literal. *)
Lemma fraction_then_dot st2 ds2 ws r :
  wf st2 -> rest st2 = ds2 ++ ws ++ "."%char :: r -> digits ds2 ->
  blanks ws ->
  let st3 := after_digits st2 in
  wf st3 /\ rest st3 = ws ++ "."%char :: r /\
  not_a_digit (current_char st2) = false /\
  (ws = [] -> opt_is (current_char st3) "." = true) /\
  (ws <> [] -> opt_is (current_char st3) "." = false) /\
  next_non_whitespace st3 = Some "."%char.
Proof.
  intros Hwf2 Hr2 Hds Hws st3.
  destruct (digits_head (ws ++ "."%char :: r) Hds) as (d & t & Hdt & Hd & Hh).
  assert (Hnd : not_a_digit (hd_error (ws ++ "."%char :: r)) = true).
  { destruct ws as [|w ws]; [reflexivity|].
    apply blanks_head_not_dot; [assumption|discriminate]. }
  destruct (@after_digits_app st2 ds2 _ Hwf2 Hr2 (proj2 Hds) Hnd)
    as (_ & _ & Hwf3 & Hr3 & Hc3).
  split; [assumption|]. split; [assumption|]. split.
  { rewrite (rest_char Hwf2), Hr2. assumption. }
  split; [|split].
  - intros ->. unfold st3. rewrite Hc3. reflexivity.
  - intros Hne. unfold st3. rewrite Hc3.
    apply blanks_head_not_dot; assumption.
  - apply next_non_whitespace_dot with (ws := ws) (r := r); assumption.
Qed.

(** Digits, a dot, digits, then a second dot at once or after blanks. *)
Lemma number_branch_frac_dot st ds1 ds2 ws r :
  wf st ->
  rest st = ds1 ++ "."%char :: ds2 ++ ws ++ "."%char :: r ->
  digits ds1 -> digits ds2 -> blanks ws ->
  dot_fault (number_branch st).
Proof.
  intros Hwf Hr Hds1 Hds2 Hws.
  destruct (digits_head ("."%char :: ds2 ++ ws ++ "."%char :: r) Hds1)
    as (d & t & -> & Hd & _).
  destruct (rest_cons Hwf Hr) as (Hc & _ & _).
  destruct (@after_digits_app st (d :: t) _ Hwf Hr (proj2 Hds1) eq_refl)
    as (_ & _ & Hwf1 & Hr1 & Hc1).
  destruct (rest_cons Hwf1 Hr1) as (_ & Hwf2 & Hr2).
  destruct (@fraction_then_dot _ ds2 ws r Hwf2 Hr2 Hds2 Hws)
    as (Hwf3 & Hr3 & Hnd & Hnow & Hlater & Hnext).
  unfold number_branch, number_of. rewrite Hc. cbn [opt_is].
  replace (Ascii.eqb d ".") with false
    by (symmetry; apply (digit_branch _ Hd)).
  rewrite Hc1. cbn [hd_error opt_is].
  change (Ascii.eqb "." ".") with true. cbv iota. rewrite Hnd.
  destruct ws as [|w ws].
  - rewrite (Hnow eq_refl). do 3 eexists. reflexivity.
  - rewrite Hlater by discriminate. rewrite Hnext.
    change (opt_is (Some "."%char) ".") with true. cbv iota.
    do 3 eexists. reflexivity.
Qed.

(** A dot, digits, then a second dot at once or after blanks. *)
Lemma number_branch_lead_dot st ds2 ws r :
  wf st -> rest st = "."%char :: ds2 ++ ws ++ "."%char :: r ->
  digits ds2 -> blanks ws ->
  dot_fault (number_branch st).
Proof.
  intros Hwf Hr Hds2 Hws.
  destruct (rest_cons Hwf Hr) as (Hc & Hwf2 & Hr2).
  destruct (@fraction_then_dot _ ds2 ws r Hwf2 Hr2 Hds2 Hws)
    as (Hwf3 & Hr3 & Hnd & _ & _ & Hnext).
  unfold number_branch, number_of. rewrite Hc. cbn [opt_is].
  change (Ascii.eqb "." ".") with true. cbv iota. rewrite Hnd, Hnext.
  change (opt_is (Some "."%char) ".") with true. cbv iota.
  do 3 eexists. reflexivity.
Qed.

(** *** Fuel *)

Ltac mono_loop f :=
  induction f as [|f IH]; intros f' Hle;
  [ apply refines_out_of_fuel
  | destruct f' as [|f']; [lia|];
    assert (Hle' : f <= f') by lia;
    specialize (IH f' Hle'); cbn -[whitespace]; refines_tac ].

Lemma skip_whitespace_mono f f' :
  f <= f' -> refines (skip_whitespace f) (skip_whitespace f').
Proof. revert f'. mono_loop f. Qed.

Lemma skip_line_comment_mono f f' :
  f <= f' -> refines (skip_line_comment f) (skip_line_comment f').
Proof. revert f'. mono_loop f. Qed.

Lemma peek_next_non_whitespace_loop_mono f f' p :
  f <= f' ->
  refines (peek_next_non_whitespace_loop f p)
          (peek_next_non_whitespace_loop f' p).
Proof.
  revert f' p. induction f as [|f IH]; intros f' p Hle;
    [apply refines_out_of_fuel|].
  destruct f' as [|f']; [lia|]. assert (Hle' : f <= f') by lia.
  cbn -[whitespace]. refines_tac.
Qed.

Lemma skip_block_comment_loop_mono f f' l c :
  f <= f' ->
  refines (skip_block_comment_loop f l c) (skip_block_comment_loop f' l c).
Proof. revert f'. mono_loop f. Qed.

Lemma number_digits_mono f f' a :
  f <= f' -> refines (number_digits f a) (number_digits f' a).
Proof.
  revert f' a. induction f as [|f IH]; intros f' a Hle;
    [apply refines_out_of_fuel|].
  destruct f' as [|f']; [lia|]. assert (Hle' : f <= f') by lia.
  cbn. refines_tac.
Qed.

Lemma identifier_chars_mono f f' a :
  f <= f' -> refines (identifier_chars f a) (identifier_chars f' a).
Proof.
  revert f' a. induction f as [|f IH]; intros f' a Hle;
    [apply refines_out_of_fuel|].
  destruct f' as [|f']; [lia|]. assert (Hle' : f <= f') by lia.
  cbn. refines_tac.
Qed.

#[local] Hint Resolve skip_whitespace_mono skip_line_comment_mono
  peek_next_non_whitespace_loop_mono skip_block_comment_loop_mono
  number_digits_mono identifier_chars_mono : mono.

Lemma peek_next_non_whitespace_mono f f' :
  f <= f' ->
  refines (peek_next_non_whitespace f) (peek_next_non_whitespace f').
Proof. intros Hle. unfold peek_next_non_whitespace. refines_tac. Qed.

Lemma skip_block_comment_mono f f' :
  f <= f' -> refines (skip_block_comment f) (skip_block_comment f').
Proof. intros Hle. unfold skip_block_comment. refines_tac. Qed.

Lemma number_mono f f' : f <= f' -> refines (number f) (number f').
Proof. intros Hle. unfold number. refines_tac. Qed.

Lemma identifier_or_keyword_mono f f' :
  f <= f' -> refines (identifier_or_keyword f) (identifier_or_keyword f').
Proof. intros Hle. unfold identifier_or_keyword. refines_tac. Qed.

#[local] Hint Resolve peek_next_non_whitespace_mono skip_block_comment_mono
  number_mono identifier_or_keyword_mono : mono.

Lemma get_next_token_mono f f' :
  f <= f' -> refines (get_next_token f) (get_next_token f').
Proof.
  revert f'. induction f as [|f IH]; intros f' Hle;
    [apply refines_out_of_fuel|].
  destruct f' as [|f']; [lia|]. assert (Hle' : f <= f') by lia.
  specialize (IH f' Hle').
  cbn -[whitespace ascii_letters]. refines_tac.
Qed.

#[local] Hint Resolve get_next_token_mono : mono.

Lemma tokenize_loop_mono f f' acc :
  f <= f' -> refines (tokenize_loop f acc) (tokenize_loop f' acc).
Proof.
  revert f' acc. induction f as [|f IH]; intros f' acc Hle;
    [apply refines_out_of_fuel|].
  destruct f' as [|f']; [lia|]. assert (Hle' : f <= f') by lia.
  cbn. refines_tac.
Qed.

(** *** Where the scanner looks for a token *)

(** [scans_to src acc st]: while [src] is tokenized, an iteration of the
    loop of [get_next_token] starts in state [st] when the tokens [acc]
    have been returned so far. The scan starts in the initial state; it
    comes to a new state by returning a token that is not the end marker,
    or by skipping whitespace, a line comment or a block comment inside
    [get_next_token]. *)
Inductive scans_to (src : list ascii) : list Token.t -> state -> Prop :=
| scans_init : scans_to src [] (init src)
| scans_token acc st fuel tok st' :
    scans_to src acc st ->
    get_next_token fuel st = Ok tok st' ->
    String.eqb (Token.type tok) "EOF" = false ->
    scans_to src (acc ++ [tok]) st'
| scans_whitespace acc st c fuel st' :
    scans_to src acc st ->
    current_char st = Some c -> char_in c whitespace = true ->
    skip_whitespace fuel st = Ok tt st' ->
    scans_to src acc st'
| scans_line_comment acc st fuel st' :
    scans_to src acc st ->
    current_char st = Some "#"%char ->
    skip_line_comment fuel st = Ok tt st' ->
    scans_to src acc st'
| scans_block_comment acc st fuel st' :
    scans_to src acc st ->
    current_char st = Some "/"%char ->
    nth_error (text st) (pos st + 1) = Some "*"%char ->
    skip_block_comment fuel st = Ok tt st' ->
    scans_to src acc st'.

Lemma refines_ok S A (m m' : M S A) s a s' :
  refines m m' -> m s = Ok a s' -> m' s = Ok a s'.
Proof. intros H Hm. rewrite H; [assumption|]. rewrite Hm. discriminate. Qed.

Lemma refines_raise S A (m m' : M S A) s e :
  refines m m' -> m s = Raise e -> m' s = Raise e.
Proof. intros H Hm. rewrite H; [assumption|]. rewrite Hm. discriminate. Qed.

Lemma scans_to_wf src acc st :
  scans_to src acc st -> wf st /\ text st = text (init src).
Proof.
  induction 1 as [| acc st fuel tok st' _ [Hwf Ht] Hrun Hty
                  | acc st c fuel st' _ [Hwf Ht] Hc Hws Hrun
                  | acc st fuel st' _ [Hwf Ht] Hc Hrun
                  | acc st fuel st' _ [Hwf Ht] Hc Hnext Hrun].
  - split; [apply wf_init|reflexivity].
  - set (big := Nat.max fuel (List.length (rest st) + 2)).
    assert (Hbig : get_next_token big st = Ok tok st').
    { eapply refines_ok; [|exact Hrun].
      apply get_next_token_mono. apply Nat.le_max_l. }
    pose proof (@get_next_token_total big st Hwf (Nat.le_max_r _ _)) as Hpost.
    unfold wp in Hpost. rewrite Hbig in Hpost.
    destruct Hpost as (Hwf' & Ht' & _). split; [assumption|congruence].
  - set (big := Nat.max fuel (List.length (rest st) + 1)).
    assert (Hbig : skip_whitespace big st = Ok tt st').
    { eapply refines_ok; [|exact Hrun].
      apply skip_whitespace_mono. apply Nat.le_max_l. }
    rewrite skip_whitespace_eq in Hbig; auto.
    2:{ pose proof (span_length (fun c => char_in c whitespace) (rest st)).
        pose proof (Nat.le_max_r fuel (List.length (rest st) + 1)).
        fold big in H0. lia. }
    injection Hbig as <-. split; [auto with wf|].
    rewrite text_adv. assumption.
  - set (big := Nat.max fuel (List.length (rest st) + 1)).
    assert (Hbig : skip_line_comment big st = Ok tt st').
    { eapply refines_ok; [|exact Hrun].
      apply skip_line_comment_mono. apply Nat.le_max_l. }
    rewrite skip_line_comment_eq in Hbig; auto.
    2:{ pose proof (span_length (fun c => negb (Ascii.eqb c LF)) (rest st)).
        pose proof (Nat.le_max_r fuel (List.length (rest st) + 1)).
        fold big in H0. lia. }
    injection Hbig as <-. split; [auto with wf|].
    rewrite text_adv. assumption.
  - set (big := Nat.max fuel (List.length (rest st) + 1)).
    assert (Hbig : skip_block_comment big st = Ok tt st').
    { eapply refines_ok; [|exact Hrun].
      apply skip_block_comment_mono. apply Nat.le_max_l. }
    destruct (rest_nonempty Hwf Hc) as [r Hr].
    assert (Hr' : exists r', r = "*"%char :: r').
    { rewrite nth_rest in Hnext.
      rewrite Hr in Hnext. destruct r as [|c r]; cbn in Hnext;
        [discriminate|]. injection Hnext as ->. eauto. }
    destruct Hr' as [r' ->].
    rewrite (skip_block_comment_eq Hwf Hr) in Hbig.
    2:{ pose proof (Nat.le_max_r fuel (List.length (rest st) + 1)).
        fold big in H. lia. }
    destruct (find_close r') as [k|] eqn:Hk; [|discriminate].
    injection Hbig as <-. apply find_close_bound in Hk.
    split; [|rewrite text_adv; assumption].
    apply wf_adv; auto. rewrite Hr. cbn. lia.
Qed.

(** One round of the loop of [tokenize]: [f] is the fuel of the call of
    [get_next_token], [g] the fuel of the rounds that follow. *)
Definition tokenize_round (f g : nat) (tokens : list Token.t)
  : M state (list Token.t) :=
  tok <- get_next_token f ;;
  let tokens := tokens ++ [tok] in
  if String.eqb (Token.type tok) "EOF" then ret tokens
  else tokenize_loop g tokens.

Lemma tokenize_round_mono f g f' g' acc :
  f <= f' -> g <= g' ->
  refines (tokenize_round f g acc) (tokenize_round f' g' acc).
Proof.
  intros Hf Hg. unfold tokenize_round.
  pose proof (get_next_token_mono Hf).
  pose proof (fun a => @tokenize_loop_mono g g' a Hg).
  refines_tac.
Qed.

Lemma resume_skip acc st st' r from :
  (forall f, from <= f -> get_next_token (S f) st = get_next_token f st') ->
  r <> OutOfFuel ->
  (exists f, tokenize_loop f acc st' = r) ->
  exists f, tokenize_loop f acc st = r.
Proof.
  intros Hskip Hr [f1 Hf1].
  destruct f1 as [|f1]; [exfalso; apply Hr; rewrite <- Hf1; reflexivity|].
  change (tokenize_round f1 f1 acc st' = r) in Hf1.
  set (big := Nat.max from f1).
  exists (S (S big)). change (tokenize_round (S big) (S big) acc st = r).
  assert (Hstep : tokenize_round (S big) (S big) acc st
                  = tokenize_round big (S big) acc st').
  { unfold tokenize_round, bind. rewrite Hskip by apply Nat.le_max_l.
    reflexivity. }
  rewrite Hstep, <- Hf1.
  apply tokenize_round_mono.
  - apply Nat.le_max_r.
  - pose proof (Nat.le_max_r from f1). fold big in H. lia.
  - congruence.
Qed.

(** What the scan gives from a state it comes to is what it gives for
    the whole text. *)
Lemma scans_to_resume src r :
  r <> OutOfFuel ->
  forall acc st,
    scans_to src acc st ->
    (exists f, tokenize_loop f acc st = r) ->
    exists f, tokenize f (init src) = r.
Proof.
  intros Hr acc st Hscan.
  induction Hscan as [| acc st fuel tok st' Hscan IH Hrun Hty
                      | acc st c fuel st' Hscan IH Hc Hws Hrun
                      | acc st fuel st' Hscan IH Hc Hrun
                      | acc st fuel st' Hscan IH Hc Hnext Hrun];
    intros Hres.
  - exact Hres.
  - apply IH. destruct Hres as [f1 Hf1].
    exists (S (Nat.max fuel f1)).
    cbn [tokenize_loop]. unfold bind.
    rewrite (@refines_ok _ _ _ _ _ _ _
               (get_next_token_mono (Nat.le_max_l fuel f1)) Hrun).
    rewrite Hty, <- Hf1. apply tokenize_loop_mono.
    + apply Nat.le_max_r.
    + congruence.
  - apply IH. apply resume_skip with (st' := st') (from := fuel); auto.
    intros f Hf. cbn [get_next_token]. unfold bind at 1. unfold get at 1.
    rewrite Hc, Hws. unfold bind.
    rewrite (@refines_ok _ _ _ _ _ _ _ (skip_whitespace_mono Hf) Hrun). reflexivity.
  - apply IH. apply resume_skip with (st' := st') (from := fuel); auto.
    intros f Hf. cbn [get_next_token]. unfold bind at 1. unfold get at 1.
    rewrite Hc. change (char_in "#" whitespace) with false.
    change (Ascii.eqb "#" "#") with true. cbv iota. unfold bind.
    rewrite (@refines_ok _ _ _ _ _ _ _ (skip_line_comment_mono Hf) Hrun). reflexivity.
  - apply IH. apply resume_skip with (st' := st') (from := fuel); auto.
    destruct (scans_to_wf Hscan) as [Hwf _].
    intros f Hf. cbn [get_next_token]. unfold bind at 1. unfold get at 1.
    rewrite Hc. change (char_in "/" whitespace) with false.
    change (Ascii.eqb "/" "#") with false. cbv iota.
    unfold bind at 1. unfold and_then.
    change (Ascii.eqb "/" "/") with true. cbv iota.
    unfold peek_is, bind at 1. rewrite (peek_eq _ Hwf), Hnext.
    unfold ret at 1. change (opt_is (Some "*"%char) "*") with true.
    cbv iota. unfold bind.
    rewrite (@refines_ok _ _ _ _ _ _ _ (skip_block_comment_mono Hf) Hrun). reflexivity.
Qed.

(** A lexical error raised where the scan has come to is the outcome of
    [tokenize], whatever fuel at least the length of the text plus three
    it is given. *)
Lemma scans_to_fault src acc st f e fuel :
  scans_to src acc st ->
  get_next_token f st = Raise e ->
  length (init src) + 3 <= fuel ->
  tokenize fuel (init src) = Raise e.
Proof.
  intros Hscan Hrun Hfuel.
  assert (Hres : exists g, tokenize g (init src) = Raise e).
  { apply scans_to_resume with (acc := acc) (st := st); auto.
    - discriminate.
    - exists (S f). cbn [tokenize_loop]. unfold bind. rewrite Hrun.
      reflexivity. }
  destruct Hres as [g Hg].
  pose proof (wf_init src) as Hwf.
  assert (Hf : List.length (rest (init src)) + 3 <= fuel).
  { rewrite rest_length by assumption. lia. }
  pose proof (tokenize_loop_total [] Hwf Hf) as Htot. unfold wp in Htot.
  fold (tokenize fuel) in Htot.
  set (big := Nat.max g fuel).
  assert (H1 : tokenize big (init src) = Raise e).
  { eapply refines_raise; [|exact Hg].
    apply tokenize_loop_mono. apply Nat.le_max_l. }
  rewrite <- H1. symmetry. apply tokenize_loop_mono.
  - apply Nat.le_max_r.
  - fold (tokenize fuel). destruct (tokenize fuel (init src)); try discriminate.
    contradiction.
Qed.

End LexerFacts.

(** ** The parser's cursor *)

Module ParserFacts.
Import Parser.

(** *** Fuel *)

Lemma parse_decls_loop_mono f f' node :
  f <= f' -> refines (parse_decls_loop f node) (parse_decls_loop f' node).
Proof.
  revert f' node. induction f as [|f IH]; intros f' node Hle;
    [apply refines_out_of_fuel|].
  destruct f' as [|f']; [lia|]. assert (Hle' : f <= f') by lia.
  cbn [parse_decls_loop]. refines_tac.
Qed.

Lemma parse_decls_mono f f' :
  f <= f' -> refines (parse_decls f) (parse_decls f').
Proof. intros Hle. apply parse_decls_loop_mono. assumption. Qed.

Lemma wrap_operator_mono op node (m m' : M state Node.t) :
  refines m m' ->
  refines (wrap_operator op node m) (wrap_operator op node m').
Proof. intros H. unfold wrap_operator. refines_tac. Qed.

#[local] Hint Resolve wrap_operator_mono : mono.

Lemma expressions_mono f :
  forall f', f <= f' ->
  refines (parse_expressao_logica f) (parse_expressao_logica f') /\
  (forall node, refines (parse_expressao_logica_loop f node)
                        (parse_expressao_logica_loop f' node)) /\
  refines (parse_expressao_relacional f) (parse_expressao_relacional f') /\
  refines (parse_expressao_aritmetica f) (parse_expressao_aritmetica f') /\
  (forall node, refines (parse_expressao_aritmetica_loop f node)
                        (parse_expressao_aritmetica_loop f' node)) /\
  refines (parse_termo f) (parse_termo f') /\
  (forall node, refines (parse_termo_loop f node)
                        (parse_termo_loop f' node)) /\
  refines (parse_fator f) (parse_fator f').
Proof.
  induction f as [|f IH]; intros f' Hle.
  { repeat split; intros; apply refines_out_of_fuel. }
  destruct f' as [|f']; [lia|]. assert (Hle' : f <= f') by lia.
  destruct (IH f' Hle') as (H1 & H2 & H3 & H4 & H5 & H6 & H7 & H8).
  repeat split; intros;
    cbn [parse_expressao_logica parse_expressao_logica_loop
         parse_expressao_relacional parse_expressao_aritmetica
         parse_expressao_aritmetica_loop parse_termo parse_termo_loop
         parse_fator];
    refines_tac.
Qed.

Lemma parse_expressao_logica_mono f f' :
  f <= f' -> refines (parse_expressao_logica f) (parse_expressao_logica f').
Proof. intros H. apply (expressions_mono H). Qed.

#[local] Hint Resolve parse_expressao_logica_mono : mono.

Lemma parse_atribuicao_mono f f' :
  f <= f' -> refines (parse_atribuicao f) (parse_atribuicao f').
Proof. intros Hle. unfold parse_atribuicao. refines_tac. Qed.

#[local] Hint Resolve parse_atribuicao_mono : mono.

Lemma commands_mono f :
  forall f', f <= f' ->
  refines (parse_comandos f) (parse_comandos f') /\
  (forall node, refines (parse_comandos_loop f node)
                        (parse_comandos_loop f' node)) /\
  refines (parse_comando f) (parse_comando f') /\
  refines (parse_if f) (parse_if f').
Proof.
  induction f as [|f IH]; intros f' Hle.
  { repeat split; intros; apply refines_out_of_fuel. }
  destruct f' as [|f']; [lia|]. assert (Hle' : f <= f') by lia.
  destruct (IH f' Hle') as (H1 & H2 & H3 & H4).
  repeat split; intros;
    cbn [parse_comandos parse_comandos_loop parse_comando parse_if];
    refines_tac.
Qed.

Lemma parse_comandos_mono f f' :
  f <= f' -> refines (parse_comandos f) (parse_comandos f').
Proof. intros H. apply (commands_mono H). Qed.

#[local] Hint Resolve parse_comandos_mono parse_decls_mono : mono.

Lemma parse_programa_mono f f' :
  f <= f' -> refines (parse_programa f) (parse_programa f').
Proof. intros Hle. unfold parse_programa. refines_tac. Qed.

(** *** The cursor stays on a token *)

(** The token sequence ends with a token of kind [EOF]. *)
Definition eof_last (ts : list Token.t) : Prop :=
  exists l t, ts = l ++ [t] /\ Token.type t = "EOF"%string.

Section Cursor.
Variable ts : list Token.t.
Hypothesis Heof : eof_last ts.

(** What [__init__] establishes and every method keeps: the parser
    reads [ts], its index is inside it, and [current_token] is the token
    under the index. *)
Record wf (st : state) : Prop := {
  wf_tokens : tokens st = ts;
  wf_pos : pos st < List.length ts;
  wf_current : nth_error ts (pos st) = Some (current_token st)
}.

(** A run from [st] that ends in [st']: the cursor is still on a token
    and has not moved back; [strict] says that it has moved on. *)
Definition post (strict : bool) (st : state) {A} (_ : A) (st' : state)
  : Prop :=
  wf st' /\ if strict then pos st < pos st' else pos st <= pos st'.

Lemma not_last st :
  wf st -> String.eqb (Token.type (current_token st)) "EOF" = false ->
  pos st + 1 < List.length ts.
Proof.
  intros [Ht Hp Hc] Hty. destruct Heof as (l & t & Hts & Hteof).
  assert (Hlen : List.length ts = List.length l + 1).
  { rewrite Hts, length_app. reflexivity. }
  destruct (Nat.eq_dec (pos st) (List.length l)) as [Heq|Hne]; [|lia].
  exfalso. rewrite Hts, Heq, nth_error_app2, Nat.sub_diag in Hc by lia.
  cbn in Hc. injection Hc as Hc. rewrite <- Hc, Hteof in Hty.
  discriminate.
Qed.

(** [advance] from a token that is not the last one. *)
Lemma advance_next st t :
  wf st -> nth_error ts (pos st + 1) = Some t ->
  advance st = Ok tt (mk ts (pos st + 1) t).
Proof.
  intros [Ht Hp Hc] Hnext. unfold advance, bind, get, modify.
  assert (Hlt : pos st + 1 < List.length ts).
  { apply nth_error_Some. congruence. }
  rewrite Ht.
  replace (Z.of_nat (pos st) <? Z.of_nat (List.length ts) - 1)%Z
    with true by (symmetry; apply Z.ltb_lt; lia).
  cbn [set_pos tokens pos current_token]. unfold getitem.
  rewrite Ht, Hnext. unfold ret, set_current_token, set_pos.
  cbn [tokens pos current_token]. rewrite Ht. reflexivity.
Qed.

(** [advance] on the last token leaves the parser as it is. *)
Lemma advance_pinned st :
  wf st -> pos st + 1 = List.length ts -> advance st = Ok tt st.
Proof.
  intros [Ht Hp Hc] Hlast. unfold advance, bind, get, ret.
  rewrite Ht.
  replace (Z.of_nat (pos st) <? Z.of_nat (List.length ts) - 1)%Z
    with false by (symmetry; apply Z.ltb_ge; lia).
  reflexivity.
Qed.

Lemma advance_post st :
  wf st -> String.eqb (Token.type (current_token st)) "EOF" = false ->
  wp advance (post true st) (fun _ => False) st.
Proof.
  intros Hwf Hty. pose proof (not_last Hwf Hty) as Hlt.
  destruct (nth_error ts (pos st + 1)) as [t|] eqn:Hnext.
  2:{ apply nth_error_None in Hnext. lia. }
  unfold wp. rewrite (advance_next Hwf Hnext). split.
  - split; cbn [tokens pos current_token]; auto.
  - cbn [pos]. lia.
Qed.

Lemma eat_post token_type st :
  wf st -> String.eqb token_type "EOF" = false ->
  wp (eat token_type) (post true st) is_syntax st.
Proof.
  intros Hwf Hty. unfold eat. apply wp_bind, wp_get.
  destruct (String.eqb (Token.type (current_token st)) token_type) eqn:He.
  - apply String.eqb_eq in He. apply wp_bind.
    eapply wp_conseq.
    + apply advance_post; auto. rewrite He. assumption.
    + intros [] st' Hpost. apply wp_ret. exact Hpost.
    + contradiction.
  - apply wp_raise. exact I.
Qed.

Lemma peek_next_type_eq st offset :
  wf st ->
  peek_next_type offset st
  = Ok (option_map Token.type (nth_error ts (pos st + offset))) st.
Proof.
  intros [Ht _ _]. unfold peek_next_type, bind, get, ret. rewrite Ht.
  destruct (pos st + offset <? List.length ts) eqn:Hlt.
  - apply Nat.ltb_lt, nth_error_Some in Hlt. unfold getitem.
    destruct (nth_error ts (pos st + offset)); [reflexivity|congruence].
  - apply Nat.ltb_ge, nth_error_None in Hlt. rewrite Hlt. reflexivity.
Qed.

Lemma peek_is_colon_eq st :
  wf st ->
  peek_is_colon st
  = Ok (match nth_error ts (pos st + 1) with
        | Some t => String.eqb (Token.type t) "COLON"
        | None => false
        end) st.
Proof.
  intros [Ht _ _]. unfold peek_is_colon, bind, get, ret. rewrite Ht.
  destruct (pos st + 1 <? List.length ts) eqn:Hlt.
  - apply Nat.ltb_lt, nth_error_Some in Hlt. unfold getitem.
    destruct (nth_error ts (pos st + 1)); [reflexivity|congruence].
  - apply Nat.ltb_ge, nth_error_None in Hlt. rewrite Hlt. reflexivity.
Qed.

(** *** Every rule returns or raises a syntax error *)

Lemma str_in_not_eof s l :
  str_in s l = true -> str_in "EOF" l = false ->
  String.eqb s "EOF" = false.
Proof.
  intros Hin Hno. destruct (String.eqb s "EOF") eqn:He; auto.
  apply String.eqb_eq in He. congruence.
Qed.

(** Runs [m], whose specification is the lemma [H], in front of a
    bind. *)
Ltac call H :=
  apply wp_bind; eapply wp_conseq;
  [ eapply H; eauto; try lia; try reflexivity
  | cbv beta;
    let Hw := fresh "Hw" in
    intros ? ? [Hw ?]; pose proof (wf_pos Hw)
  | intros ? He; first [exact He | contradiction He] ].
Ltac read := apply wp_bind, wp_get; cbv beta.
Ltac done := apply wp_ret; split; [assumption | lia].
Ltac fail_syntax := apply wp_raise; exact I.

Lemma parse_decl_post st :
  wf st -> wp parse_decl (post true st) is_syntax st.
Proof.
  intros Hwf. pose proof (wf_pos Hwf). unfold parse_decl.
  call eat_post. call eat_post. read.
  match goal with
  | |- context [str_in ?t ?l] => destruct (str_in t l) eqn:Hin
  end.
  - call eat_post.
    { eapply str_in_not_eof; [eassumption | reflexivity]. }
    done.
  - fail_syntax.
Qed.

Lemma parse_decls_loop_post fuel node st :
  wf st -> List.length ts - pos st + 1 <= fuel ->
  wp (parse_decls_loop fuel node) (post false st) is_syntax st.
Proof.
  revert node st. induction fuel as [|fuel IH]; intros node st Hwf Hf;
    [lia|].
  pose proof (wf_pos Hwf).
  cbn [parse_decls_loop]. read.
  match goal with
  | |- context [negb ?b] => destruct b
  end; cbn [negb]; [done|].
  apply wp_bind.
  eapply wp_conseq with
    (Q := fun (_ : bool) st' => st' = st) (E := fun _ => False).
  { destruct (String.eqb _ "IDENTIFIER"); [|reflexivity].
    unfold wp. rewrite (peek_is_colon_eq Hwf). reflexivity. }
  2:{ contradiction. }
  intros colon st' ->. destruct colon; [|fail_syntax].
  call parse_decl_post.
  eapply wp_conseq; [apply IH; auto; lia| |auto].
  cbv beta. intros ? ? [? ?]. split; [assumption|lia].
Qed.

Lemma parse_decls_post fuel st :
  wf st -> List.length ts - pos st + 1 <= fuel ->
  wp (parse_decls fuel) (post false st) is_syntax st.
Proof. intros. apply parse_decls_loop_post; assumption. Qed.

Lemma pop_child_eq node (st : state) :
  Node.children node <> [] ->
  exists last front,
    pop_child node st = Ok (last, Node.mk (Node.label node) front) st.
Proof.
  intros Hne. unfold pop_child.
  destruct (rev (Node.children node)) as [|last front] eqn:Hrev.
  - exfalso. apply Hne. apply (f_equal (@rev _)) in Hrev.
    rewrite rev_involutive in Hrev. assumption.
  - exists last, (rev front). reflexivity.
Qed.

Lemma add_child_nonempty n c : Node.children (Node.add_child n c) <> [].
Proof.
  destruct n as [l cs]. cbn. destruct cs; discriminate.
Qed.

(** An operator branch: the operator token is consumed, so the operand
    is parsed further on; the node that comes back has a child again for
    the next round to pop. *)
Lemma wrap_operator_post op node operand st :
  wf st -> String.eqb (Token.type (current_token st)) "EOF" = false ->
  Node.children node <> [] ->
  (forall st1, wf st1 -> pos st < pos st1 ->
               wp operand (post true st1) is_syntax st1) ->
  wp (wrap_operator op node operand)
     (fun n st' => post true st n st' /\ Node.children n <> [])
     is_syntax st.
Proof.
  intros Hwf Hty Hne Hop. unfold wrap_operator.
  call advance_post. apply wp_bind.
  match goal with
  | |- wp (pop_child _) _ _ ?s =>
      destruct (pop_child_eq node s Hne) as (last & front & Hpop)
  end.
  unfold wp at 1. rewrite Hpop. cbv beta iota.
  call Hop. apply wp_ret. split.
  - split; [assumption|lia].
  - apply add_child_nonempty.
Qed.

Ltac by_fuel :=
  match goal with
  | |- context [str_in ?t ?l] => destruct (str_in t l) eqn:Hin
  end.

Lemma expressions_total fuel :
  (forall st, wf st -> 5 * (List.length ts - pos st) + 5 <= fuel ->
     wp (parse_expressao_logica fuel) (post true st) is_syntax st) /\
  (forall node st, wf st -> Node.children node <> [] ->
     5 * (List.length ts - pos st) + 1 <= fuel ->
     wp (parse_expressao_logica_loop fuel node) (post false st)
        is_syntax st) /\
  (forall st, wf st -> 5 * (List.length ts - pos st) + 4 <= fuel ->
     wp (parse_expressao_relacional fuel) (post true st) is_syntax st) /\
  (forall st, wf st -> 5 * (List.length ts - pos st) + 3 <= fuel ->
     wp (parse_expressao_aritmetica fuel) (post true st) is_syntax st) /\
  (forall node st, wf st -> Node.children node <> [] ->
     5 * (List.length ts - pos st) + 1 <= fuel ->
     wp (parse_expressao_aritmetica_loop fuel node) (post false st)
        is_syntax st) /\
  (forall st, wf st -> 5 * (List.length ts - pos st) + 2 <= fuel ->
     wp (parse_termo fuel) (post true st) is_syntax st) /\
  (forall node st, wf st -> Node.children node <> [] ->
     5 * (List.length ts - pos st) + 1 <= fuel ->
     wp (parse_termo_loop fuel node) (post false st) is_syntax st) /\
  (forall st, wf st -> 5 * (List.length ts - pos st) + 1 <= fuel ->
     wp (parse_fator fuel) (post true st) is_syntax st).
Proof.
  induction fuel as [|fuel IH].
  { repeat split; intros; lia. }
  destruct IH as (Hlog & Hlogl & Hrel & Hari & Haril & Hter & Hterl & Hfat).
  repeat split.
  - (* expressao_logica *)
    intros st Hwf Hf. pose proof (wf_pos Hwf). cbn [parse_expressao_logica].
    call Hrel.
    eapply wp_conseq;
      [apply Hlogl; auto; [apply add_child_nonempty|lia] | |auto].
    cbv beta. intros ? ? [? ?]. split; [assumption|lia].
  - (* expressao_logica_loop *)
    intros node st Hwf Hne Hf. pose proof (wf_pos Hwf). cbn [parse_expressao_logica_loop].
    read. by_fuel; [|done].
    apply wp_bind. eapply wp_conseq.
    + apply wrap_operator_post; auto.
      * eapply str_in_not_eof; [eassumption|reflexivity].
      * intros st1 Hwf1 Hp1. pose proof (wf_pos Hwf1). apply Hrel; auto. lia.
    + cbv beta. intros n st' [[Hwf' Hp'] Hne']. pose proof (wf_pos Hwf').
      eapply wp_conseq; [apply Hlogl; auto; lia | |auto].
      cbv beta. intros ? ? [? ?]. split; [assumption|lia].
    + auto.
  - (* expressao_relacional *)
    intros st Hwf Hf. pose proof (wf_pos Hwf). cbn [parse_expressao_relacional].
    call Hari. read. by_fuel; [|done].
    eapply wp_conseq.
    + apply wrap_operator_post; auto.
      * eapply str_in_not_eof; [eassumption|reflexivity].
      * apply add_child_nonempty.
      * intros st1 Hwf1 Hp1. pose proof (wf_pos Hwf1). apply Hari; auto. lia.
    + cbv beta. intros n st' [[Hwf' Hp'] Hne']. pose proof (wf_pos Hwf').
      split; [assumption|lia].
    + auto.
  - (* expressao_aritmetica *)
    intros st Hwf Hf. pose proof (wf_pos Hwf). cbn [parse_expressao_aritmetica].
    call Hter.
    eapply wp_conseq;
      [apply Haril; auto; [apply add_child_nonempty|lia] | |auto].
    cbv beta. intros ? ? [? ?]. split; [assumption|lia].
  - (* expressao_aritmetica_loop *)
    intros node st Hwf Hne Hf. pose proof (wf_pos Hwf). cbn [parse_expressao_aritmetica_loop].
    read. by_fuel; [|done].
    apply wp_bind. eapply wp_conseq.
    + apply wrap_operator_post; auto.
      * eapply str_in_not_eof; [eassumption|reflexivity].
      * intros st1 Hwf1 Hp1. pose proof (wf_pos Hwf1). apply Hter; auto. lia.
    + cbv beta. intros n st' [[Hwf' Hp'] Hne']. pose proof (wf_pos Hwf').
      eapply wp_conseq; [apply Haril; auto; lia | |auto].
      cbv beta. intros ? ? [? ?]. split; [assumption|lia].
    + auto.
  - (* termo *)
    intros st Hwf Hf. pose proof (wf_pos Hwf). cbn [parse_termo].
    call Hfat.
    eapply wp_conseq;
      [apply Hterl; auto; [apply add_child_nonempty|lia] | |auto].
    cbv beta. intros ? ? [? ?]. split; [assumption|lia].
  - (* termo_loop *)
    intros node st Hwf Hne Hf. pose proof (wf_pos Hwf). cbn [parse_termo_loop].
    read. by_fuel; [|done].
    apply wp_bind. eapply wp_conseq.
    + apply wrap_operator_post; auto.
      * eapply str_in_not_eof; [eassumption|reflexivity].
      * intros st1 Hwf1 Hp1. pose proof (wf_pos Hwf1). apply Hfat; auto. lia.
    + cbv beta. intros n st' [[Hwf' Hp'] Hne']. pose proof (wf_pos Hwf').
      eapply wp_conseq; [apply Hterl; auto; lia | |auto].
      cbv beta. intros ? ? [? ?]. split; [assumption|lia].
    + auto.
  - (* fator *)
    intros st Hwf Hf. pose proof (wf_pos Hwf). cbn [parse_fator].
    read. by_fuel.
    + call advance_post.
      { eapply str_in_not_eof; [eassumption|reflexivity]. }
      done.
    + destruct (String.eqb _ "LPAREN") eqn:Hlp; [|fail_syntax].
      call eat_post. call Hlog. call eat_post. done.
Qed.

Lemma parse_expressao_logica_post fuel st :
  wf st -> 5 * (List.length ts - pos st) + 5 <= fuel ->
  wp (parse_expressao_logica fuel) (post true st) is_syntax st.
Proof. apply expressions_total. Qed.

Lemma parse_atribuicao_post fuel st :
  wf st -> 5 * (List.length ts - pos st) + 1 <= fuel ->
  wp (parse_atribuicao fuel) (post true st) is_syntax st.
Proof.
  intros Hwf Hf. pose proof (wf_pos Hwf). unfold parse_atribuicao.
  call eat_post. call eat_post. call parse_expressao_logica_post. done.
Qed.

Lemma commands_total fuel :
  (forall st, wf st -> 5 * (List.length ts - pos st) + 4 <= fuel ->
     wp (parse_comandos fuel) (post false st) is_syntax st) /\
  (forall node st, wf st ->
     5 * (List.length ts - pos st) + 3 <= fuel ->
     wp (parse_comandos_loop fuel node) (post false st) is_syntax st) /\
  (forall st, wf st -> 5 * (List.length ts - pos st) + 2 <= fuel ->
     wp (parse_comando fuel) (post true st) is_syntax st) /\
  (forall st, wf st -> 5 * (List.length ts - pos st) + 1 <= fuel ->
     wp (parse_if fuel) (post true st) is_syntax st).
Proof.
  induction fuel as [|fuel IH].
  { repeat split; intros; lia. }
  destruct IH as (Hcmds & Hloop & Hcmd & Hif).
  repeat split.
  - (* comandos *)
    intros st Hwf Hf. pose proof (wf_pos Hwf). cbn [parse_comandos].
    apply Hloop; auto. lia.
  - (* comandos_loop *)
    intros node st Hwf Hf. pose proof (wf_pos Hwf).
    cbn [parse_comandos_loop]. read.
    match goal with
    | |- context [negb ?b] => destruct b
    end; cbn [negb]; [done|].
    call Hcmd.
    eapply wp_conseq; [apply Hloop; auto; lia | |auto].
    cbv beta. intros ? ? [? ?]. split; [assumption|lia].
  - (* comando *)
    intros st Hwf Hf. pose proof (wf_pos Hwf). cbn [parse_comando].
    read.
    destruct (String.eqb _ "LEIA").
    { call eat_post. call eat_post. done. }
    destruct (String.eqb _ "ESCREVA").
    { call eat_post. call eat_post. read. by_fuel; [|fail_syntax].
      call eat_post.
      { eapply str_in_not_eof; [eassumption|reflexivity]. }
      call eat_post. done. }
    destruct (String.eqb _ "SE").
    { call Hif. done. }
    destruct (String.eqb _ "IDENTIFIER"); [|fail_syntax].
    apply wp_bind. unfold wp at 1. rewrite (peek_next_type_eq _ Hwf).
    match goal with
    | |- context [if ?b then _ else _] => destruct b
    end; [|fail_syntax].
    call parse_atribuicao_post. done.
  - (* if *)
    intros st Hwf Hf. pose proof (wf_pos Hwf). cbn [parse_if].
    call eat_post. call parse_expressao_logica_post.
    call eat_post. call eat_post. call Hcmds. call eat_post. done.
Qed.

Lemma parse_comandos_post fuel st :
  wf st -> 5 * (List.length ts - pos st) + 4 <= fuel ->
  wp (parse_comandos fuel) (post false st) is_syntax st.
Proof. apply commands_total. Qed.

(** [eat] returns only from a token of the kind asked for, with the
    cursor one token further. *)
Lemma eat_ok token_type st node st' :
  wf st -> String.eqb token_type "EOF" = false ->
  eat token_type st = Ok node st' ->
  Token.type (current_token st) = token_type /\
  pos st' = pos st + 1 /\ wf st'.
Proof.
  intros Hwf Hty. unfold eat, bind, get.
  destruct (String.eqb (Token.type (current_token st)) token_type) eqn:He;
    [|discriminate].
  apply String.eqb_eq in He.
  assert (Hne : String.eqb (Token.type (current_token st)) "EOF" = false)
    by (rewrite He; assumption).
  pose proof (not_last Hwf Hne) as Hlt.
  destruct (nth_error ts (pos st + 1)) as [t|] eqn:Hnext.
  2:{ apply nth_error_None in Hnext. lia. }
  rewrite (advance_next Hwf Hnext). unfold ret. intros [= _ <-].
  split; [assumption|]. split; [reflexivity|].
  split; cbn [tokens pos current_token]; auto.
Qed.

(** What a successful [parse_programa] leaves: the root with its seven
    children, and the cursor right after a [FIMPROG] token. *)
Definition programa_post (root : Node.t) (st' : state) : Prop :=
  wf st' /\
  Node.label root = Some "Programa"%string /\
  List.length (Node.children root) = 7 /\
  exists t, nth_error ts (pos st' - 1) = Some t /\
            Token.type t = "FIMPROG"%string /\ 5 <= pos st'.

Lemma parse_programa_post fuel st :
  wf st -> 5 * (List.length ts - pos st) + 4 <= fuel ->
  wp (parse_programa fuel) programa_post is_syntax st.
Proof.
  intros Hwf Hf. pose proof (wf_pos Hwf). unfold parse_programa.
  call eat_post. call eat_post. call parse_decls_post.
  call eat_post. call eat_post. call parse_comandos_post.
  apply wp_bind.
  match goal with
  | |- wp (eat ?ty) _ _ ?s =>
      pose proof (@eat_post ty s ltac:(assumption) eq_refl) as Heat;
      pose proof (fun n z => @eat_ok ty s n z ltac:(assumption) eq_refl)
        as Hok;
      unfold wp in Heat |- *; destruct (eat ty s) as [leaf st'| |] eqn:Hrun;
      auto
  end.
  destruct (Hok leaf st' eq_refl) as (Hty & Hpos & Hwf').
  apply wp_ret. split; [assumption|]. split; [reflexivity|].
  split; [reflexivity|].
  match goal with
  | Hw : wf ?s, _ : eat _ ?s = _ |- _ =>
      exists (current_token s); rewrite Hpos;
      replace (pos s + 1 - 1) with (pos s) by lia;
      split; [apply (wf_current Hw)|]; split; [assumption|lia]
  end.
Qed.

End Cursor.

(** *** Only the tokens up to the cursor matter *)

Lemma nth_error_firstn_lt A (l : list A) n i :
  i < n -> nth_error (firstn n l) i = nth_error l i.
Proof.
  revert n i. induction l as [|a l IH]; intros [|n] [|i] H;
    cbn [firstn nth_error]; auto; try lia.
  apply IH. lia.
Qed.

Section Prefix.
Variables ts1 ts2 : list Token.t.
Variable n : nat.
Hypothesis Heof1 : eof_last ts1.
Hypothesis Hpre : firstn n ts1 = firstn n ts2.
Hypothesis Hn1 : n < List.length ts1.
Hypothesis Hn2 : n < List.length ts2.

Lemma same_token i : i < n -> nth_error ts2 i = nth_error ts1 i.
Proof.
  intros H. rewrite <- (nth_error_firstn_lt ts2 H), <- Hpre.
  apply nth_error_firstn_lt. assumption.
Qed.

(** A parser on [ts2] that stands where the parser [st1] on [ts1] stands,
    on the same token. *)
Definition agree (st1 st2 : state) : Prop :=
  tokens st2 = ts2 /\ pos st2 = pos st1 /\
  current_token st2 = current_token st1.

(** [both st1 m]: a run of [m] from [st1] on [ts1] that returns keeps the
    cursor on a token, does not move it back and, if it leaves it before
    index [n], is matched by the run of [m] on [ts2] from any state that
    agrees with [st1]: same value, agreeing final states. *)
Definition both {A} (st1 : state) (m : M state A) : Prop :=
  wf ts1 st1 ->
  forall a st1',
    m st1 = Ok a st1' ->
    wf ts1 st1' /\ pos st1 <= pos st1' /\
    forall st2,
      agree st1 st2 -> pos st1' < n ->
      exists st2', m st2 = Ok a st2' /\ agree st1' st2'.

Lemma both_ret A (a : A) st1 : both st1 (ret a).
Proof.
  intros Hwf b st1' [= <- <-]. split; [assumption|]. split; [lia|].
  intros st2 Hag _. exists st2. split; [reflexivity|assumption].
Qed.

Lemma both_raise A e st1 : both st1 (@raise state A e).
Proof. intros _ a st1' H. discriminate. Qed.

Lemma both_out_of_fuel A st1 : both st1 (@out_of_fuel state A).
Proof. intros _ a st1' H. discriminate. Qed.

Lemma both_bind A B (m : M state A) (k : A -> M state B) st1 :
  both st1 m -> (forall a st1', both st1' (k a)) -> both st1 (bind m k).
Proof.
  intros Hm Hk Hwf b st1'' Hrun. unfold bind in Hrun.
  destruct (m st1) as [a st1'| |] eqn:Hrun1; try discriminate.
  destruct (Hm Hwf a st1' Hrun1) as (Hwf' & Hle & Hsim).
  destruct (Hk a st1' Hwf' b st1'' Hrun) as (Hwf'' & Hle' & Hsim').
  split; [assumption|]. split; [lia|].
  intros st2 Hag Hlt.
  destruct (Hsim st2 Hag ltac:(lia)) as (st2' & Hrun2 & Hag').
  destruct (Hsim' st2' Hag' Hlt) as (st2'' & Hrun2' & Hag'').
  exists st2''. split; [|assumption].
  unfold bind. rewrite Hrun2. assumption.
Qed.

(** A rule reads the parser through [current_token] only. *)
Lemma both_get A (k : state -> M state A) st1 :
  (forall st2, agree st1 st2 -> k st2 = k st1) ->
  both st1 (k st1) -> both st1 (bind get k).
Proof.
  intros Hk Hb Hwf a st1' Hrun. change (k st1 st1 = Ok a st1') in Hrun.
  destruct (Hb Hwf a st1' Hrun) as (Hwf' & Hle & Hsim).
  split; [assumption|]. split; [assumption|].
  intros st2 Hag Hlt. destruct (Hsim st2 Hag Hlt) as (st2' & Hrun2 & Hag').
  exists st2'. split; [|assumption].
  change (k st2 st2 = Ok a st2'). rewrite (Hk st2 Hag). assumption.
Qed.

Lemma both_advance st1 : both st1 advance.
Proof.
  intros Hwf a st1' Hrun. pose proof (wf_pos Hwf) as Hp.
  destruct (nth_error ts1 (pos st1 + 1)) as [t|] eqn:Hnext.
  - rewrite (advance_next Hwf Hnext) in Hrun. injection Hrun as <- <-.
    split.
    { split; cbn [tokens pos current_token]; auto.
      apply nth_error_Some. congruence. }
    split; [cbn [pos]; lia|].
    cbn [pos]. intros st2 (Ht2 & Hp2 & Hc2) Hlt.
    assert (Hnext2 : nth_error ts2 (pos st2 + 1) = Some t).
    { rewrite Hp2, same_token by assumption. assumption. }
    assert (Hwf2 : wf ts2 st2).
    { split; auto; [lia|]. rewrite Hp2, Hc2, same_token by lia.
      apply (wf_current Hwf). }
    exists (mk ts2 (pos st2 + 1) t). split.
    + apply (advance_next Hwf2 Hnext2).
    + split; cbn [tokens pos current_token]; auto.
  - apply nth_error_None in Hnext.
    rewrite (advance_pinned Hwf) in Hrun by lia. injection Hrun as <- <-.
    split; [assumption|]. split; [lia|]. intros st2 _ Hlt. lia.
Qed.

Lemma agree_wf st1 st2 :
  wf ts1 st1 -> agree st1 st2 -> pos st1 < n -> wf ts2 st2.
Proof.
  intros Hwf (Ht2 & Hp2 & Hc2) Hlt. split; auto; [lia|].
  rewrite Hp2, Hc2, same_token by lia. apply (wf_current Hwf).
Qed.

Ltac both_read :=
  apply both_get;
  [ let H := fresh in
    intros ? (_ & _ & H); cbv beta zeta; rewrite ?H; reflexivity
  | cbv beta zeta ].
Ltac both_seq H := apply both_bind; [apply H | intros ? ?].
Ltac both_if :=
  match goal with
  | |- both _ (if ?b then _ else _) => destruct b eqn:?
  end.

Lemma both_eat token_type st1 : both st1 (eat token_type).
Proof.
  unfold eat. both_read. both_if; [|apply both_raise].
  both_seq both_advance. apply both_ret.
Qed.

(** Looking one token ahead is matched on [ts2] when what follows consumes
    that token. *)
Lemma both_peek_is_colon A (K : bool -> M state A) st1 :
  (forall c, both st1 (K c)) ->
  (forall c a st1',
     wf ts1 st1 -> K c st1 = Ok a st1' -> pos st1 + 2 <= pos st1') ->
  both st1 (bind peek_is_colon K).
Proof.
  intros HK Hprog Hwf a st1' Hrun. unfold bind in Hrun.
  rewrite (peek_is_colon_eq Hwf) in Hrun.
  destruct (HK _ Hwf a st1' Hrun) as (Hwf' & Hle & Hsim).
  pose proof (Hprog _ a st1' Hwf Hrun) as Hfar.
  split; [assumption|]. split; [assumption|].
  intros st2 Hag Hlt.
  assert (Hwf2 : wf ts2 st2) by (apply (agree_wf Hwf Hag); lia).
  destruct (Hsim st2 Hag Hlt) as (st2' & Hrun2 & Hag').
  exists st2'. split; [|assumption].
  unfold bind. rewrite (peek_is_colon_eq Hwf2).
  destruct Hag as (_ & Hp2 & _). rewrite Hp2, same_token by lia.
  assumption.
Qed.

Lemma both_peek_next_type A (K : option string -> M state A) st1 :
  (forall c, both st1 (K c)) ->
  (forall c a st1',
     wf ts1 st1 -> K c st1 = Ok a st1' -> pos st1 + 2 <= pos st1') ->
  both st1 (bind (peek_next_type 1) K).
Proof.
  intros HK Hprog Hwf a st1' Hrun. unfold bind in Hrun.
  rewrite (peek_next_type_eq _ Hwf) in Hrun.
  destruct (HK _ Hwf a st1' Hrun) as (Hwf' & Hle & Hsim).
  pose proof (Hprog _ a st1' Hwf Hrun) as Hfar.
  split; [assumption|]. split; [assumption|].
  intros st2 Hag Hlt.
  assert (Hwf2 : wf ts2 st2) by (apply (agree_wf Hwf Hag); lia).
  destruct (Hsim st2 Hag Hlt) as (st2' & Hrun2 & Hag').
  exists st2'. split; [|assumption].
  unfold bind. rewrite (peek_next_type_eq _ Hwf2).
  destruct Hag as (_ & Hp2 & _). rewrite Hp2, same_token by lia.
  assumption.
Qed.

Lemma both_parse_decl st1 : both st1 parse_decl.
Proof.
  unfold parse_decl. both_seq both_eat. both_seq both_eat. both_read.
  both_if; [|apply both_raise]. both_seq both_eat. apply both_ret.
Qed.

(** A run of two [eat]s and more moves the cursor by two at least. *)
Lemma two_eats_progress A t1 t2 (k : Node.t -> Node.t -> M state A)
    st a st' :
  wf ts1 st ->
  String.eqb t1 "EOF" = false -> String.eqb t2 "EOF" = false ->
  (forall c1 c2 s, both s (k c1 c2)) ->
  (c1 <- eat t1 ;; c2 <- eat t2 ;; k c1 c2) st = Ok a st' ->
  pos st + 2 <= pos st'.
Proof.
  intros Hwf H1 H2 Hk Hrun. unfold bind in Hrun.
  destruct (eat t1 st) as [c1 s1| |] eqn:He1; try discriminate.
  destruct (@eat_ok ts1 Heof1 t1 st c1 s1 Hwf H1 He1) as (_ & Hp1 & Hwf1).
  destruct (eat t2 s1) as [c2 s2| |] eqn:He2; try discriminate.
  destruct (@eat_ok ts1 Heof1 t2 s1 c2 s2 Hwf1 H2 He2) as (_ & Hp2 & Hwf2).
  destruct (Hk c1 c2 s2 Hwf2 a st' Hrun) as (_ & Hle & _). lia.
Qed.

Lemma parse_decl_progress st a st' :
  wf ts1 st -> parse_decl st = Ok a st' -> pos st + 2 <= pos st'.
Proof.
  intros Hwf Hrun. unfold parse_decl in Hrun.
  eapply two_eats_progress with (t1 := "IDENTIFIER"%string)
                                (t2 := "COLON"%string);
    [exact Hwf | reflexivity | reflexivity | | exact Hrun].
  intros c1 c2 s. cbv beta. both_read.
  both_if; [|apply both_raise]. both_seq both_eat. apply both_ret.
Qed.

Lemma both_parse_decls_loop fuel :
  forall node st1, both st1 (parse_decls_loop fuel node).
Proof.
  induction fuel as [|fuel IH]; intros node st1;
    [apply both_out_of_fuel|].
  cbn [parse_decls_loop]. both_read. both_if; [|apply both_ret].
  assert (Hk : forall (c : bool) s, both s
             (if c then c0 <- parse_decl ;;
                        parse_decls_loop fuel (Node.add_child node c0)
              else raise (SyntaxError_
                     "Esperado declaração de variável no formato 'nome:TIPO' ou 'FIMDECLS' para terminar DECLS"
                     (current_token st1)))).
  { intros [|] s; [|apply both_raise].
    both_seq both_parse_decl. apply IH. }
  destruct (String.eqb (Token.type (current_token st1)) "IDENTIFIER").
  - apply both_peek_is_colon; [intros c; apply Hk|].
    intros [|] a st1' Hwf Hrun; [|discriminate].
    unfold bind in Hrun.
    destruct (parse_decl st1) as [c s| |] eqn:Hd; try discriminate.
    pose proof (parse_decl_progress Hwf Hd) as Hfar.
    destruct (both_parse_decl Hwf Hd) as (Hwf' & _ & _).
    destruct (IH _ s Hwf' a st1' Hrun) as (_ & Hle & _). lia.
  - apply both_bind; [apply both_ret|]. intros c s. apply Hk.
Qed.

Lemma both_parse_decls fuel st1 : both st1 (parse_decls fuel).
Proof. apply both_parse_decls_loop. Qed.


Lemma both_pop_child node st1 : both st1 (pop_child node).
Proof.
  unfold pop_child. destruct (rev (Node.children node));
    [apply both_raise|apply both_ret].
Qed.

Lemma both_wrap_operator op node (operand : M state Node.t) st1 :
  (forall s, both s operand) -> both st1 (wrap_operator op node operand).
Proof.
  intros Hop. unfold wrap_operator. both_seq both_advance.
  both_seq both_pop_child.
  match goal with |- both _ (let (_, _) := ?p in _) => destruct p end.
  both_seq Hop. apply both_ret.
Qed.

Lemma expressions_both fuel :
  (forall st1, both st1 (parse_expressao_logica fuel)) /\
  (forall node st1, both st1 (parse_expressao_logica_loop fuel node)) /\
  (forall st1, both st1 (parse_expressao_relacional fuel)) /\
  (forall st1, both st1 (parse_expressao_aritmetica fuel)) /\
  (forall node st1, both st1 (parse_expressao_aritmetica_loop fuel node)) /\
  (forall st1, both st1 (parse_termo fuel)) /\
  (forall node st1, both st1 (parse_termo_loop fuel node)) /\
  (forall st1, both st1 (parse_fator fuel)).
Proof.
  induction fuel as [|fuel IH].
  { repeat apply conj; intros; apply both_out_of_fuel. }
  destruct IH as (Hlog & Hlogl & Hrel & Hari & Haril & Hter & Hterl & Hfat).
  repeat apply conj.
  - intros st1. cbn [parse_expressao_logica].
    both_seq Hrel. apply Hlogl.
  - intros node st1. cbn [parse_expressao_logica_loop].
    both_read. both_if; [|apply both_ret].
    apply both_bind; [apply both_wrap_operator; exact Hrel|].
    intros ? ?. apply Hlogl.
  - intros st1. cbn [parse_expressao_relacional].
    both_seq Hari. both_read. both_if; [|apply both_ret].
    apply both_wrap_operator. exact Hari.
  - intros st1. cbn [parse_expressao_aritmetica].
    both_seq Hter. apply Haril.
  - intros node st1. cbn [parse_expressao_aritmetica_loop].
    both_read. both_if; [|apply both_ret].
    apply both_bind; [apply both_wrap_operator; exact Hter|].
    intros ? ?. apply Haril.
  - intros st1. cbn [parse_termo].
    both_seq Hfat. apply Hterl.
  - intros node st1. cbn [parse_termo_loop].
    both_read. both_if; [|apply both_ret].
    apply both_bind; [apply both_wrap_operator; exact Hfat|].
    intros ? ?. apply Hterl.
  - intros st1. cbn [parse_fator].
    both_read. both_if.
    + both_seq both_advance. apply both_ret.
    + both_if; [|apply both_raise].
      both_seq both_eat. both_seq Hlog. both_seq both_eat. apply both_ret.
Qed.

Lemma both_parse_expressao_logica fuel st1 :
  both st1 (parse_expressao_logica fuel).
Proof. apply expressions_both. Qed.

Lemma both_parse_atribuicao fuel st1 : both st1 (parse_atribuicao fuel).
Proof.
  unfold parse_atribuicao. both_seq both_eat. both_seq both_eat.
  both_seq both_parse_expressao_logica. apply both_ret.
Qed.

Lemma parse_atribuicao_progress fuel st a st' :
  wf ts1 st -> parse_atribuicao fuel st = Ok a st' -> pos st + 2 <= pos st'.
Proof.
  intros Hwf Hrun. unfold parse_atribuicao in Hrun.
  eapply two_eats_progress with (t1 := "IDENTIFIER"%string)
                                (t2 := "ASSIGN"%string);
    [exact Hwf | reflexivity | reflexivity | | exact Hrun].
  intros c1 c2 s. cbv beta.
  both_seq both_parse_expressao_logica. apply both_ret.
Qed.

Lemma commands_both fuel :
  (forall st1, both st1 (parse_comandos fuel)) /\
  (forall node st1, both st1 (parse_comandos_loop fuel node)) /\
  (forall st1, both st1 (parse_comando fuel)) /\
  (forall st1, both st1 (parse_if fuel)).
Proof.
  induction fuel as [|fuel IH].
  { repeat apply conj; intros; apply both_out_of_fuel. }
  destruct IH as (Hcmds & Hloop & Hcmd & Hif).
  repeat apply conj.
  - intros st1. cbn [parse_comandos]. apply Hloop.
  - intros node st1. cbn [parse_comandos_loop].
    both_read. both_if; [|apply both_ret].
    both_seq Hcmd. apply Hloop.
  - intros st1. cbn [parse_comando]. both_read.
    both_if. { both_seq both_eat. both_seq both_eat. apply both_ret. }
    both_if.
    { both_seq both_eat. both_seq both_eat. both_read.
      both_if; [|apply both_raise].
      both_seq both_eat. both_seq both_eat. apply both_ret. }
    both_if. { both_seq Hif. apply both_ret. }
    both_if; [|apply both_raise].
    apply both_peek_next_type.
    + intros c. both_if; [|apply both_raise].
      both_seq both_parse_atribuicao. apply both_ret.
    + intros c a st1' Hwf Hrun.
      destruct (match c with
                | Some t => String.eqb t "ASSIGN"
                | None => false
                end); [|discriminate].
      unfold bind in Hrun.
      destruct (parse_atribuicao fuel st1) as [c0 s| |] eqn:Ha;
        try discriminate.
      injection Hrun as _ <-.
      apply (parse_atribuicao_progress _ Hwf Ha).
  - intros st1. cbn [parse_if].
    both_seq both_eat. both_seq both_parse_expressao_logica.
    both_seq both_eat. both_seq both_eat. both_seq Hcmds.
    both_seq both_eat. apply both_ret.
Qed.

Lemma both_parse_comandos fuel st1 : both st1 (parse_comandos fuel).
Proof. apply commands_both. Qed.

(** [parse_programa] up to its last [eat]. *)
Definition programa_before_FIMPROG (fuel : nat) : M state Node.t :=
  let root := Node.new "Programa" in
  c <- eat "INICIO" ;;
  let root := Node.add_child root c in
  c <- eat "DECLS" ;;
  let root := Node.add_child root c in
  c <- parse_decls fuel ;;
  let root := Node.add_child root c in
  c <- eat "FIMDECLS" ;;
  let root := Node.add_child root c in
  c <- eat "CODIGO" ;;
  let root := Node.add_child root c in
  c <- parse_comandos fuel ;;
  ret (Node.add_child root c).

Lemma parse_programa_split fuel st :
  parse_programa fuel st
  = (root <- programa_before_FIMPROG fuel ;;
     c <- eat "FIMPROG" ;;
     ret (Node.add_child root c)) st.
Proof.
  unfold parse_programa, programa_before_FIMPROG, bind.
  destruct (eat "INICIO" st) as [c1 s1| |]; auto.
  destruct (eat "DECLS" s1) as [c2 s2| |]; auto.
  destruct (parse_decls fuel s2) as [c3 s3| |]; auto.
  destruct (eat "FIMDECLS" s3) as [c4 s4| |]; auto.
  destruct (eat "CODIGO" s4) as [c5 s5| |]; auto.
  destruct (parse_comandos fuel s5) as [c6 s6| |]; auto.
Qed.

Lemma both_programa_before_FIMPROG fuel st1 :
  both st1 (programa_before_FIMPROG fuel).
Proof.
  unfold programa_before_FIMPROG.
  both_seq both_eat. both_seq both_eat. both_seq both_parse_decls.
  both_seq both_eat. both_seq both_eat. both_seq both_parse_comandos.
  apply both_ret.
Qed.

(** A successful parse on [ts1] that stops at index [n] is a successful
    parse on [ts2], with the same tree. *)
Lemma parse_programa_prefix fuel st1 st2 root st1' :
  wf ts1 st1 -> agree st1 st2 ->
  parse_programa fuel st1 = Ok root st1' -> pos st1' = n ->
  exists st2', parse_programa fuel st2 = Ok root st2' /\ pos st2' = n.
Proof.
  intros Hwf Hag Hrun Hend. rewrite parse_programa_split in Hrun.
  unfold bind in Hrun.
  destruct (programa_before_FIMPROG fuel st1) as [r s| |] eqn:Hbody;
    try discriminate.
  destruct (@both_programa_before_FIMPROG fuel st1 Hwf r s Hbody)
    as (Hwfs & _ & Hsim).
  destruct (eat "FIMPROG" s) as [c s'| |] eqn:Heat; try discriminate.
  injection Hrun as <- <-.
  destruct (@eat_ok ts1 Heof1 "FIMPROG"%string s c s' Hwfs eq_refl Heat)
    as (Hty & Hp & _).
  assert (Hlt : pos s < n) by lia.
  destruct (Hsim st2 Hag Hlt) as (s2 & Hbody2 & Hag2).
  assert (Hwf2 : wf ts2 s2) by (apply (agree_wf Hwfs Hag2); lia).
  destruct Hag2 as (Ht2 & Hp2 & Hc2).
  destruct (nth_error ts2 (pos s2 + 1)) as [t|] eqn:Hnext.
  2:{ apply nth_error_None in Hnext. lia. }
  exists (mk ts2 (pos s2 + 1) t). split; [|cbn [pos]; lia].
  rewrite parse_programa_split. unfold bind. rewrite Hbody2.
  unfold eat, bind, get in Heat |- *. rewrite Hc2.
  destruct (String.eqb (Token.type (current_token s)) "FIMPROG");
    [|discriminate].
  rewrite (advance_next Hwf2 Hnext).
  destruct (advance s) as [[] z| |]; try discriminate.
  unfold ret in Heat |- *. injection Heat as <- _. reflexivity.
Qed.

End Prefix.

End ParserFacts.

(** ** The parser on a bounded call stack *)

Module FramedFacts.
Import Parser.

(** *** Fuel *)

Lemma call_mono A frames (f f' : nat -> M state A) :
  (forall free, refines (f free) (f' free)) ->
  refines (Framed.call frames f) (Framed.call frames f').
Proof. intros H. destruct frames; [apply refines_refl|apply H]. Qed.

Ltac framed_mono :=
  repeat first [ apply call_mono; intros ? | progress refines_tac ].

Lemma parse_decls_loop_more_fuel f f' free node :
  f <= f' ->
  refines (Framed.parse_decls_loop f free node)
          (Framed.parse_decls_loop f' free node).
Proof.
  revert f' node. induction f as [|f IH]; intros f' node Hle;
    [apply refines_out_of_fuel|].
  destruct f' as [|f']; [lia|]. assert (Hle' : f <= f') by lia.
  cbn [Framed.parse_decls_loop]. framed_mono.
Qed.

#[local] Hint Resolve parse_decls_loop_more_fuel : mono.

Lemma parse_decls_more_fuel f f' frames :
  f <= f' ->
  refines (Framed.parse_decls f frames) (Framed.parse_decls f' frames).
Proof. intros Hle. unfold Framed.parse_decls. framed_mono. Qed.

Lemma wrap_operator_more_fuel free op node (m m' : M state Node.t) :
  refines m m' ->
  refines (Framed.wrap_operator free op node m)
          (Framed.wrap_operator free op node m').
Proof. intros H. unfold Framed.wrap_operator. framed_mono. Qed.

#[local] Hint Resolve wrap_operator_more_fuel : mono.

Lemma expressions_more_fuel f :
  forall f', f <= f' ->
  (forall frames, refines (Framed.parse_expressao_logica f frames)
                          (Framed.parse_expressao_logica f' frames)) /\
  (forall free node, refines (Framed.parse_expressao_logica_loop f free node)
                        (Framed.parse_expressao_logica_loop f' free node)) /\
  (forall frames, refines (Framed.parse_expressao_relacional f frames)
                          (Framed.parse_expressao_relacional f' frames)) /\
  (forall frames, refines (Framed.parse_expressao_aritmetica f frames)
                          (Framed.parse_expressao_aritmetica f' frames)) /\
  (forall free node,
     refines (Framed.parse_expressao_aritmetica_loop f free node)
             (Framed.parse_expressao_aritmetica_loop f' free node)) /\
  (forall frames, refines (Framed.parse_termo f frames)
                          (Framed.parse_termo f' frames)) /\
  (forall free node, refines (Framed.parse_termo_loop f free node)
                             (Framed.parse_termo_loop f' free node)) /\
  (forall frames, refines (Framed.parse_fator f frames)
                          (Framed.parse_fator f' frames)).
Proof.
  induction f as [|f IH]; intros f' Hle.
  { repeat split; intros; apply refines_out_of_fuel. }
  destruct f' as [|f']; [lia|]. assert (Hle' : f <= f') by lia.
  destruct (IH f' Hle') as (H1 & H2 & H3 & H4 & H5 & H6 & H7 & H8).
  repeat split; intros;
    cbn [Framed.parse_expressao_logica Framed.parse_expressao_logica_loop
         Framed.parse_expressao_relacional Framed.parse_expressao_aritmetica
         Framed.parse_expressao_aritmetica_loop Framed.parse_termo
         Framed.parse_termo_loop Framed.parse_fator];
    framed_mono.
Qed.

Lemma parse_expressao_logica_more_fuel f f' frames :
  f <= f' ->
  refines (Framed.parse_expressao_logica f frames)
          (Framed.parse_expressao_logica f' frames).
Proof. intros H. apply (expressions_more_fuel H). Qed.

#[local] Hint Resolve parse_expressao_logica_more_fuel : mono.

Lemma parse_atribuicao_more_fuel f f' frames :
  f <= f' ->
  refines (Framed.parse_atribuicao f frames)
          (Framed.parse_atribuicao f' frames).
Proof. intros Hle. unfold Framed.parse_atribuicao. framed_mono. Qed.

#[local] Hint Resolve parse_atribuicao_more_fuel : mono.

Lemma commands_more_fuel f :
  forall f', f <= f' ->
  (forall frames, refines (Framed.parse_comandos f frames)
                          (Framed.parse_comandos f' frames)) /\
  (forall free node, refines (Framed.parse_comandos_loop f free node)
                             (Framed.parse_comandos_loop f' free node)) /\
  (forall frames, refines (Framed.parse_comando f frames)
                          (Framed.parse_comando f' frames)) /\
  (forall frames, refines (Framed.parse_if f frames)
                          (Framed.parse_if f' frames)).
Proof.
  induction f as [|f IH]; intros f' Hle.
  { repeat split; intros; apply refines_out_of_fuel. }
  destruct f' as [|f']; [lia|]. assert (Hle' : f <= f') by lia.
  destruct (IH f' Hle') as (H1 & H2 & H3 & H4).
  repeat split; intros;
    cbn [Framed.parse_comandos Framed.parse_comandos_loop
         Framed.parse_comando Framed.parse_if];
    framed_mono.
Qed.

Lemma parse_comandos_more_fuel f f' frames :
  f <= f' ->
  refines (Framed.parse_comandos f frames) (Framed.parse_comandos f' frames).
Proof. intros H. apply (commands_more_fuel H). Qed.

#[local] Hint Resolve parse_comandos_more_fuel parse_decls_more_fuel : mono.

Lemma parse_programa_more_fuel f f' frames :
  f <= f' ->
  refines (Framed.parse_programa f frames) (Framed.parse_programa f' frames).
Proof. intros Hle. unfold Framed.parse_programa. framed_mono. Qed.


(** *** Fewer frames *)

(** [short_of m m']: the run [m] ends as [m'] does, unless it overflows
    the stack. *)
Definition short_of {A} (m m' : M state A) : Prop :=
  forall st, m st = Raise RecursionError \/ m st = m' st.

Lemma short_refl A (m : M state A) : short_of m m.
Proof. intros st. right. reflexivity. Qed.

Lemma short_bind A B (m m' : M state A) (k k' : A -> M state B) :
  short_of m m' -> (forall a, short_of (k a) (k' a)) ->
  short_of (bind m k) (bind m' k').
Proof.
  intros Hm Hk st. unfold bind. destruct (Hm st) as [H | H]; rewrite H.
  - left. reflexivity.
  - destruct (m' st); auto. apply Hk.
Qed.

Lemma short_call A frames frames' (f f' : nat -> M state A) :
  frames <= frames' ->
  (forall free free', free <= free' -> short_of (f free) (f' free')) ->
  short_of (Framed.call frames f) (Framed.call frames' f').
Proof.
  intros Hle H. destruct frames as [|free]; [left; reflexivity|].
  destruct frames' as [|free']; [lia|]. apply H. lia.
Qed.

Create HintDb short.

Ltac short_step :=
  match goal with
  | |- short_of ?m ?m => apply short_refl
  | |- short_of (bind _ _) (bind _ _) => apply short_bind; [|intros ?]
  | |- short_of (Framed.call _ _) (Framed.call _ _) =>
      apply short_call; [assumption|intros ? ? ?]
  | |- short_of (match ?x with _ => _ end) (match ?x with _ => _ end) =>
      destruct x
  | |- short_of _ _ => solve [eauto with short]
  end.
Ltac short_tac := repeat short_step.

Lemma new_node_short free free' label :
  free <= free' ->
  short_of (Framed.new_node free label) (Framed.new_node free' label).
Proof. intros H. unfold Framed.new_node. short_tac. Qed.

Lemma add_child_short free free' node child :
  free <= free' ->
  short_of (Framed.add_child free node child)
           (Framed.add_child free' node child).
Proof. intros H. unfold Framed.add_child. short_tac. Qed.

Lemma syntax_error_short free free' message token :
  free <= free' ->
  short_of (Framed.syntax_error free message token)
           (Framed.syntax_error free' message token).
Proof. intros H. unfold Framed.syntax_error. short_tac. Qed.

Lemma advance_short free free' :
  free <= free' -> short_of (Framed.advance free) (Framed.advance free').
Proof. intros H. unfold Framed.advance. short_tac. Qed.

Lemma peek_next_type_short free free' offset :
  free <= free' ->
  short_of (Framed.peek_next_type free offset)
           (Framed.peek_next_type free' offset).
Proof. intros H. unfold Framed.peek_next_type. short_tac. Qed.

Lemma peek_is_colon_short free free' :
  free <= free' ->
  short_of (Framed.peek_is_colon free) (Framed.peek_is_colon free').
Proof. intros H. unfold Framed.peek_is_colon. short_tac. Qed.

#[local] Hint Resolve new_node_short add_child_short syntax_error_short
  advance_short peek_next_type_short peek_is_colon_short : short.

Lemma eat_short free free' token_type :
  free <= free' ->
  short_of (Framed.eat free token_type) (Framed.eat free' token_type).
Proof. intros H. unfold Framed.eat. short_tac. Qed.

#[local] Hint Resolve eat_short : short.

Lemma parse_decl_short free free' :
  free <= free' ->
  short_of (Framed.parse_decl free) (Framed.parse_decl free').
Proof. intros H. unfold Framed.parse_decl. short_tac. Qed.

#[local] Hint Resolve parse_decl_short : short.

Lemma parse_decls_loop_short fuel free free' node :
  free <= free' ->
  short_of (Framed.parse_decls_loop fuel free node)
           (Framed.parse_decls_loop fuel free' node).
Proof.
  intros H. revert node. induction fuel as [|fuel IH]; intros node;
    [apply short_refl|].
  cbn [Framed.parse_decls_loop]. short_tac.
Qed.

#[local] Hint Resolve parse_decls_loop_short : short.

Lemma parse_decls_short fuel frames frames' :
  frames <= frames' ->
  short_of (Framed.parse_decls fuel frames)
           (Framed.parse_decls fuel frames').
Proof. intros H. unfold Framed.parse_decls. short_tac. Qed.

Lemma wrap_operator_short free free' op node (m m' : M state Node.t) :
  free <= free' -> short_of m m' ->
  short_of (Framed.wrap_operator free op node m)
           (Framed.wrap_operator free' op node m').
Proof. intros H Hm. unfold Framed.wrap_operator. short_tac. Qed.

#[local] Hint Resolve wrap_operator_short : short.

Lemma expressions_short fuel :
  (forall a b, a <= b ->
     short_of (Framed.parse_expressao_logica fuel a)
              (Framed.parse_expressao_logica fuel b)) /\
  (forall a b node, a <= b ->
     short_of (Framed.parse_expressao_logica_loop fuel a node)
              (Framed.parse_expressao_logica_loop fuel b node)) /\
  (forall a b, a <= b ->
     short_of (Framed.parse_expressao_relacional fuel a)
              (Framed.parse_expressao_relacional fuel b)) /\
  (forall a b, a <= b ->
     short_of (Framed.parse_expressao_aritmetica fuel a)
              (Framed.parse_expressao_aritmetica fuel b)) /\
  (forall a b node, a <= b ->
     short_of (Framed.parse_expressao_aritmetica_loop fuel a node)
              (Framed.parse_expressao_aritmetica_loop fuel b node)) /\
  (forall a b, a <= b ->
     short_of (Framed.parse_termo fuel a) (Framed.parse_termo fuel b)) /\
  (forall a b node, a <= b ->
     short_of (Framed.parse_termo_loop fuel a node)
              (Framed.parse_termo_loop fuel b node)) /\
  (forall a b, a <= b ->
     short_of (Framed.parse_fator fuel a) (Framed.parse_fator fuel b)).
Proof.
  induction fuel as [|fuel IH].
  { repeat split; intros; apply short_refl. }
  destruct IH as (H1 & H2 & H3 & H4 & H5 & H6 & H7 & H8).
  repeat split; intros;
    cbn [Framed.parse_expressao_logica Framed.parse_expressao_logica_loop
         Framed.parse_expressao_relacional Framed.parse_expressao_aritmetica
         Framed.parse_expressao_aritmetica_loop Framed.parse_termo
         Framed.parse_termo_loop Framed.parse_fator];
    short_tac.
Qed.

Lemma parse_expressao_logica_short fuel a b :
  a <= b ->
  short_of (Framed.parse_expressao_logica fuel a)
           (Framed.parse_expressao_logica fuel b).
Proof. apply expressions_short. Qed.

#[local] Hint Resolve parse_expressao_logica_short : short.

Lemma parse_atribuicao_short fuel a b :
  a <= b ->
  short_of (Framed.parse_atribuicao fuel a) (Framed.parse_atribuicao fuel b).
Proof. intros H. unfold Framed.parse_atribuicao. short_tac. Qed.

#[local] Hint Resolve parse_atribuicao_short : short.

Lemma commands_short fuel :
  (forall a b, a <= b ->
     short_of (Framed.parse_comandos fuel a) (Framed.parse_comandos fuel b))
  /\
  (forall a b node, a <= b ->
     short_of (Framed.parse_comandos_loop fuel a node)
              (Framed.parse_comandos_loop fuel b node)) /\
  (forall a b, a <= b ->
     short_of (Framed.parse_comando fuel a) (Framed.parse_comando fuel b)) /\
  (forall a b, a <= b ->
     short_of (Framed.parse_if fuel a) (Framed.parse_if fuel b)).
Proof.
  induction fuel as [|fuel IH].
  { repeat split; intros; apply short_refl. }
  destruct IH as (H1 & H2 & H3 & H4).
  repeat split; intros;
    cbn [Framed.parse_comandos Framed.parse_comandos_loop
         Framed.parse_comando Framed.parse_if];
    short_tac.
Qed.

Lemma parse_comandos_short fuel a b :
  a <= b ->
  short_of (Framed.parse_comandos fuel a) (Framed.parse_comandos fuel b).
Proof. apply commands_short. Qed.

#[local] Hint Resolve parse_comandos_short parse_decls_short : short.

Lemma parse_programa_short fuel a b :
  a <= b ->
  short_of (Framed.parse_programa fuel a) (Framed.parse_programa fuel b).
Proof. intros H. unfold Framed.parse_programa. short_tac. Qed.


(** *** Enough frames *)

(** [same m m']: the two runs end alike from every state. *)
Definition same {A} (m m' : M state A) : Prop := forall st, m st = m' st.

Lemma same_refl A (m : M state A) : same m m.
Proof. intros st. reflexivity. Qed.

Lemma same_bind A B (m m' : M state A) (k k' : A -> M state B) :
  same m m' -> (forall a, same (k a) (k' a)) ->
  same (bind m k) (bind m' k').
Proof.
  intros Hm Hk st. unfold bind. rewrite Hm. destruct (m' st); auto. apply Hk.
Qed.

Lemma same_bind_ret A B (x : A) (k : A -> M state B) (m' : M state B) :
  same (k x) m' -> same (bind (ret x) k) m'.
Proof. intros H st. exact (H st). Qed.

Create HintDb same.

Ltac same_step :=
  match goal with
  | |- same ?m ?m => apply same_refl
  | |- same (bind (ret _) _) _ => apply same_bind_ret
  | |- same (bind _ _) (bind _ _) => apply same_bind; [|intros ?]
  | |- same (match ?x with _ => _ end) (match ?x with _ => _ end) =>
      destruct x
  | |- same _ _ => solve [intros ?; reflexivity]
  | |- same _ _ => solve [eauto with same]
  end.

(** With a frame free, the methods that call nothing run as on the
    unbounded stack. *)
Ltac leaves :=
  cbn [Framed.new_node Framed.add_child Framed.syntax_error Framed.advance
       Framed.peek_next_type Framed.peek_is_colon Framed.call];
  cbv zeta.
Ltac same_tac := leaves; repeat same_step.

Lemma eat_same frames token_type :
  2 <= frames -> same (Framed.eat frames token_type) (eat token_type).
Proof.
  intros H. destruct frames as [|[|free]]; try lia.
  unfold Framed.eat, eat. same_tac.
Qed.

#[local] Hint Resolve eat_same : same.


#[local] Hint Extern 1 (_ <= _) => lia : same.

Lemma parse_decl_same frames :
  3 <= frames -> same (Framed.parse_decl frames) parse_decl.
Proof.
  intros H. destruct frames as [|[|[|free]]]; try lia.
  unfold Framed.parse_decl, parse_decl. same_tac.
Qed.

#[local] Hint Resolve parse_decl_same : same.

Lemma parse_decls_loop_same fuel free node :
  3 <= free ->
  same (Framed.parse_decls_loop fuel free node) (parse_decls_loop fuel node).
Proof.
  intros H. revert node. induction fuel as [|fuel IH]; intros node;
    [apply same_refl|].
  destruct free as [|[|[|free]]]; try lia.
  cbn [Framed.parse_decls_loop parse_decls_loop]. same_tac.
Qed.

#[local] Hint Resolve parse_decls_loop_same : same.

Lemma parse_decls_same fuel frames :
  4 <= frames -> same (Framed.parse_decls fuel frames) (parse_decls fuel).
Proof.
  intros H. destruct frames as [|[|[|[|free]]]]; try lia.
  unfold Framed.parse_decls, parse_decls. same_tac.
Qed.

Lemma wrap_operator_same free op node (m m' : M state Node.t) :
  1 <= free -> same m m' ->
  same (Framed.wrap_operator free op node m) (wrap_operator op node m').
Proof.
  intros H Hm. destruct free as [|free]; try lia.
  unfold Framed.wrap_operator, wrap_operator. same_tac.
Qed.

#[local] Hint Resolve wrap_operator_same : same.

Lemma expressions_same fuel :
  (forall frames, fuel + 2 <= frames ->
     same (Framed.parse_expressao_logica fuel frames)
          (parse_expressao_logica fuel)) /\
  (forall free node, fuel + 2 <= free ->
     same (Framed.parse_expressao_logica_loop fuel free node)
          (parse_expressao_logica_loop fuel node)) /\
  (forall frames, fuel + 2 <= frames ->
     same (Framed.parse_expressao_relacional fuel frames)
          (parse_expressao_relacional fuel)) /\
  (forall frames, fuel + 2 <= frames ->
     same (Framed.parse_expressao_aritmetica fuel frames)
          (parse_expressao_aritmetica fuel)) /\
  (forall free node, fuel + 2 <= free ->
     same (Framed.parse_expressao_aritmetica_loop fuel free node)
          (parse_expressao_aritmetica_loop fuel node)) /\
  (forall frames, fuel + 2 <= frames ->
     same (Framed.parse_termo fuel frames) (parse_termo fuel)) /\
  (forall free node, fuel + 2 <= free ->
     same (Framed.parse_termo_loop fuel free node)
          (parse_termo_loop fuel node)) /\
  (forall frames, fuel + 2 <= frames ->
     same (Framed.parse_fator fuel frames) (parse_fator fuel)).
Proof.
  induction fuel as [|fuel IH].
  { repeat split; intros; apply same_refl. }
  destruct IH as (H1 & H2 & H3 & H4 & H5 & H6 & H7 & H8).
  repeat split; intros frames;
    [ | intros node | | | intros node | | intros node | ];
    intros Hle;
    (destruct frames as [|[|[|free]]]; try lia);
    cbn [Framed.parse_expressao_logica Framed.parse_expressao_logica_loop
         Framed.parse_expressao_relacional Framed.parse_expressao_aritmetica
         Framed.parse_expressao_aritmetica_loop Framed.parse_termo
         Framed.parse_termo_loop Framed.parse_fator
         parse_expressao_logica parse_expressao_logica_loop
         parse_expressao_relacional parse_expressao_aritmetica
         parse_expressao_aritmetica_loop parse_termo parse_termo_loop
         parse_fator];
    same_tac.
Qed.


Lemma parse_expressao_logica_same fuel frames :
  fuel + 2 <= frames ->
  same (Framed.parse_expressao_logica fuel frames)
       (parse_expressao_logica fuel).
Proof. apply expressions_same. Qed.

#[local] Hint Resolve parse_expressao_logica_same : same.

Lemma parse_atribuicao_same fuel frames :
  fuel + 3 <= frames ->
  same (Framed.parse_atribuicao fuel frames) (parse_atribuicao fuel).
Proof.
  intros H. destruct frames as [|[|[|free]]]; try lia.
  unfold Framed.parse_atribuicao, parse_atribuicao. same_tac.
Qed.

#[local] Hint Resolve parse_atribuicao_same : same.

Lemma commands_same fuel :
  (forall frames, fuel + 3 <= frames ->
     same (Framed.parse_comandos fuel frames) (parse_comandos fuel)) /\
  (forall free node, fuel + 3 <= free ->
     same (Framed.parse_comandos_loop fuel free node)
          (parse_comandos_loop fuel node)) /\
  (forall frames, fuel + 3 <= frames ->
     same (Framed.parse_comando fuel frames) (parse_comando fuel)) /\
  (forall frames, fuel + 3 <= frames ->
     same (Framed.parse_if fuel frames) (parse_if fuel)).
Proof.
  induction fuel as [|fuel IH].
  { repeat split; intros; apply same_refl. }
  destruct IH as (H1 & H2 & H3 & H4).
  repeat split; intros frames; [ | intros node | | ]; intros Hle;
    (destruct frames as [|[|[|[|free]]]]; try lia);
    cbn [Framed.parse_comandos Framed.parse_comandos_loop
         Framed.parse_comando Framed.parse_if
         parse_comandos parse_comandos_loop parse_comando parse_if];
    same_tac.
Qed.

Lemma parse_comandos_same fuel frames :
  fuel + 3 <= frames ->
  same (Framed.parse_comandos fuel frames) (parse_comandos fuel).
Proof. apply commands_same. Qed.

#[local] Hint Resolve parse_comandos_same parse_decls_same : same.

Lemma parse_programa_same fuel frames :
  fuel + 5 <= frames ->
  same (Framed.parse_programa fuel frames) (parse_programa fuel).
Proof.
  intros H. destruct frames as [|[|[|[|[|free]]]]]; try lia.
  unfold Framed.parse_programa, parse_programa. same_tac.
Qed.

(** *** Any number of frames *)

Lemma short_same A (m m1 m' : M state A) :
  short_of m m1 -> same m1 m' -> short_of m m'.
Proof.
  intros H1 H2 st. destruct (H1 st) as [H | H]; [auto|].
  right. rewrite H. apply H2.
Qed.

Lemma short_ok A (m m' : M state A) st a st' :
  short_of m m' -> m st = Ok a st' -> m' st = Ok a st'.
Proof. intros H Hm. destruct (H st) as [H' | H']; congruence. Qed.

(** On any stack, a rule ends as on the unbounded stack or overflows. *)
Lemma advance_unbounded frames : short_of (Framed.advance frames) advance.
Proof.
  intros st. destruct frames; [left; reflexivity|right; reflexivity].
Qed.

Lemma parse_decl_unbounded frames :
  short_of (Framed.parse_decl frames) parse_decl.
Proof.
  apply short_same with (m1 := Framed.parse_decl (Nat.max frames 3)).
  - apply parse_decl_short. apply Nat.le_max_l.
  - apply parse_decl_same. apply Nat.le_max_r.
Qed.

Lemma expressions_unbounded fuel frames :
  short_of (Framed.parse_expressao_logica fuel frames)
           (parse_expressao_logica fuel) /\
  short_of (Framed.parse_expressao_relacional fuel frames)
           (parse_expressao_relacional fuel) /\
  short_of (Framed.parse_expressao_aritmetica fuel frames)
           (parse_expressao_aritmetica fuel) /\
  short_of (Framed.parse_termo fuel frames) (parse_termo fuel) /\
  short_of (Framed.parse_fator fuel frames) (parse_fator fuel).
Proof.
  destruct (expressions_short fuel) as (S1 & _ & S3 & S4 & _ & S6 & _ & S8).
  destruct (expressions_same fuel) as (E1 & _ & E3 & E4 & _ & E6 & _ & E8).
  pose proof (Nat.le_max_l frames (fuel + 2)) as Hl.
  pose proof (Nat.le_max_r frames (fuel + 2)) as Hr.
  repeat apply conj; eapply short_same; eauto.
Qed.

Lemma commands_unbounded fuel frames :
  short_of (Framed.parse_comandos fuel frames) (parse_comandos fuel) /\
  short_of (Framed.parse_comando fuel frames) (parse_comando fuel) /\
  short_of (Framed.parse_if fuel frames) (parse_if fuel).
Proof.
  destruct (commands_short fuel) as (S1 & _ & S3 & S4).
  destruct (commands_same fuel) as (E1 & _ & E3 & E4).
  pose proof (Nat.le_max_l frames (fuel + 3)) as Hl.
  pose proof (Nat.le_max_r frames (fuel + 3)) as Hr.
  repeat apply conj; eapply short_same; eauto.
Qed.

Lemma parse_programa_unbounded fuel frames :
  short_of (Framed.parse_programa fuel frames) (parse_programa fuel).
Proof.
  apply short_same
    with (m1 := Framed.parse_programa fuel (Nat.max frames (fuel + 5))).
  - apply parse_programa_short. apply Nat.le_max_l.
  - apply parse_programa_same. apply Nat.le_max_r.
Qed.

End FramedFacts.

(** ** The token sequence and the parser's index *)

Section TokenSequence.
Import Lexer.
Import LexerFacts.

(** Whatever [tokenize] returns for a source text is a list of tokens that
    are not end markers followed by exactly one end marker. *)
Lemma tokenize_shape src fuel toks st' :
  tokenize fuel (init src) = Ok toks st' ->
  exists front eof,
    toks = front ++ [eof] /\
    Token.type eof = "EOF"%string /\
    Forall (fun t => String.eqb (Token.type t) "EOF" = false) front.
Proof.
  intros Hrun.
  set (big := Nat.max fuel (List.length (rest (init src)) + 3)).
  assert (Hbig : tokenize big (init src) = Ok toks st').
  { eapply refines_ok; [|exact Hrun].
    apply tokenize_loop_mono. apply Nat.le_max_l. }
  pose proof (@tokenize_loop_total big [] (init src) (wf_init src)
                (Nat.le_max_r _ _)) as Htot.
  unfold wp in Htot. fold (tokenize big) in Htot. rewrite Hbig in Htot.
  destruct Htot as (_ & _ & _ & new & eof & Htoks & Hnew & Hty & _).
  exists new, eof. split; [assumption|]. split; [assumption|].
  revert Hnew. apply Forall_impl. intros t [H _]. exact H.
Qed.

Lemma eof_last_of_tokenize src fuel toks st' :
  tokenize fuel (init src) = Ok toks st' -> ParserFacts.eof_last toks.
Proof.
  intros Hrun. destruct (tokenize_shape _ _ Hrun) as (front & eof & H & Hty & _).
  exists front, eof. auto.
Qed.
End TokenSequence.

(** * The claims *)

Section Claims.
Import ParserFacts.

(** The parser as [Parser.__init__] leaves it on the tokens [ts], whose
    first token is [t0]. *)
Definition parser_on (ts : list Token.t) (t0 : Token.t) : Parser.state :=
  Parser.mk ts 0 t0.

Lemma wf_parser_on ts t0 : nth_error ts 0 = Some t0 -> wf ts (parser_on ts t0).
Proof.
  intros H. split; cbn [Parser.tokens Parser.pos Parser.current_token
                       parser_on]; auto.
  apply nth_error_Some. rewrite H. discriminate.
Qed.

Lemma parse_programa_answer ts st fuel :
  eof_last ts -> wf ts st ->
  5 * (List.length ts - Parser.pos st) + 4 <= fuel ->
  (exists root st', Parser.parse_programa fuel st = Ok root st'
                    /\ programa_post ts root st') \/
  (exists message token,
     Parser.parse_programa fuel st = Raise (SyntaxError_ message token)).
Proof.
  intros Heof Hwf Hf.
  pose proof (parse_programa_post Heof Hwf Hf) as H. unfold wp in H.
  destruct (Parser.parse_programa fuel st) as [root st'|e|]; [eauto| |easy].
  destruct e; try contradiction. eauto.
Qed.

Lemma parse_programa_ok ts st fuel root st' :
  eof_last ts -> wf ts st ->
  Parser.parse_programa fuel st = Ok root st' ->
  programa_post ts root st'.
Proof.
  intros Heof Hwf Hrun.
  set (big := Nat.max fuel (5 * (List.length ts - Parser.pos st) + 4)).
  assert (Hbig : Parser.parse_programa big st = Ok root st').
  { eapply LexerFacts.refines_ok; [|exact Hrun].
    apply parse_programa_mono. apply Nat.le_max_l. }
  destruct (@parse_programa_answer ts st big Heof Hwf (Nat.le_max_r _ _))
    as [(r & s & Hr & Hpost) | (m & t & Hr)]; congruence.
Qed.

(** C10. The parser never reads past the end of the token sequence:
    [tokenize] returns a non-empty list whose last element is the [EOF]
    token; [Parser.advance] moves the index only while it is strictly
    below the last position, so the index stays inside the sequence, the
    current token is the token under it, and on the last token, which is
    the [EOF] token, it does not move; [peek_next_type] returns [None]
    when the offset leads past the end; and [parse_programa] never raises
    [IndexError]. *)
Theorem parser_never_reads_past_the_end :
  (forall src fuel toks st',
     Lexer.tokenize fuel (Lexer.init src) = Ok toks st' ->
     exists front eof,
       toks = front ++ [eof] /\ Token.type eof = "EOF"%string) /\
  (forall ts st,
     wf ts st ->
     exists st',
       Parser.advance st = Ok tt st' /\ wf ts st' /\
       Parser.pos st'
       = if Parser.pos st + 1 <? List.length ts
         then Parser.pos st + 1 else Parser.pos st) /\
  (forall ts st,
     eof_last ts -> wf ts st -> Parser.pos st + 1 = List.length ts ->
     Parser.advance st = Ok tt st /\
     Token.type (Parser.current_token st) = "EOF"%string) /\
  (forall st offset,
     List.length (Parser.tokens st) <= Parser.pos st + offset ->
     Parser.peek_next_type offset st = Ok None st) /\
  (forall ts st fuel,
     eof_last ts -> wf ts st ->
     Parser.parse_programa fuel st <> Raise IndexError).
Proof.
  split; [|split; [|split; [|split]]].
  - intros src fuel toks st' Hrun.
    destruct (tokenize_shape _ _ Hrun) as (front & eof & H & Hty & _).
    eauto.
  - intros ts st Hwf. pose proof (wf_pos Hwf) as Hp.
    destruct (nth_error ts (Parser.pos st + 1)) as [t|] eqn:Hnext.
    + assert (Hlt : Parser.pos st + 1 < List.length ts).
      { apply nth_error_Some. congruence. }
      exists (Parser.mk ts (Parser.pos st + 1) t).
      split; [apply (advance_next Hwf Hnext)|].
      split; [split; cbn; auto|]. cbn [Parser.pos].
      apply Nat.ltb_lt in Hlt. rewrite Hlt. reflexivity.
    + apply nth_error_None in Hnext. exists st.
      split; [apply (advance_pinned Hwf); lia|]. split; [assumption|].
      replace (Parser.pos st + 1 <? List.length ts) with false; auto.
      symmetry. apply Nat.ltb_ge. assumption.
  - intros ts st Heof Hwf Hlast.
    split; [apply (advance_pinned Hwf Hlast)|].
    destruct (String.eqb (Token.type (Parser.current_token st)) "EOF")
      eqn:Hty; [apply String.eqb_eq; assumption|].
    pose proof (not_last Heof Hwf Hty). lia.
  - intros st offset Hle. unfold Parser.peek_next_type, bind, get, ret.
    apply Nat.ltb_ge in Hle. rewrite Hle. reflexivity.
  - intros ts st fuel Heof Hwf Hrun.
    set (big := Nat.max fuel (5 * (List.length ts - Parser.pos st) + 4)).
    assert (Hbig : Parser.parse_programa big st = Raise IndexError).
    { eapply LexerFacts.refines_raise; [|exact Hrun].
      apply parse_programa_mono. apply Nat.le_max_l. }
    destruct (@parse_programa_answer ts st big Heof Hwf (Nat.le_max_r _ _))
      as [(r & s & Hr & _) | (m & t & Hr)]; congruence.
Qed.

(** The theorem at the text [x] and at its two tokens. *)
Lemma parser_never_reads_past_the_end_witness :
  (exists front eof,
     [Token.mk "IDENTIFIER" (Some "x"%string) 1 1; Token.mk "EOF" None 1 1]
     = front ++ [eof] /\ Token.type eof = "EOF"%string) /\
  Parser.peek_next_type 2
    (parser_on [Token.mk "IDENTIFIER" (Some "x"%string) 1 1;
                Token.mk "EOF" None 1 1]
       (Token.mk "IDENTIFIER" (Some "x"%string) 1 1))
  = Ok None
      (parser_on [Token.mk "IDENTIFIER" (Some "x"%string) 1 1;
                  Token.mk "EOF" None 1 1]
         (Token.mk "IDENTIFIER" (Some "x"%string) 1 1)).
Proof.
  split.
  - apply (proj1 parser_never_reads_past_the_end
             (list_ascii_of_string "x") 4 _
             (Lexer.mk (list_ascii_of_string "x") 1 1 None 1 1)).
    reflexivity.
  - apply (proj1 (proj2 (proj2 (proj2 parser_never_reads_past_the_end)))).
    cbn. lia.
Defined.

(** The outcomes that [main] reports: a tree, a lexical fault or a syntax
    fault. *)
Definition reported (o : outcome) : Prop :=
  match o with
  | Success _ | LexicalFault _ _ _ _ | SyntaxFault _ _ => True
  | Crash | Overflow | NoAnswer => False
  end.

Lemma tokenize_answer src fuel :
  Lexer.length (Lexer.init src) + 3 <= fuel ->
  (exists toks st', Lexer.tokenize fuel (Lexer.init src) = Ok toks st') \/
  (exists message l c char,
     Lexer.tokenize fuel (Lexer.init src)
     = Raise (LexicalError message l c char)).
Proof.
  intros Hf. pose proof (LexerFacts.wf_init src) as Hwf.
  assert (Hf' : List.length (LexerFacts.rest (Lexer.init src)) + 3 <= fuel).
  { rewrite LexerFacts.rest_length by assumption. lia. }
  pose proof (LexerFacts.tokenize_loop_total [] Hwf Hf') as H.
  unfold wp in H. fold (Lexer.tokenize fuel) in H.
  destruct (Lexer.tokenize fuel (Lexer.init src)) as [toks st'|e|];
    [eauto| |easy].
  destruct e; try contradiction. right. eauto.
Qed.

Lemma analyse_lexical src fuel message l c char :
  Lexer.tokenize fuel (Lexer.init src)
  = Raise (LexicalError message l c char) ->
  Parser.init fuel (Lexer.init src) = Raise (LexicalError message l c char)
  /\ analyse fuel src = LexicalFault message l c char.
Proof.
  intros H. unfold analyse, Parser.init. rewrite H. auto.
Qed.

(** *** The parse on a bounded stack *)

(** With the fuel that is enough on the unbounded stack, the parse on a
    stack with [frames] frames free returns the tree, raises the syntax
    error, or overflows. *)
Lemma framed_parse_answer ts st fuel frames :
  eof_last ts -> wf ts st ->
  5 * (List.length ts - Parser.pos st) + 4 <= fuel ->
  (exists root st', Framed.parse_programa fuel frames st = Ok root st') \/
  (exists message token,
     Framed.parse_programa fuel frames st
     = Raise (SyntaxError_ message token)) \/
  Framed.parse_programa fuel frames st = Raise RecursionError.
Proof.
  intros Heof Hwf Hf.
  destruct (FramedFacts.parse_programa_unbounded fuel frames st) as [H | H];
    [auto|].
  rewrite H.
  destruct (@parse_programa_answer ts st fuel Heof Hwf Hf)
    as [(root & st' & Hr & _) | (m & t & Hr)]; eauto.
Qed.

(** More fuel than that changes nothing. *)
Lemma framed_parse_stable ts st fuel frames :
  eof_last ts -> wf ts st ->
  5 * (List.length ts - Parser.pos st) + 4 <= fuel ->
  Framed.parse_programa fuel frames st
  = Framed.parse_programa (5 * (List.length ts - Parser.pos st) + 4)
      frames st.
Proof.
  intros Heof Hwf Hf.
  apply FramedFacts.parse_programa_more_fuel; [assumption|].
  destruct (@framed_parse_answer ts st _ frames Heof Hwf (Nat.le_refl _))
    as [(r & s & ->) | [(m & t & ->) | ->]]; discriminate.
Qed.

(** With five frames more than that fuel, the parse on the bounded stack
    is the parse on the unbounded one. *)
Lemma framed_parse_enough ts st fuel frames :
  eof_last ts -> wf ts st ->
  5 * (List.length ts - Parser.pos st) + 4 <= fuel ->
  5 * (List.length ts - Parser.pos st) + 9 <= frames ->
  Framed.parse_programa fuel frames st = Parser.parse_programa fuel st.
Proof.
  intros Heof Hwf Hf Hframes.
  rewrite (framed_parse_stable frames Heof Hwf Hf).
  rewrite FramedFacts.parse_programa_same by lia.
  symmetry. apply parse_programa_mono; [assumption|].
  destruct (@parse_programa_answer ts st _ Heof Hwf (Nat.le_refl _))
    as [(r & s & -> & _) | (m & t & ->)]; discriminate.
Qed.

(** The outcome of the analysis of a text whose tokens are [toks]. *)
Definition parse_outcome (r : result Parser.state Node.t) : outcome :=
  match r with
  | Ok root _ => Success root
  | Raise (LexicalError m l c ch) => LexicalFault m l c ch
  | Raise (SyntaxError_ m t) => SyntaxFault m t
  | Raise IndexError => Crash
  | Raise RecursionError => Overflow
  | OutOfFuel => NoAnswer
  end.

Lemma framed_analyse_tokens src fuel0 toks lexer' t0 fuel frames :
  Lexer.tokenize fuel0 (Lexer.init src) = Ok toks lexer' ->
  nth_error toks 0 = Some t0 ->
  Nat.max fuel0 (5 * List.length toks + 4) <= fuel ->
  Framed.analyse fuel frames src
  = parse_outcome
      (Framed.parse_programa (5 * List.length toks + 4) frames
         (parser_on toks t0)).
Proof.
  intros Hscan Ht0 Hfuel.
  pose proof (eof_last_of_tokenize _ _ Hscan) as Heof.
  pose proof (wf_parser_on _ Ht0) as Hwf.
  assert (Hle : fuel0 <= fuel) by lia.
  unfold Framed.analyse, Parser.init.
  rewrite (@LexerFacts.refines_ok _ _ (Lexer.tokenize fuel0)
             (Lexer.tokenize fuel) _ _ _
             (LexerFacts.tokenize_loop_mono [] Hle) Hscan).
  rewrite Ht0.
  change (Parser.mk toks 0 t0) with (parser_on toks t0).
  rewrite (@framed_parse_stable toks (parser_on toks t0) fuel frames Heof Hwf)
    by (cbn [Parser.pos parser_on]; lia).
  cbn [Parser.pos parser_on]. rewrite Nat.sub_0_r. reflexivity.
Qed.

Lemma framed_analyse_lexical src fuel frames message l c char :
  Lexer.tokenize fuel (Lexer.init src)
  = Raise (LexicalError message l c char) ->
  Parser.init fuel (Lexer.init src) = Raise (LexicalError message l c char)
  /\ Framed.analyse fuel frames src = LexicalFault message l c char.
Proof.
  intros H. unfold Framed.analyse, Parser.init. rewrite H. auto.
Qed.

Lemma framed_analyse_answer src frames :
  exists o F,
    (reported o \/ o = Overflow) /\
    forall fuel, F <= fuel -> Framed.analyse fuel frames src = o.
Proof.
  set (F1 := Lexer.length (Lexer.init src) + 3).
  destruct (@tokenize_answer src F1 (Nat.le_refl _))
    as [(toks & st' & Hscan) | (m & l & c & ch & Hscan)].
  - pose proof (eof_last_of_tokenize _ _ Hscan) as Heof.
    assert (Hfirst : exists t0, nth_error toks 0 = Some t0).
    { destruct Heof as (front & eof & -> & _).
      destruct front; cbn; eauto. }
    destruct Hfirst as [t0 Ht0].
    pose proof (wf_parser_on _ Ht0) as Hwf.
    exists (parse_outcome
              (Framed.parse_programa (5 * List.length toks + 4) frames
                 (parser_on toks t0))),
      (Nat.max F1 (5 * List.length toks + 4)).
    split.
    + destruct (@framed_parse_answer toks (parser_on toks t0)
                  (5 * List.length toks + 4) frames Heof Hwf)
        as [(r & s & ->) | [(m & t & ->) | ->]];
        cbn [Parser.pos parser_on parse_outcome reported]; auto; lia.
    + intros fuel Hfuel.
      apply (@framed_analyse_tokens src F1 toks st' t0 fuel frames
               Hscan Ht0 Hfuel).
  - exists (LexicalFault m l c ch), F1. split; [left; exact I|].
    intros fuel Hfuel. apply framed_analyse_lexical.
    eapply LexerFacts.refines_raise; [|exact Hscan].
    apply LexerFacts.tokenize_loop_mono. assumption.
Qed.

Lemma framed_analyse_enough src fuel0 toks lexer' frames :
  Lexer.tokenize fuel0 (Lexer.init src) = Ok toks lexer' ->
  5 * List.length toks + 9 <= frames ->
  exists o F,
    reported o /\
    forall fuel, F <= fuel ->
      Framed.analyse fuel frames src = o /\ analyse fuel src = o.
Proof.
  intros Hscan Hframes.
  pose proof (eof_last_of_tokenize _ _ Hscan) as Heof.
  assert (Hfirst : exists t0, nth_error toks 0 = Some t0).
  { destruct Heof as (front & eof & -> & _). destruct front; cbn; eauto. }
  destruct Hfirst as [t0 Ht0].
  pose proof (wf_parser_on _ Ht0) as Hwf.
  set (F2 := 5 * List.length toks + 4).
  assert (Hpos : 5 * (List.length toks - Parser.pos (parser_on toks t0)) + 4
                 = F2)
    by (cbn [Parser.pos parser_on]; unfold F2; lia).
  exists (parse_outcome (Parser.parse_programa F2 (parser_on toks t0))),
    (Nat.max fuel0 F2).
  split.
  - destruct (@parse_programa_answer toks (parser_on toks t0) F2 Heof Hwf)
      as [(r & s & -> & _) | (m & t & ->)]; [lia|exact I|exact I].
  - intros fuel Hfuel.
    assert (Hsame : Parser.parse_programa fuel (parser_on toks t0)
                    = Parser.parse_programa F2 (parser_on toks t0)).
    { apply parse_programa_mono; [lia|].
      destruct (@parse_programa_answer toks (parser_on toks t0) F2 Heof Hwf)
        as [(r & s & -> & _) | (m & t & ->)]; [lia|discriminate..]. }
    split.
    + rewrite (@framed_analyse_tokens src fuel0 toks lexer' t0 fuel frames
                 Hscan Ht0 Hfuel).
      fold F2.
      rewrite (@framed_parse_enough toks (parser_on toks t0) F2 frames
                 Heof Hwf) by lia.
      reflexivity.
    + assert (Hle : fuel0 <= fuel) by lia.
      unfold analyse, Parser.init.
      rewrite (@LexerFacts.refines_ok _ _ (Lexer.tokenize fuel0)
                 (Lexer.tokenize fuel) _ _ _
                 (LexerFacts.tokenize_loop_mono [] Hle) Hscan).
      rewrite Ht0. change (Parser.mk toks 0 t0) with (parser_on toks t0).
      rewrite Hsame. reflexivity.
Qed.

Lemma framed_analyse_overflow src fuel frames frames' :
  Framed.analyse fuel frames src = Overflow -> frames' <= frames ->
  Framed.analyse fuel frames' src = Overflow.
Proof.
  unfold Framed.analyse. intros H Hle.
  destruct (Parser.init fuel (Lexer.init src)) as [[] parser|e|];
    [|exact H|exact H].
  destruct (@FramedFacts.parse_programa_short fuel frames' frames Hle parser)
    as [H' | H']; rewrite H'; [reflexivity|exact H].
Qed.

(** A text with [n] groups inside one another:
    [inicio decls fimdecls codigo x = ((...(1)...)) fimprog]. *)
Definition nested_groups (n : nat) : list ascii :=
  list_ascii_of_string "inicio decls fimdecls codigo x = "
  ++ repeat "("%char n ++ ["1"%char] ++ repeat ")"%char n
  ++ list_ascii_of_string " fimprog".

(** C2, as stated, fails: the analysis of the text with 250 groups inside
    one another, which is a program of the grammar, ends in none of the
    three outcomes: with the thousand frames of the interpreter's default
    stack, or fewer, the parser raises [RecursionError], which [main] does
    not catch, whatever the fuel from 3000 on. *)
Lemma deep_nesting_ends_in_an_uncaught_RecursionError :
  Framed.analyse 3000 1000 (nested_groups 250) = Overflow /\
  ~ reported (Framed.analyse 3000 1000 (nested_groups 250)) /\
  (forall fuel frames,
     3000 <= fuel -> frames <= 1000 ->
     Framed.analyse fuel frames (nested_groups 250) = Overflow).
Proof.
  assert (H : forall fuel frames,
            3000 <= fuel -> frames <= 1000 ->
            Framed.analyse fuel frames (nested_groups 250) = Overflow).
  { intros fuel frames Hfuel Hframes.
    apply framed_analyse_overflow with (frames := 1000); [|assumption].
    set (r := Lexer.tokenize 600 (Lexer.init (nested_groups 250))).
    set (toks := match r with Ok t _ => t | _ => [] end).
    set (lexer' := match r with Ok _ s => s | _ => Lexer.init [] end).
    assert (Hscan : r = Ok toks lexer') by (vm_compute; reflexivity).
    assert (Hlen : List.length toks = 509) by (vm_compute; reflexivity).
    assert (Ht0 : nth_error toks 0
                  = Some (Token.mk "INICIO" (Some "inicio"%string) 1 1))
      by (vm_compute; reflexivity).
    rewrite (@framed_analyse_tokens _ 600 toks lexer' _ fuel 1000 Hscan Ht0)
      by (rewrite Hlen; lia).
    vm_compute. reflexivity. }
  pose proof (H 3000 1000 (Nat.le_refl _) (Nat.le_refl _)) as H0.
  split; [exact H0|]. split; [|exact H].
  rewrite H0. intros [].
Qed.

(** C2, amended. For every source text and every number of free frames
    from the six of the scanner on, the analysis has one outcome, the same for every amount of fuel from
    some amount on: a tree, a lexical fault, a syntax fault or, when the
    recursion of the parser finds no free frame, the [RecursionError] that
    [main] does not catch. With five frames per token and nine more the
    outcome is one of the first three, the one of the unbounded stack; an
    overflow stays an overflow on a smaller stack. When tokenizing the
    text raises a lexical error, constructing the parser raises it, so no
    parsing rule runs, and the outcome is that lexical fault on every
    stack that has the six frames of the scanner's deepest call, as for
    the text [inicio x y !], whose tokens before the [!] are already no
    program. *)
Theorem analysis_has_one_outcome_on_a_bounded_stack :
  (forall src frames,
     6 <= frames ->
     exists o F,
       (reported o \/ o = Overflow) /\
       forall fuel, F <= fuel -> Framed.analyse fuel frames src = o) /\
  (forall src fuel0 toks lexer' frames,
     Lexer.tokenize fuel0 (Lexer.init src) = Ok toks lexer' ->
     5 * List.length toks + 9 <= frames ->
     exists o F,
       reported o /\
       forall fuel, F <= fuel ->
         Framed.analyse fuel frames src = o /\ analyse fuel src = o) /\
  (forall src fuel frames frames',
     Framed.analyse fuel frames src = Overflow -> frames' <= frames ->
     Framed.analyse fuel frames' src = Overflow) /\
  (forall src fuel frames message l c char,
     6 <= frames ->
     Lexer.tokenize fuel (Lexer.init src)
     = Raise (LexicalError message l c char) ->
     Parser.init fuel (Lexer.init src)
     = Raise (LexicalError message l c char)
     /\ Framed.analyse fuel frames src = LexicalFault message l c char) /\
  (forall frames,
     6 <= frames ->
     Framed.analyse 40 frames (list_ascii_of_string "inicio x y !")
     = LexicalFault "Unexpected '!' (expected '!=')" 1 12 (Some "!"%char)).
Proof.
  split; [intros src frames _; apply framed_analyse_answer|].
  split; [exact framed_analyse_enough|].
  split; [exact framed_analyse_overflow|].
  split.
  - intros src fuel frames message l c char _.
    apply framed_analyse_lexical.
  - intros frames _. apply framed_analyse_lexical. vm_compute. reflexivity.
Qed.

(** The theorem at the text [x !] and at the text [x], whose two tokens
    need nineteen frames at most. *)
Lemma analysis_has_one_outcome_on_a_bounded_stack_witness :
  Framed.analyse 10 1000 (list_ascii_of_string "x !")
  = LexicalFault "Unexpected '!' (expected '!=')" 1 3 (Some "!"%char) /\
  exists o F,
    reported o /\
    forall fuel, F <= fuel ->
      Framed.analyse fuel 19 (list_ascii_of_string "x") = o /\
      analyse fuel (list_ascii_of_string "x") = o.
Proof.
  split.
  - apply (proj1 (proj2 (proj2 (proj2
             analysis_has_one_outcome_on_a_bounded_stack)))).
    + lia.
    + vm_compute. reflexivity.
  - apply (proj1 (proj2 analysis_has_one_outcome_on_a_bounded_stack)
             (list_ascii_of_string "x") 4
             [Token.mk "IDENTIFIER" (Some "x"%string) 1 1;
              Token.mk "EOF" None 1 1]
             (Lexer.mk (list_ascii_of_string "x") 1 1 None 1 1)).
    + vm_compute. reflexivity.
    + cbn. lia.
Defined.

(** A value returned with some fuel satisfies what is known of the runs
    with enough fuel. *)
Lemma returned_satisfies S A (m : nat -> M S A) bound
    (Q : A -> S -> Prop) (E : exn -> Prop) s fuel a s' :
  (forall f f', f <= f' -> refines (m f) (m f')) ->
  (forall f, bound <= f -> wp (m f) Q E s) ->
  m fuel s = Ok a s' -> Q a s'.
Proof.
  intros Hmono Hwp Hrun.
  pose proof (Hwp (Nat.max fuel bound) (Nat.le_max_r _ _)) as H.
  unfold wp in H.
  rewrite (@LexerFacts.refines_ok _ _ _ _ _ _ _
             (Hmono fuel (Nat.max fuel bound) (Nat.le_max_l _ _)) Hrun) in H.
  exact H.
Qed.

(** Each round of a loop of the parser moves the index forward: a
    declaration, a statement, the advance over an operator and the operand
    parsed after it. *)
Lemma parser_rounds_move_forward :
  (forall ts st node st',
     eof_last ts -> wf ts st ->
     Parser.parse_decl st = Ok node st' ->
     Parser.pos st < Parser.pos st') /\
  (forall ts st fuel node st',
     eof_last ts -> wf ts st ->
     Parser.parse_comando fuel st = Ok node st' ->
     Parser.pos st < Parser.pos st') /\
  (forall ts st st',
     eof_last ts -> wf ts st ->
     String.eqb (Token.type (Parser.current_token st)) "EOF" = false ->
     Parser.advance st = Ok tt st' ->
     Parser.pos st' = Parser.pos st + 1) /\
  (forall ts st fuel node st',
     eof_last ts -> wf ts st ->
     Parser.parse_expressao_relacional fuel st = Ok node st'
     \/ Parser.parse_termo fuel st = Ok node st'
     \/ Parser.parse_fator fuel st = Ok node st' ->
     Parser.pos st < Parser.pos st').
Proof.
  split; [|split; [|split]].
  - intros ts st node st' Heof Hwf Hrun.
    pose proof (parse_decl_post Heof Hwf) as H. unfold wp in H.
    rewrite Hrun in H. apply H.
  - intros ts st fuel node st' Heof Hwf Hrun.
    refine (proj2 (@returned_satisfies _ _ Parser.parse_comando
              (5 * (List.length ts - Parser.pos st) + 2)
              (post ts true st) is_syntax st fuel node st'
              (fun f f' H => proj1 (proj2 (proj2 (commands_mono H))))
              (fun f Hf =>
                 proj1 (proj2 (proj2 (commands_total Heof f))) st Hwf Hf)
              Hrun)).
  - intros ts st st' Heof Hwf Hty Hrun.
    pose proof (not_last Heof Hwf Hty) as Hlt.
    destruct (nth_error ts (Parser.pos st + 1)) as [t|] eqn:Hnext.
    2:{ apply nth_error_None in Hnext. lia. }
    rewrite (advance_next Hwf Hnext) in Hrun. injection Hrun as <-.
    reflexivity.
  - intros ts st fuel node st' Heof Hwf [Hrun | [Hrun | Hrun]].
    + refine (proj2 (@returned_satisfies _ _
                Parser.parse_expressao_relacional
                (5 * (List.length ts - Parser.pos st) + 4)
                (post ts true st) is_syntax st fuel node st'
                (fun f f' H => proj1 (proj2 (proj2 (expressions_mono H))))
                (fun f Hf =>
                   proj1 (proj2 (proj2 (expressions_total Heof f)))
                     st Hwf Hf)
                Hrun)).
    + refine (proj2 (@returned_satisfies _ _ Parser.parse_termo
                (5 * (List.length ts - Parser.pos st) + 2)
                (post ts true st) is_syntax st fuel node st'
                (fun f f' H =>
                   proj1 (proj2 (proj2 (proj2 (proj2
                     (proj2 (expressions_mono H)))))))
                (fun f Hf =>
                   proj1 (proj2 (proj2 (proj2 (proj2
                     (proj2 (expressions_total Heof f))))))
                     st Hwf Hf)
                Hrun)).
    + refine (proj2 (@returned_satisfies _ _ Parser.parse_fator
                (5 * (List.length ts - Parser.pos st) + 1)
                (post ts true st) is_syntax st fuel node st'
                (fun f f' H =>
                   proj2 (proj2 (proj2 (proj2 (proj2
                     (proj2 (proj2 (expressions_mono H))))))))
                (fun f Hf =>
                   proj2 (proj2 (proj2 (proj2 (proj2
                     (proj2 (proj2 (expressions_total Heof f)))))))
                     st Hwf Hf)
                Hrun)).
Qed.

Lemma get_next_token_moves_forward st fuel tok st' :
  LexerFacts.wf st -> Lexer.get_next_token fuel st = Ok tok st' ->
  String.eqb (Token.type tok) "EOF" = false ->
  Lexer.pos st < Lexer.pos st'.
Proof.
  intros Hwf Hrun Hty.
  pose proof (@returned_satisfies _ _ Lexer.get_next_token
                (List.length (LexerFacts.rest st) + 2)
                (LexerFacts.token_post st) is_lexical st fuel tok st'
                (@LexerFacts.get_next_token_mono)
                (fun f Hf => LexerFacts.get_next_token_total Hwf Hf)
                Hrun) as (_ & _ & H).
  rewrite Hty in H. destruct H as (p & ? & ? & _). lia.
Qed.

(** A program whose one statement is a conditional on [n] groups inside
    one another:
    [inicio decls fimdecls codigo se ((...(x)...)) entao bloco fimbloco
    fimprog]. *)
Definition nested_condition (n : nat) : list ascii :=
  list_ascii_of_string "inicio decls fimdecls codigo se "
  ++ repeat "("%char n ++ ["x"%char] ++ repeat ")"%char n
  ++ list_ascii_of_string " entao bloco fimbloco fimprog".

(** C9, as stated, fails: the 511 tokens of the program whose condition
    is 250 groups deep end in the [EOF] token, and on the thousand frames
    of the interpreter's default stack, or fewer, parsing them ends with
    neither a tree nor a syntax fault: it raises [RecursionError],
    whatever the fuel. *)
Lemma deep_condition_ends_in_RecursionError :
  exists ts lexer' t0,
    Lexer.tokenize (Lexer.length (Lexer.init (nested_condition 250)) + 3)
      (Lexer.init (nested_condition 250))
    = Ok ts lexer' /\
    List.length ts = 511 /\
    eof_last ts /\ nth_error ts 0 = Some t0 /\
    forall fuel frames,
      5 * List.length ts + 4 <= fuel -> frames <= 1000 ->
      Framed.parse_programa fuel frames (parser_on ts t0)
      = Raise RecursionError.
Proof.
  set (r := Lexer.tokenize
              (Lexer.length (Lexer.init (nested_condition 250)) + 3)
              (Lexer.init (nested_condition 250))).
  set (ts := match r with Ok t _ => t | _ => [] end).
  set (lexer' := match r with Ok _ s => s | _ => Lexer.init [] end).
  assert (Hscan : r = Ok ts lexer') by (vm_compute; reflexivity).
  assert (Hlen : List.length ts = 511) by (vm_compute; reflexivity).
  assert (Ht0 : nth_error ts 0
                = Some (Token.mk "INICIO" (Some "inicio"%string) 1 1))
    by (vm_compute; reflexivity).
  exists ts, lexer', (Token.mk "INICIO" (Some "inicio"%string) 1 1).
  pose proof (eof_last_of_tokenize _ _ Hscan) as Heof.
  pose proof (wf_parser_on _ Ht0) as Hwf.
  split; [exact Hscan|]. split; [exact Hlen|]. split; [exact Heof|].
  split; [exact Ht0|].
  intros fuel frames Hfuel Hframes.
  assert (H1000 : Framed.parse_programa fuel 1000
                    (parser_on ts
                       (Token.mk "INICIO" (Some "inicio"%string) 1 1))
                  = Raise RecursionError).
  { rewrite (@framed_parse_stable ts _ fuel 1000 Heof Hwf)
      by (cbn [Parser.pos parser_on]; lia).
    cbn [Parser.pos parser_on]. rewrite Nat.sub_0_r, Hlen.
    vm_compute. reflexivity. }
  destruct (@FramedFacts.parse_programa_short fuel frames 1000 Hframes
              (parser_on ts (Token.mk "INICIO" (Some "inicio"%string) 1 1)))
    as [H | H]; [exact H|]. rewrite H. exact H1000.
Qed.

(** C9, amended. Tokenizing a text returns a token sequence or raises a
    lexical error once the fuel is the length of the text plus three, and
    parsing a token sequence that ends in the [EOF] token, once the fuel
    is five times its length plus four, returns a tree, raises a syntax
    error or, when a call finds no free frame, raises [RecursionError]; it
    returns a tree or raises a syntax error when the stack has five frames
    per token and nine more: no run goes on for ever. Each round of a
    loop moves forward: [advance] moves the character cursor by one, a
    call of [get_next_token] that returns a token other than [EOF] leaves
    the cursor further on, and so do, for the parser's index, a
    declaration, a statement, the advance over an operator and the operand
    parsed after it. *)
Theorem tokenize_and_parse_terminate_on_a_bounded_stack :
  (forall src fuel,
     Lexer.length (Lexer.init src) + 3 <= fuel ->
     (exists toks st', Lexer.tokenize fuel (Lexer.init src) = Ok toks st')
     \/
     (exists message l c char,
        Lexer.tokenize fuel (Lexer.init src)
        = Raise (LexicalError message l c char))) /\
  (forall ts t0 fuel frames,
     eof_last ts -> nth_error ts 0 = Some t0 ->
     5 * List.length ts + 4 <= fuel ->
     (exists root st',
        Framed.parse_programa fuel frames (parser_on ts t0) = Ok root st')
     \/
     (exists message token,
        Framed.parse_programa fuel frames (parser_on ts t0)
        = Raise (SyntaxError_ message token)) \/
     Framed.parse_programa fuel frames (parser_on ts t0)
     = Raise RecursionError) /\
  (forall ts t0 fuel frames,
     eof_last ts -> nth_error ts 0 = Some t0 ->
     5 * List.length ts + 4 <= fuel ->
     5 * List.length ts + 9 <= frames ->
     (exists root st',
        Framed.parse_programa fuel frames (parser_on ts t0) = Ok root st')
     \/
     (exists message token,
        Framed.parse_programa fuel frames (parser_on ts t0)
        = Raise (SyntaxError_ message token))) /\
  (forall st c,
     LexerFacts.wf st -> Lexer.current_char st = Some c ->
     exists st', Lexer.advance st = Ok tt st'
                 /\ Lexer.pos st' = Lexer.pos st + 1) /\
  (forall st fuel tok st',
     LexerFacts.wf st -> Lexer.get_next_token fuel st = Ok tok st' ->
     String.eqb (Token.type tok) "EOF" = false ->
     Lexer.pos st < Lexer.pos st') /\
  (forall ts st frames node st',
     eof_last ts -> wf ts st ->
     Framed.parse_decl frames st = Ok node st' ->
     Parser.pos st < Parser.pos st') /\
  (forall ts st fuel frames node st',
     eof_last ts -> wf ts st ->
     Framed.parse_comando fuel frames st = Ok node st' ->
     Parser.pos st < Parser.pos st') /\
  (forall ts st frames st',
     eof_last ts -> wf ts st ->
     String.eqb (Token.type (Parser.current_token st)) "EOF" = false ->
     Framed.advance frames st = Ok tt st' ->
     Parser.pos st' = Parser.pos st + 1) /\
  (forall ts st fuel frames node st',
     eof_last ts -> wf ts st ->
     Framed.parse_expressao_relacional fuel frames st = Ok node st'
     \/ Framed.parse_termo fuel frames st = Ok node st'
     \/ Framed.parse_fator fuel frames st = Ok node st' ->
     Parser.pos st < Parser.pos st').
Proof.
  destruct parser_rounds_move_forward as (Pdecl & Pcmd & Padv & Pop).
  split; [exact tokenize_answer|]. split; [|split; [|split; [|split]]].
  - intros ts t0 fuel frames Heof Ht0 Hf.
    apply (@framed_parse_answer ts (parser_on ts t0) fuel frames Heof
             (wf_parser_on _ Ht0)).
    cbn [Parser.pos parser_on]. lia.
  - intros ts t0 fuel frames Heof Ht0 Hf Hframes.
    pose proof (wf_parser_on _ Ht0) as Hwf.
    rewrite (@framed_parse_enough ts (parser_on ts t0) fuel frames Heof Hwf)
      by (cbn [Parser.pos parser_on]; lia).
    destruct (@parse_programa_answer ts _ fuel Heof Hwf)
      as [(root & st' & H & _) | H]; eauto.
    cbn [Parser.pos parser_on]. lia.
  - intros st c Hwf Hc. exists (LexerFacts.advanced st).
    split; [apply LexerFacts.advance_eq; assumption|reflexivity].
  - exact get_next_token_moves_forward.
  - split; [|split; [|split]].
    + intros ts st frames node st' Heof Hwf Hrun.
      apply (Pdecl ts st node st' Heof Hwf).
      apply (@FramedFacts.short_ok _ _ _ _ _ _
               (FramedFacts.parse_decl_unbounded frames) Hrun).
    + intros ts st fuel frames node st' Heof Hwf Hrun.
      apply (Pcmd ts st fuel node st' Heof Hwf).
      apply (@FramedFacts.short_ok _ _ _ _ _ _
               (proj1 (proj2 (FramedFacts.commands_unbounded fuel frames)))
               Hrun).
    + intros ts st frames st' Heof Hwf Hty Hrun.
      apply (Padv ts st st' Heof Hwf Hty).
      apply (@FramedFacts.short_ok _ _ _ _ _ _
               (FramedFacts.advance_unbounded frames) Hrun).
    + intros ts st fuel frames node st' Heof Hwf Hrun.
      apply (Pop ts st fuel node st' Heof Hwf).
      destruct (FramedFacts.expressions_unbounded fuel frames)
        as (_ & Hrel & _ & Hter & Hfat).
      destruct Hrun as [Hrun | [Hrun | Hrun]].
      * left. apply (@FramedFacts.short_ok _ _ _ _ _ _ Hrel Hrun).
      * right. left. apply (@FramedFacts.short_ok _ _ _ _ _ _ Hter Hrun).
      * right. right. apply (@FramedFacts.short_ok _ _ _ _ _ _ Hfat Hrun).
Qed.

(** The theorem at the text [x = 1] and at the two tokens of the text
    [x]. *)
Lemma tokenize_and_parse_terminate_on_a_bounded_stack_witness :
  ((exists toks st',
      Lexer.tokenize 8 (Lexer.init (list_ascii_of_string "x = 1"))
      = Ok toks st') \/
   (exists message l c char,
      Lexer.tokenize 8 (Lexer.init (list_ascii_of_string "x = 1"))
      = Raise (LexicalError message l c char))) /\
  ((exists root st',
      Framed.parse_programa 14 19
        (parser_on [Token.mk "IDENTIFIER" (Some "x"%string) 1 1;
                    Token.mk "EOF" None 1 1]
           (Token.mk "IDENTIFIER" (Some "x"%string) 1 1))
      = Ok root st') \/
   (exists message token,
      Framed.parse_programa 14 19
        (parser_on [Token.mk "IDENTIFIER" (Some "x"%string) 1 1;
                    Token.mk "EOF" None 1 1]
           (Token.mk "IDENTIFIER" (Some "x"%string) 1 1))
      = Raise (SyntaxError_ message token))).
Proof.
  split.
  - apply (proj1 tokenize_and_parse_terminate_on_a_bounded_stack).
    cbn. lia.
  - apply (proj1 (proj2 (proj2
             tokenize_and_parse_terminate_on_a_bounded_stack))).
    + exists [Token.mk "IDENTIFIER" (Some "x"%string) 1 1],
        (Token.mk "EOF" None 1 1).
      split; reflexivity.
    + reflexivity.
    + cbn. lia.
    + cbn. lia.
Defined.

(** The token sequence of a source text, by [Lexer(src).tokenize()] with
    the length of the text plus three as fuel; empty if that raises. *)
Definition tokens_of (src : string) : list Token.t :=
  let lexer := Lexer.init (list_ascii_of_string src) in
  match Lexer.tokenize (Lexer.length lexer + 3) lexer with
  | Ok toks _ => toks
  | _ => []
  end.

(** C1, as stated, fails: the eight tokens of
    [inicio decls fimdecls codigo fimprog x y] end in [EOF], and parsing
    them succeeds with the index on 5, the identifier [x]: the tokens [x]
    and [y] between [FIMPROG] and the end marker are not consumed, and the
    end marker, at index 7, is not reached. *)
Lemma parse_accepts_tokens_after_FIMPROG :
  exists t0 root st',
    nth_error (tokens_of "inicio decls fimdecls codigo fimprog x y") 0
    = Some t0 /\
    List.length (tokens_of "inicio decls fimdecls codigo fimprog x y") = 8
    /\
    option_map Token.type
      (nth_error (tokens_of "inicio decls fimdecls codigo fimprog x y") 7)
    = Some "EOF"%string /\
    Parser.parse_programa 44
      (parser_on (tokens_of "inicio decls fimdecls codigo fimprog x y") t0)
    = Ok root st' /\
    Parser.pos st' = 5 /\
    Parser.current_token st' = Token.mk "IDENTIFIER" (Some "x"%string) 1 38.
Proof.
  exists (Token.mk "INICIO" (Some "inicio"%string) 1 1).
  eexists. eexists.
  split; [vm_compute; reflexivity|].
  split; [vm_compute; reflexivity|].
  split; [vm_compute; reflexivity|].
  split; [vm_compute; reflexivity|].
  split; reflexivity.
Qed.

(** C1, amended. For every token sequence that ends in the [EOF] token and
    on which [parse_programa] succeeds, the root is the [Programa] node
    with its seven children, and the parse has consumed the tokens up to
    and including a [FIMPROG] token: the index is at least 5, the token
    just before it is the [FIMPROG], and the index rests, inside the
    sequence, on the token after it, which is current and which the parse
    does not check to be the end marker. What follows the [FIMPROG] has no
    part in the result: every sequence with the same tokens up to the
    [FIMPROG] and at least one token after it parses to the same tree,
    with the index on the same place. *)
Theorem parse_stops_after_FIMPROG ts t0 fuel root st' :
  eof_last ts -> nth_error ts 0 = Some t0 ->
  Parser.parse_programa fuel (parser_on ts t0) = Ok root st' ->
  Node.label root = Some "Programa"%string /\
  List.length (Node.children root) = 7 /\
  5 <= Parser.pos st' /\ Parser.pos st' < List.length ts /\
  option_map Token.type (nth_error ts (Parser.pos st' - 1))
  = Some "FIMPROG"%string /\
  nth_error ts (Parser.pos st') = Some (Parser.current_token st') /\
  forall ts',
    firstn (Parser.pos st') ts' = firstn (Parser.pos st') ts ->
    Parser.pos st' < List.length ts' ->
    exists st'',
      Parser.parse_programa fuel (parser_on ts' t0) = Ok root st'' /\
      Parser.pos st'' = Parser.pos st'.
Proof.
  intros Heof Ht0 Hrun.
  pose proof (wf_parser_on _ Ht0) as Hwf0.
  pose proof Hrun as Hrun0.
  eapply parse_programa_ok in Hrun; [|eassumption|eassumption].
  destruct Hrun as (Hwf & Hl & Hc & t & Ht & Hty & Hp).
  pose proof (wf_pos Hwf) as Hlt.
  repeat apply conj; auto.
  - rewrite Ht. cbn. rewrite Hty. reflexivity.
  - apply (wf_current Hwf).
  - intros ts' Hpre Hlt'.
    apply (@parse_programa_prefix ts ts' (Parser.pos st') Heof
             (eq_sym Hpre) Hlt Hlt' fuel (parser_on ts t0)
             (parser_on ts' t0) root st' Hwf0);
      [repeat split|exact Hrun0|reflexivity].
Qed.

(** The theorem at the tokens of the smallest program, and the tokens of
    that program with [x y] after it as the other sequence. *)
Lemma parse_stops_after_FIMPROG_witness :
  exists root st',
    Parser.parse_programa 34
      (parser_on (tokens_of "inicio decls fimdecls codigo fimprog")
         (Token.mk "INICIO" (Some "inicio"%string) 1 1))
    = Ok root st' /\
    Parser.pos st' = 5 /\
    (Node.label root = Some "Programa"%string /\
     List.length (Node.children root) = 7 /\
     5 <= Parser.pos st' /\
     Parser.pos st'
     < List.length (tokens_of "inicio decls fimdecls codigo fimprog") /\
     option_map Token.type
       (nth_error (tokens_of "inicio decls fimdecls codigo fimprog")
          (Parser.pos st' - 1))
     = Some "FIMPROG"%string /\
     nth_error (tokens_of "inicio decls fimdecls codigo fimprog")
       (Parser.pos st')
     = Some (Parser.current_token st') /\
     forall ts',
       firstn (Parser.pos st') ts'
       = firstn (Parser.pos st')
           (tokens_of "inicio decls fimdecls codigo fimprog") ->
       Parser.pos st' < List.length ts' ->
       exists st'',
         Parser.parse_programa 34
           (parser_on ts' (Token.mk "INICIO" (Some "inicio"%string) 1 1))
         = Ok root st'' /\
         Parser.pos st'' = Parser.pos st').
Proof.
  eexists. eexists. split; [vm_compute; reflexivity|].
  split; [reflexivity|].
  apply (@parse_stops_after_FIMPROG
           (tokens_of "inicio decls fimdecls codigo fimprog")
           (Token.mk "INICIO" (Some "inicio"%string) 1 1) 34).
  - exists (removelast (tokens_of "inicio decls fimdecls codigo fimprog")),
      (Token.mk "EOF" None 1 36).
    split; vm_compute; reflexivity.
  - vm_compute. reflexivity.
  - vm_compute. reflexivity.
Defined.

(** What [tokenize] gives for a text is what its loop gives from a state
    the scan comes to, with the tokens returned until there. *)
Lemma scans_to_tokenize src acc st fuel :
  LexerFacts.scans_to src acc st ->
  Lexer.length (Lexer.init src) + 3 <= fuel ->
  Lexer.tokenize fuel (Lexer.init src) = Lexer.tokenize_loop fuel acc st.
Proof.
  intros Hscan Hfuel.
  destruct (LexerFacts.scans_to_wf Hscan) as [Hwf Ht].
  pose proof (LexerFacts.wf_init src) as Hwf0.
  assert (Hf0 : List.length (LexerFacts.rest (Lexer.init src)) + 3 <= fuel).
  { rewrite LexerFacts.rest_length by assumption. lia. }
  assert (Hf : List.length (LexerFacts.rest st) + 3 <= fuel).
  { rewrite LexerFacts.rest_length by assumption.
    rewrite (LexerFacts.wf_length Hwf), Ht,
      <- (LexerFacts.wf_length Hwf0).
    lia. }
  pose proof (LexerFacts.tokenize_loop_total acc Hwf Hf) as Htot.
  pose proof (LexerFacts.tokenize_loop_total [] Hwf0 Hf0) as Htot0.
  unfold wp in Htot, Htot0. fold (Lexer.tokenize fuel) in Htot0.
  set (r := Lexer.tokenize_loop fuel acc st) in *.
  assert (Hr : r <> OutOfFuel) by (destruct r; [discriminate..|contradiction]).
  destruct (@LexerFacts.scans_to_resume src r Hr acc st Hscan
              (ex_intro _ fuel eq_refl)) as [g Hg].
  rewrite <- Hg.
  transitivity (Lexer.tokenize (Nat.max g fuel) (Lexer.init src)).
  - symmetry. apply LexerFacts.tokenize_loop_mono; [apply Nat.le_max_r|].
    fold (Lexer.tokenize fuel).
    destruct (Lexer.tokenize fuel (Lexer.init src));
      [discriminate..|contradiction].
  - apply LexerFacts.tokenize_loop_mono; [apply Nat.le_max_l|].
    fold (Lexer.tokenize g). rewrite Hg. exact Hr.
Qed.

(** C8. Where the scan of a text comes to a ["/*"]: if no ["*/"] follows
    it, [tokenize] raises the lexical error of the unterminated comment
    with the line and the column of that ["/"]; if one follows, the call
    of [get_next_token] that meets the comment returns what it returns
    from right after the first ["*/"], and [tokenize] gives for the text
    what its loop gives from there with the tokens it had when it came to
    the comment: the comment, whatever lines it spans, gives no token. *)
Theorem block_comment_is_closed_or_faults_at_its_start src acc st r :
  LexerFacts.scans_to src acc st ->
  LexerFacts.rest st = "/"%char :: "*"%char :: r ->
  ((forall i, ~ LexerFacts.closes_at r i) ->
   forall fuel,
     Lexer.length (Lexer.init src) + 3 <= fuel ->
     Lexer.tokenize fuel (Lexer.init src)
     = Raise (LexicalError "Unterminated block comment"
                (fst (LexerFacts.position (Lexer.text st) (Lexer.pos st)))
                (snd (LexerFacts.position (Lexer.text st) (Lexer.pos st)))
                None)) /\
  (forall k,
     LexerFacts.closes_at r k ->
     (forall i, i < k -> ~ LexerFacts.closes_at r i) ->
     exists st',
       LexerFacts.scans_to src acc st' /\
       Lexer.text st' = Lexer.text st /\
       Lexer.pos st' = Lexer.pos st + (k + 4) /\
       LexerFacts.rest st' = skipn (k + 2) r /\
       (forall fuel,
          List.length (LexerFacts.rest st) < fuel ->
          Lexer.get_next_token (S fuel) st = Lexer.get_next_token fuel st')
       /\
       (forall fuel,
          Lexer.length (Lexer.init src) + 3 <= fuel ->
          Lexer.tokenize fuel (Lexer.init src)
          = Lexer.tokenize_loop fuel acc st')).
Proof.
  intros Hscan Hr. destruct (LexerFacts.scans_to_wf Hscan) as [Hwf Ht].
  destruct (LexerFacts.rest_cons Hwf Hr) as (Hc & _ & _).
  split.
  - intros Hopen fuel Hfuel.
    apply LexerFacts.find_close_none in Hopen.
    rewrite <- (LexerFacts.wf_line Hwf).
    rewrite <- (LexerFacts.wf_col Hwf (LexerFacts.char_some_lt Hwf Hc)).
    apply LexerFacts.scans_to_fault
      with (acc := acc) (st := st)
           (f := S (S (List.length (LexerFacts.rest st)))); auto.
    rewrite (LexerFacts.get_next_token_block_comment Hwf Hr) by lia.
    rewrite Hopen. reflexivity.
  - intros k Hk Hfirst.
    assert (Hfind : LexerFacts.find_close r = Some k)
      by (apply LexerFacts.find_close_some; auto).
    assert (Hscan' : LexerFacts.scans_to src acc (LexerFacts.adv (k + 4) st)).
    { apply LexerFacts.scans_block_comment
        with (st := st) (fuel := S (List.length (LexerFacts.rest st)));
        auto.
      * rewrite LexerFacts.nth_rest, Hr. reflexivity.
      * rewrite (LexerFacts.skip_block_comment_eq Hwf Hr) by lia.
        rewrite Hfind. reflexivity. }
    exists (LexerFacts.adv (k + 4) st).
    split; [exact Hscan'|]. split; [apply LexerFacts.text_adv|].
    split; [apply LexerFacts.pos_adv|]. split; [|split].
    + rewrite LexerFacts.rest_adv, Hr.
      replace (k + 4) with (S (S (k + 2))) by lia. reflexivity.
    + intros fuel Hfuel.
      rewrite (LexerFacts.get_next_token_block_comment Hwf Hr Hfuel), Hfind.
      reflexivity.
    + intros fuel Hfuel. apply (scans_to_tokenize Hscan' Hfuel).
Qed.

(** A comment over two lines between two names: the scan gives the two
    names, the second one with its place on the second line, and the end
    marker. *)
Example comment_over_two_lines_gives_no_token :
  Lexer.tokenize 20
    (Lexer.init
       (list_ascii_of_string "a /* c" ++ [LF]
        ++ list_ascii_of_string "d */ b"))
  = Ok [Token.mk "IDENTIFIER" (Some "a"%string) 1 1;
        Token.mk "IDENTIFIER" (Some "b"%string) 2 6;
        Token.mk "EOF" None 2 6]
       (Lexer.mk
          (list_ascii_of_string "a /* c" ++ [LF]
           ++ list_ascii_of_string "d */ b")
          13 13 None 2 6).
Proof. vm_compute. reflexivity. Qed.

(** The theorem at the texts [/* never closes] and [/* c */ b]. *)
Lemma block_comment_is_closed_or_faults_at_its_start_witness :
  Lexer.tokenize 19 (Lexer.init (list_ascii_of_string "/* never closes"))
  = Raise (LexicalError "Unterminated block comment" 1 1 None) /\
  exists st',
    LexerFacts.scans_to (list_ascii_of_string "/* c */ b") [] st' /\
    Lexer.text st' = list_ascii_of_string "/* c */ b" /\
    Lexer.pos st' = 0 + (3 + 4) /\
    LexerFacts.rest st' = list_ascii_of_string " b" /\
    (forall fuel,
       9 < fuel ->
       Lexer.get_next_token (S fuel)
         (Lexer.init (list_ascii_of_string "/* c */ b"))
       = Lexer.get_next_token fuel st') /\
    (forall fuel,
       9 + 3 <= fuel ->
       Lexer.tokenize fuel (Lexer.init (list_ascii_of_string "/* c */ b"))
       = Lexer.tokenize_loop fuel [] st').
Proof.
  split.
  - apply (proj1 (@block_comment_is_closed_or_faults_at_its_start
                    (list_ascii_of_string "/* never closes") []
                    (Lexer.init (list_ascii_of_string "/* never closes"))
                    (list_ascii_of_string " never closes")
                    (LexerFacts.scans_init _) eq_refl)).
    + intros i [H1 H2].
      do 14 (destruct i as [|i]; [vm_compute in H1, H2; discriminate|]).
      vm_compute in H1. destruct i; discriminate.
    + vm_compute. lia.
  - apply (proj2 (@block_comment_is_closed_or_faults_at_its_start
                    (list_ascii_of_string "/* c */ b") []
                    (Lexer.init (list_ascii_of_string "/* c */ b"))
                    (list_ascii_of_string " c */ b")
                    (LexerFacts.scans_init _) eq_refl) 3).
    + split; reflexivity.
    + intros i Hi [H1 H2].
      do 3 (destruct i as [|i]; [vm_compute in H1, H2; discriminate|]).
      lia.
Defined.

(** The first dot of a literal. Where the scan of a text comes to a dot
    that no digit follows, be it a bare dot or the dot after the digits of
    a literal, [tokenize] raises a lexical error whose offending character
    is the dot and whose line and column are those of the first character
    of the literal (the dot itself when it is bare); raising, it returns
    no token. *)
Lemma dot_without_digit_faults_at_literal_start src acc st fuel :
  LexerFacts.scans_to src acc st ->
  Lexer.length (Lexer.init src) + 3 <= fuel ->
  (forall r,
     LexerFacts.rest st = "."%char :: r ->
     Lexer.not_a_digit (hd_error r) = true ->
     Lexer.tokenize fuel (Lexer.init src)
     = Raise (LexicalError "Invalid character"
                (fst (LexerFacts.position (Lexer.text st) (Lexer.pos st)))
                (snd (LexerFacts.position (Lexer.text st) (Lexer.pos st)))
                (Some "."%char))) /\
  (forall ds r,
     LexerFacts.rest st = ds ++ "."%char :: r ->
     LexerFacts.digits ds ->
     Lexer.not_a_digit (hd_error r) = true ->
     Lexer.tokenize fuel (Lexer.init src)
     = Raise (LexicalError
                "Invalid numeric constant: digits required after decimal point"
                (fst (LexerFacts.position (Lexer.text st) (Lexer.pos st)))
                (snd (LexerFacts.position (Lexer.text st) (Lexer.pos st)))
                (Some "."%char))).
Proof.
  intros Hscan Hfuel.
  destruct (LexerFacts.scans_to_wf Hscan) as [Hwf Ht].
  split.
  - intros r Hr Hnd.
    destruct (LexerFacts.rest_cons Hwf Hr) as (Hc & _ & _).
    rewrite <- (LexerFacts.wf_line Hwf).
    rewrite <- (LexerFacts.wf_col Hwf (LexerFacts.char_some_lt Hwf Hc)).
    apply LexerFacts.scans_to_fault
      with (acc := acc) (st := st)
           (f := S (S (List.length (LexerFacts.rest st)))); auto.
    rewrite (LexerFacts.get_next_token_dot Hwf Hr) by lia.
    rewrite Hnd. reflexivity.
  - intros ds r Hr Hds Hnd.
    destruct (LexerFacts.digits_head ("."%char :: r) Hds)
      as (d & t & Hdt & Hd & _).
    assert (Hc : Lexer.current_char st = Some d).
    { rewrite (LexerFacts.rest_char Hwf), Hr, Hdt. reflexivity. }
    rewrite <- (LexerFacts.wf_line Hwf).
    rewrite <- (LexerFacts.wf_col Hwf (LexerFacts.char_some_lt Hwf Hc)).
    apply LexerFacts.scans_to_fault
      with (acc := acc) (st := st)
           (f := S (S (List.length (LexerFacts.rest st)))); auto.
    rewrite (LexerFacts.get_next_token_digit Hwf Hc Hd) by lia.
    apply LexerFacts.number_branch_trailing_dot with (ds := ds) (r := r);
      assumption.
Qed.

(** The lemma at the text [1.]. *)
Lemma dot_without_digit_faults_at_literal_start_instance :
  Lexer.tokenize 5 (Lexer.init (list_ascii_of_string "1."))
  = Raise (LexicalError
             "Invalid numeric constant: digits required after decimal point"
             1 1 (Some "."%char)).
Proof.
  apply (proj2 (@dot_without_digit_faults_at_literal_start
                  (list_ascii_of_string "1.") []
                  (Lexer.init (list_ascii_of_string "1.")) 5
                  (LexerFacts.scans_init _) ltac:(vm_compute; lia))
           (list_ascii_of_string "1") []).
  - reflexivity.
  - split; [discriminate|reflexivity].
  - reflexivity.
Defined.

(** The dot right after a complete fraction: [number] reports it where it
    stands. *)
Lemma number_branch_second_dot st ds1 ds2 r :
  LexerFacts.wf st ->
  LexerFacts.rest st = ds1 ++ "."%char :: ds2 ++ "."%char :: r ->
  LexerFacts.digits ds1 -> LexerFacts.digits ds2 ->
  LexerFacts.number_branch st
  = Raise (LexicalError "Invalid numeric constant: multiple decimal points"
             (fst (LexerFacts.position (Lexer.text st)
                     (Lexer.pos st + List.length ds1 + 1
                      + List.length ds2)))
             (snd (LexerFacts.position (Lexer.text st)
                     (Lexer.pos st + List.length ds1 + 1
                      + List.length ds2)))
             (Some "."%char)).
Proof.
  intros Hwf Hr Hds1 Hds2.
  destruct (LexerFacts.digits_head ("."%char :: ds2 ++ "."%char :: r) Hds1)
    as (d & t & Hdt & Hd & _).
  assert (Hc : Lexer.current_char st = Some d).
  { rewrite (LexerFacts.rest_char Hwf), Hr, Hdt. reflexivity. }
  destruct (@LexerFacts.after_digits_app st ds1 _ Hwf Hr (proj2 Hds1) eq_refl)
    as (Hst1 & _ & Hwf1 & Hr1 & Hc1).
  destruct (LexerFacts.rest_cons Hwf1 Hr1) as (_ & Hwf2 & Hr2).
  destruct (LexerFacts.digits_head ("."%char :: r) Hds2)
    as (d2 & t2 & Hdt2 & Hd2 & Hnd2).
  destruct (@LexerFacts.after_digits_app _ ds2 _ Hwf2 Hr2 (proj2 Hds2) eq_refl)
    as (Hst3 & _ & Hwf3 & Hr3 & Hc3).
  unfold LexerFacts.number_branch, LexerFacts.number_of.
  rewrite Hc. cbn [Lexer.opt_is].
  replace (Ascii.eqb d ".") with false
    by (symmetry; apply (LexerFacts.digit_branch _ Hd)).
  rewrite Hc1. cbn [hd_error Lexer.opt_is].
  change (Ascii.eqb "." ".") with true. cbv iota.
  replace (Lexer.not_a_digit
             (Lexer.current_char
                (LexerFacts.advanced (LexerFacts.after_digits st))))
    with false.
  2:{ rewrite (LexerFacts.rest_char Hwf2), Hr2. symmetry. exact Hnd2. }
  rewrite Hc3. cbn [hd_error Lexer.opt_is].
  change (Ascii.eqb "." ".") with true. cbv iota.
  set (st3 := LexerFacts.after_digits
                (LexerFacts.advanced (LexerFacts.after_digits st))) in *.
  assert (Hpos : Lexer.pos st3
                 = Lexer.pos st + List.length ds1 + 1 + List.length ds2).
  { rewrite Hst3, LexerFacts.pos_adv.
    cbn [Lexer.pos LexerFacts.advanced]. rewrite Hst1, LexerFacts.pos_adv.
    lia. }
  assert (Htext : Lexer.text st3 = Lexer.text st).
  { rewrite Hst3, LexerFacts.text_adv.
    cbn [Lexer.text LexerFacts.advanced].
    apply LexerFacts.text_after_digits. }
  rewrite (LexerFacts.wf_line Hwf3).
  rewrite (LexerFacts.wf_col Hwf3 (LexerFacts.char_some_lt Hwf3 Hc3)).
  rewrite Htext, Hpos. reflexivity.
Qed.

Lemma position_same_line txt l :
  forall p x,
    skipn p txt = l ++ x -> ~ In LF l ->
    LexerFacts.position txt (p + List.length l)
    = (fst (LexerFacts.position txt p),
       snd (LexerFacts.position txt p) + List.length l).
Proof.
  induction l as [|c l IH]; intros p x Hs Hno.
  - cbn [List.length]. rewrite !Nat.add_0_r. apply surjective_pairing.
  - assert (Hc : nth_error txt p = Some c).
    { rewrite nth_error_hd_skipn, Hs. reflexivity. }
    assert (Hs' : skipn (p + 1) txt = l ++ x).
    { rewrite skipn_succ_tl, Hs. reflexivity. }
    cbn [List.length].
    replace (p + S (List.length l)) with (p + 1 + List.length l) by lia.
    rewrite (IH (p + 1) x Hs') by (intros H; apply Hno; right; exact H).
    rewrite (LexerFacts.position_succ _ _ Hc).
    unfold LexerFacts.step_position.
    destruct (Ascii.eqb c LF) eqn:E.
    + apply Ascii.eqb_eq in E. exfalso. apply Hno. left. exact E.
    + cbn [fst snd]. f_equal. lia.
Qed.

Lemma digits_no_LF ds : forallb is_digit ds = true -> ~ In LF ds.
Proof.
  intros Hall Hin. rewrite forallb_forall in Hall.
  specialize (Hall _ Hin). vm_compute in Hall. discriminate.
Qed.

Lemma second_dot_place st ds1 ds2 r :
  LexerFacts.wf st ->
  LexerFacts.rest st = ds1 ++ "."%char :: ds2 ++ "."%char :: r ->
  LexerFacts.digits ds1 -> LexerFacts.digits ds2 ->
  LexerFacts.position (Lexer.text st)
    (Lexer.pos st + List.length ds1 + 1 + List.length ds2)
  = (fst (LexerFacts.position (Lexer.text st) (Lexer.pos st)),
     snd (LexerFacts.position (Lexer.text st) (Lexer.pos st))
     + (List.length ds1 + 1 + List.length ds2)).
Proof.
  intros Hwf Hr [_ H1] [_ H2].
  replace (Lexer.pos st + List.length ds1 + 1 + List.length ds2)
    with (Lexer.pos st + List.length (ds1 ++ "."%char :: ds2)).
  2:{ rewrite length_app. cbn [List.length]. lia. }
  replace (List.length ds1 + 1 + List.length ds2)
    with (List.length (ds1 ++ "."%char :: ds2)).
  2:{ rewrite length_app. cbn [List.length]. lia. }
  apply position_same_line with (x := "."%char :: r).
  - unfold LexerFacts.rest in Hr. rewrite Hr, <- app_assoc. reflexivity.
  - intros Hin. apply in_app_or in Hin. destruct Hin as [Hin | [Hin | Hin]].
    + exact (digits_no_LF _ H1 Hin).
    + vm_compute in Hin. discriminate.
    + exact (digits_no_LF _ H2 Hin).
Qed.

(** C7, where the code breaks it. Where the scan of a text comes to
    digits, a dot, digits and a second dot, as in [1.2.], [tokenize]
    raises the lexical error of the multiple decimal points with the line
    of the literal and the column of that second dot, which is further to
    the right than the first character of the literal by the length of
    the fraction: [number] passes no start position to [error] for this
    fault, and for this one alone. So the last dot of [1.2.], which no
    digit follows, is reported at column 4 and not at column 1, and that
    of [x = 12.5.] at column 9 and not at column 5; the faults of [1.]
    and of [x = 12.], raised a few lines above in [number], carry the
    column of the first character of the literal. *)
Theorem second_dot_is_reported_where_it_stands :
  (forall src acc st ds1 ds2 r fuel,
     LexerFacts.scans_to src acc st ->
     LexerFacts.rest st = ds1 ++ "."%char :: ds2 ++ "."%char :: r ->
     LexerFacts.digits ds1 -> LexerFacts.digits ds2 ->
     Lexer.length (Lexer.init src) + 3 <= fuel ->
     Lexer.tokenize fuel (Lexer.init src)
     = Raise (LexicalError
                "Invalid numeric constant: multiple decimal points"
                (fst (LexerFacts.position (Lexer.text st) (Lexer.pos st)))
                (snd (LexerFacts.position (Lexer.text st) (Lexer.pos st))
                 + (List.length ds1 + 1 + List.length ds2))
                (Some "."%char))) /\
  Lexer.tokenize 7 (Lexer.init (list_ascii_of_string "1.2."))
  = Raise (LexicalError "Invalid numeric constant: multiple decimal points"
             1 4 (Some "."%char)) /\
  Lexer.tokenize 12 (Lexer.init (list_ascii_of_string "x = 12.5."))
  = Raise (LexicalError "Invalid numeric constant: multiple decimal points"
             1 9 (Some "."%char)) /\
  Lexer.tokenize 5 (Lexer.init (list_ascii_of_string "1."))
  = Raise (LexicalError
             "Invalid numeric constant: digits required after decimal point"
             1 1 (Some "."%char)) /\
  Lexer.tokenize 10 (Lexer.init (list_ascii_of_string "x = 12."))
  = Raise (LexicalError
             "Invalid numeric constant: digits required after decimal point"
             1 5 (Some "."%char)).
Proof.
  split; [|repeat split; vm_compute; reflexivity].
  intros src acc st ds1 ds2 r fuel Hscan Hr Hds1 Hds2 Hfuel.
  destruct (LexerFacts.scans_to_wf Hscan) as [Hwf Ht].
  destruct (LexerFacts.digits_head ("."%char :: ds2 ++ "."%char :: r) Hds1)
    as (d & t & Hdt & Hd & _).
  assert (Hc : Lexer.current_char st = Some d).
  { rewrite (LexerFacts.rest_char Hwf), Hr, Hdt. reflexivity. }
  apply LexerFacts.scans_to_fault
    with (acc := acc) (st := st)
         (f := S (S (List.length (LexerFacts.rest st)))); auto.
  rewrite (LexerFacts.get_next_token_digit Hwf Hc Hd) by lia.
  rewrite (@number_branch_second_dot st ds1 ds2 r Hwf Hr Hds1 Hds2).
  rewrite (@second_dot_place st ds1 ds2 r Hwf Hr Hds1 Hds2). reflexivity.
Qed.

(** The theorem at the text [1.2.]. *)
Lemma second_dot_is_reported_where_it_stands_witness :
  Lexer.tokenize 7 (Lexer.init (list_ascii_of_string "1.2."))
  = Raise (LexicalError "Invalid numeric constant: multiple decimal points"
             1 (1 + (1 + 1 + 1)) (Some "."%char)).
Proof.
  apply (proj1 second_dot_is_reported_where_it_stands
           (list_ascii_of_string "1.2.") []
           (Lexer.init (list_ascii_of_string "1.2."))
           (list_ascii_of_string "1") (list_ascii_of_string "2") [] 7).
  - apply LexerFacts.scans_init.
  - reflexivity.
  - split; [discriminate|reflexivity].
  - split; [discriminate|reflexivity].
  - vm_compute. lia.
Defined.

(** The numeric literals: digits; digits, a dot and digits; a dot and
    digits. The flag tells whether the literal has a dot. *)
Inductive numeric_literal : list ascii -> bool -> Prop :=
| literal_integer ds :
    LexerFacts.digits ds -> numeric_literal ds false
| literal_fraction ds1 ds2 :
    LexerFacts.digits ds1 -> LexerFacts.digits ds2 ->
    numeric_literal (ds1 ++ "."%char :: ds2) true
| literal_leading_dot ds :
    LexerFacts.digits ds -> numeric_literal ("."%char :: ds) true.

(** C6. Where the scan of a text comes to a numeric literal that is
    followed by a dot, at once when the literal has a dot of its own, or
    after a run of spaces, tabs and newlines, [tokenize] raises a lexical
    error whose offending character is the dot and returns no tokens. The
    lookahead stops at a comment: [1 /* c */ .5] and [1 # c] followed on
    the next line by [.5] give two [NUMBER] tokens. *)
Theorem dot_after_number_faults :
  (forall src acc st literal has_dot ws r fuel,
     LexerFacts.scans_to src acc st ->
     LexerFacts.rest st = literal ++ ws ++ "."%char :: r ->
     numeric_literal literal has_dot ->
     LexerFacts.blanks ws ->
     has_dot = true \/ ws <> [] ->
     Lexer.length (Lexer.init src) + 3 <= fuel ->
     exists message l c,
       Lexer.tokenize fuel (Lexer.init src)
       = Raise (LexicalError message l c (Some "."%char))) /\
  tokens_of "1 /* c */ .5"
  = [Token.mk "NUMBER" (Some "1"%string) 1 1;
     Token.mk "NUMBER" (Some ".5"%string) 1 11;
     Token.mk "EOF" None 1 12] /\
  tokens_of ("1 # c" ++ String LF ".5")
  = [Token.mk "NUMBER" (Some "1"%string) 1 1;
     Token.mk "NUMBER" (Some ".5"%string) 2 1;
     Token.mk "EOF" None 2 2].
Proof.
  split; [|split; vm_compute; reflexivity].
  intros src acc st literal has_dot ws r fuel Hscan Hr Hlit Hws Hsep Hfuel.
  destruct (LexerFacts.scans_to_wf Hscan) as [Hwf Ht].
  assert (Hfault : LexerFacts.dot_fault
                     (Lexer.get_next_token
                        (S (S (List.length (LexerFacts.rest st)))) st)).
  { destruct Hlit as [ds Hds | ds1 ds2 Hds1 Hds2 | ds Hds].
    - destruct Hsep as [Hsep | Hsep]; [discriminate|].
      destruct (LexerFacts.digits_head (ws ++ "."%char :: r) Hds)
        as (d & t & Hdt & Hd & _).
      assert (Hc : Lexer.current_char st = Some d).
      { rewrite (LexerFacts.rest_char Hwf), Hr, Hdt. reflexivity. }
      rewrite (LexerFacts.get_next_token_digit Hwf Hc Hd) by lia.
      apply LexerFacts.number_branch_int_blank_dot
        with (ds := ds) (ws := ws) (r := r); assumption.
    - rewrite <- app_assoc in Hr. cbn [app] in Hr.
      destruct (LexerFacts.digits_head
                  ("."%char :: ds2 ++ ws ++ "."%char :: r) Hds1)
        as (d & t & Hdt & Hd & _).
      assert (Hc : Lexer.current_char st = Some d).
      { rewrite (LexerFacts.rest_char Hwf), Hr, Hdt. reflexivity. }
      rewrite (LexerFacts.get_next_token_digit Hwf Hc Hd) by lia.
      apply LexerFacts.number_branch_frac_dot
        with (ds1 := ds1) (ds2 := ds2) (ws := ws) (r := r); assumption.
    - cbn [app] in Hr.
      rewrite (LexerFacts.get_next_token_dot Hwf Hr) by lia.
      destruct (LexerFacts.digits_head (ws ++ "."%char :: r) Hds)
        as (d & t & Hdt & Hd & Hh).
      rewrite Hh.
      apply LexerFacts.number_branch_lead_dot
        with (ds2 := ds) (ws := ws) (r := r); assumption. }
  destruct Hfault as (message & l & c & Hfault).
  exists message, l, c.
  apply LexerFacts.scans_to_fault
    with (acc := acc) (st := st)
         (f := S (S (List.length (LexerFacts.rest st)))); auto.
Qed.

(** The theorem at the text [1 .5]. *)
Lemma dot_after_number_faults_witness :
  exists message l c,
    Lexer.tokenize 8 (Lexer.init (list_ascii_of_string "1 .5"))
    = Raise (LexicalError message l c (Some "."%char)).
Proof.
  apply (proj1 dot_after_number_faults
           (list_ascii_of_string "1 .5") []
           (Lexer.init (list_ascii_of_string "1 .5"))
           (list_ascii_of_string "1") false
           (list_ascii_of_string " ") (list_ascii_of_string "5") 8).
  - apply LexerFacts.scans_init.
  - reflexivity.
  - apply literal_integer. split; [discriminate|reflexivity].
  - reflexivity.
  - right. discriminate.
  - vm_compute. lia.
Defined.

(** The first token of a source text. *)
Definition first_token (src : string) : Token.t :=
  nth 0 (tokens_of src) (Token.mk "EOF" None 1 1).

(** C3, at an input that breaks it: for the text [x] followed by a newline
    the end marker comes with line 2 and column 0, so its column is not at
    least 1. *)
Theorem end_marker_after_newline_has_column_0 :
  tokens_of ("x" ++ String LF EmptyString)
  = [Token.mk "IDENTIFIER" (Some "x"%string) 1 1; Token.mk "EOF" None 2 0].
Proof. vm_compute. reflexivity. Qed.

(** What holds of the other tokens: whatever [tokenize] returns for a text,
    each token before the end marker carries the line and the column of a
    character of the text, both of them at least 1. *)
Lemma tokens_before_end_marker_are_placed src fuel toks st' :
  Lexer.tokenize fuel (Lexer.init src) = Ok toks st' ->
  exists front eof,
    toks = front ++ [eof] /\
    Forall (fun tok =>
              (exists p,
                 p < List.length (Lexer.text (Lexer.init src)) /\
                 (Token.line tok, Token.column tok)
                 = LexerFacts.position (Lexer.text (Lexer.init src)) p) /\
              1 <= Token.line tok /\ 1 <= Token.column tok) front.
Proof.
  intros Hrun.
  pose proof (@returned_satisfies _ _ (fun f => Lexer.tokenize f)
                (List.length (LexerFacts.rest (Lexer.init src)) + 3)
                (LexerFacts.tokenize_post (Lexer.init src) [])
                is_lexical (Lexer.init src) fuel toks st'
                (fun f f' H => @LexerFacts.tokenize_loop_mono f f' [] H)
                (fun f Hf =>
                   LexerFacts.tokenize_loop_total [] (LexerFacts.wf_init src)
                     Hf)
                Hrun) as (_ & _ & _ & new & eof & Htoks & Hnew & _).
  exists new, eof. split; [assumption|].
  revert Hnew. apply Forall_impl.
  intros tok (_ & p & _ & Hp & Hpos).
  pose proof (LexerFacts.position_ge_1 (Lexer.text (Lexer.init src)) p)
    as [H1 H2].
  rewrite <- Hpos in H1, H2. cbn [fst snd] in H1, H2.
  split; [exists p; auto|]. auto.
Qed.

(** C4, as stated, fails: in the tree of [2+3*4] the [+] node has two
    children and the right one is a [Termo] node, not a [*] node. *)
Lemma right_child_of_plus_is_a_Termo_node :
  exists left right st',
    Parser.parse_expressao_aritmetica 40
      (parser_on (tokens_of "2+3*4") (first_token "2+3*4"))
    = Ok (Node.mk (Some "ExpressaoAritmetica"%string)
            [Node.mk (Some "+"%string) [left; right]]) st' /\
    Node.label right = Some "Termo"%string /\
    Node.label right <> Some "*"%string.
Proof.
  eexists. eexists. eexists.
  split; [vm_compute; reflexivity|]. split; [reflexivity|discriminate].
Qed.

(** C4, amended. Parsing the tokens of [2+3*4] as an arithmetic expression
    gives a tree in which the right child of the [+] node is the [Termo]
    node whose only child is the [*] node over 3 and 4, and parsing those
    of [a-b-c] gives a tree in which the left child of the outer [-] node is
    itself a [-] node, over [a] and [b]. *)
Theorem precedence_and_left_associativity :
  (exists st',
     Parser.parse_expressao_aritmetica 40
       (parser_on (tokens_of "2+3*4") (first_token "2+3*4"))
     = Ok (Node.mk (Some "ExpressaoAritmetica"%string)
             [Node.mk (Some "+"%string)
                [Node.mk (Some "Termo"%string)
                   [Node.mk (Some "NUMBER(2)"%string) []];
                 Node.mk (Some "Termo"%string)
                   [Node.mk (Some "*"%string)
                      [Node.mk (Some "NUMBER(3)"%string) [];
                       Node.mk (Some "NUMBER(4)"%string) []]]]]) st') /\
  (exists st',
     Parser.parse_expressao_aritmetica 40
       (parser_on (tokens_of "a-b-c") (first_token "a-b-c"))
     = Ok (Node.mk (Some "ExpressaoAritmetica"%string)
             [Node.mk (Some "-"%string)
                [Node.mk (Some "-"%string)
                   [Node.mk (Some "Termo"%string)
                      [Node.mk (Some "IDENTIFIER(a)"%string) []];
                    Node.mk (Some "Termo"%string)
                      [Node.mk (Some "IDENTIFIER(b)"%string) []]];
                 Node.mk (Some "Termo"%string)
                   [Node.mk (Some "IDENTIFIER(c)"%string) []]]]) st').
Proof.
  split; eexists; vm_compute; reflexivity.
Qed.

(** The six relational operators. *)
Definition relational : list string :=
  ["GT"; "LT"; "GE"; "LE"; "EQ"; "NE"]%string.

Lemma relational_cases s :
  str_in s relational = true ->
  s = "GT"%string \/ s = "LT"%string \/ s = "GE"%string \/
  s = "LE"%string \/ s = "EQ"%string \/ s = "NE"%string.
Proof.
  unfold str_in, relational. cbn [existsb]. intros H.
  repeat (apply orb_prop in H; destruct H as [H|H];
          [apply String.eqb_eq in H; auto 10|]).
  discriminate.
Qed.

(** A relational operator left as the current token is taken by none of
    the rules that can come next: the loop of [expressao_logica] returns
    without consuming it, and the [ENTAO] of a conditional, the [RPAREN] of
    a group and the next statement of a block each raise a syntax error at
    it. *)
Lemma relational_operator_is_not_taken_up st fuel node :
  str_in (Token.type (Parser.current_token st)) relational = true ->
  Parser.parse_expressao_logica_loop (S fuel) node st = Ok node st /\
  (exists message,
     Parser.eat "ENTAO" st
     = Raise (SyntaxError_ message (Parser.current_token st))) /\
  (exists message,
     Parser.eat "RPAREN" st
     = Raise (SyntaxError_ message (Parser.current_token st))) /\
  Parser.parse_comandos_loop (S (S fuel)) node st
  = Raise (SyntaxError_ "Comando inválido" (Parser.current_token st)).
Proof.
  intros H. destruct st as [ts p [ty v l c]].
  cbn [Parser.current_token Token.type] in *.
  apply relational_cases in H.
  destruct H as [H | [H | [H | [H | [H | H]]]]]; subst ty;
    (split; [reflexivity|]); (split; [cbv; eexists; reflexivity|]);
    (split; [cbv; eexists; reflexivity|]); reflexivity.
Qed.

(** C5. For the tokens of [a<b<c], [parse_expressao_relacional] builds the
    one [<] node over [a] and [b] and returns with the second [<], at
    column 4, as the current token, having consumed three tokens. Where an
    expression is expected (the right side of an assignment, the condition
    of a conditional, a group) that second [<] raises a syntax error.
    Whatever the tokens, a relational operator left as the current token is
    consumed by no rule that can follow, so comparisons never chain. *)
Theorem relational_comparison_does_not_chain :
  (exists st',
     Parser.parse_expressao_relacional 40
       (parser_on (tokens_of "a<b<c") (first_token "a<b<c"))
     = Ok (Node.mk (Some "ExpressaoRelacional"%string)
             [Node.mk (Some "<"%string)
                [Node.mk (Some "ExpressaoAritmetica"%string)
                   [Node.mk (Some "Termo"%string)
                      [Node.mk (Some "IDENTIFIER(a)"%string) []]];
                 Node.mk (Some "ExpressaoAritmetica"%string)
                   [Node.mk (Some "Termo"%string)
                      [Node.mk (Some "IDENTIFIER(b)"%string) []]]]]) st' /\
     Parser.pos st' = 3 /\
     Parser.current_token st' = Token.mk "LT" (Some "<"%string) 1 4) /\
  analyse 300
    (list_ascii_of_string "inicio decls fimdecls codigo x = a<b<c fimprog")
  = SyntaxFault "Comando inválido" (Token.mk "LT" (Some "<"%string) 1 37) /\
  analyse 300
    (list_ascii_of_string
       "inicio decls fimdecls codigo se a<b<c entao bloco fimbloco fimprog")
  = SyntaxFault "Esperado ENTAO, encontrado LT"
      (Token.mk "LT" (Some "<"%string) 1 36) /\
  analyse 300
    (list_ascii_of_string "inicio decls fimdecls codigo x = (a<b<c) fimprog")
  = SyntaxFault "Esperado RPAREN, encontrado LT"
      (Token.mk "LT" (Some "<"%string) 1 38) /\
  (forall st fuel node,
     str_in (Token.type (Parser.current_token st)) relational = true ->
     Parser.parse_expressao_logica_loop (S fuel) node st = Ok node st /\
     (exists message,
        Parser.eat "ENTAO" st
        = Raise (SyntaxError_ message (Parser.current_token st))) /\
     (exists message,
        Parser.eat "RPAREN" st
        = Raise (SyntaxError_ message (Parser.current_token st))) /\
     Parser.parse_comandos_loop (S (S fuel)) node st
     = Raise (SyntaxError_ "Comando inválido" (Parser.current_token st))).
Proof.
  split.
  { eexists. split; [vm_compute; reflexivity|]. split; reflexivity. }
  split; [vm_compute; reflexivity|].
  split; [vm_compute; reflexivity|].
  split; [vm_compute; reflexivity|].
  exact relational_operator_is_not_taken_up.
Qed.

(** The theorem at the parser that stands on the second [<] of [a<b<c]. *)
Lemma relational_comparison_does_not_chain_witness :
  Parser.parse_comandos_loop 2 (Node.new "Comandos")
    (Parser.mk (tokens_of "a<b<c") 3 (Token.mk "LT" (Some "<"%string) 1 4))
  = Raise (SyntaxError_ "Comando inválido"
             (Token.mk "LT" (Some "<"%string) 1 4)).
Proof.
  apply (proj2 (proj2 (proj2 (proj2 relational_comparison_does_not_chain)))
           (Parser.mk (tokens_of "a<b<c") 3
              (Token.mk "LT" (Some "<"%string) 1 4))
           0 (Node.new "Comandos")).
  reflexivity.
Defined.

End Claims.

(** * Further properties of the scanner *)

Section Lexemes.
Import Lexer LexerFacts.

(** ** Line endings *)

Lemma replace_cr_no_CR s : ~ In CR (replace_cr s).
Proof.
  unfold replace_cr. induction s as [|c s IH]; cbn [map In]; [tauto|].
  intros [H|H]; [|auto].
  destruct (Ascii.eqb c CR) eqn:E; [discriminate|].
  rewrite H, Ascii.eqb_refl in E. discriminate.
Qed.

Lemma replace_cr_id s : ~ In CR s -> replace_cr s = s.
Proof.
  unfold replace_cr. induction s as [|c s IH]; cbn [map In]; [reflexivity|].
  intros H. destruct (Ascii.eqb c CR) eqn:E.
  - apply Ascii.eqb_eq in E. tauto.
  - rewrite IH by tauto. reflexivity.
Qed.

Lemma replace_crlf_id s : ~ In CR s -> replace_crlf s = s.
Proof.
  induction s as [|c s IH]; cbn [replace_crlf In]; [reflexivity|].
  intros H. destruct (Ascii.eqb c CR) eqn:E.
  - apply Ascii.eqb_eq in E. tauto.
  - rewrite IH by tauto. reflexivity.
Qed.

Lemma replace_crlf_length s :
  List.length (replace_crlf s) <= List.length s /\
  forall c, List.length (replace_crlf (c :: s)) <= S (List.length s).
Proof.
  induction s as [|c' s [IH1 IH2]].
  - split; [cbn; lia|]. intros c. cbn [replace_crlf].
    destruct (Ascii.eqb c CR); cbn [List.length]; lia.
  - split; [apply IH2|]. intros c. specialize (IH2 c').
    cbn [replace_crlf] in *.
    destruct (Ascii.eqb c CR); [destruct (Ascii.eqb c' LF)|];
      cbn [List.length] in *; lia.
Qed.

Lemma init_text src :
  ~ In CR (text (init src)) /\
  List.length (text (init src)) <= List.length src /\
  length (init src) = List.length (text (init src)) /\
  (~ In CR src -> text (init src) = src).
Proof.
  cbn [init text length]. split; [apply replace_cr_no_CR|].
  split.
  { unfold replace_cr. rewrite length_map. apply replace_crlf_length. }
  split; [reflexivity|].
  intros H. rewrite (replace_crlf_id _ H). apply replace_cr_id, H.
Qed.

Lemma init_text_nil : text (init []) = [].
Proof. reflexivity. Qed.

Lemma init_text_other c s :
  c <> CR -> text (init (c :: s)) = c :: text (init s).
Proof.
  intros Hc. cbn [init text replace_crlf].
  destruct (Ascii.eqb c CR) eqn:E;
    [apply Ascii.eqb_eq in E; contradiction|].
  unfold replace_cr. cbn [map]. rewrite E. reflexivity.
Qed.

Lemma init_text_CR_LF s :
  text (init (CR :: LF :: s)) = LF :: text (init s).
Proof. reflexivity. Qed.

Lemma init_text_CR s :
  hd_error s <> Some LF -> text (init (CR :: s)) = LF :: text (init s).
Proof.
  intros Hs. cbn [init text replace_crlf].
  change (Ascii.eqb CR CR) with true. cbv iota.
  destruct s as [|c' t']; [reflexivity|].
  destruct (Ascii.eqb c' LF) eqn:E.
  - apply Ascii.eqb_eq in E. subst c'. exfalso. apply Hs. reflexivity.
  - reflexivity.
Qed.

(** [Lexer.__init__] reads the text from left to right turning a carriage
    return and the line feed after it into one line feed, a carriage
    return alone into a line feed, and keeping every other character. So
    it leaves no carriage return in the text it keeps, never makes the
    text longer, and keeps a text that has no carriage return as it is;
    [length] is the length of the text it keeps. *)
Theorem init_turns_line_endings_into_line_feeds :
  text (init []) = [] /\
  (forall s, text (init (CR :: LF :: s)) = LF :: text (init s)) /\
  (forall s,
     hd_error s <> Some LF -> text (init (CR :: s)) = LF :: text (init s)) /\
  (forall c s, c <> CR -> text (init (c :: s)) = c :: text (init s)) /\
  (forall src,
     ~ In CR (text (init src)) /\
     List.length (text (init src)) <= List.length src /\
     length (init src) = List.length (text (init src)) /\
     (~ In CR src -> text (init src) = src)).
Proof.
  split; [exact init_text_nil|]. split; [exact init_text_CR_LF|].
  split; [exact init_text_CR|]. split; [exact init_text_other|].
  exact init_text.
Qed.

(** ** Lexemes *)

Lemma list_of_snoc s c :
  list_ascii_of_string (snoc s c) = list_ascii_of_string s ++ [c].
Proof.
  unfold snoc. induction s as [|a s IH]; cbn; [reflexivity|].
  rewrite IH. reflexivity.
Qed.

Lemma list_of_fold_snoc l acc :
  list_ascii_of_string (fold_left snoc l acc) = list_ascii_of_string acc ++ l.
Proof.
  revert acc. induction l as [|c l IH]; intros acc; cbn [fold_left].
  - rewrite app_nil_r. reflexivity.
  - rewrite IH, list_of_snoc, <- app_assoc. reflexivity.
Qed.

Lemma span_split p l : l = span p l ++ skipn (List.length (span p l)) l.
Proof.
  induction l as [|c l IH]; cbn [span]; [reflexivity|].
  destruct (p c); cbn [List.length skipn app]; [|reflexivity].
  rewrite <- IH. reflexivity.
Qed.

Lemma firstn_length_app A (a b : list A) :
  firstn (List.length a) (a ++ b) = a.
Proof. induction a as [|x a IH]; cbn; [reflexivity|]. rewrite IH. reflexivity. Qed.

(** The characters of [txt] from index [p] up to, not including, [q]. *)
Definition slice (txt : list ascii) (p q : nat) : list ascii :=
  firstn (q - p) (skipn p txt).

(** [tok] is the token of the characters of [txt] from [p] up to [q]: its
    value is made of them, and its line and column are those of the
    first. *)
Definition lexeme (txt : list ascii) (p q : nat) (tok : Token.t) : Prop :=
  p < q /\ q <= List.length txt /\
  option_map list_ascii_of_string (Token.value tok) = Some (slice txt p q) /\
  (Token.line tok, Token.column tok) = position txt p.

(** A lexical error whose line and column are those of a character of
    [txt] at or after index [from]. *)
Definition fault_in (txt : list ascii) (from : nat) (e : exn) : Prop :=
  exists message l c char p,
    e = LexicalError message l c char /\
    from <= p /\ p < List.length txt /\ (l, c) = position txt p.

Definition lexeme_post (st : state) (tok : Token.t) (st' : state) : Prop :=
  wf st' /\ text st' = text st /\
  if String.eqb (Token.type tok) "EOF" then
    pos st <= pos st' /\ pos st' = length st' /\ Token.value tok = None
  else
    exists p, pos st <= p /\ lexeme (text st) p (pos st') tok.

Lemma here_is_placed st c :
  wf st -> current_char st = Some c ->
  pos st < List.length (text st) /\
  (line st, col st) = position (text st) (pos st).
Proof.
  intros Hwf Hc. pose proof (char_some_lt Hwf Hc) as Hlt.
  split; [rewrite <- (wf_length Hwf); assumption|].
  rewrite (wf_line Hwf), (wf_col Hwf Hlt). symmetry.
  apply surjective_pairing.
Qed.

Lemma fault_here st c message char :
  wf st -> current_char st = Some c ->
  fault_in (text st) (pos st) (LexicalError message (line st) (col st) char).
Proof.
  intros Hwf Hc. destruct (here_is_placed Hwf Hc) as [Hlt Hpos].
  exists message, (line st), (col st), char, (pos st).
  repeat split; auto.
Qed.

Lemma lexeme_at_cursor st c st' type v :
  wf st -> current_char st = Some c ->
  wf st' -> text st' = text st -> pos st < pos st' ->
  list_ascii_of_string v = firstn (pos st' - pos st) (rest st) ->
  lexeme (text st) (pos st) (pos st') (Token.mk type (Some v) (line st) (col st)).
Proof.
  intros Hwf Hc Hwf' Ht Hp Hv.
  destruct (here_is_placed Hwf Hc) as [Hlt Hpos].
  split; [assumption|]. split.
  { pose proof (wf_pos Hwf'). rewrite (wf_length Hwf'), Ht in H. assumption. }
  split; [|exact Hpos].
  cbn [Token.value option_map]. rewrite Hv. reflexivity.
Qed.

Lemma lexeme_post_at st c st' type v :
  wf st -> current_char st = Some c ->
  wf st' -> text st' = text st -> pos st < pos st' ->
  list_ascii_of_string v = firstn (pos st' - pos st) (rest st) ->
  String.eqb type "EOF" = false ->
  lexeme_post st (Token.mk type (Some v) (line st) (col st)) st'.
Proof.
  intros Hwf Hc Hwf' Ht Hp Hv Hty. unfold lexeme_post. cbn [Token.type].
  rewrite Hty. split; [assumption|]. split; [assumption|].
  exists (pos st). split; [lia|].
  apply lexeme_at_cursor with (c := c); assumption.
Qed.

Lemma lexeme_post_here st c n type v :
  wf st -> current_char st = Some c ->
  1 <= n -> n <= List.length (rest st) ->
  list_ascii_of_string v = firstn n (rest st) ->
  String.eqb type "EOF" = false ->
  lexeme_post st (Token.mk type (Some v) (line st) (col st)) (adv n st).
Proof.
  intros Hwf Hc Hn Hn' Hv Hty.
  apply lexeme_post_at with (c := c); auto.
  - apply wf_adv; assumption.
  - apply text_adv.
  - rewrite pos_adv. lia.
  - rewrite pos_adv. replace (pos st + n - pos st) with n by lia. assumption.
Qed.

Lemma fault_in_weaken txt from from' e :
  from <= from' -> fault_in txt from' e -> fault_in txt from e.
Proof.
  intros Hle (m & l & c & ch & p & He & H1 & H2 & H3).
  exists m, l, c, ch, p. repeat split; auto. lia.
Qed.

Lemma lexeme_post_skip st n tok st' :
  lexeme_post (adv n st) tok st' -> lexeme_post st tok st'.
Proof.
  unfold lexeme_post. rewrite text_adv, pos_adv.
  intros (Hwf & Ht & H). split; [assumption|]. split; [assumption|].
  destruct (String.eqb (Token.type tok) "EOF").
  - destruct H as (? & ? & ?). repeat split; auto; lia.
  - destruct H as (p & ? & ?). exists p. split; auto; lia.
Qed.

(** What [number] gives from a digit or a dot: the literal from the cursor
    to where it stops, or an error placed in the text. *)
Lemma number_of_lexeme st c :
  wf st -> current_char st = Some c -> is_digit c = true \/ c = "."%char ->
  match number_of st with
  | Ok tok st' =>
      wf st' /\ text st' = text st /\ pos st < pos st' /\
      (exists v, Token.value tok = Some v /\
                 list_ascii_of_string v
                 = firstn (pos st' - pos st) (rest st)) /\
      tok = Token.mk "NUMBER" (Token.value tok) (line st) (col st)
  | Raise e => fault_in (text st) (pos st) e
  | OutOfFuel => False
  end.
Proof.
  intros Hwf Hc Hstart. unfold number_of.
  destruct (rest_nonempty Hwf Hc) as [r Hr].
  assert (Hwf1 : wf (advanced st)) by (eapply wf_advanced; eauto).
  destruct (opt_is (current_char st) ".") eqn:Hdot.
  - destruct (not_a_digit (current_char (advanced st)));
      [apply fault_here with (c := c); assumption|].
    rewrite Hc in Hdot. cbn [opt_is] in Hdot. apply Ascii.eqb_eq in Hdot.
    subst c.
    assert (Hr1 : rest (advanced st) = r)
      by (rewrite rest_advanced, Hr; reflexivity).
    split; [apply wf_after_digits; assumption|].
    split; [rewrite text_after_digits; apply text_advanced|].
    rewrite pos_after_digits, pos_advanced, Hr1.
    split; [lia|]. split; [|reflexivity].
    eexists. split; [reflexivity|].
    unfold with_digits.
    rewrite list_of_fold_snoc, Hr1, Hr.
    replace (pos st + 1 + List.length (span is_digit r) - pos st)
      with (S (List.length (span is_digit r))) by lia.
    cbn [firstn list_ascii_of_string app].
    rewrite (span_split is_digit r) at 3.
    rewrite firstn_length_app. reflexivity.
  - destruct Hstart as [Hdig | ->].
    2:{ rewrite Hc in Hdot. discriminate. }
    set (ds1 := span is_digit (rest st)).
    assert (Hwf2 : wf (after_digits st)) by (apply wf_after_digits; auto).
    assert (Hr2 : rest (after_digits st) = skipn (List.length ds1) (rest st))
      by (unfold after_digits; apply rest_adv).
    assert (Hsplit : rest st = ds1 ++ rest (after_digits st))
      by (rewrite Hr2; apply span_split).
    assert (Hn1 : 1 <= List.length ds1).
    { unfold ds1. rewrite Hr. apply span_nonempty. assumption. }
    pose proof (pos_after_digits st) as Hp2. fold ds1 in Hp2.
    pose proof (text_after_digits st) as Ht2.
    destruct (opt_is (current_char (after_digits st)) ".") eqn:Hdot2.
    + apply opt_is_eq in Hdot2.
      destruct (rest_nonempty Hwf2 Hdot2) as [r2 Hr2'].
      assert (Hwf3 : wf (advanced (after_digits st)))
        by (eapply wf_advanced; eauto).
      destruct (not_a_digit (current_char (advanced (after_digits st))));
        [apply fault_here with (c := c); assumption|].
      set (st2 := advanced (after_digits st)) in *.
      assert (Hr3 : rest st2 = r2)
        by (unfold st2; rewrite rest_advanced, Hr2'; reflexivity).
      assert (Hp3 : pos st2 = pos st + List.length ds1 + 1)
        by (unfold st2; rewrite pos_advanced; lia).
      assert (Ht3 : text st2 = text st)
        by (unfold st2; rewrite text_advanced; assumption).
      assert (Hwf4 : wf (after_digits st2)) by (apply wf_after_digits; auto).
      pose proof (pos_after_digits st2) as Hp4.
      pose proof (text_after_digits st2) as Ht4.
      destruct (opt_is (current_char (after_digits st2)) ".") eqn:Hdot3.
      * apply opt_is_eq in Hdot3.
        apply fault_in_weaken with (from' := pos (after_digits st2)); [lia|].
        rewrite <- Ht3, <- Ht4.
        apply fault_here with (c := "."%char); assumption.
      * split; [assumption|]. split; [congruence|]. split; [lia|].
        split; [|reflexivity].
        eexists. split; [reflexivity|].
        unfold with_digits. rewrite !list_of_fold_snoc, list_of_snoc.
        rewrite list_of_fold_snoc. fold ds1. cbn [list_ascii_of_string app].
        rewrite Hr3. set (ds2 := span is_digit r2) in *.
        rewrite Hsplit, Hr2', (span_split is_digit r2). fold ds2.
        replace (pos (after_digits st2) - pos st)
          with (List.length ((ds1 ++ ["."%char]) ++ ds2)).
        2:{ rewrite !length_app. cbn [List.length]. rewrite Hr3 in Hp4.
            fold ds2 in Hp4. lia. }
        replace (ds1 ++ "."%char :: ds2 ++ skipn (List.length ds2) r2)
          with (((ds1 ++ ["."%char]) ++ ds2) ++ skipn (List.length ds2) r2).
        2:{ rewrite <- !app_assoc. reflexivity. }
        rewrite firstn_length_app. reflexivity.
    + split; [assumption|]. split; [assumption|]. split; [lia|].
      split; [|reflexivity].
      eexists. split; [reflexivity|].
      unfold with_digits. rewrite list_of_fold_snoc. fold ds1.
      cbn [list_ascii_of_string app].
      replace (pos (after_digits st) - pos st) with (List.length ds1) by lia.
      rewrite Hsplit at 1. rewrite firstn_length_app. reflexivity.
Qed.

(** From any state of the scanner, with two units of fuel more than
    characters left, [get_next_token] returns the end marker at the end of
    the text or the token of the characters it took, or raises an error
    placed in the text. *)
Lemma get_next_token_lexeme fuel st :
  wf st -> List.length (rest st) + 2 <= fuel ->
  wp (get_next_token fuel) (lexeme_post st) (fault_in (text st) (pos st)) st.
Proof.
  revert st. induction fuel as [|fuel IH]; intros st Hwf Hf; [lia|].
  unfold wp. cbn [get_next_token]. unfold bind at 1. unfold get at 1.
  destruct (current_char st) as [c|] eqn:Hc.
  2:{ unfold ret, lexeme_post. cbn [Token.type Token.value String.eqb
                                    Ascii.eqb Bool.eqb].
      pose proof (char_none_eq Hwf Hc).
      split; [assumption|]. repeat split; auto. }
  destruct (rest_nonempty Hwf Hc) as [r Hr].
  assert (Hlen : List.length (rest st) = S (List.length r))
    by (rewrite Hr; reflexivity).
  pose proof (wf_line_ge_1 Hwf) as Hline.
  pose proof (wf_col_ge_1 Hwf Hc) as Hcol.
  assert (Hrec : forall n, 1 <= n -> n <= List.length (rest st) ->
            match get_next_token fuel (adv n st) with
            | Ok a s' => lexeme_post st a s'
            | Raise e => fault_in (text st) (pos st) e
            | OutOfFuel => False
            end).
  { intros n Hn Hn'.
    assert (Hwf' : wf (adv n st)) by (apply wf_adv; assumption).
    specialize (IH (adv n st) Hwf'). unfold wp in IH.
    rewrite rest_adv, length_skipn, text_adv, pos_adv in IH.
    destruct (get_next_token fuel (adv n st)).
    - apply lexeme_post_skip with (n := n). apply IH. lia.
    - apply fault_in_weaken with (from' := pos st + n); [lia|].
      apply IH. lia.
    - apply IH. lia. }
  assert (Hone : forall type,
            String.eqb type "EOF" = false ->
            match single type (String c EmptyString) st with
            | Ok a s' => lexeme_post st a s'
            | Raise e => fault_in (text st) (pos st) e
            | OutOfFuel => False
            end).
  { intros type Hty. rewrite (single_eq _ _ Hwf Hc).
    apply (@lexeme_post_here st c 1); auto; [lia|].
    rewrite Hr. reflexivity. }
  assert (Htwo : forall type2 type1,
            String.eqb type2 "EOF" = false ->
            String.eqb type1 "EOF" = false ->
            match one_or_two type2 (String c "=") type1 (String c EmptyString)
                    st with
            | Ok a s' => lexeme_post st a s'
            | Raise e => fault_in (text st) (pos st) e
            | OutOfFuel => False
            end).
  { intros type2 type1 H2 H1.
    rewrite (one_or_two_eq _ _ _ _ Hwf Hc).
    destruct (opt_is (nth_error (rest st) 1) "=") eqn:Heq.
    - apply opt_is_eq in Heq. rewrite Hr in Heq, Hlen.
      destruct r as [|c2 r]; cbn in Heq; [discriminate|].
      injection Heq as ->.
      apply (@lexeme_post_here st c 2); auto.
      + rewrite Hr. cbn. lia.
      + rewrite Hr. reflexivity.
    - apply (@lexeme_post_here st c 1); auto; [lia|].
      rewrite Hr. reflexivity. }
  destruct (char_in c whitespace) eqn:Hws.
  { unfold bind. rewrite skip_whitespace_eq; auto.
    - apply Hrec; [|apply span_length].
      rewrite Hr. apply span_nonempty. assumption.
    - pose proof (span_length (fun c => char_in c whitespace) (rest st)).
      lia. }
  destruct (Ascii.eqb c "#") eqn:Hhash.
  { unfold bind. rewrite skip_line_comment_eq; auto.
    - apply Hrec; [|apply span_length].
      rewrite Hr. apply span_nonempty.
      apply Ascii.eqb_eq in Hhash. subst c. reflexivity.
    - pose proof (span_length (fun c => negb (Ascii.eqb c LF)) (rest st)).
      lia. }
  unfold bind at 1.
  assert (Hopens : and_then (Ascii.eqb c "/") (peek_is "*") st
                   = Ok (Ascii.eqb c "/" && opt_is (hd_error r) "*") st).
  { unfold and_then. destruct (Ascii.eqb c "/"); [|reflexivity].
    rewrite (peek_is_eq _ Hwf), Hr. destruct r; reflexivity. }
  rewrite Hopens.
  destruct (Ascii.eqb c "/" && opt_is (hd_error r) "*") eqn:Hblock.
  { apply andb_prop in Hblock. destruct Hblock as [Hc1 Hc2].
    apply Ascii.eqb_eq in Hc1. apply opt_is_eq in Hc2. subst c.
    destruct r as [|c2 r]; cbn in Hc2; [discriminate|].
    injection Hc2 as ->.
    unfold bind. rewrite (skip_block_comment_eq Hwf Hr) by lia.
    destruct (find_close r) as [k|] eqn:Hk;
      [|apply fault_here with (c := "/"%char); assumption].
    apply find_close_bound in Hk. apply Hrec; [lia|].
    rewrite Hr. cbn. lia. }
  destruct (Ascii.eqb c "+") eqn:E;
    [apply Ascii.eqb_eq in E; subst c; apply Hone; reflexivity|clear E].
  destruct (Ascii.eqb c "-") eqn:E;
    [apply Ascii.eqb_eq in E; subst c; apply Hone; reflexivity|clear E].
  destruct (Ascii.eqb c "*") eqn:E;
    [apply Ascii.eqb_eq in E; subst c; apply Hone; reflexivity|clear E].
  destruct (Ascii.eqb c "/") eqn:E;
    [apply Ascii.eqb_eq in E; subst c; apply Hone; reflexivity|clear E].
  destruct (Ascii.eqb c "(") eqn:E;
    [apply Ascii.eqb_eq in E; subst c; apply Hone; reflexivity|clear E].
  destruct (Ascii.eqb c ")") eqn:E;
    [apply Ascii.eqb_eq in E; subst c; apply Hone; reflexivity|clear E].
  destruct (Ascii.eqb c ">") eqn:E;
    [apply Ascii.eqb_eq in E; subst c; apply Htwo; reflexivity|clear E].
  destruct (Ascii.eqb c "<") eqn:E;
    [apply Ascii.eqb_eq in E; subst c; apply Htwo; reflexivity|clear E].
  destruct (Ascii.eqb c "!") eqn:E.
  { apply Ascii.eqb_eq in E. subst c.
    unfold bind at 1. rewrite (peek_is_eq _ Hwf).
    destruct (opt_is (nth_error (rest st) 1) "=") eqn:Heq.
    - unfold bind, ret. rewrite (advance_eq Hwf).
      assert (Hwf' : wf (advanced st)) by (eapply wf_advanced; eauto).
      rewrite (advance_eq Hwf').
      apply opt_is_eq in Heq. rewrite Hr in Heq, Hlen.
      destruct r as [|c2 r]; cbn in Heq; [discriminate|].
      injection Heq as ->.
      apply (@lexeme_post_here st "!"%char 2); auto.
      + rewrite Hr. cbn. lia.
      + rewrite Hr. reflexivity.
    - unfold error, bind, get, raise.
      rewrite !or_default_some by assumption.
      apply fault_here with (c := "!"%char); assumption. }
  clear E.
  destruct (Ascii.eqb c "=") eqn:E;
    [apply Ascii.eqb_eq in E; subst c; apply Htwo; reflexivity|clear E].
  unfold bind at 1.
  assert (Hnum : or_else (is_digit c)
                   (and_then (Ascii.eqb c ".") peek_is_digit) st
                 = Ok (is_digit c
                       || (Ascii.eqb c "."
                           && negb (not_a_digit (hd_error r)))) st).
  { unfold or_else, and_then. destruct (is_digit c); [reflexivity|].
    destruct (Ascii.eqb c "."); [|reflexivity].
    rewrite (peek_is_digit_eq Hwf), Hr. destruct r; reflexivity. }
  rewrite Hnum.
  destruct (is_digit c || (Ascii.eqb c "." && negb (not_a_digit (hd_error r))))
    eqn:Hstart.
  { unfold bind at 1. rewrite (number_eq Hwf Hc) by lia.
    assert (Hst : is_digit c = true \/ c = "."%char).
    { apply orb_prop in Hstart. destruct Hstart as [H|H]; auto.
      apply andb_prop in H. destruct H as [H _].
      apply Ascii.eqb_eq in H. auto. }
    pose proof (number_of_lexeme Hwf Hc Hst) as Hpost.
    destruct (number_of st) as [tok st'| |]; auto.
    destruct Hpost as (Hwf' & Ht & Hp & (v & Hv & Hslice) & Htok).
    unfold bind at 1.
    assert (Hrest : List.length (rest st') <= List.length (rest st)).
    { rewrite !rest_length by assumption.
      rewrite (wf_length Hwf'), (wf_length Hwf), Ht. lia. }
    rewrite peek_next_non_whitespace_eq by (auto; lia).
    destruct (opt_is (next_non_whitespace st') ".").
    - unfold error, bind, get, raise. rewrite Htok.
      cbn [Token.line Token.column].
      rewrite !or_default_some by assumption.
      apply fault_here with (c := c); assumption.
    - unfold ret. rewrite Htok, Hv.
      apply lexeme_post_at with (c := c); auto. }
  destruct (char_in c ascii_letters || Ascii.eqb c "_") eqn:Hid.
  { rewrite (identifier_or_keyword_eq Hwf Hc Hid) by lia.
    apply (@lexeme_post_here st c); auto.
    - rewrite Hr. apply span_nonempty.
      apply ident_start_is_ident_char. assumption.
    - apply span_length.
    - rewrite list_of_fold_snoc. cbn [list_ascii_of_string app].
      rewrite (span_split is_ident_char (rest st)) at 3.
      rewrite firstn_length_app. reflexivity.
    - apply reserved_not_eof. }
  destruct (Ascii.eqb c ":") eqn:E;
    [apply Ascii.eqb_eq in E; subst c; apply Hone; reflexivity|clear E].
  unfold error, bind, get, raise.
  rewrite !or_default_some by assumption.
  apply fault_here with (c := c); assumption.
Qed.

(** The tokens of consecutive stretches of [txt], the first one starting
    at or after index [from]: each token is the lexeme of its stretch and
    the next stretch starts where it ends or later. *)
Inductive lexemes (txt : list ascii) : nat -> list Token.t -> Prop :=
| lexemes_nil from : lexemes txt from []
| lexemes_cons from p q tok toks :
    from <= p ->
    String.eqb (Token.type tok) "EOF" = false ->
    lexeme txt p q tok ->
    lexemes txt q toks ->
    lexemes txt from (tok :: toks).

Definition tokenize_lexemes (st : state) (acc toks : list Token.t)
    (st' : state) : Prop :=
  exists new eof,
    toks = acc ++ new ++ [eof] /\
    lexemes (text st) (pos st) new /\
    Token.type eof = "EOF"%string /\ Token.value eof = None.

Lemma tokenize_loop_lexemes fuel acc st :
  wf st -> List.length (rest st) + 3 <= fuel ->
  wp (tokenize_loop fuel acc) (tokenize_lexemes st acc)
     (fault_in (text st) (pos st)) st.
Proof.
  revert acc st. induction fuel as [|fuel IH]; intros acc st Hwf Hf; [lia|].
  unfold wp. cbn [tokenize_loop]. unfold bind at 1.
  assert (Hf' : List.length (rest st) + 2 <= fuel) by lia.
  pose proof (get_next_token_lexeme Hwf Hf') as Htok. unfold wp in Htok.
  destruct (get_next_token fuel st) as [tok st'| |]; auto.
  destruct Htok as (Hwf' & Ht & Htok).
  destruct (String.eqb (Token.type tok) "EOF") eqn:Hty.
  - destruct Htok as (Hp & Hend & Hv).
    unfold ret, tokenize_lexemes.
    exists [], tok. apply String.eqb_eq in Hty.
    repeat split; auto. constructor.
  - destruct Htok as (p & Hp1 & Hlex).
    pose proof Hlex as (Hp2 & Hq & _).
    pose proof (wf_length Hwf') as Hl'. pose proof (wf_length Hwf) as Hl.
    assert (Hrest : List.length (rest st') + 3 <= fuel).
    { rewrite rest_length in * by assumption.
      assert (length st' = length st) by congruence. lia. }
    specialize (IH (acc ++ [tok]) st' Hwf' Hrest). unfold wp in IH.
    destruct (tokenize_loop fuel (acc ++ [tok]) st') as [toks st''| |];
      auto.
    + destruct IH as (new & eof & Htoks & Hnew & Heof).
      rewrite Ht in Hnew.
      exists (tok :: new), eof. split.
      { rewrite Htoks, <- app_assoc. reflexivity. }
      split; [|assumption].
      apply lexemes_cons with (p := p) (q := pos st'); assumption.
    + rewrite Ht in IH.
      apply fault_in_weaken with (from' := pos st'); [lia|assumption].
Qed.

Lemma raised_satisfies S A (m : nat -> M S A) bound
    (Q : A -> S -> Prop) (E : exn -> Prop) s fuel e :
  (forall f f', f <= f' -> refines (m f) (m f')) ->
  (forall f, bound <= f -> wp (m f) Q E s) ->
  m fuel s = Raise e -> E e.
Proof.
  intros Hmono Hwp Hrun.
  pose proof (Hwp (Nat.max fuel bound) (Nat.le_max_r _ _)) as H.
  unfold wp in H.
  rewrite (@refines_raise _ _ _ _ _ _
             (Hmono fuel (Nat.max fuel bound) (Nat.le_max_l _ _)) Hrun) in H.
  exact H.
Qed.

(** Every token that [tokenize] returns before the end marker has as its
    value the very characters of the text from the token's start to its
    end and as its line and column those of its first character; the
    tokens come in the order of the text and do not overlap; the end
    marker, which has no value, is the last token and the only one of its
    type. *)
Theorem tokens_are_the_lexemes_in_text_order src fuel toks st' :
  tokenize fuel (init src) = Ok toks st' ->
  exists front eof,
    toks = front ++ [eof] /\
    Token.type eof = "EOF"%string /\ Token.value eof = None /\
    lexemes (text (init src)) 0 front.
Proof.
  intros Hrun.
  pose proof (@returned_satisfies _ _ (fun f => tokenize f)
                (List.length (rest (init src)) + 3)
                (tokenize_lexemes (init src) [])
                (fault_in (text (init src)) (pos (init src)))
                (init src) fuel toks st'
                (fun f f' H => @tokenize_loop_mono f f' [] H)
                (fun f Hf => tokenize_loop_lexemes [] (wf_init src) Hf)
                Hrun) as (new & eof & Htoks & Hnew & Hty & Hv).
  exists new, eof. auto.
Qed.

Lemma tokens_are_the_lexemes_in_text_order_witness :
  exists front eof,
    [Token.mk "IDENTIFIER" (Some "x"%string) 1 1;
     Token.mk "ASSIGN" (Some "="%string) 1 3;
     Token.mk "NUMBER" (Some "1.5"%string) 1 5;
     Token.mk "EOF" None 1 7]
    = front ++ [eof] /\
    Token.type eof = "EOF"%string /\ Token.value eof = None /\
    lexemes (text (init (list_ascii_of_string "x = 1.5"))) 0 front.
Proof.
  eapply (@tokens_are_the_lexemes_in_text_order
            (list_ascii_of_string "x = 1.5") 10).
  vm_compute. reflexivity.
Defined.

(** Every lexical error that [tokenize] raises carries the line and the
    column of a character of the text, both at least 1: the fall-back of
    [error] to the current line and column for a missing or zero argument
    never gives a place outside the text. *)
Theorem lexical_faults_point_into_the_text src fuel e :
  tokenize fuel (init src) = Raise e ->
  exists message l c char p,
    e = LexicalError message l c char /\
    p < List.length (text (init src)) /\
    (l, c) = position (text (init src)) p /\
    1 <= l /\ 1 <= c.
Proof.
  intros Hrun.
  pose proof (@raised_satisfies _ _ (fun f => tokenize f)
                (List.length (rest (init src)) + 3)
                (tokenize_lexemes (init src) [])
                (fault_in (text (init src)) (pos (init src)))
                (init src) fuel e
                (fun f f' H => @tokenize_loop_mono f f' [] H)
                (fun f Hf => tokenize_loop_lexemes [] (wf_init src) Hf)
                Hrun) as (m & l & c & ch & p & He & _ & Hp & Hpos).
  exists m, l, c, ch, p.
  pose proof (position_ge_1 (text (init src)) p) as [H1 H2].
  rewrite <- Hpos in H1, H2. cbn [fst snd] in H1, H2. auto.
Qed.

Lemma lexical_faults_point_into_the_text_witness :
  exists message l c char p,
    LexicalError "Invalid character" 2 3 (Some "$"%char)
    = LexicalError message l c char /\
    p < List.length (text (init [ "x"; LF; "y"; " "; "$" ]%char)) /\
    (l, c) = position (text (init [ "x"; LF; "y"; " "; "$" ]%char)) p /\
    1 <= l /\ 1 <= c.
Proof.
  apply (@lexical_faults_point_into_the_text
           [ "x"; LF; "y"; " "; "$" ]%char 10).
  vm_compute. reflexivity.
Defined.
End Lexemes.

Section LineCount.
Import Lexer LexerFacts.

(** ** Lines and columns, counted *)

Definition not_LF (c : ascii) : bool := negb (Ascii.eqb c LF).

Lemma fold_position_counts l :
  fst (fold_left step_position l (1, 1)) = 1 + count_occ ascii_dec l LF /\
  snd (fold_left step_position l (1, 1))
  = 1 + List.length (span not_LF (rev l)).
Proof.
  induction l as [|c l [IH1 IH2]] using rev_ind; [split; reflexivity|].
  rewrite fold_left_app, count_occ_app, rev_app_distr.
  cbn [fold_left rev app span count_occ]. unfold step_position at 1 3.
  unfold not_LF at 1. destruct (Ascii.eqb c LF) eqn:E.
  - apply Ascii.eqb_eq in E. subst c. cbn [fst snd negb List.length].
    destruct (ascii_dec LF LF); [|contradiction]. split; lia.
  - cbn [fst snd negb List.length].
    destruct (ascii_dec c LF) as [->|_].
    + rewrite Ascii.eqb_refl in E. discriminate.
    + split; lia.
Qed.

Lemma position_counts txt p :
  fst (position txt p) = 1 + count_occ ascii_dec (firstn p txt) LF /\
  snd (position txt p)
  = 1 + List.length (span not_LF (rev (firstn p txt))).
Proof. apply fold_position_counts. Qed.

(** [counted txt from toks]: the tokens are made of stretches of [txt]
    that follow one another from index [from] on; each token has the
    characters of its stretch, from [p] up to [q], as its value, one more
    than the number of line feeds before [p] as its line, and one more
    than the number of characters between the last line feed before [p],
    or the start of the text, and [p] as its column. *)
Inductive counted (txt : list ascii) : nat -> list Token.t -> Prop :=
| counted_nil from : counted txt from []
| counted_cons from p q tok toks :
    from <= p -> p < q -> q <= List.length txt ->
    option_map list_ascii_of_string (Token.value tok)
    = Some (slice txt p q) ->
    Token.line tok = 1 + count_occ ascii_dec (firstn p txt) LF ->
    Token.column tok
    = 1 + List.length (span not_LF (rev (firstn p txt))) ->
    counted txt q toks ->
    counted txt from (tok :: toks).

Lemma lexemes_counted txt from toks :
  lexemes txt from toks -> counted txt from toks.
Proof.
  induction 1 as [from | from p q tok toks Hle _ (Hpq & Hq & Hv & Hpos) _ IH].
  - constructor.
  - destruct (position_counts txt p) as [H1 H2].
    rewrite <- Hpos in H1, H2. cbn [fst snd] in H1, H2.
    apply counted_cons with (p := p) (q := q); assumption.
Qed.

(** The tokens that [tokenize] returns before the end marker are made of
    stretches of the text the scanner keeps, in the order of the text,
    and the line of each is one more than the number of line feeds before
    its first character, its column one more than the number of
    characters between the last line feed before that character, or the
    start of the text, and it; the line of the end marker is one more
    than the number of line feeds of the text. *)
Theorem token_lines_count_the_line_feeds src fuel toks st' :
  tokenize fuel (init src) = Ok toks st' ->
  exists front eof,
    toks = front ++ [eof] /\
    counted (text (init src)) 0 front /\
    Token.type eof = "EOF"%string /\
    Token.line eof = 1 + count_occ ascii_dec (text (init src)) LF.
Proof.
  intros Hrun.
  pose proof (@returned_satisfies _ _ (fun f => tokenize f)
                (List.length (rest (init src)) + 3)
                (tokenize_post (init src) [])
                is_lexical (init src) fuel toks st'
                (fun f f' H => @tokenize_loop_mono f f' [] H)
                (fun f Hf => tokenize_loop_total [] (wf_init src) Hf)
                Hrun)
    as (Hwf' & Ht & Hend & new & eof & Htoks & _ & Hty & _ & Hl & _).
  pose proof (@returned_satisfies _ _ (fun f => tokenize f)
                (List.length (rest (init src)) + 3)
                (tokenize_lexemes (init src) [])
                (fault_in (text (init src)) (pos (init src)))
                (init src) fuel toks st'
                (fun f f' H => @tokenize_loop_mono f f' [] H)
                (fun f Hf => tokenize_loop_lexemes [] (wf_init src) Hf)
                Hrun) as (new' & eof' & Htoks' & Hnew' & _).
  cbn [app] in Htoks, Htoks'.
  assert (Hsame : new' = new /\ eof' = eof).
  { rewrite Htoks in Htoks'. apply app_inj_tail in Htoks'.
    destruct Htoks'; auto. }
  destruct Hsame as [-> ->].
  exists new, eof. split; [assumption|]. split; [|split].
  - apply lexemes_counted. exact Hnew'.
  - exact Hty.
  - rewrite Hl, (wf_line Hwf'), Hend, (wf_length Hwf'), Ht.
    rewrite (proj1 (position_counts _ _)), firstn_all. reflexivity.
Qed.

Lemma token_lines_count_the_line_feeds_witness :
  exists front eof,
    [Token.mk "IDENTIFIER" (Some "x"%string) 1 1;
     Token.mk "IDENTIFIER" (Some "y"%string) 2 2;
     Token.mk "EOF" None 3 0]
    = front ++ [eof] /\
    counted (text (init [ "x"; LF; " "; "y"; LF ]%char)) 0 front /\
    Token.type eof = "EOF"%string /\
    Token.line eof
    = 1 + count_occ ascii_dec (text (init [ "x"; LF; " "; "y"; LF ]%char)) LF.
Proof.
  eapply (@token_lines_count_the_line_feeds [ "x"; LF; " "; "y"; LF ]%char 9).
  vm_compute. reflexivity.
Defined.

End LineCount.

Section Branches.
Import Lexer LexerFacts.

(** ** Which characters start a token *)

(** The characters [get_next_token] has a branch for. *)
Definition token_start : list ascii :=
  whitespace
  ++ list_ascii_of_string "#/+-*()><!=.:_0123456789"
  ++ ascii_letters.

Definition no_branch (c : ascii) : bool :=
  negb (char_in c whitespace) && negb (Ascii.eqb c "#")
  && negb (Ascii.eqb c "/") && negb (Ascii.eqb c "+")
  && negb (Ascii.eqb c "-") && negb (Ascii.eqb c "*")
  && negb (Ascii.eqb c "(") && negb (Ascii.eqb c ")")
  && negb (Ascii.eqb c ">") && negb (Ascii.eqb c "<")
  && negb (Ascii.eqb c "!") && negb (Ascii.eqb c "=")
  && negb (is_digit c) && negb (Ascii.eqb c ".").

Lemma other_character_no_branch c :
  char_in c token_start = false ->
  no_branch c = true /\
  char_in c ascii_letters || Ascii.eqb c "_" = false /\
  Ascii.eqb c ":" = false.
Proof.
  destruct c as [[] [] [] [] [] [] [] []]; vm_compute; intros H;
    try discriminate H; repeat split.
Qed.

Lemma letter_no_branch c :
  char_in c ascii_letters || Ascii.eqb c "_" = true -> no_branch c = true.
Proof.
  destruct c as [[] [] [] [] [] [] [] []]; vm_compute; intros H;
    try discriminate H; reflexivity.
Qed.

(** With the cursor on a character that none of the branches up to the
    one for numbers takes, [get_next_token] goes on to the branches for
    identifiers, the colon and the invalid character. *)
Lemma get_next_token_no_branch fuel st c :
  wf st -> current_char st = Some c -> no_branch c = true ->
  get_next_token (S fuel) st
  = (if char_in c ascii_letters || Ascii.eqb c "_" then
       identifier_or_keyword fuel
     else if Ascii.eqb c ":" then single "COLON" ":"
     else error "Invalid character" (Some c)
            (Some (line st)) (Some (col st))) st.
Proof.
  intros Hwf Hc Hno. unfold no_branch in Hno.
  repeat (apply andb_prop in Hno; destruct Hno as [Hno ?]).
  repeat match goal with
         | H : negb _ = true |- _ => apply negb_true_iff in H
         end.
  cbn [get_next_token]. unfold bind at 1. unfold get at 1. rewrite Hc.
  rewrite Hno.
  repeat match goal with
         | H : Ascii.eqb c _ = false |- _ => rewrite H
         end.
  unfold and_then at 1. unfold bind at 1. unfold ret at 1.
  cbv iota beta. unfold bind at 1.
  unfold or_else at 1.
  match goal with H : is_digit c = false |- _ => rewrite H end.
  unfold and_then at 1. unfold ret at 1. cbv iota beta.
  reflexivity.
Qed.


(** With the scan at a character that is none of the blanks, the
    characters of the operators, the digits, the dot, the colon, the
    letters and the underscore, [tokenize] raises the lexical error of
    the invalid character, with that character and its line and column. *)
Theorem other_characters_are_invalid src acc st c fuel :
  scans_to src acc st ->
  current_char st = Some c ->
  char_in c token_start = false ->
  length (init src) + 3 <= fuel ->
  tokenize fuel (init src)
  = Raise (LexicalError "Invalid character"
             (fst (position (text st) (pos st)))
             (snd (position (text st) (pos st)))
             (Some c)).
Proof.
  intros Hscan Hc Hother Hfuel.
  destruct (scans_to_wf Hscan) as [Hwf _].
  destruct (other_character_no_branch _ Hother) as (Hno & Hid & Hcolon).
  rewrite <- (wf_line Hwf).
  rewrite <- (wf_col Hwf (char_some_lt Hwf Hc)).
  apply scans_to_fault with (acc := acc) (st := st) (f := 1); auto.
  rewrite (get_next_token_no_branch 0 Hwf Hc Hno), Hid, Hcolon.
  unfold error, bind, get, raise.
  rewrite !or_default_some; auto using wf_line_ge_1.
  apply (wf_col_ge_1 Hwf Hc).
Qed.

Lemma other_characters_are_invalid_witness :
  tokenize 4 (init (list_ascii_of_string "$"))
  = Raise (LexicalError "Invalid character" 1 1 (Some "$"%char)).
Proof.
  apply (@other_characters_are_invalid (list_ascii_of_string "$") []
           (init (list_ascii_of_string "$")) "$"%char 4
           (scans_init _)).
  - reflexivity.
  - vm_compute. reflexivity.
  - vm_compute. lia.
Defined.

(** ** Words *)

(** A letter or an underscore followed by letters, digits and
    underscores. *)
Definition word (w : list ascii) : Prop :=
  match w with
  | c :: t =>
      char_in c ascii_letters || Ascii.eqb c "_" = true /\
      forallb is_ident_char t = true
  | [] => False
  end.

Lemma fold_snoc_string w :
  fold_left snoc w EmptyString = string_of_list_ascii w.
Proof.
  rewrite <- (string_of_list_ascii_of_string (fold_left snoc w EmptyString)).
  rewrite list_of_fold_snoc. reflexivity.
Qed.

(** With the cursor on a word that no letter, digit or underscore
    follows, [get_next_token] returns one token for the whole word: its
    type is what [RESERVED] holds for the word put in lower case, or
    [IDENTIFIER]; its value is the word as it is spelled. So a keyword is
    recognised whatever the case of its letters, and a keyword that goes on
    with a letter, a digit or an underscore is an identifier. *)
Theorem words_are_keywords_whatever_their_case st w r fuel :
  wf st -> rest st = w ++ r -> word w ->
  match r with c :: _ => is_ident_char c = false | [] => True end ->
  List.length (rest st) + 2 <= fuel ->
  get_next_token fuel st
  = Ok (Token.mk
          (dict_get RESERVED (lower (string_of_list_ascii w)) "IDENTIFIER")
          (Some (string_of_list_ascii w)) (line st) (col st))
       (adv (List.length w) st).
Proof.
  intros Hwf Hr Hw Hnext Hfuel.
  destruct w as [|c t]; [contradiction|]. destruct Hw as [Hstart Ht].
  destruct (rest_cons Hwf Hr) as (Hc & _ & _).
  destruct fuel as [|fuel]; [lia|].
  rewrite (get_next_token_no_branch fuel Hwf Hc (letter_no_branch _ Hstart)).
  rewrite Hstart.
  rewrite (identifier_or_keyword_eq Hwf Hc Hstart) by lia.
  assert (Hspan : span is_ident_char (rest st) = c :: t).
  { rewrite Hr. apply span_app; [|assumption].
    cbn [forallb]. rewrite (ident_start_is_ident_char _ Hstart), Ht.
    reflexivity. }
  rewrite Hspan, fold_snoc_string. reflexivity.
Qed.

Lemma words_are_keywords_whatever_their_case_witness :
  get_next_token 9 (init (list_ascii_of_string "FimProg"))
  = Ok (Token.mk "FIMPROG" (Some "FimProg"%string) 1 1)
       (adv 7 (init (list_ascii_of_string "FimProg"))).
Proof.
  apply (@words_are_keywords_whatever_their_case
           (init (list_ascii_of_string "FimProg"))
           (list_ascii_of_string "FimProg") [] 9 (wf_init _)).
  - reflexivity.
  - split; reflexivity.
  - exact I.
  - vm_compute. lia.
Defined.

(** ** Operators of one or two characters *)

(** With the cursor on [>], [<] or [=], [get_next_token] takes an [=]
    that follows at once into the token ([>=], [<=], [==]) and otherwise
    returns the one-character token; with the cursor on [!] it returns
    [!=] when [=] follows at once and otherwise raises a lexical error at
    the [!]. *)
Theorem comparison_operators_take_the_longest_match st c r fuel :
  wf st -> rest st = c :: r ->
  (c = ">"%char ->
   get_next_token (S fuel) st
   = if opt_is (hd_error r) "="
     then Ok (Token.mk "GE" (Some ">="%string) (line st) (col st)) (adv 2 st)
     else Ok (Token.mk "GT" (Some ">"%string) (line st) (col st)) (adv 1 st))
  /\
  (c = "<"%char ->
   get_next_token (S fuel) st
   = if opt_is (hd_error r) "="
     then Ok (Token.mk "LE" (Some "<="%string) (line st) (col st)) (adv 2 st)
     else Ok (Token.mk "LT" (Some "<"%string) (line st) (col st)) (adv 1 st))
  /\
  (c = "="%char ->
   get_next_token (S fuel) st
   = if opt_is (hd_error r) "="
     then Ok (Token.mk "EQ" (Some "=="%string) (line st) (col st)) (adv 2 st)
     else Ok (Token.mk "ASSIGN" (Some "="%string) (line st) (col st))
            (adv 1 st))
  /\
  (c = "!"%char ->
   get_next_token (S fuel) st
   = if opt_is (hd_error r) "="
     then Ok (Token.mk "NE" (Some "!="%string) (line st) (col st)) (adv 2 st)
     else Raise (LexicalError "Unexpected '!' (expected '!=')"
                   (line st) (col st) (Some "!"%char))).
Proof.
  intros Hwf Hr. destruct (rest_cons Hwf Hr) as (Hc & Hwf1 & _).
  assert (Hnext : nth_error (rest st) 1 = hd_error r)
    by (rewrite Hr; destruct r; reflexivity).
  pose proof (wf_line_ge_1 Hwf) as Hline.
  pose proof (wf_col_ge_1 Hwf Hc) as Hcol.
  repeat apply conj; intros ->;
    cbn [get_next_token]; unfold bind at 1; unfold get at 1; rewrite Hc;
    change (char_in ?x whitespace) with false; cbv iota;
    unfold and_then at 1; cbn [Ascii.eqb Bool.eqb andb];
    unfold bind at 1; unfold ret at 1; cbv iota beta.
  - rewrite (one_or_two_eq _ _ _ _ Hwf Hc), Hnext. reflexivity.
  - rewrite (one_or_two_eq _ _ _ _ Hwf Hc), Hnext. reflexivity.
  - rewrite (one_or_two_eq _ _ _ _ Hwf Hc), Hnext. reflexivity.
  - unfold bind at 1. rewrite (peek_is_eq _ Hwf), Hnext.
    destruct (opt_is (hd_error r) "=").
    + unfold bind, ret. rewrite (advance_eq Hwf), (advance_eq Hwf1).
      reflexivity.
    + unfold error, bind, get, raise.
      rewrite !or_default_some by assumption. reflexivity.
Qed.

Lemma comparison_operators_take_the_longest_match_witness :
  get_next_token 1 (init (list_ascii_of_string "! ="))
  = Raise (LexicalError "Unexpected '!' (expected '!=')" 1 1
             (Some "!"%char)).
Proof.
  apply (proj2 (proj2 (proj2
           (@comparison_operators_take_the_longest_match
              (init (list_ascii_of_string "! =")) "!"%char
              (list_ascii_of_string " =") 0 (wf_init _) eq_refl)))).
  reflexivity.
Defined.


(** ** Line comments and blank texts *)

(** The end marker that [get_next_token] returns with the cursor at the
    end of the text ends the token list, whatever fuel at least the length
    of the text plus three [tokenize] is given. *)
Lemma scans_to_end src acc st fuel :
  scans_to src acc st ->
  current_char st = None ->
  length (init src) + 3 <= fuel ->
  exists st',
    tokenize fuel (init src)
    = Ok (acc ++ [Token.mk "EOF" None (line st) (col st)]) st'.
Proof.
  intros Hscan Hc Hfuel.
  set (r := Ok (acc ++ [Token.mk "EOF" None (line st) (col st)]) st
            : result state (list Token.t)).
  assert (Hres : exists g, tokenize g (init src) = r).
  { apply scans_to_resume with (acc := acc) (st := st); auto.
    - discriminate.
    - exists 2. cbn [tokenize_loop get_next_token]. unfold bind, get.
      rewrite Hc. reflexivity. }
  destruct Hres as [g Hg].
  pose proof (wf_init src) as Hwf.
  assert (Hf : List.length (rest (init src)) + 3 <= fuel).
  { rewrite rest_length by assumption. lia. }
  pose proof (tokenize_loop_total [] Hwf Hf) as Htot. unfold wp in Htot.
  fold (tokenize fuel) in Htot.
  set (big := Nat.max g fuel).
  assert (H1 : tokenize big (init src) = r).
  { eapply refines_ok; [|exact Hg].
    apply tokenize_loop_mono. apply Nat.le_max_l. }
  exists st. fold r. rewrite <- H1. symmetry. apply tokenize_loop_mono.
  - apply Nat.le_max_r.
  - fold (tokenize fuel). destruct (tokenize fuel (init src));
      try discriminate. contradiction.
Qed.

Lemma line_adv l : forall st r,
  wf st -> rest st = l ++ r ->
  forallb (fun c => negb (Ascii.eqb c LF)) l = true ->
  line (adv (List.length l) st) = line st.
Proof.
  induction l as [|c l IH]; intros st r Hwf Hr Hl; [reflexivity|].
  cbn [forallb] in Hl. apply andb_prop in Hl. destruct Hl as [Hc Hl].
  destruct (rest_cons Hwf Hr) as (Hcur & Hwf1 & Hr1).
  cbn [List.length adv]. rewrite (IH (advanced st) r Hwf1 Hr1 Hl).
  unfold advanced. cbn [line]. rewrite Hcur. cbn [opt_is].
  apply negb_true_iff in Hc. rewrite Hc. reflexivity.
Qed.

(** Where the scan of a text comes to a [#], it goes on at the next line
    feed, or at the end of the text when there is none, with the tokens it
    had: whatever the rest of the line holds gives no token and raises no
    error. When the comment runs to the end of the text, [tokenize]
    returns those tokens and the end marker. *)
Theorem line_comment_hides_the_rest_of_the_line src acc st body r :
  scans_to src acc st ->
  rest st = "#"%char :: body ++ r ->
  forallb (fun c => negb (Ascii.eqb c LF)) body = true ->
  match r with c :: _ => c = LF | [] => True end ->
  (exists st',
     scans_to src acc st' /\
     pos st' = pos st + 1 + List.length body /\
     rest st' = r /\ line st' = line st) /\
  (r = [] ->
   forall fuel,
     length (init src) + 3 <= fuel ->
     exists eof st',
       tokenize fuel (init src) = Ok (acc ++ [eof]) st' /\
       Token.type eof = "EOF"%string /\ Token.line eof = line st).
Proof.
  intros Hscan Hr Hbody Hnext.
  destruct (scans_to_wf Hscan) as [Hwf _].
  destruct (rest_cons Hwf Hr) as (Hc & _ & _).
  assert (Hspan : span (fun c => negb (Ascii.eqb c LF)) (rest st)
                  = "#"%char :: body).
  { rewrite Hr. apply (span_app _ ("#"%char :: body)).
    - cbn [forallb]. rewrite Hbody. reflexivity.
    - destruct r as [|c r]; [exact I|]. subst c. reflexivity. }
  pose proof (@skip_line_comment_eq (S (List.length (rest st))) st Hwf)
    as Hskip.
  cbv zeta in Hskip. rewrite Hspan in Hskip. cbn [List.length] in Hskip.
  assert (Hlen : S (List.length body) <= List.length (rest st)).
  { rewrite Hr. cbn [List.length]. rewrite length_app. lia. }
  specialize (Hskip ltac:(lia)).
  set (st' := adv (S (List.length body)) st) in *.
  assert (Hscan' : scans_to src acc st')
    by (eapply scans_line_comment; eauto).
  assert (Hrest' : rest st' = r).
  { unfold st'. rewrite rest_adv, Hr.
    change ("#"%char :: body ++ r) with (("#"%char :: body) ++ r).
    apply (skipn_app_exact ("#"%char :: body)). }
  assert (Hline : line st' = line st).
  { unfold st'. apply (@line_adv ("#"%char :: body) st r Hwf Hr).
    cbn [forallb]. rewrite Hbody. reflexivity. }
  split.
  - exists st'. repeat split; auto. unfold st'. rewrite pos_adv. lia.
  - intros Hnil fuel Hfuel. rewrite Hnil in Hrest'.
    destruct (scans_to_wf Hscan') as [Hwf' _].
    assert (Hc' : current_char st' = None)
      by (rewrite (rest_char Hwf'), Hrest'; reflexivity).
    destruct (scans_to_end Hscan' Hc' Hfuel) as [st'' Hend].
    eexists. exists st''. split; [exact Hend|]. split; [reflexivity|].
    exact Hline.
Qed.


Lemma line_comment_hides_the_rest_of_the_line_witness :
  (exists st',
     scans_to (list_ascii_of_string "# $.") [] st' /\
     pos st' = pos (init (list_ascii_of_string "# $.")) + 1
               + List.length (list_ascii_of_string " $.") /\
     rest st' = [] /\
     line st' = line (init (list_ascii_of_string "# $."))) /\
  (@nil ascii = [] ->
   forall fuel,
     length (init (list_ascii_of_string "# $.")) + 3 <= fuel ->
     exists eof st',
       tokenize fuel (init (list_ascii_of_string "# $."))
       = Ok ([] ++ [eof]) st' /\
       Token.type eof = "EOF"%string /\
       Token.line eof = line (init (list_ascii_of_string "# $."))).
Proof.
  apply (@line_comment_hides_the_rest_of_the_line
           (list_ascii_of_string "# $.") []
           (init (list_ascii_of_string "# $."))
           (list_ascii_of_string " $.") [] (scans_init _));
    [reflexivity|reflexivity|exact I].
Defined.

Lemma blanks_no_CR src : blanks src -> ~ In CR src.
Proof.
  unfold blanks. intros Hb Hin.
  rewrite forallb_forall in Hb. specialize (Hb CR Hin). discriminate.
Qed.

(** A text of nothing but spaces, tabs and line feeds, the empty text
    included, gives the end marker alone, on the line after the last line
    feed, and the analysis of such a text reports the syntax error of a
    missing [INICIO] at that end marker. *)
Theorem blank_text_gives_the_end_marker_alone src fuel :
  blanks src -> List.length src + 3 <= fuel ->
  exists eof st',
    tokenize fuel (init src) = Ok [eof] st' /\
    Token.type eof = "EOF"%string /\ Token.value eof = None /\
    Token.line eof = 1 + count_occ ascii_dec src LF /\
    analyse fuel src
    = SyntaxFault "Esperado INICIO, encontrado EOF" eof.
Proof.
  intros Hb Hfuel.
  destruct (init_text src) as (_ & _ & Hlen & Hid).
  specialize (Hid (blanks_no_CR Hb)).
  assert (Hf : length (init src) + 3 <= fuel) by (rewrite Hlen, Hid; lia).
  pose proof (wf_init src) as Hwf.
  assert (Hrest : rest (init src) = src) by (unfold rest; rewrite Hid; reflexivity).
  assert (Hend : exists st,
             scans_to src [] st /\ current_char st = None /\
             line st = 1 + count_occ ascii_dec src LF).
  { destruct src as [|c t] eqn:Hsrc.
    - exists (init []). split; [constructor|]. split; reflexivity.
    - rewrite <- Hsrc in *.
      assert (Hc : current_char (init src) = Some c)
        by (rewrite (rest_char Hwf), Hrest, Hsrc; reflexivity).
      assert (Hws : char_in c whitespace = true).
      { unfold blanks in Hb. rewrite Hsrc in Hb. cbn [forallb] in Hb.
        apply andb_prop in Hb. tauto. }
      pose proof (@skip_whitespace_eq (S (List.length src)) (init src) Hwf)
        as Hskip.
      cbv zeta in Hskip. rewrite Hrest in Hskip.
      assert (Hspan : span (fun c => char_in c whitespace) src = src).
      { rewrite <- (app_nil_r src) at 1. apply span_app; [exact Hb|exact I]. }
      rewrite Hspan in Hskip. specialize (Hskip ltac:(lia)).
      set (st := adv (List.length src) (init src)) in *.
      assert (Hscan : scans_to src [] st)
        by (eapply scans_whitespace; [constructor| | |]; eauto).
      destruct (scans_to_wf Hscan) as [Hwf' _].
      assert (Hpos : pos st = List.length src)
        by (unfold st; rewrite pos_adv; reflexivity).
      assert (Htext : text st = src)
        by (unfold st; rewrite text_adv; exact Hid).
      exists st. split; [assumption|]. split.
      + rewrite (wf_char Hwf'), Htext, Hpos.
        apply nth_error_None. lia.
      + rewrite (wf_line Hwf'), Htext, Hpos.
        rewrite (proj1 (position_counts _ _)), firstn_all. reflexivity. }
  destruct Hend as (st & Hscan & Hc & Hline).
  destruct (scans_to_end Hscan Hc Hf) as [st' Hrun].
  cbn [app] in Hrun.
  exists (Token.mk "EOF" None (line st) (col st)), st'.
  split; [exact Hrun|]. split; [reflexivity|]. split; [reflexivity|].
  split; [exact Hline|].
  unfold analyse, Parser.init. rewrite Hrun. reflexivity.
Qed.

Lemma blank_text_gives_the_end_marker_alone_witness :
  exists eof st',
    tokenize 5 (init [ " "%char; LF ]) = Ok [eof] st' /\
    Token.type eof = "EOF"%string /\ Token.value eof = None /\
    Token.line eof = 1 + count_occ ascii_dec [ " "%char; LF ] LF /\
    analyse 5 [ " "%char; LF ]
    = SyntaxFault "Esperado INICIO, encontrado EOF" eof.
Proof.
  apply (@blank_text_gives_the_end_marker_alone [ " "%char; LF ] 5).
  - reflexivity.
  - cbn. lia.
Defined.

End Branches.

(** * Further properties of the parser *)

Section Faults.
Import Parser ParserFacts.
Variable ts : list Token.t.

(** A syntax error whose token is the token of [ts] at an index at or
    after [from]; nothing is said of other exceptions. *)
Definition fault_from (from : nat) (e : exn) : Prop :=
  match e with
  | SyntaxError_ _ token =>
      exists p, from <= p /\ nth_error ts p = Some token
  | _ => True
  end.

(** [sound st m]: the run of [m] from [st] keeps the cursor on a token
    and does not move it back, and a syntax error it raises carries a
    token of [ts] at or after the cursor of [st]. *)
Definition sound {A} (st : state) (m : M state A) : Prop :=
  wf ts st ->
  match m st with
  | Ok _ st' => wf ts st' /\ pos st <= pos st'
  | Raise e => fault_from (pos st) e
  | OutOfFuel => True
  end.

Lemma sound_ret A (a : A) st : sound st (ret a).
Proof. intros Hwf. cbn. split; [assumption|lia]. Qed.

Lemma sound_out_of_fuel A st : sound st (@out_of_fuel state A).
Proof. intros _. exact I. Qed.

Lemma sound_raise A message st :
  sound st (@raise state A (SyntaxError_ message (current_token st))).
Proof.
  intros Hwf. cbn. exists (pos st). split; [lia|apply (wf_current Hwf)].
Qed.

Lemma fault_from_weaken from from' e :
  from <= from' -> fault_from from' e -> fault_from from e.
Proof.
  intros Hle. destruct e; cbn; auto.
  intros (p & Hp & Hn). exists p. split; [lia|assumption].
Qed.

Lemma sound_bind A B (m : M state A) (k : A -> M state B) st :
  sound st m -> (forall a st', sound st' (k a)) -> sound st (bind m k).
Proof.
  intros Hm Hk Hwf. specialize (Hm Hwf). unfold bind.
  destruct (m st) as [a st'| |]; auto.
  destruct Hm as [Hwf' Hle]. specialize (Hk a st' Hwf').
  destruct (k a st') as [b st''| |]; auto.
  - destruct Hk. split; [assumption|lia].
  - apply fault_from_weaken with (from' := pos st'); assumption.
Qed.

Lemma sound_get A (k : state -> M state A) st :
  sound st (k st) -> sound st (bind get k).
Proof. intros Hk Hwf. exact (Hk Hwf). Qed.

Lemma sound_advance st : sound st advance.
Proof.
  intros Hwf. pose proof (wf_pos Hwf) as Hp.
  destruct (nth_error ts (pos st + 1)) as [t|] eqn:Hnext.
  - rewrite (advance_next Hwf Hnext). split; [|cbn [pos]; lia].
    split; cbn [tokens pos current_token]; auto.
    apply nth_error_Some. congruence.
  - apply nth_error_None in Hnext.
    rewrite (advance_pinned Hwf) by lia. split; [assumption|lia].
Qed.

Lemma sound_peek_is_colon A (K : bool -> M state A) st :
  (forall c, sound st (K c)) -> sound st (bind peek_is_colon K).
Proof.
  intros HK Hwf. unfold bind. rewrite (peek_is_colon_eq Hwf).
  apply HK, Hwf.
Qed.

Lemma sound_peek_next_type A (K : option string -> M state A) st :
  (forall c, sound st (K c)) -> sound st (bind (peek_next_type 1) K).
Proof.
  intros HK Hwf. unfold bind. rewrite (peek_next_type_eq _ Hwf).
  apply HK, Hwf.
Qed.

Ltac sound_read := apply sound_get; cbv beta zeta.
Ltac sound_seq H := apply sound_bind; [apply H | intros ? ?].
Ltac sound_if :=
  match goal with
  | |- sound _ (if ?b then _ else _) => destruct b
  end.

Lemma sound_eat token_type st : sound st (eat token_type).
Proof.
  unfold eat. sound_read. sound_if; [|apply sound_raise].
  sound_seq sound_advance. apply sound_ret.
Qed.

Lemma sound_parse_decl st : sound st parse_decl.
Proof.
  unfold parse_decl. sound_seq sound_eat. sound_seq sound_eat. sound_read.
  sound_if; [|apply sound_raise]. sound_seq sound_eat. apply sound_ret.
Qed.

Lemma sound_parse_decls_loop fuel :
  forall node st, sound st (parse_decls_loop fuel node).
Proof.
  induction fuel as [|fuel IH]; intros node st;
    [apply sound_out_of_fuel|].
  cbn [parse_decls_loop]. sound_read. sound_if; [|apply sound_ret].
  assert (Hk : forall c : bool, sound st
             (if c then c0 <- parse_decl ;;
                        parse_decls_loop fuel (Node.add_child node c0)
              else raise (SyntaxError_
                     "Esperado declaração de variável no formato 'nome:TIPO' ou 'FIMDECLS' para terminar DECLS"
                     (current_token st)))).
  { intros [|]; [|apply sound_raise].
    sound_seq sound_parse_decl. apply IH. }
  destruct (String.eqb (Token.type (current_token st)) "IDENTIFIER").
  - apply sound_peek_is_colon. exact Hk.
  - intros Hwf. exact (Hk false Hwf).
Qed.

Lemma sound_pop_child node st : sound st (pop_child node).
Proof.
  unfold pop_child. destruct (rev (Node.children node));
    [intros _; exact I|apply sound_ret].
Qed.

Lemma sound_wrap_operator op node (operand : M state Node.t) st :
  (forall s, sound s operand) -> sound st (wrap_operator op node operand).
Proof.
  intros Hop. unfold wrap_operator. sound_seq sound_advance.
  sound_seq sound_pop_child.
  match goal with |- sound _ (let (_, _) := ?p in _) => destruct p end.
  sound_seq Hop. apply sound_ret.
Qed.

Lemma expressions_sound fuel :
  (forall st, sound st (parse_expressao_logica fuel)) /\
  (forall node st, sound st (parse_expressao_logica_loop fuel node)) /\
  (forall st, sound st (parse_expressao_relacional fuel)) /\
  (forall st, sound st (parse_expressao_aritmetica fuel)) /\
  (forall node st, sound st (parse_expressao_aritmetica_loop fuel node)) /\
  (forall st, sound st (parse_termo fuel)) /\
  (forall node st, sound st (parse_termo_loop fuel node)) /\
  (forall st, sound st (parse_fator fuel)).
Proof.
  induction fuel as [|fuel IH].
  { repeat apply conj; intros; apply sound_out_of_fuel. }
  destruct IH as (Hlog & Hlogl & Hrel & Hari & Haril & Hter & Hterl & Hfat).
  repeat apply conj.
  - intros st. cbn [parse_expressao_logica].
    sound_seq Hrel. apply Hlogl.
  - intros node st. cbn [parse_expressao_logica_loop].
    sound_read. sound_if; [|apply sound_ret].
    apply sound_bind; [apply sound_wrap_operator; exact Hrel|].
    intros ? ?. apply Hlogl.
  - intros st. cbn [parse_expressao_relacional].
    sound_seq Hari. sound_read. sound_if; [|apply sound_ret].
    apply sound_wrap_operator. exact Hari.
  - intros st. cbn [parse_expressao_aritmetica].
    sound_seq Hter. apply Haril.
  - intros node st. cbn [parse_expressao_aritmetica_loop].
    sound_read. sound_if; [|apply sound_ret].
    apply sound_bind; [apply sound_wrap_operator; exact Hter|].
    intros ? ?. apply Haril.
  - intros st. cbn [parse_termo].
    sound_seq Hfat. apply Hterl.
  - intros node st. cbn [parse_termo_loop].
    sound_read. sound_if; [|apply sound_ret].
    apply sound_bind; [apply sound_wrap_operator; exact Hfat|].
    intros ? ?. apply Hterl.
  - intros st. cbn [parse_fator].
    sound_read. sound_if.
    + sound_seq sound_advance. apply sound_ret.
    + sound_if; [|apply sound_raise].
      sound_seq sound_eat. sound_seq Hlog. sound_seq sound_eat.
      apply sound_ret.
Qed.

Lemma sound_parse_expressao_logica fuel st :
  sound st (parse_expressao_logica fuel).
Proof. apply expressions_sound. Qed.

Lemma sound_parse_atribuicao fuel st : sound st (parse_atribuicao fuel).
Proof.
  unfold parse_atribuicao. sound_seq sound_eat. sound_seq sound_eat.
  sound_seq sound_parse_expressao_logica. apply sound_ret.
Qed.

Lemma commands_sound fuel :
  (forall st, sound st (parse_comandos fuel)) /\
  (forall node st, sound st (parse_comandos_loop fuel node)) /\
  (forall st, sound st (parse_comando fuel)) /\
  (forall st, sound st (parse_if fuel)).
Proof.
  induction fuel as [|fuel IH].
  { repeat apply conj; intros; apply sound_out_of_fuel. }
  destruct IH as (Hcmds & Hloop & Hcmd & Hif).
  repeat apply conj.
  - intros st. cbn [parse_comandos]. apply Hloop.
  - intros node st. cbn [parse_comandos_loop].
    sound_read. sound_if; [|apply sound_ret].
    sound_seq Hcmd. apply Hloop.
  - intros st. cbn [parse_comando]. sound_read.
    sound_if. { sound_seq sound_eat. sound_seq sound_eat. apply sound_ret. }
    sound_if.
    { sound_seq sound_eat. sound_seq sound_eat. sound_read.
      sound_if; [|apply sound_raise].
      sound_seq sound_eat. sound_seq sound_eat. apply sound_ret. }
    sound_if. { sound_seq Hif. apply sound_ret. }
    sound_if; [|apply sound_raise].
    apply sound_peek_next_type. intros c.
    sound_if; [|apply sound_raise].
    sound_seq sound_parse_atribuicao. apply sound_ret.
  - intros st. cbn [parse_if].
    sound_seq sound_eat. sound_seq sound_parse_expressao_logica.
    sound_seq sound_eat. sound_seq sound_eat. sound_seq Hcmds.
    sound_seq sound_eat. apply sound_ret.
Qed.

Lemma sound_parse_programa fuel st : sound st (parse_programa fuel).
Proof.
  unfold parse_programa.
  sound_seq sound_eat. sound_seq sound_eat.
  apply sound_bind; [apply sound_parse_decls_loop|intros ? ?].
  sound_seq sound_eat. sound_seq sound_eat.
  apply sound_bind; [apply commands_sound|intros ? ?].
  sound_seq sound_eat. apply sound_ret.
Qed.

End Faults.

(** A syntax error that [parse_programa] raises carries a token of the
    sequence it parses, at or after the index it started from; and a
    syntax error that the analysis of a text reports carries one of the
    tokens that [tokenize] returns for the text. *)
Theorem syntax_fault_token_is_a_token_of_the_input :
  (forall ts st fuel message token,
     ParserFacts.wf ts st ->
     Parser.parse_programa fuel st = Raise (SyntaxError_ message token) ->
     exists p, Parser.pos st <= p /\ nth_error ts p = Some token) /\
  (forall src fuel message token,
     analyse fuel src = SyntaxFault message token ->
     exists toks st' p,
       Lexer.tokenize fuel (Lexer.init src) = Ok toks st' /\
       nth_error toks p = Some token).
Proof.
  assert (H1 : forall ts st fuel message token,
             ParserFacts.wf ts st ->
             Parser.parse_programa fuel st
             = Raise (SyntaxError_ message token) ->
             exists p, Parser.pos st <= p /\ nth_error ts p = Some token).
  { intros ts st fuel message token Hwf Hrun.
    pose proof (@sound_parse_programa ts fuel st Hwf) as H.
    rewrite Hrun in H. exact H. }
  split; [exact H1|].
  intros src fuel message token. unfold analyse, Parser.init.
  destruct (Lexer.tokenize fuel (Lexer.init src)) as [toks st'|e|] eqn:Htok.
  2:{ pose proof (@raised_satisfies _ _ (fun f => Lexer.tokenize f)
                    (List.length (LexerFacts.rest (Lexer.init src)) + 3)
                    (LexerFacts.tokenize_post (Lexer.init src) [])
                    is_lexical (Lexer.init src) fuel e
                    (fun f f' H => @LexerFacts.tokenize_loop_mono f f' [] H)
                    (fun f Hf =>
                       LexerFacts.tokenize_loop_total []
                         (LexerFacts.wf_init src) Hf)
                    Htok) as Hlex.
      destruct e; try contradiction. intros H; discriminate H. }
  2:{ intros H; discriminate H. }
  destruct (nth_error toks 0) as [t0|] eqn:Ht0;
    [|intros H; discriminate H].
  destruct (Parser.parse_programa fuel (Parser.mk toks 0 t0))
    as [root st''|e|] eqn:Hrun; try (intros H; discriminate H).
  destruct e as [| m t | |]; try (intros H; discriminate H).
  intros [= -> ->].
  destruct (H1 toks _ fuel _ _ (wf_parser_on toks Ht0) Hrun) as (p & _ & Hp).
  exists toks, st', p. auto.
Qed.

Section Standing.
Import Parser ParserFacts.
Variable ts : list Token.t.

(** The parser stands at the head of [l], a suffix of the tokens. *)
Definition stands_at (st : state) (l : list Token.t) : Prop :=
  wf ts st /\ skipn (pos st) ts = l.

Lemma stands_at_head st x l : stands_at st (x :: l) -> current_token st = x.
Proof.
  intros [Hwf Hl]. pose proof (wf_current Hwf) as H.
  rewrite nth_error_hd_skipn, Hl in H. cbn in H. congruence.
Qed.

Lemma stands_at_eta st x l :
  stands_at st (x :: l) -> st = mk ts (pos st) x.
Proof.
  intros H. pose proof (stands_at_head H) as Hx. destruct H as [Hwf _].
  pose proof (wf_tokens Hwf). destruct st; cbn in *. congruence.
Qed.

Lemma stands_at_next st x y l :
  stands_at st (x :: y :: l) ->
  nth_error ts (pos st + 1) = Some y /\
  stands_at (mk ts (pos st + 1) y) (y :: l).
Proof.
  intros [Hwf Hl].
  assert (Hl' : skipn (pos st + 1) ts = y :: l)
    by (rewrite skipn_succ_tl, Hl; reflexivity).
  assert (Hn : nth_error ts (pos st + 1) = Some y)
    by (rewrite nth_error_hd_skipn, Hl'; reflexivity).
  split; [assumption|]. split; [|assumption].
  split; cbn [tokens pos current_token]; auto.
  apply nth_error_Some. congruence.
Qed.

Lemma advance_step st x y l :
  stands_at st (x :: y :: l) ->
  advance st = Ok tt (mk ts (pos st + 1) y).
Proof.
  intros H. destruct (stands_at_next H) as [Hn _]. destruct H as [Hwf _].
  apply (advance_next Hwf Hn).
Qed.

(** The node that [eat] makes of a token. *)
Definition leaf (tok : Token.t) : Node.t :=
  Node.new (if truthy (Token.value tok)
            then Token.type tok ++ "(" ++ str_of (Token.value tok) ++ ")"
            else Token.type tok)%string.

Lemma eat_step st x y l token_type :
  stands_at st (x :: y :: l) -> Token.type x = token_type ->
  eat token_type st = Ok (leaf x) (mk ts (pos st + 1) y).
Proof.
  intros H Hty. unfold eat, bind, get. rewrite (stands_at_head H), Hty.
  rewrite String.eqb_refl, (advance_step H). subst token_type. reflexivity.
Qed.

End Standing.

(** ** Declarations *)

Section Declarations.
Import Parser ParserFacts.
Variable ts : list Token.t.

(** A declaration: a name, a colon and a type. *)
Definition declaration (d : Token.t * Token.t * Token.t) : Prop :=
  let '(name, colon, ty) := d in
  Token.type name = "IDENTIFIER"%string /\
  Token.type colon = "COLON"%string /\
  str_in (Token.type ty) ["INT"; "FLOAT"]%string = true.

Definition decl_tokens (d : Token.t * Token.t * Token.t) : list Token.t :=
  let '(name, colon, ty) := d in [name; colon; ty].

Definition decl_node (d : Token.t * Token.t * Token.t) : Node.t :=
  let '(name, colon, ty) := d in
  Node.mk (Some "Decl"%string) [leaf name; leaf colon; leaf ty].

Lemma parse_decl_step st name colon ty y l :
  stands_at ts st (name :: colon :: ty :: y :: l) ->
  declaration (name, colon, ty) ->
  parse_decl st
  = Ok (decl_node (name, colon, ty)) (mk ts (pos st + 3) y) /\
  stands_at ts (mk ts (pos st + 3) y) (y :: l).
Proof.
  intros H0 (Hn & Hc & Hty).
  destruct (stands_at_next H0) as [_ H1].
  destruct (stands_at_next H1) as [_ H2].
  destruct (stands_at_next H2) as [_ H3].
  cbn [pos] in *.
  replace (pos st + 1 + 1 + 1) with (pos st + 3) in H3 by lia.
  split; [|assumption].
  unfold parse_decl. unfold bind at 1. rewrite (eat_step H0 Hn).
  unfold bind at 1. rewrite (eat_step H1 Hc). cbn [pos].
  unfold bind at 1. unfold get at 1. cbn [current_token]. rewrite Hty.
  unfold bind. rewrite (eat_step H2 eq_refl). cbn [pos].
  replace (pos st + 1 + 1 + 1) with (pos st + 3) by lia. reflexivity.
Qed.

Lemma parse_decls_loop_declarations ds :
  forall fuel label children st stop after,
    stands_at ts st (flat_map decl_tokens ds ++ stop :: after) ->
    Forall declaration ds ->
    str_in (Token.type stop) ["FIMDECLS"; "EOF"]%string = true ->
    List.length ds < fuel ->
    parse_decls_loop fuel (Node.mk label children) st
    = Ok (Node.mk label (children ++ map decl_node ds))
         (mk ts (pos st + 3 * List.length ds) stop).
Proof.
  induction ds as [|[[name colon] ty] ds IH];
    intros fuel label children st stop after Hat Hds Hstop Hfuel;
    (destruct fuel as [|fuel]; [cbn in Hfuel; lia|]);
    cbn [parse_decls_loop]; unfold bind at 1; unfold get at 1.
  - cbn [flat_map app] in Hat. rewrite (stands_at_head Hat), Hstop.
    cbn [negb map List.length]. rewrite app_nil_r, Nat.mul_0_r, Nat.add_0_r.
    unfold ret. f_equal. apply (stands_at_eta Hat).
  - inversion Hds as [|d ds' Hd Hds']; subst.
    cbn [flat_map decl_tokens app] in Hat.
    pose proof Hd as (Hn & Hc & Hty).
    rewrite (stands_at_head Hat), Hn.
    cbn [str_in existsb String.eqb Ascii.eqb Bool.eqb orb negb].
    destruct Hat as [Hwf Hl].
    unfold bind at 1. rewrite (peek_is_colon_eq Hwf).
    assert (Hat : stands_at ts st
                    (name :: colon :: ty
                     :: flat_map decl_tokens ds ++ stop :: after))
      by (split; assumption).
    destruct (stands_at_next Hat) as [Hnext _]. rewrite Hnext, Hc.
    cbn [String.eqb Ascii.eqb Bool.eqb].
    assert (Hrest : exists y l,
               flat_map decl_tokens ds ++ stop :: after = y :: l).
    { destruct (flat_map decl_tokens ds ++ stop :: after) as [|y l] eqn:E;
        [|eauto]. destruct (flat_map decl_tokens ds); discriminate. }
    destruct Hrest as (y & l & Hyl). rewrite Hyl in Hat.
    destruct (parse_decl_step Hat Hd) as [Hrun Hat'].
    unfold bind. rewrite Hrun. rewrite <- Hyl in Hat'.
    unfold Node.add_child. cbn [Node.label Node.children].
    rewrite (IH fuel label _ _ stop after Hat' Hds' Hstop)
      by (cbn in Hfuel; lia).
    cbn [pos map List.length].
    rewrite <- app_assoc. cbn [app]. do 2 f_equal. lia.
Qed.

(** [parse_decls], with the cursor on any number of declarations that a
    [FIMDECLS] (or the end marker) follows, returns the [Decls] node with
    one [Decl] child per declaration, in their order, each with the three
    nodes of its name, colon and type, and leaves the cursor on that
    [FIMDECLS]. *)
Theorem declarations_round_trip st ds stop after fuel :
  stands_at ts st (flat_map decl_tokens ds ++ stop :: after) ->
  Forall declaration ds ->
  str_in (Token.type stop) ["FIMDECLS"; "EOF"]%string = true ->
  List.length ds < fuel ->
  parse_decls fuel st
  = Ok (Node.mk (Some "Decls"%string) (map decl_node ds))
       (mk ts (pos st + 3 * List.length ds) stop).
Proof.
  intros Hat Hds Hstop Hfuel. unfold parse_decls, Node.new.
  rewrite (@parse_decls_loop_declarations ds fuel (Some "Decls"%string)
             [] st stop after Hat Hds Hstop Hfuel).
  reflexivity.
Qed.

End Declarations.

(** ** Arithmetic without parentheses *)

Section Arithmetic.
Import Parser ParserFacts.
Variable ts : list Token.t.

(** A number or a name. *)
Definition operand (x : Token.t) : Prop :=
  str_in (Token.type x) ["NUMBER"; "IDENTIFIER"]%string = true.

(** The node [parse_fator] makes of an operand. *)
Definition operand_node (x : Token.t) : Node.t :=
  Node.new (Token.type x ++ "(" ++ str_of (Token.value x) ++ ")")%string.

(** An operator token of one of the types [ops], and what it joins. *)
Definition joined {A} (ops : list string) (ok : A -> Prop)
    (p : Token.t * A) : Prop :=
  str_in (Token.type (fst p)) ops = true /\ ok (snd p).

(** A product: operands joined by [*] and [/]. *)
Definition product_of_operands : Type := Token.t * list (Token.t * Token.t).

Definition is_product (t : product_of_operands) : Prop :=
  operand (fst t) /\ Forall (joined ["MUL"; "DIV"]%string operand) (snd t).

Definition product_tokens (t : product_of_operands) : list Token.t :=
  fst t :: flat_map (fun p => [fst p; snd p]) (snd t).

(** The operator node over what is to its left and its right. *)
Definition binary (op : Token.t) (left right : Node.t) : Node.t :=
  Node.mk (Token.value op) [left; right].

Definition product_node (t : product_of_operands) : Node.t :=
  Node.mk (Some "Termo"%string)
    [fold_left (fun acc p => binary (fst p) acc (operand_node (snd p)))
       (snd t) (operand_node (fst t))].

(** A sum: products joined by [+] and [-]. *)
Definition sum_of_products : Type := product_of_operands * list (Token.t * product_of_operands).

Definition is_sum (s : sum_of_products) : Prop :=
  is_product (fst s) /\
  Forall (joined ["PLUS"; "MINUS"]%string is_product) (snd s).

Definition sum_tokens (s : sum_of_products) : list Token.t :=
  product_tokens (fst s)
  ++ flat_map (fun p => fst p :: product_tokens (snd p)) (snd s).

Definition sum_node (s : sum_of_products) : Node.t :=
  Node.mk (Some "ExpressaoAritmetica"%string)
    [fold_left (fun acc p => binary (fst p) acc (product_node (snd p)))
       (snd s) (product_node (fst s))].

Lemma parse_fator_operand fuel st x y l :
  stands_at ts st (x :: y :: l) -> operand x ->
  parse_fator (S fuel) st = Ok (operand_node x) (mk ts (pos st + 1) y).
Proof.
  intros Hat Hx. cbn [parse_fator]. unfold bind at 1. unfold get at 1.
  rewrite (stands_at_head Hat). unfold operand in Hx. rewrite Hx.
  unfold bind. rewrite (advance_step Hat). reflexivity.
Qed.

Lemma wrap_operator_step op label acc (rule : M state Node.t) st x y l
    right st' :
  stands_at ts st (x :: y :: l) ->
  rule (mk ts (pos st + 1) y) = Ok right st' ->
  wrap_operator (Node.mk (Token.value op) []) (Node.mk label [acc]) rule st
  = Ok (Node.mk label [binary op acc right]) st'.
Proof.
  intros Hat Hrun. unfold wrap_operator. unfold bind at 1.
  rewrite (advance_step Hat). unfold bind at 1.
  unfold pop_child at 1. cbn [Node.children rev app]. unfold ret at 1.
  cbv iota beta. unfold bind. rewrite Hrun. reflexivity.
Qed.

Lemma nonempty_after A (l : list A) x r : exists y l', l ++ x :: r = y :: l'.
Proof. destruct l; cbn; eauto. Qed.

Lemma parse_termo_loop_product pairs :
  forall fuel label acc st stop after,
    stands_at ts st (flat_map (fun p => [fst p; snd p]) pairs
                     ++ stop :: after) ->
    Forall (joined ["MUL"; "DIV"]%string operand) pairs ->
    str_in (Token.type stop) ["MUL"; "DIV"]%string = false ->
    List.length pairs < fuel ->
    parse_termo_loop fuel (Node.mk label [acc]) st
    = Ok (Node.mk label
            [fold_left (fun acc p => binary (fst p) acc (operand_node (snd p)))
               pairs acc])
         (mk ts (pos st + 2 * List.length pairs) stop).
Proof.
  induction pairs as [|[op x] pairs IH];
    intros fuel label acc st stop after Hat Hok Hstop Hfuel;
    (destruct fuel as [|fuel]; [cbn in Hfuel; lia|]);
    cbn [parse_termo_loop]; unfold bind at 1; unfold get at 1.
  - cbn [flat_map app] in Hat. rewrite (stands_at_head Hat), Hstop.
    cbn [fold_left List.length]. rewrite Nat.mul_0_r, Nat.add_0_r.
    unfold ret. f_equal. apply (stands_at_eta Hat).
  - inversion Hok as [|p ps [Hop Hx] Hok']; subst. cbn [fst snd] in *.
    cbn [flat_map app fst snd] in Hat.
    rewrite (stands_at_head Hat), Hop.
    destruct (nonempty_after (flat_map (fun p => [fst p; snd p]) pairs)
                stop after) as (y & l & Hyl).
    rewrite Hyl in Hat.
    destruct (stands_at_next Hat) as [_ Hat1].
    destruct fuel as [|fuel]; [cbn in Hfuel; lia|].
    pose proof (parse_fator_operand fuel Hat1 Hx) as Hf.
    destruct (stands_at_next Hat1) as [_ Hat2]. cbn [pos] in *.
    unfold bind.
    rewrite (@wrap_operator_step op label acc (parse_fator (S fuel)) st
               op x (y :: l) _ _ Hat Hf).
    rewrite <- Hyl in Hat2.
    rewrite (IH (S fuel) label _ _ stop after Hat2 Hok' Hstop)
      by (cbn in Hfuel; lia).
    cbn [fold_left fst snd pos List.length]. do 2 f_equal. lia.
Qed.

Lemma parse_termo_product fuel st t stop after :
  stands_at ts st (product_tokens t ++ stop :: after) ->
  is_product t ->
  str_in (Token.type stop) ["MUL"; "DIV"]%string = false ->
  List.length (snd t) + 2 <= fuel ->
  parse_termo fuel st
  = Ok (product_node t)
       (mk ts (pos st + List.length (product_tokens t)) stop).
Proof.
  destruct t as [x pairs]. unfold product_tokens, is_product, product_node.
  cbn [fst snd]. intros Hat [Hx Hok] Hstop Hfuel.
  destruct fuel as [|[|fuel]]; [lia|lia|].
  cbn [parse_termo]. cbn [app] in Hat.
  destruct (nonempty_after (flat_map (fun p => [fst p; snd p]) pairs)
              stop after) as (y & l & Hyl).
  rewrite Hyl in Hat.
  unfold bind. rewrite (parse_fator_operand fuel Hat Hx).
  destruct (stands_at_next Hat) as [_ Hat1]. rewrite <- Hyl in Hat1.
  unfold Node.add_child, Node.new. cbn [Node.label Node.children app].
  rewrite (@parse_termo_loop_product pairs (S fuel) _ _ _ stop after
             Hat1 Hok Hstop) by lia.
  cbn [pos List.length]. do 2 f_equal.
  rewrite (flat_map_constant_length (c := 2)) by (intros; reflexivity).
  lia.
Qed.


Lemma additive_not_multiplicative s :
  str_in s ["PLUS"; "MINUS"]%string = true ->
  str_in s ["MUL"; "DIV"]%string = false.
Proof.
  unfold str_in. cbn [existsb]. rewrite orb_false_r.
  intros H. apply orb_prop in H.
  destruct H as [H|H]; apply String.eqb_eq in H; subst s; reflexivity.
Qed.

Lemma no_operator s :
  str_in s ["PLUS"; "MINUS"; "MUL"; "DIV"]%string = false ->
  str_in s ["PLUS"; "MINUS"]%string = false /\
  str_in s ["MUL"; "DIV"]%string = false.
Proof.
  unfold str_in. cbn [existsb]. rewrite !orb_false_r.
  intros H. repeat (apply orb_false_elim in H; destruct H as [? H]).
  split; repeat (apply orb_false_intro); assumption.
Qed.

Lemma product_tokens_length (t : product_of_operands) :
  List.length (product_tokens t) = 1 + 2 * List.length (snd t).
Proof.
  unfold product_tokens. cbn [List.length].
  rewrite (flat_map_constant_length (c := 2)) by (intros; reflexivity).
  lia.
Qed.

Lemma parse_expressao_aritmetica_loop_sum terms :
  forall fuel label acc st stop after,
    stands_at ts st
      (flat_map (fun p => fst p :: product_tokens (snd p)) terms
       ++ stop :: after) ->
    Forall (joined ["PLUS"; "MINUS"]%string is_product) terms ->
    str_in (Token.type stop) ["PLUS"; "MINUS"; "MUL"; "DIV"]%string
    = false ->
    List.length (flat_map (fun p => fst p :: product_tokens (snd p)) terms)
    < fuel ->
    parse_expressao_aritmetica_loop fuel (Node.mk label [acc]) st
    = Ok (Node.mk label
            [fold_left (fun acc p => binary (fst p) acc (product_node (snd p)))
               terms acc])
         (mk ts
            (pos st
             + List.length
                 (flat_map (fun p => fst p :: product_tokens (snd p)) terms))
            stop).
Proof.
  induction terms as [|[op t] terms IH];
    intros fuel label acc st stop after Hat Hok Hstop Hfuel;
    (destruct fuel as [|fuel]; [cbn in Hfuel; lia|]);
    cbn [parse_expressao_aritmetica_loop]; unfold bind at 1;
    unfold get at 1; destruct (no_operator _ Hstop) as [Hadd Hmul].
  - cbn [flat_map app] in Hat. rewrite (stands_at_head Hat), Hadd.
    cbn [fold_left flat_map List.length]. rewrite Nat.add_0_r.
    unfold ret. f_equal. apply (stands_at_eta Hat).
  - inversion Hok as [|p ps [Hop Ht] Hok']; subst. cbn [fst snd] in *.
    cbn [flat_map app fst snd] in Hat, Hfuel |- *.
    rewrite (stands_at_head Hat), Hop.
    rewrite <- app_assoc in Hat.
    set (rest := flat_map (fun p => fst p :: product_tokens (snd p)) terms)
      in *.
    assert (Hnext : exists y l,
               rest ++ stop :: after = y :: l /\
               str_in (Token.type y) ["MUL"; "DIV"]%string = false).
    { unfold rest. destruct terms as [|[op' t'] terms'].
      - exists stop, after. split; [reflexivity|assumption].
      - inversion Hok' as [|p ps [Hop' _] _]; subst. cbn [fst] in Hop'.
        cbn [flat_map app fst snd]. eexists. eexists.
        split; [reflexivity|]. apply additive_not_multiplicative, Hop'. }
    destruct Hnext as (y & l & Hyl & Hy).
    pose proof (product_tokens_length t) as Hlen.
    cbn [List.length] in Hfuel. rewrite length_app in Hfuel.
    assert (Hat1 : stands_at ts (mk ts (pos st + 1) (fst t))
                     (product_tokens t ++ y :: l)).
    { rewrite <- Hyl. unfold product_tokens in *. cbn [app] in *.
      apply (stands_at_next Hat). }
    pose proof (@parse_termo_product fuel _ t y l Hat1 Ht Hy ltac:(lia))
      as Hterm.
    cbn [pos] in Hterm.
    assert (Hat2 : stands_at ts
                     (mk ts (pos st + 1 + List.length (product_tokens t)) y)
                     (rest ++ stop :: after)).
    { rewrite Hyl. destruct Hat1 as [Hwf1 Hl1]. cbn [pos] in Hl1.
      assert (Hl2 : skipn (pos st + 1 + List.length (product_tokens t)) ts
                    = y :: l).
      { rewrite Nat.add_comm, <- skipn_skipn, Hl1.
        apply LexerFacts.skipn_app_exact. }
      split; [|exact Hl2].
      split; cbn [tokens pos current_token]; auto.
      - apply nth_error_Some. rewrite nth_error_hd_skipn, Hl2. discriminate.
      - rewrite nth_error_hd_skipn, Hl2. reflexivity. }
    unfold bind.
    assert (Hat0 : stands_at ts st
                     (op :: fst t
                      :: flat_map (fun p => [fst p; snd p]) (snd t)
                         ++ rest ++ stop :: after))
      by exact Hat.
    rewrite (@wrap_operator_step op label acc (parse_termo fuel) st
               op (fst t) _ _ _ Hat0 Hterm).
    rewrite (IH fuel label _ _ stop after Hat2 Hok' Hstop) by lia.
    cbn [fold_left fst snd pos List.length]. rewrite length_app.
    do 2 f_equal. lia.
Qed.

(** [parse_expressao_aritmetica], with the cursor on a sum of products of
    numbers and names without parentheses that a token other than an
    arithmetic operator follows, returns the tree in which every product
    is a [Termo] node over its factors grouped to the left, and the
    products are grouped to the left under the [+] and [-] nodes; the
    cursor is left on the token that follows. *)
Theorem sums_of_products_group_to_the_left st s stop after fuel :
  stands_at ts st (sum_tokens s ++ stop :: after) ->
  is_sum s ->
  str_in (Token.type stop) ["PLUS"; "MINUS"; "MUL"; "DIV"]%string = false ->
  List.length (sum_tokens s) + 2 <= fuel ->
  parse_expressao_aritmetica fuel st
  = Ok (sum_node s) (mk ts (pos st + List.length (sum_tokens s)) stop).
Proof.
  destruct s as [t terms]. unfold sum_tokens, is_sum, sum_node.
  cbn [fst snd]. intros Hat [Ht Hok] Hstop Hfuel.
  rewrite length_app in Hfuel |- *.
  pose proof (product_tokens_length t) as Hlen.
  destruct fuel as [|fuel]; [lia|].
  cbn [parse_expressao_aritmetica].
  rewrite <- app_assoc in Hat.
  set (rest := flat_map (fun p => fst p :: product_tokens (snd p)) terms)
    in *.
  assert (Hnext : exists y l,
             rest ++ stop :: after = y :: l /\
             str_in (Token.type y) ["MUL"; "DIV"]%string = false).
  { unfold rest. destruct terms as [|[op' t'] terms'].
    - exists stop, after. split; [reflexivity|].
      apply (no_operator _ Hstop).
    - inversion Hok as [|p ps [Hop' _] _]; subst. cbn [fst] in Hop'.
      cbn [flat_map app fst snd]. eexists. eexists.
      split; [reflexivity|]. apply additive_not_multiplicative, Hop'. }
  destruct Hnext as (y & l & Hyl & Hy).
  assert (Hat1 : stands_at ts st (product_tokens t ++ y :: l))
    by (rewrite <- Hyl; exact Hat).
  pose proof (@parse_termo_product fuel _ t y l Hat1 Ht Hy ltac:(lia))
    as Hterm.
  assert (Hat2 : stands_at ts
                   (mk ts (pos st + List.length (product_tokens t)) y)
                   (rest ++ stop :: after)).
  { rewrite Hyl. destruct Hat1 as [Hwf1 Hl1].
    assert (Hl2 : skipn (pos st + List.length (product_tokens t)) ts
                  = y :: l).
    { rewrite Nat.add_comm, <- skipn_skipn, Hl1.
      apply LexerFacts.skipn_app_exact. }
    split; [|exact Hl2].
    split; cbn [tokens pos current_token]; auto.
    - apply nth_error_Some. rewrite nth_error_hd_skipn, Hl2. discriminate.
    - rewrite nth_error_hd_skipn, Hl2. reflexivity. }
  unfold bind. rewrite Hterm.
  unfold Node.add_child, Node.new. cbn [Node.label Node.children app].
  rewrite (@parse_expressao_aritmetica_loop_sum terms fuel _ _ _ stop after
             Hat2 Hok Hstop) by (fold rest; lia).
  fold rest. cbn [pos]. do 2 f_equal. lia.
Qed.

End Arithmetic.

Lemma declarations_round_trip_witness :
  Parser.parse_decls 3
    (parser_on (tokens_of "x:int y:float fimdecls")
       (Token.mk "IDENTIFIER" (Some "x"%string) 1 1))
  = Ok (Node.mk (Some "Decls"%string)
          [Node.mk (Some "Decl"%string)
             [Node.mk (Some "IDENTIFIER(x)"%string) [];
              Node.mk (Some "COLON(:)"%string) [];
              Node.mk (Some "INT(int)"%string) []];
           Node.mk (Some "Decl"%string)
             [Node.mk (Some "IDENTIFIER(y)"%string) [];
              Node.mk (Some "COLON(:)"%string) [];
              Node.mk (Some "FLOAT(float)"%string) []]])
       (Parser.mk (tokens_of "x:int y:float fimdecls") 6
          (Token.mk "FIMDECLS" (Some "fimdecls"%string) 1 15)).
Proof.
  apply (@declarations_round_trip
           (tokens_of "x:int y:float fimdecls")
           (parser_on (tokens_of "x:int y:float fimdecls")
              (Token.mk "IDENTIFIER" (Some "x"%string) 1 1))
           [(Token.mk "IDENTIFIER" (Some "x"%string) 1 1,
             Token.mk "COLON" (Some ":"%string) 1 2,
             Token.mk "INT" (Some "int"%string) 1 3);
            (Token.mk "IDENTIFIER" (Some "y"%string) 1 7,
             Token.mk "COLON" (Some ":"%string) 1 8,
             Token.mk "FLOAT" (Some "float"%string) 1 9)]
           (Token.mk "FIMDECLS" (Some "fimdecls"%string) 1 15)
           [Token.mk "EOF" None 1 22] 3).
  - split; [split|]; vm_compute; try reflexivity. lia.
  - repeat constructor.
  - reflexivity.
  - cbn. lia.
Defined.

Lemma sums_of_products_group_to_the_left_witness :
  Parser.parse_expressao_aritmetica 9
    (parser_on (tokens_of "a*b/c-d")
       (Token.mk "IDENTIFIER" (Some "a"%string) 1 1))
  = Ok (Node.mk (Some "ExpressaoAritmetica"%string)
          [Node.mk (Some "-"%string)
             [Node.mk (Some "Termo"%string)
                [Node.mk (Some "/"%string)
                   [Node.mk (Some "*"%string)
                      [Node.mk (Some "IDENTIFIER(a)"%string) [];
                       Node.mk (Some "IDENTIFIER(b)"%string) []];
                    Node.mk (Some "IDENTIFIER(c)"%string) []]];
              Node.mk (Some "Termo"%string)
                [Node.mk (Some "IDENTIFIER(d)"%string) []]]])
       (Parser.mk (tokens_of "a*b/c-d") 7 (Token.mk "EOF" None 1 7)).
Proof.
  apply (@sums_of_products_group_to_the_left
           (tokens_of "a*b/c-d")
           (parser_on (tokens_of "a*b/c-d")
              (Token.mk "IDENTIFIER" (Some "a"%string) 1 1))
           ((Token.mk "IDENTIFIER" (Some "a"%string) 1 1,
             [(Token.mk "MUL" (Some "*"%string) 1 2,
               Token.mk "IDENTIFIER" (Some "b"%string) 1 3);
              (Token.mk "DIV" (Some "/"%string) 1 4,
               Token.mk "IDENTIFIER" (Some "c"%string) 1 5)]),
            [(Token.mk "MINUS" (Some "-"%string) 1 6,
              (Token.mk "IDENTIFIER" (Some "d"%string) 1 7, []))])
           (Token.mk "EOF" None 1 7) [] 9).
  - split; [split|]; vm_compute; try reflexivity. lia.
  - repeat constructor.
  - reflexivity.
  - cbn. lia.
Defined.

(** * The drawing of the tree *)

Section Drawn.
Import Drawing.


















End Drawn.

(** * The grammar the parser accepts *)

Section Grammar.
Import Parser ParserFacts.

(** ** Expressions *)

Definition multiplicative : list string := ["MUL"; "DIV"]%string.
Definition additive : list string := ["PLUS"; "MINUS"]%string.
Definition comparison : list string :=
  ["GT"; "LT"; "GE"; "LE"; "EQ"; "NE"]%string.
Definition logical : list string := ["E"; "OU"]%string.

(** The node of a logical operator, which is labelled with the type of
    the operator token, over what is to its left and its right. *)
Definition binary_typed (op : Token.t) (left right : Node.t) : Node.t :=
  Node.mk (Some (Token.type op)) [left; right].

(** [fator l n], [termo l n], ...: the tokens [l] are a factor, a term,
    ... and [n] is its tree. A rule with a loop has a second relation
    for the loop: [termo_loop acc l n] says that [l] is what follows a
    first factor of tree [acc], operators and factors, and that [n] is
    the tree of the whole, grouped to the left. *)
Inductive fator : list Token.t -> Node.t -> Prop :=
| fator_operand x :
    operand x -> fator [x] (operand_node x)
| fator_group lp l n rp :
    Token.type lp = "LPAREN"%string ->
    logica l n ->
    Token.type rp = "RPAREN"%string ->
    fator (lp :: l ++ [rp])
      (Node.mk (Some "Group"%string) [leaf lp; n; leaf rp])

with termo_loop : Node.t -> list Token.t -> Node.t -> Prop :=
| termo_loop_done acc : termo_loop acc [] acc
| termo_loop_more acc op l n l' n' :
    str_in (Token.type op) multiplicative = true ->
    fator l n ->
    termo_loop (binary op acc n) l' n' ->
    termo_loop acc (op :: l ++ l') n'

with termo : list Token.t -> Node.t -> Prop :=
| termo_intro l n l' n' :
    fator l n -> termo_loop n l' n' ->
    termo (l ++ l') (Node.mk (Some "Termo"%string) [n'])

with aritmetica_loop : Node.t -> list Token.t -> Node.t -> Prop :=
| aritmetica_loop_done acc : aritmetica_loop acc [] acc
| aritmetica_loop_more acc op l n l' n' :
    str_in (Token.type op) additive = true ->
    termo l n ->
    aritmetica_loop (binary op acc n) l' n' ->
    aritmetica_loop acc (op :: l ++ l') n'

with aritmetica : list Token.t -> Node.t -> Prop :=
| aritmetica_intro l n l' n' :
    termo l n -> aritmetica_loop n l' n' ->
    aritmetica (l ++ l') (Node.mk (Some "ExpressaoAritmetica"%string) [n'])

with relacional : list Token.t -> Node.t -> Prop :=
| relacional_one l n :
    aritmetica l n ->
    relacional l (Node.mk (Some "ExpressaoRelacional"%string) [n])
| relacional_two l n op l' n' :
    aritmetica l n ->
    str_in (Token.type op) comparison = true ->
    aritmetica l' n' ->
    relacional (l ++ op :: l')
      (Node.mk (Some "ExpressaoRelacional"%string) [binary op n n'])

with logica_loop : Node.t -> list Token.t -> Node.t -> Prop :=
| logica_loop_done acc : logica_loop acc [] acc
| logica_loop_more acc op l n l' n' :
    str_in (Token.type op) logical = true ->
    relacional l n ->
    logica_loop (binary_typed op acc n) l' n' ->
    logica_loop acc (op :: l ++ l') n'

with logica : list Token.t -> Node.t -> Prop :=
| logica_intro l n l' n' :
    relacional l n -> logica_loop n l' n' ->
    logica (l ++ l') (Node.mk (Some "ExpressaoLogica"%string) [n']).

Scheme fator_mutual := Minimality for fator Sort Prop
  with termo_loop_mutual := Minimality for termo_loop Sort Prop
  with termo_mutual := Minimality for termo Sort Prop
  with aritmetica_loop_mutual := Minimality for aritmetica_loop Sort Prop
  with aritmetica_mutual := Minimality for aritmetica Sort Prop
  with relacional_mutual := Minimality for relacional Sort Prop
  with logica_loop_mutual := Minimality for logica_loop Sort Prop
  with logica_mutual := Minimality for logica Sort Prop.

Combined Scheme expression_induction from
  fator_mutual, termo_loop_mutual, termo_mutual, aritmetica_loop_mutual,
  aritmetica_mutual, relacional_mutual, logica_loop_mutual, logica_mutual.


Variable ts : list Token.t.

(** [parses rule rank follow l n]: with the cursor on the tokens [l] and,
    after them, a token whose type is not in [follow], the rule returns
    [n] and leaves the cursor on that token, given five units of fuel
    per token of [l] and [rank] more. *)
Definition parses (rule : nat -> M state Node.t) (rank : nat)
    (follow : list string) (l : list Token.t) (n : Node.t) : Prop :=
  forall st stop after fuel,
    stands_at ts st (l ++ stop :: after) ->
    str_in (Token.type stop) follow = false ->
    5 * List.length l + rank <= fuel ->
    rule fuel st = Ok n (mk ts (pos st + List.length l) stop).

(** What follows a first operand starts with an operator of the loop, if
    with anything. *)
Definition starts_with (ops : list string) (l : list Token.t) : Prop :=
  match l with
  | [] => True
  | op :: _ => str_in (Token.type op) ops = true
  end.

Lemma stands_at_skip st l y r :
  stands_at ts st (l ++ y :: r) ->
  stands_at ts (mk ts (pos st + List.length l) y) (y :: r).
Proof.
  intros [Hwf Hl].
  assert (Hl2 : skipn (pos st + List.length l) ts = y :: r).
  { rewrite Nat.add_comm, <- skipn_skipn, Hl.
    apply LexerFacts.skipn_app_exact. }
  split; [|exact Hl2].
  split; cbn [tokens pos current_token]; auto.
  - apply nth_error_Some. rewrite nth_error_hd_skipn, Hl2. discriminate.
  - rewrite nth_error_hd_skipn, Hl2. reflexivity.
Qed.

Lemma str_in_app s a b : str_in s (a ++ b) = str_in s a || str_in s b.
Proof. apply existsb_app. Qed.

(** The token after an operand inside a loop: the next operator of the
    loop or the token after the whole. *)
Lemma next_token ops low l' stop after :
  starts_with ops l' ->
  (forall s, str_in s ops = true -> str_in s low = false) ->
  str_in (Token.type stop) low = false ->
  exists y r,
    l' ++ stop :: after = y :: r /\ str_in (Token.type y) low = false.
Proof.
  intros Hstart Hdis Hstop. destruct l' as [|op l'].
  - exists stop, after. auto.
  - exists op, (l' ++ stop :: after). split; [reflexivity|].
    apply Hdis, Hstart.
Qed.

Lemma wrap_operator_run oplabel label acc (rule : M state Node.t) st x y l
    right st' :
  stands_at ts st (x :: y :: l) ->
  rule (mk ts (pos st + 1) y) = Ok right st' ->
  wrap_operator (Node.mk oplabel []) (Node.mk label [acc]) rule st
  = Ok (Node.mk label [Node.mk oplabel [acc; right]]) st'.
Proof.
  intros Hat Hrun. unfold wrap_operator. unfold bind at 1.
  rewrite (advance_step Hat). unfold bind at 1.
  unfold pop_child at 1. cbn [Node.children rev app]. unfold ret at 1.
  cbv iota beta. unfold bind. rewrite Hrun. reflexivity.
Qed.

Section Loop.
(** A rule of the form [first operand, then the loop], and its loop. *)
Variable LOOP : nat -> Node.t -> M state Node.t.
Variable OPERAND : nat -> M state Node.t.
Variable ops : list string.
Variable oplabel : Token.t -> option string.
Hypothesis LOOP_eq :
  forall fuel node st,
    LOOP (S fuel) node st
    = (if str_in (Token.type (current_token st)) ops then
         node' <- wrap_operator (Node.mk (oplabel (current_token st)) [])
                    node (OPERAND fuel) ;;
         LOOP fuel node'
       else ret node) st.

Variable rank : nat.
Variable low follow : list string.
Hypothesis Hrank : rank <= 5.
Hypothesis Hdisjoint :
  forall s, str_in s ops = true -> str_in s low = false.
Hypothesis Hfollow_low :
  forall s, str_in s follow = false -> str_in s low = false.
Hypothesis Hfollow_ops :
  forall s, str_in s follow = false -> str_in s ops = false.

Lemma loop_done label acc :
  parses (fun f => LOOP f (Node.mk label [acc])) 1 follow []
    (Node.mk label [acc]).
Proof.
  intros st stop after fuel Hat Hstop Hfuel.
  destruct fuel as [|fuel]; [lia|]. cbn [app] in Hat.
  rewrite LOOP_eq, (stands_at_head Hat), (Hfollow_ops _ Hstop).
  unfold ret. cbn [List.length]. rewrite Nat.add_0_r. f_equal.
  apply (stands_at_eta Hat).
Qed.

Lemma loop_more acc op l n l' n' :
  str_in (Token.type op) ops = true ->
  1 <= List.length l ->
  parses OPERAND rank low l n ->
  starts_with ops l' ->
  (forall label,
     parses (fun f => LOOP f (Node.mk label [Node.mk (oplabel op) [acc; n]]))
       1 follow l' (Node.mk label [n'])) ->
  forall label,
    parses (fun f => LOOP f (Node.mk label [acc])) 1 follow
      (op :: l ++ l') (Node.mk label [n']).
Proof.
  intros Hop Hl Hoperand Hstart Hrest label st stop after fuel Hat Hstop
    Hfuel.
  cbn [List.length] in Hfuel. rewrite length_app in Hfuel.
  destruct fuel as [|fuel]; [lia|].
  cbn [app] in Hat. rewrite <- app_assoc in Hat.
  rewrite LOOP_eq, (stands_at_head Hat), Hop.
  destruct (@next_token ops low l' stop after Hstart Hdisjoint
              (Hfollow_low _ Hstop))
    as (y & r & Hyr & Hy).
  rewrite Hyr in Hat.
  destruct l as [|x l]; [cbn in Hl; lia|]. cbn [app] in Hat.
  destruct (stands_at_next Hat) as [_ Hat1].
  pose proof (Hoperand _ y r fuel Hat1 Hy ltac:(cbn [List.length] in *; lia))
    as Hrun1.
  cbn [pos] in Hrun1.
  unfold bind.
  rewrite (@wrap_operator_run (oplabel op) label acc (OPERAND fuel) st
             op x _ _ _ Hat Hrun1).
  pose proof (@stands_at_skip _ (x :: l) y r Hat1) as Hat2. cbn [pos] in Hat2.
  rewrite <- Hyr in Hat2.
  rewrite (Hrest label _ stop after fuel Hat2 Hstop ltac:(lia)).
  cbn [pos List.length]. rewrite length_app. cbn [List.length].
  do 2 f_equal. lia.
Qed.

Variable RULE : nat -> M state Node.t.
Variable name : string.
Hypothesis RULE_eq :
  forall fuel st,
    RULE (S fuel) st
    = (c <- OPERAND fuel ;;
       LOOP fuel (Node.add_child (Node.new name) c)) st.

Lemma rule_intro l n l' n' :
  1 <= List.length l ->
  parses OPERAND rank low l n ->
  starts_with ops l' ->
  (forall label,
     parses (fun f => LOOP f (Node.mk label [n])) 1 follow l'
       (Node.mk label [n'])) ->
  parses RULE (rank + 1) follow (l ++ l') (Node.mk (Some name) [n']).
Proof.
  intros Hl Hoperand Hstart Hrest st stop after fuel Hat Hstop Hfuel.
  rewrite length_app in Hfuel |- *.
  destruct fuel as [|fuel]; [lia|].
  rewrite <- app_assoc in Hat.
  destruct (@next_token ops low l' stop after Hstart Hdisjoint
              (Hfollow_low _ Hstop))
    as (y & r & Hyr & Hy).
  rewrite Hyr in Hat.
  rewrite RULE_eq. unfold bind.
  rewrite (Hoperand _ y r fuel Hat Hy ltac:(lia)).
  pose proof (@stands_at_skip _ l y r Hat) as Hat2. rewrite <- Hyr in Hat2.
  unfold Node.add_child, Node.new. cbn [Node.label Node.children app].
  rewrite (Hrest (Some name) _ stop after fuel Hat2 Hstop ltac:(lia)).
  cbn [pos]. do 2 f_equal. lia.
Qed.

End Loop.


Definition arithmetic_follow : list string := additive ++ multiplicative.
Definition comparison_follow : list string :=
  comparison ++ arithmetic_follow.
Definition logical_follow : list string := logical ++ comparison_follow.

Lemma str_in_app_false s a b :
  str_in s (a ++ b) = false -> str_in s a = false /\ str_in s b = false.
Proof. rewrite str_in_app. apply orb_false_elim. Qed.

Ltac one_of H :=
  unfold str_in in H; cbn [existsb] in H;
  repeat (apply orb_prop in H; destruct H as [H|H]);
  try discriminate H; apply String.eqb_eq in H.

Lemma additive_low s :
  str_in s additive = true -> str_in s multiplicative = false.
Proof. intros H. one_of H; subst s; reflexivity. Qed.

Lemma comparison_low s :
  str_in s comparison = true -> str_in s arithmetic_follow = false.
Proof. intros H. one_of H; subst s; reflexivity. Qed.

Lemma logical_low s :
  str_in s logical = true -> str_in s comparison_follow = false.
Proof. intros H. one_of H; subst s; reflexivity. Qed.

Lemma fator_nonempty l n : fator l n -> 1 <= List.length l.
Proof. destruct 1; cbn [List.length]; lia. Qed.

Lemma parses_fator_operand x :
  operand x -> parses parse_fator 1 [] [x] (operand_node x).
Proof.
  intros Hx st stop after fuel Hat _ Hfuel.
  destruct fuel as [|fuel]; [lia|]. cbn [app] in Hat.
  rewrite (parse_fator_operand fuel Hat Hx). reflexivity.
Qed.

Lemma parses_fator_group lp l n rp :
  Token.type lp = "LPAREN"%string ->
  1 <= List.length l ->
  parses parse_expressao_logica 5 logical_follow l n ->
  Token.type rp = "RPAREN"%string ->
  parses parse_fator 1 [] (lp :: l ++ [rp])
    (Node.mk (Some "Group"%string) [leaf lp; n; leaf rp]).
Proof.
  intros Hlp Hl Hlog Hrp st stop after fuel Hat _ Hfuel.
  cbn [List.length] in Hfuel |- *. rewrite length_app in Hfuel |- *.
  cbn [List.length] in Hfuel |- *.
  destruct fuel as [|fuel]; [lia|].
  cbn [app] in Hat. rewrite <- app_assoc in Hat. cbn [app] in Hat.
  cbn [parse_fator]. unfold bind at 1. unfold get at 1.
  rewrite (stands_at_head Hat), Hlp.
  cbn [str_in existsb String.eqb Ascii.eqb Bool.eqb orb].
  destruct l as [|x l]; [cbn in Hl; lia|]. cbn [app] in Hat.
  unfold bind at 1. rewrite (eat_step Hat Hlp).
  destruct (stands_at_next Hat) as [_ Hat1].
  assert (Hfollow : str_in (Token.type rp) logical_follow = false)
    by (rewrite Hrp; reflexivity).
  unfold bind at 1.
  rewrite (Hlog _ rp (stop :: after) fuel Hat1 Hfollow
             ltac:(cbn [List.length] in *; lia)).
  pose proof (@stands_at_skip _ (x :: l) rp (stop :: after) Hat1) as Hat2.
  cbn [pos] in Hat2 |- *.
  unfold bind. rewrite (eat_step Hat2 Hrp). cbn [pos List.length].
  unfold ret, Node.add_child, Node.new.
  cbn [Node.label Node.children app]. do 2 f_equal. lia.
Qed.

Lemma parses_relacional_one l n :
  parses parse_expressao_aritmetica 3 arithmetic_follow l n ->
  parses parse_expressao_relacional 4 comparison_follow l
    (Node.mk (Some "ExpressaoRelacional"%string) [n]).
Proof.
  intros Hari st stop after fuel Hat Hstop Hfuel.
  destruct fuel as [|fuel]; [lia|].
  destruct (str_in_app_false _ _ _ Hstop) as [Hcmp Hlow].
  cbn [parse_expressao_relacional]. unfold bind at 1.
  rewrite (Hari _ stop after fuel Hat Hlow ltac:(lia)).
  unfold bind, get. cbn [current_token].
  change ["GT"; "LT"; "GE"; "LE"; "EQ"; "NE"]%string with comparison.
  rewrite Hcmp. reflexivity.
Qed.

Lemma parses_relacional_two l n op l' n' :
  parses parse_expressao_aritmetica 3 arithmetic_follow l n ->
  str_in (Token.type op) comparison = true ->
  1 <= List.length l' ->
  parses parse_expressao_aritmetica 3 arithmetic_follow l' n' ->
  parses parse_expressao_relacional 4 comparison_follow (l ++ op :: l')
    (Node.mk (Some "ExpressaoRelacional"%string) [binary op n n']).
Proof.
  intros Hari Hop Hl' Hari' st stop after fuel Hat Hstop Hfuel.
  rewrite length_app in Hfuel |- *. cbn [List.length] in Hfuel |- *.
  destruct fuel as [|fuel]; [lia|].
  destruct (str_in_app_false _ _ _ Hstop) as [Hcmp Hlow].
  rewrite <- app_assoc in Hat. cbn [app] in Hat.
  cbn [parse_expressao_relacional]. unfold bind at 1.
  rewrite (Hari _ op (l' ++ stop :: after) fuel Hat (comparison_low _ Hop)
             ltac:(lia)).
  pose proof (@stands_at_skip _ l op (l' ++ stop :: after) Hat) as Hat1.
  unfold bind at 1. unfold get at 1. cbn [current_token].
  change ["GT"; "LT"; "GE"; "LE"; "EQ"; "NE"]%string with comparison.
  rewrite Hop.
  destruct l' as [|x l']; [cbn in Hl'; lia|]. cbn [app] in Hat1.
  destruct (stands_at_next Hat1) as [_ Hat2]. cbn [pos] in Hat2.
  pose proof (Hari' _ stop after fuel Hat2 Hlow
                ltac:(cbn [List.length] in *; lia)) as Hrun.
  cbn [pos] in Hrun.
  unfold Node.add_child, Node.new. cbn [Node.label Node.children app].
  rewrite (@wrap_operator_run (Token.value op)
             (Some "ExpressaoRelacional"%string) n
             (parse_expressao_aritmetica fuel) _ op x _ _ _ Hat1 Hrun).
  unfold binary. cbn [List.length]. do 2 f_equal. lia.
Qed.

Lemma app_nonempty A (l l' : list A) :
  1 <= List.length l -> 1 <= List.length (l ++ l').
Proof. rewrite length_app. lia. Qed.

(** Closes the side conditions of the lemmas on loops. *)
Ltac side :=
  first
    [ assumption
    | lia
    | exact I
    | exact additive_low
    | exact logical_low
    | solve [intros s Hs; apply (str_in_app_false _ _ _ Hs)]
    | solve [intros; assumption]
    | solve [intros; reflexivity] ].

(** Every expression of the grammar parses to its tree. *)
Lemma expressions_parse :
  (forall l n, fator l n ->
     1 <= List.length l /\ parses parse_fator 1 [] l n) /\
  (forall acc l n, termo_loop acc l n ->
     starts_with multiplicative l /\
     forall label,
       parses (fun f => parse_termo_loop f (Node.mk label [acc])) 1
         multiplicative l (Node.mk label [n])) /\
  (forall l n, termo l n ->
     1 <= List.length l /\ parses parse_termo 2 multiplicative l n) /\
  (forall acc l n, aritmetica_loop acc l n ->
     starts_with additive l /\
     forall label,
       parses (fun f => parse_expressao_aritmetica_loop f
                          (Node.mk label [acc])) 1
         arithmetic_follow l (Node.mk label [n])) /\
  (forall l n, aritmetica l n ->
     1 <= List.length l /\
     parses parse_expressao_aritmetica 3 arithmetic_follow l n) /\
  (forall l n, relacional l n ->
     1 <= List.length l /\
     parses parse_expressao_relacional 4 comparison_follow l n) /\
  (forall acc l n, logica_loop acc l n ->
     starts_with logical l /\
     forall label,
       parses (fun f => parse_expressao_logica_loop f (Node.mk label [acc]))
         1 logical_follow l (Node.mk label [n])) /\
  (forall l n, logica l n ->
     1 <= List.length l /\
     parses parse_expressao_logica 5 logical_follow l n).
Proof.
  apply expression_induction.
  - (* operand *)
    intros x Hx. split; [cbn; lia|]. apply parses_fator_operand, Hx.
  - (* group *)
    intros lp l n rp Hlp _ [Hl Hlog] Hrp. split; [cbn; lia|].
    apply parses_fator_group; assumption.
  - (* termo loop, done *)
    intros acc. split; [exact I|]. intros label.
    apply loop_done with (OPERAND := parse_fator) (ops := multiplicative)
                         (oplabel := Token.value) (rank := 1);
      side.
  - (* termo loop, more *)
    intros acc op l n l' n' Hop _ [Hl Hf] _ [Hstart Hrest].
    split; [exact Hop|].
    apply loop_more with (OPERAND := parse_fator) (ops := multiplicative)
                         (oplabel := Token.value) (rank := 1)
                         (low := []) (n := n);
      side.
  - (* termo *)
    intros l n l' n' _ [Hl Hf] _ [Hstart Hrest].
    split; [apply app_nonempty, Hl|].
    apply rule_intro with (LOOP := parse_termo_loop)
                          (OPERAND := parse_fator) (ops := multiplicative)
                          (rank := 1) (low := []) (n := n);
      side.
  - (* aritmetica loop, done *)
    intros acc. split; [exact I|]. intros label.
    apply loop_done with (OPERAND := parse_termo) (ops := additive)
                         (oplabel := Token.value) (rank := 2);
      side.
  - (* aritmetica loop, more *)
    intros acc op l n l' n' Hop _ [Hl Ht] _ [Hstart Hrest].
    split; [exact Hop|].
    apply loop_more with (OPERAND := parse_termo) (ops := additive)
                         (oplabel := Token.value) (rank := 2)
                         (low := multiplicative) (n := n);
      side.
  - (* aritmetica *)
    intros l n l' n' _ [Hl Ht] _ [Hstart Hrest].
    split; [apply app_nonempty, Hl|].
    apply rule_intro with (LOOP := parse_expressao_aritmetica_loop)
                          (OPERAND := parse_termo) (ops := additive)
                          (rank := 2) (low := multiplicative) (n := n);
      side.
  - (* relacional, one *)
    intros l n _ [Hl Ha]. split; [exact Hl|].
    apply parses_relacional_one, Ha.
  - (* relacional, two *)
    intros l n op l' n' _ [Hl Ha] Hop _ [Hl' Ha'].
    split; [apply app_nonempty, Hl|].
    apply parses_relacional_two; assumption.
  - (* logica loop, done *)
    intros acc. split; [exact I|]. intros label.
    apply loop_done with (OPERAND := parse_expressao_relacional)
                         (ops := logical)
                         (oplabel := fun t => Some (Token.type t))
                         (rank := 4);
      side.
  - (* logica loop, more *)
    intros acc op l n l' n' Hop _ [Hl Hr] _ [Hstart Hrest].
    split; [exact Hop|].
    apply loop_more with (OPERAND := parse_expressao_relacional)
                         (ops := logical)
                         (oplabel := fun t => Some (Token.type t))
                         (rank := 4) (low := comparison_follow) (n := n);
      side.
  - (* logica *)
    intros l n l' n' _ [Hl Hr] _ [Hstart Hrest].
    split; [apply app_nonempty, Hl|].
    apply rule_intro with (LOOP := parse_expressao_logica_loop)
                          (OPERAND := parse_expressao_relacional)
                          (ops := logical) (rank := 4)
                          (low := comparison_follow) (n := n);
      side.
Qed.


(** ** Statements *)

Definition terminators : list string :=
  ["FIMPROG"; "FIMBLOCO"; "FIMDECLS"; "EOF"]%string.

Inductive atribuicao : list Token.t -> Node.t -> Prop :=
| atribuicao_intro x eq l n :
    Token.type x = "IDENTIFIER"%string ->
    Token.type eq = "ASSIGN"%string ->
    logica l n ->
    atribuicao (x :: eq :: l)
      (Node.mk (Some "Atribuicao"%string) [leaf x; leaf eq; n]).

Inductive comando : list Token.t -> Node.t -> Prop :=
| comando_leia leia x :
    Token.type leia = "LEIA"%string ->
    Token.type x = "IDENTIFIER"%string ->
    comando [leia; x] (Node.mk (Some "Comando"%string) [leaf leia; leaf x])
| comando_escreva escreva lp v rp :
    Token.type escreva = "ESCREVA"%string ->
    Token.type lp = "LPAREN"%string ->
    str_in (Token.type v) ["IDENTIFIER"; "NUMBER"]%string = true ->
    Token.type rp = "RPAREN"%string ->
    comando [escreva; lp; v; rp]
      (Node.mk (Some "Comando"%string)
         [leaf escreva; leaf lp; leaf v; leaf rp])
| comando_se l n :
    condicional l n ->
    comando l (Node.mk (Some "Comando"%string) [n])
| comando_atribuicao l n :
    atribuicao l n ->
    comando l (Node.mk (Some "Comando"%string) [n])

with condicional : list Token.t -> Node.t -> Prop :=
| condicional_intro se l n entao bloco l' n' fimbloco :
    Token.type se = "SE"%string ->
    logica l n ->
    Token.type entao = "ENTAO"%string ->
    Token.type bloco = "BLOCO"%string ->
    comandos l' n' ->
    Token.type fimbloco = "FIMBLOCO"%string ->
    condicional (se :: l ++ entao :: bloco :: l' ++ [fimbloco])
      (Node.mk (Some "Condicional"%string)
         [leaf se; n; leaf entao; leaf bloco; n'; leaf fimbloco])

with comandos_loop : list Token.t -> list Node.t -> Prop :=
| comandos_loop_done : comandos_loop [] []
| comandos_loop_more l n l' ns :
    comando l n -> comandos_loop l' ns ->
    comandos_loop (l ++ l') (n :: ns)

with comandos : list Token.t -> Node.t -> Prop :=
| comandos_intro l ns :
    comandos_loop l ns ->
    comandos l (Node.mk (Some "Comandos"%string) ns).

Scheme comando_mutual := Minimality for comando Sort Prop
  with condicional_mutual := Minimality for condicional Sort Prop
  with comandos_loop_mutual := Minimality for comandos_loop Sort Prop
  with comandos_mutual := Minimality for comandos Sort Prop.

Combined Scheme statement_induction from
  comando_mutual, condicional_mutual, comandos_loop_mutual, comandos_mutual.

(** The whole program. *)
Inductive programa : list Token.t -> Node.t -> Prop :=
| programa_intro inicio decls ds fimdecls codigo l n fimprog :
    Token.type inicio = "INICIO"%string ->
    Token.type decls = "DECLS"%string ->
    Forall declaration ds ->
    Token.type fimdecls = "FIMDECLS"%string ->
    Token.type codigo = "CODIGO"%string ->
    comandos l n ->
    Token.type fimprog = "FIMPROG"%string ->
    programa
      (inicio :: decls :: flat_map decl_tokens ds
       ++ fimdecls :: codigo :: l ++ [fimprog])
      (Node.mk (Some "Programa"%string)
         [leaf inicio; leaf decls;
          Node.mk (Some "Decls"%string) (map decl_node ds);
          leaf fimdecls; leaf codigo; n; leaf fimprog]).

(** Decides the tests of a rule on a token type that is known. *)
Ltac decide_tests :=
  repeat match goal with
    | |- context [String.eqb ?a ?b] =>
        let v := eval vm_compute in (String.eqb a b) in
        match v with
        | true => change (String.eqb a b) with true
        | false => change (String.eqb a b) with false
        end
    | |- context [str_in ?a ?b] =>
        let v := eval vm_compute in (str_in a b) in
        match v with
        | true => change (str_in a b) with true
        | false => change (str_in a b) with false
        end
    end;
  cbv iota; cbn [negb].

Lemma logica_nonempty l n : logica l n -> 1 <= List.length l.
Proof. intros H. apply expressions_parse in H. tauto. Qed.

Lemma parses_logica l n :
  logica l n -> parses parse_expressao_logica 5 logical_follow l n.
Proof. intros H. apply expressions_parse in H. tauto. Qed.

Definition command_start : list string :=
  ["LEIA"; "ESCREVA"; "SE"; "IDENTIFIER"]%string.

Lemma comando_start l n :
  comando l n ->
  exists x l0, l = x :: l0 /\ str_in (Token.type x) command_start = true.
Proof.
  destruct 1 as [leia x H1 _ | escreva lp v rp H1 _ _ _ | l n H | l n H].
  - eexists. eexists. split; [reflexivity|]. rewrite H1. reflexivity.
  - eexists. eexists. split; [reflexivity|]. rewrite H1. reflexivity.
  - destruct H as [se l0 n0 entao bloco l' n' fimbloco H1].
    eexists. eexists. split; [reflexivity|]. rewrite H1. reflexivity.
  - destruct H as [x eq l0 n0 H1].
    eexists. eexists. split; [reflexivity|]. rewrite H1. reflexivity.
Qed.

Lemma command_start_goes_on s :
  str_in s command_start = true ->
  str_in s terminators = false /\ str_in s logical_follow = false.
Proof. intros H. one_of H; subst s; split; reflexivity. Qed.

Lemma terminator_ends s :
  str_in s terminators = true -> str_in s logical_follow = false.
Proof. intros H. one_of H; subst s; reflexivity. Qed.

Lemma atribuicao_parses l n :
  atribuicao l n ->
  forall st stop after fuel,
    stands_at ts st (l ++ stop :: after) ->
    str_in (Token.type stop) logical_follow = false ->
    5 * List.length l + 1 <= fuel ->
    parse_atribuicao fuel st
    = Ok n (mk ts (pos st + List.length l) stop).
Proof.
  intros [x eq l0 n0 Hx Heq Hlog] st stop after fuel Hat Hstop Hfuel.
  cbn [List.length] in Hfuel |- *. cbn [app] in Hat.
  pose proof (logica_nonempty Hlog) as Hl0.
  destruct l0 as [|y l0]; [cbn in Hl0; lia|]. cbn [app] in Hat.
  unfold parse_atribuicao. unfold bind at 1. rewrite (eat_step Hat Hx).
  destruct (stands_at_next Hat) as [_ Hat1].
  unfold bind at 1. rewrite (eat_step Hat1 Heq). cbn [pos].
  destruct (stands_at_next Hat1) as [_ Hat2]. cbn [pos] in Hat2.
  unfold bind.
  rewrite (@parses_logica _ _ Hlog _ stop after fuel Hat2 Hstop
             ltac:(cbn [List.length] in *; lia)).
  unfold ret, Node.add_child, Node.new.
  cbn [pos Node.label Node.children app List.length]. do 2 f_equal. lia.
Qed.


Lemma comandos_loop_start l ns :
  comandos_loop l ns -> starts_with command_start l.
Proof.
  destruct 1 as [|l n l' ns Hc _]; [exact I|].
  destruct (comando_start Hc) as (x & l0 & -> & Hx). exact Hx.
Qed.

(** Every statement of the grammar parses to its tree. *)
Lemma statements_parse :
  (forall l n, comando l n ->
     forall st stop after fuel,
       stands_at ts st (l ++ stop :: after) ->
       str_in (Token.type stop) logical_follow = false ->
       5 * List.length l + 2 <= fuel ->
       parse_comando fuel st
       = Ok n (mk ts (pos st + List.length l) stop)) /\
  (forall l n, condicional l n ->
     forall st stop after fuel,
       stands_at ts st (l ++ stop :: after) ->
       5 * List.length l + 1 <= fuel ->
       parse_if fuel st = Ok n (mk ts (pos st + List.length l) stop)) /\
  (forall l ns, comandos_loop l ns ->
     forall label children st stop after fuel,
       stands_at ts st (l ++ stop :: after) ->
       str_in (Token.type stop) terminators = true ->
       5 * List.length l + 3 <= fuel ->
       parse_comandos_loop fuel (Node.mk label children) st
       = Ok (Node.mk label (children ++ ns))
            (mk ts (pos st + List.length l) stop)) /\
  (forall l n, comandos l n ->
     forall st stop after fuel,
       stands_at ts st (l ++ stop :: after) ->
       str_in (Token.type stop) terminators = true ->
       5 * List.length l + 4 <= fuel ->
       parse_comandos fuel st
       = Ok n (mk ts (pos st + List.length l) stop)).
Proof.
  apply statement_induction.
  - (* leia *)
    intros leia x Hleia Hx st stop after fuel Hat _ Hfuel.
    destruct fuel as [|fuel]; [lia|]. cbn [app] in Hat.
    cbn [parse_comando]. unfold bind at 1. unfold get at 1.
    rewrite (stands_at_head Hat), Hleia. decide_tests.
    unfold bind at 1. rewrite (eat_step Hat Hleia).
    destruct (stands_at_next Hat) as [_ Hat1].
    unfold bind. rewrite (eat_step Hat1 Hx).
    unfold ret, Node.add_child, Node.new.
    cbn [pos Node.label Node.children app List.length].
    do 2 f_equal. lia.
  - (* escreva *)
    intros escreva lp v rp Hesc Hlp Hv Hrp st stop after fuel Hat _ Hfuel.
    destruct fuel as [|fuel]; [lia|]. cbn [app] in Hat.
    cbn [parse_comando]. unfold bind at 1. unfold get at 1.
    rewrite (stands_at_head Hat), Hesc. decide_tests.
    unfold bind at 1. rewrite (eat_step Hat Hesc).
    destruct (stands_at_next Hat) as [_ Hat1].
    unfold bind at 1. rewrite (eat_step Hat1 Hlp). cbn [pos].
    destruct (stands_at_next Hat1) as [_ Hat2]. cbn [pos] in Hat2.
    unfold bind at 1. unfold get at 1. cbn [current_token]. rewrite Hv.
    unfold bind at 1. rewrite (eat_step Hat2 eq_refl). cbn [pos].
    destruct (stands_at_next Hat2) as [_ Hat3]. cbn [pos] in Hat3.
    unfold bind. rewrite (eat_step Hat3 Hrp).
    unfold ret, Node.add_child, Node.new.
    cbn [pos Node.label Node.children app List.length].
    do 2 f_equal. lia.
  - (* se *)
    intros l n Hc IH st stop after fuel Hat _ Hfuel.
    destruct fuel as [|fuel]; [lia|].
    assert (Hhead : exists se l0,
               l = se :: l0 /\ Token.type se = "SE"%string).
    { destruct Hc. eauto. }
    destruct Hhead as (se & l0 & Hl & Hse).
    cbn [parse_comando]. unfold bind at 1. unfold get at 1.
    assert (Hcur : current_token st = se).
    { rewrite Hl in Hat. apply (stands_at_head Hat). }
    rewrite Hcur, Hse. decide_tests.
    unfold bind. rewrite (IH st stop after fuel Hat ltac:(lia)).
    reflexivity.
  - (* atribuicao *)
    intros l n Ha st stop after fuel Hat Hstop Hfuel.
    destruct fuel as [|fuel]; [lia|].
    pose proof (@atribuicao_parses l n Ha st stop after fuel Hat Hstop
                  ltac:(lia)) as Hrun.
    destruct Ha as [x eq l0 n0 Hx Heq Hlog]. cbn [app] in Hat.
    cbn [parse_comando]. unfold bind at 1. unfold get at 1.
    rewrite (stands_at_head Hat), Hx. decide_tests.
    destruct (stands_at_next Hat) as [Hnext _].
    destruct Hat as [Hwf _].
    unfold bind at 1. rewrite (peek_next_type_eq 1 Hwf), Hnext.
    cbn [option_map]. rewrite Heq. decide_tests.
    unfold bind. rewrite Hrun. reflexivity.
  - (* condicional *)
    intros se l n entao bloco l' n' fimbloco Hse Hlog Hentao Hbloco _ IH
      Hfim st stop after fuel Hat Hfuel.
    cbn [List.length] in Hfuel |- *.
    rewrite !length_app in Hfuel |- *. cbn [List.length] in Hfuel |- *.
    rewrite !length_app in Hfuel |- *. cbn [List.length] in Hfuel |- *.
    destruct fuel as [|fuel]; [lia|].
    cbn [app] in Hat. rewrite <- app_assoc in Hat. cbn [app] in Hat.
    rewrite <- app_assoc in Hat. cbn [app] in Hat.
    pose proof (logica_nonempty Hlog) as Hl.
    destruct l as [|x l]; [cbn in Hl; lia|]. cbn [app] in Hat.
    cbn [parse_if]. unfold bind at 1. rewrite (eat_step Hat Hse).
    destruct (stands_at_next Hat) as [_ Hat1].
    assert (Hfollow : str_in (Token.type entao) logical_follow = false)
      by (rewrite Hentao; reflexivity).
    unfold bind at 1.
    rewrite (@parses_logica _ _ Hlog _ entao _ fuel Hat1 Hfollow
               ltac:(cbn [List.length] in *; lia)).
    pose proof (@stands_at_skip _ (x :: l) entao _ Hat1) as Hat2.
    cbn [pos] in Hat2 |- *.
    unfold bind at 1. rewrite (eat_step Hat2 Hentao). cbn [pos].
    destruct (stands_at_next Hat2) as [_ Hat3]. cbn [pos] in Hat3.
    destruct (nonempty_after l' fimbloco (stop :: after))
      as (y & r & Hyr).
    rewrite Hyr in Hat3.
    unfold bind at 1. rewrite (eat_step Hat3 Hbloco). cbn [pos].
    destruct (stands_at_next Hat3) as [_ Hat4]. cbn [pos] in Hat4.
    rewrite <- Hyr in Hat4.
    assert (Hterm : str_in (Token.type fimbloco) terminators = true)
      by (rewrite Hfim; reflexivity).
    unfold bind at 1.
    rewrite (IH _ fimbloco (stop :: after) fuel Hat4 Hterm ltac:(lia)).
    pose proof (@stands_at_skip _ l' fimbloco (stop :: after) Hat4) as Hat5.
    cbn [pos] in Hat5 |- *.
    unfold bind. rewrite (eat_step Hat5 Hfim).
    unfold ret, Node.add_child, Node.new.
    cbn [pos Node.label Node.children app List.length].
    do 2 f_equal. lia.
  - (* loop, done *)
    intros label children st stop after fuel Hat Hstop Hfuel.
    destruct fuel as [|fuel]; [lia|]. cbn [app] in Hat.
    cbn [parse_comandos_loop]. unfold bind, get.
    change ["FIMPROG"; "FIMBLOCO"; "FIMDECLS"; "EOF"]%string
      with terminators.
    rewrite (stands_at_head Hat), Hstop. cbn [negb List.length].
    rewrite app_nil_r, Nat.add_0_r. unfold ret. f_equal.
    apply (stands_at_eta Hat).
  - (* loop, more *)
    intros l n l' ns Hc IHc Hloop IHloop label children st stop after fuel
      Hat Hstop Hfuel.
    rewrite length_app in Hfuel |- *.
    destruct fuel as [|fuel]; [lia|].
    rewrite <- app_assoc in Hat.
    destruct (comando_start Hc) as (x & l0 & Hl & Hx).
    destruct (command_start_goes_on _ Hx) as [Hgo _].
    assert (Hcur : current_token st = x).
    { rewrite Hl in Hat. apply (stands_at_head Hat). }
    destruct (@next_token command_start logical_follow l' stop after
                (comandos_loop_start Hloop)
                (fun s H => proj2 (command_start_goes_on s H))
                (terminator_ends _ Hstop))
      as (y & r & Hyr & Hy).
    rewrite Hyr in Hat.
    assert (Hl1 : 1 <= List.length l) by (rewrite Hl; cbn; lia).
    cbn [parse_comandos_loop]. unfold bind at 1. unfold get at 1.
    change ["FIMPROG"; "FIMBLOCO"; "FIMDECLS"; "EOF"]%string
      with terminators.
    rewrite Hcur, Hgo. cbn [negb].
    unfold bind. rewrite (IHc st y r fuel Hat Hy ltac:(lia)).
    pose proof (@stands_at_skip _ l y r Hat) as Hat1. rewrite <- Hyr in Hat1.
    unfold Node.add_child. cbn [Node.label Node.children].
    rewrite (IHloop label _ _ stop after fuel Hat1 Hstop ltac:(lia)).
    cbn [pos]. rewrite <- app_assoc. cbn [app]. do 2 f_equal. lia.
  - (* comandos *)
    intros l ns _ IH st stop after fuel Hat Hstop Hfuel.
    destruct fuel as [|fuel]; [lia|].
    cbn [parse_comandos]. unfold Node.new.
    rewrite (IH (Some "Comandos"%string) [] st stop after fuel Hat Hstop
               ltac:(lia)).
    reflexivity.
Qed.


Lemma decl_tokens_length ds :
  List.length (flat_map decl_tokens ds) = 3 * List.length ds.
Proof.
  rewrite (flat_map_constant_length (c := 3)); [lia|].
  intros [[a b] c] _. reflexivity.
Qed.

(** [parse_expressao_logica], with the cursor on the tokens of an
    expression of the grammar that a token other than an operator follows,
    returns the tree of the expression and leaves the cursor on that
    token, when the call stack has five free frames per token of the
    expression and seven more; five units of fuel per token and five more
    are enough. *)
Theorem expressions_of_the_grammar_parse_to_their_tree st l n stop after
    fuel frames :
  logica l n ->
  stands_at ts st (l ++ stop :: after) ->
  str_in (Token.type stop) logical_follow = false ->
  5 * List.length l + 5 <= fuel ->
  5 * List.length l + 7 <= frames ->
  Framed.parse_expressao_logica fuel frames st
  = Ok n (mk ts (pos st + List.length l) stop).
Proof.
  intros H Hat Hstop Hfuel Hframes.
  pose proof (parses_logica H) as P. unfold parses in P.
  pose proof (P st stop after _ Hat Hstop (Nat.le_refl _)) as Hrun.
  rewrite <- (@FramedFacts.parse_expressao_logica_same
                (5 * List.length l + 5) frames) in Hrun by lia.
  apply (@LexerFacts.refines_ok _ _ _ _ _ _ _
           (@FramedFacts.parse_expressao_logica_more_fuel _ _ frames Hfuel) Hrun).
Qed.

(** On the unbounded stack, [parse_programa], with the cursor on the
    tokens of a program of the grammar and any token after them, returns
    the tree of the program and leaves the cursor on that token; five
    units of fuel per token and four more are enough. *)
Lemma programa_parses st l root stop after fuel :
  programa l root ->
  stands_at ts st (l ++ stop :: after) ->
  5 * List.length l + 4 <= fuel ->
  parse_programa fuel st
  = Ok root (mk ts (pos st + List.length l) stop).
Proof.
  intros [inicio decls ds fimdecls codigo l0 n fimprog
            Hinicio Hdecls Hds Hfimdecls Hcodigo Hcmds Hfimprog]
    Hat Hfuel.
  pose proof (decl_tokens_length ds) as Hlen.
  cbn [List.length] in Hfuel |- *.
  rewrite !length_app in Hfuel |- *. cbn [List.length] in Hfuel |- *.
  rewrite !length_app in Hfuel |- *. cbn [List.length] in Hfuel |- *.
  cbn [app] in Hat. rewrite <- app_assoc in Hat. cbn [app] in Hat.
  rewrite <- app_assoc in Hat. cbn [app] in Hat.
  unfold parse_programa.
  unfold bind at 1. rewrite (eat_step Hat Hinicio).
  destruct (stands_at_next Hat) as [_ Hat1].
  destruct (nonempty_after (flat_map decl_tokens ds) fimdecls
              (codigo :: l0 ++ fimprog :: stop :: after))
    as (y & r & Hyr).
  rewrite Hyr in Hat1.
  unfold bind at 1. rewrite (eat_step Hat1 Hdecls). cbn [pos].
  destruct (stands_at_next Hat1) as [_ Hat2]. cbn [pos] in Hat2.
  rewrite <- Hyr in Hat2.
  assert (Hstop : str_in (Token.type fimdecls) ["FIMDECLS"; "EOF"]%string
                  = true)
    by (rewrite Hfimdecls; reflexivity).
  unfold bind at 1. unfold parse_decls, Node.new.
  rewrite (@parse_decls_loop_declarations ts ds fuel (Some "Decls"%string)
             [] _ fimdecls _ Hat2 Hds Hstop ltac:(lia)).
  cbn [pos app].
  pose proof (@stands_at_skip _ (flat_map decl_tokens ds) fimdecls _ Hat2)
    as Hat3.
  cbn [pos] in Hat3. rewrite Hlen in Hat3.
  unfold bind at 1. rewrite (eat_step Hat3 Hfimdecls). cbn [pos].
  destruct (stands_at_next Hat3) as [_ Hat4]. cbn [pos] in Hat4.
  destruct (nonempty_after l0 fimprog (stop :: after)) as (y' & r' & Hyr').
  rewrite Hyr' in Hat4.
  unfold bind at 1. rewrite (eat_step Hat4 Hcodigo). cbn [pos].
  destruct (stands_at_next Hat4) as [_ Hat5]. cbn [pos] in Hat5.
  rewrite <- Hyr' in Hat5.
  assert (Hterm : str_in (Token.type fimprog) terminators = true)
    by (rewrite Hfimprog; reflexivity).
  unfold bind at 1.
  rewrite (proj2 (proj2 (proj2 statements_parse)) l0 n Hcmds _ fimprog
             (stop :: after) fuel Hat5 Hterm ltac:(lia)).
  pose proof (@stands_at_skip _ l0 fimprog (stop :: after) Hat5) as Hat6.
  cbn [pos] in Hat6 |- *.
  unfold bind. rewrite (eat_step Hat6 Hfimprog).
  unfold ret, Node.add_child, Node.new.
  cbn [pos Node.label Node.children app List.length].
  do 2 f_equal. lia.
Qed.

(** [parse_programa], with the cursor on the tokens of a program of the
    grammar and any token after them, returns the tree of the program
    and leaves the cursor on that token, when the call stack has five
    free frames per token of the program and nine more; five units of
    fuel per token and four more are enough. *)
Theorem programs_of_the_grammar_parse_to_their_tree st l root stop after
    fuel frames :
  programa l root ->
  stands_at ts st (l ++ stop :: after) ->
  5 * List.length l + 4 <= fuel ->
  5 * List.length l + 9 <= frames ->
  Framed.parse_programa fuel frames st
  = Ok root (mk ts (pos st + List.length l) stop).
Proof.
  intros H Hat Hfuel Hframes.
  pose proof (@programa_parses st l root stop after _ H Hat
                (Nat.le_refl _)) as Hrun.
  rewrite <- (@FramedFacts.parse_programa_same
                (5 * List.length l + 4) frames) in Hrun by lia.
  apply (@LexerFacts.refines_ok _ _ _ _ _ _ _
           (@FramedFacts.parse_programa_more_fuel _ _ frames Hfuel) Hrun).
Qed.

End Grammar.

Lemma expressions_of_the_grammar_parse_to_their_tree_witness :
  Framed.parse_expressao_logica 20 22
    (parser_on (tokens_of "a<1 entao")
       (Token.mk "IDENTIFIER" (Some "a"%string) 1 1))
  = Ok (Node.mk (Some "ExpressaoLogica"%string)
          [Node.mk (Some "ExpressaoRelacional"%string)
             [Node.mk (Some "<"%string)
                [Node.mk (Some "ExpressaoAritmetica"%string)
                   [Node.mk (Some "Termo"%string)
                      [Node.mk (Some "IDENTIFIER(a)"%string) []]];
                 Node.mk (Some "ExpressaoAritmetica"%string)
                   [Node.mk (Some "Termo"%string)
                      [Node.mk (Some "NUMBER(1)"%string) []]]]]])
       (Parser.mk (tokens_of "a<1 entao") 3
          (Token.mk "ENTAO" (Some "entao"%string) 1 5)).
Proof.
  eapply (@expressions_of_the_grammar_parse_to_their_tree
           (tokens_of "a<1 entao")
           (parser_on (tokens_of "a<1 entao")
              (Token.mk "IDENTIFIER" (Some "a"%string) 1 1))
           [Token.mk "IDENTIFIER" (Some "a"%string) 1 1;
            Token.mk "LT" (Some "<"%string) 1 2;
            Token.mk "NUMBER" (Some "1"%string) 1 3]
           _
           (Token.mk "ENTAO" (Some "entao"%string) 1 5)
           [Token.mk "EOF" None 1 9] 20 22).
  - eapply (@logica_intro
             [Token.mk "IDENTIFIER" (Some "a"%string) 1 1;
              Token.mk "LT" (Some "<"%string) 1 2;
              Token.mk "NUMBER" (Some "1"%string) 1 3] _ [] _);
      [|apply logica_loop_done].
    eapply (@relacional_two
             [Token.mk "IDENTIFIER" (Some "a"%string) 1 1] _
             (Token.mk "LT" (Some "<"%string) 1 2)
             [Token.mk "NUMBER" (Some "1"%string) 1 3] _);
      [|reflexivity|].
    + eapply (@aritmetica_intro
               [Token.mk "IDENTIFIER" (Some "a"%string) 1 1] _ [] _);
        [|apply aritmetica_loop_done].
      eapply (@termo_intro
               [Token.mk "IDENTIFIER" (Some "a"%string) 1 1] _ [] _);
        [|apply termo_loop_done].
      apply fator_operand. reflexivity.
    + eapply (@aritmetica_intro
               [Token.mk "NUMBER" (Some "1"%string) 1 3] _ [] _);
        [|apply aritmetica_loop_done].
      eapply (@termo_intro
               [Token.mk "NUMBER" (Some "1"%string) 1 3] _ [] _);
        [|apply termo_loop_done].
      apply fator_operand. reflexivity.
  - split; [split|]; vm_compute; try reflexivity. lia.
  - reflexivity.
  - cbn. lia.
  - cbn. lia.
Defined.

Lemma programs_of_the_grammar_parse_to_their_tree_witness :
  Framed.parse_programa 39 44
    (parser_on (tokens_of "inicio decls fimdecls codigo leia x fimprog")
       (Token.mk "INICIO" (Some "inicio"%string) 1 1))
  = Ok (Node.mk (Some "Programa"%string)
          [Node.mk (Some "INICIO(inicio)"%string) [];
           Node.mk (Some "DECLS(decls)"%string) [];
           Node.mk (Some "Decls"%string) [];
           Node.mk (Some "FIMDECLS(fimdecls)"%string) [];
           Node.mk (Some "CODIGO(codigo)"%string) [];
           Node.mk (Some "Comandos"%string)
             [Node.mk (Some "Comando"%string)
                [Node.mk (Some "LEIA(leia)"%string) [];
                 Node.mk (Some "IDENTIFIER(x)"%string) []]];
           Node.mk (Some "FIMPROG(fimprog)"%string) []])
       (Parser.mk (tokens_of "inicio decls fimdecls codigo leia x fimprog")
          7 (Token.mk "EOF" None 1 43)).
Proof.
  eapply (@programs_of_the_grammar_parse_to_their_tree
           (tokens_of "inicio decls fimdecls codigo leia x fimprog")
           (parser_on
              (tokens_of "inicio decls fimdecls codigo leia x fimprog")
              (Token.mk "INICIO" (Some "inicio"%string) 1 1))
           [Token.mk "INICIO" (Some "inicio"%string) 1 1;
            Token.mk "DECLS" (Some "decls"%string) 1 8;
            Token.mk "FIMDECLS" (Some "fimdecls"%string) 1 14;
            Token.mk "CODIGO" (Some "codigo"%string) 1 23;
            Token.mk "LEIA" (Some "leia"%string) 1 30;
            Token.mk "IDENTIFIER" (Some "x"%string) 1 35;
            Token.mk "FIMPROG" (Some "fimprog"%string) 1 37]
           _ (Token.mk "EOF" None 1 43) [] 39 44).
  - eapply (@programa_intro
             (Token.mk "INICIO" (Some "inicio"%string) 1 1)
             (Token.mk "DECLS" (Some "decls"%string) 1 8)
             []
             (Token.mk "FIMDECLS" (Some "fimdecls"%string) 1 14)
             (Token.mk "CODIGO" (Some "codigo"%string) 1 23)
             [Token.mk "LEIA" (Some "leia"%string) 1 30;
              Token.mk "IDENTIFIER" (Some "x"%string) 1 35]
             _
             (Token.mk "FIMPROG" (Some "fimprog"%string) 1 37));
      try reflexivity; [constructor|].
    eapply (@comandos_intro _ [_]).
    eapply (@comandos_loop_more
             [Token.mk "LEIA" (Some "leia"%string) 1 30;
              Token.mk "IDENTIFIER" (Some "x"%string) 1 35] _ [] []);
      [|apply comandos_loop_done].
    apply comando_leia; reflexivity.
  - split; [split|]; vm_compute; try reflexivity. lia.
  - cbn. lia.
  - cbn. lia.
Defined.


(** * What the parser accepts is in the grammar *)

Section Accepted.
Import Parser ParserFacts.
Variable ts : list Token.t.
Hypothesis Heof : eof_last ts.

(** A run from [st] to [st'] went over the tokens [l]. *)
Definition went_over (st st' : state) (l : list Token.t) : Prop :=
  wf ts st' /\ skipn (pos st) ts = l ++ skipn (pos st') ts.

(** [accepts R m]: when [m] returns [n], the tokens it went over and [n]
    are in the relation [R]. *)
Definition accepts (R : list Token.t -> Node.t -> Prop)
    (m : M state Node.t) : Prop :=
  forall st n st',
    wf ts st -> m st = Ok n st' -> exists l, R l n /\ went_over st st' l.

Lemma went_over_nil st : wf ts st -> went_over st st [].
Proof. intros H. split; [assumption|reflexivity]. Qed.

Lemma went_over_app st st1 st2 l1 l2 :
  went_over st st1 l1 -> went_over st1 st2 l2 ->
  went_over st st2 (l1 ++ l2).
Proof.
  intros [_ H1] [Hwf H2]. split; [assumption|].
  rewrite H1, H2, app_assoc. reflexivity.
Qed.

Lemma bind_inv A B (m : M state A) (k : A -> M state B) st b st' :
  bind m k st = Ok b st' ->
  exists a s, m st = Ok a s /\ k a s = Ok b st'.
Proof.
  unfold bind. destruct (m st) as [a s| |]; try discriminate. eauto.
Qed.

Lemma skipn_current st :
  wf ts st -> skipn (pos st) ts = current_token st :: skipn (pos st + 1) ts.
Proof.
  intros Hwf. pose proof (wf_current Hwf) as Hc.
  rewrite nth_error_hd_skipn in Hc. rewrite skipn_succ_tl.
  destruct (skipn (pos st) ts); cbn in *; congruence.
Qed.

Lemma advance_inv st st' :
  wf ts st ->
  String.eqb (Token.type (current_token st)) "EOF" = false ->
  advance st = Ok tt st' ->
  went_over st st' [current_token st].
Proof.
  intros Hwf Hty Hrun. pose proof (not_last Heof Hwf Hty) as Hlt.
  destruct (nth_error ts (pos st + 1)) as [t|] eqn:Hn.
  2:{ apply nth_error_None in Hn. lia. }
  rewrite (advance_next Hwf Hn) in Hrun. injection Hrun as <-.
  split.
  - split; cbn [tokens pos current_token]; auto.
  - cbn [pos app]. apply skipn_current, Hwf.
Qed.

Lemma eat_inv token_type st n st' :
  wf ts st -> String.eqb token_type "EOF" = false ->
  eat token_type st = Ok n st' ->
  Token.type (current_token st) = token_type /\
  n = leaf (current_token st) /\
  went_over st st' [current_token st].
Proof.
  intros Hwf Hty Hrun. unfold eat in Hrun. unfold bind at 1 in Hrun.
  unfold get at 1 in Hrun.
  destruct (String.eqb (Token.type (current_token st)) token_type) eqn:He;
    [|discriminate].
  apply String.eqb_eq in He.
  apply bind_inv in Hrun. destruct Hrun as ([] & s & Hadv & Hret).
  injection Hret as <- <-.
  split; [assumption|]. split; [unfold leaf; rewrite He; reflexivity|].
  apply advance_inv; auto. rewrite He. assumption.
Qed.


Lemma wrap_operator_inv oplabel label acc (rule : M state Node.t) st n st' :
  wf ts st ->
  String.eqb (Token.type (current_token st)) "EOF" = false ->
  wrap_operator (Node.mk oplabel []) (Node.mk label [acc]) rule st
  = Ok n st' ->
  exists s right,
    went_over st s [current_token st] /\
    rule s = Ok right st' /\
    n = Node.mk label [Node.mk oplabel [acc; right]].
Proof.
  intros Hwf Hty Hrun. unfold wrap_operator in Hrun.
  apply bind_inv in Hrun. destruct Hrun as ([] & s & Hadv & Hrun).
  unfold bind at 1 in Hrun. unfold pop_child at 1 in Hrun.
  cbn [Node.children rev app] in Hrun. unfold ret at 1 in Hrun.
  cbv iota beta in Hrun.
  apply bind_inv in Hrun. destruct Hrun as (right & s' & Hop & Hret).
  injection Hret as <- <-.
  exists s, right. split; [apply advance_inv; assumption|].
  split; [assumption|reflexivity].
Qed.

Lemma accepts_out_of_fuel R : accepts R out_of_fuel.
Proof. intros st n st' _ H. discriminate. Qed.

Section LoopAccepts.
Variable LOOP : nat -> Node.t -> M state Node.t.
Variable OPERAND : nat -> M state Node.t.
Variable ops : list string.
Variable oplabel : Token.t -> option string.
Hypothesis LOOP_eq :
  forall fuel node st,
    LOOP (S fuel) node st
    = (if str_in (Token.type (current_token st)) ops then
         node' <- wrap_operator (Node.mk (oplabel (current_token st)) [])
                    node (OPERAND fuel) ;;
         LOOP fuel node'
       else ret node) st.
Hypothesis Hnot_eof : str_in "EOF" ops = false.

Variable R_operand : list Token.t -> Node.t -> Prop.
Variable R_loop : Node.t -> list Token.t -> Node.t -> Prop.
Hypothesis R_done : forall acc, R_loop acc [] acc.
Hypothesis R_more :
  forall acc op l n l' n',
    str_in (Token.type op) ops = true ->
    R_operand l n ->
    R_loop (Node.mk (oplabel op) [acc; n]) l' n' ->
    R_loop acc (op :: l ++ l') n'.

(** What the loop returns from a node with one child [acc]. *)
Definition looped (label : option string) (acc : Node.t)
    (l : list Token.t) (n : Node.t) : Prop :=
  exists r, n = Node.mk label [r] /\ R_loop acc l r.

Lemma loop_accepts fuel :
  accepts R_operand (OPERAND fuel) ->
  (forall label acc,
     accepts (looped label acc) (LOOP fuel (Node.mk label [acc]))) ->
  forall label acc,
    accepts (looped label acc) (LOOP (S fuel) (Node.mk label [acc])).
Proof.
  intros Hoperand Hloop label acc st n st' Hwf Hrun.
  rewrite LOOP_eq in Hrun.
  destruct (str_in (Token.type (current_token st)) ops) eqn:Hop.
  - apply bind_inv in Hrun. destruct Hrun as (node' & s1 & Hwrap & Hrun).
    pose proof (str_in_not_eof _ _ Hop Hnot_eof) as Hty.
    destruct (wrap_operator_inv _ _ _ _ Hwf Hty Hwrap)
      as (s0 & right & Hover0 & Hright & ->).
    destruct (Hoperand s0 right s1 (proj1 Hover0) Hright)
      as (l1 & HR1 & Hover1).
    destruct (Hloop label _ s1 n st' (proj1 Hover1) Hrun)
      as (l2 & (r & -> & HR2) & Hover2).
    exists (current_token st :: l1 ++ l2). split.
    + exists r. split; [reflexivity|].
      apply R_more with (n := right); assumption.
    + change (current_token st :: l1 ++ l2)
        with ([current_token st] ++ l1 ++ l2).
      eapply went_over_app; [eassumption|].
      eapply went_over_app; eassumption.
  - injection Hrun as <- <-. exists []. split.
    + exists acc. split; [reflexivity|apply R_done].
    + apply went_over_nil, Hwf.
Qed.

Variable RULE : nat -> M state Node.t.
Variable name : string.
Hypothesis RULE_eq :
  forall fuel st,
    RULE (S fuel) st
    = (c <- OPERAND fuel ;;
       LOOP fuel (Node.add_child (Node.new name) c)) st.
Variable R_rule : list Token.t -> Node.t -> Prop.
Hypothesis R_intro :
  forall l n l' n',
    R_operand l n -> R_loop n l' n' ->
    R_rule (l ++ l') (Node.mk (Some name) [n']).

Lemma rule_accepts fuel :
  accepts R_operand (OPERAND fuel) ->
  (forall label acc,
     accepts (looped label acc) (LOOP fuel (Node.mk label [acc]))) ->
  accepts R_rule (RULE (S fuel)).
Proof.
  intros Hoperand Hloop st n st' Hwf Hrun.
  rewrite RULE_eq in Hrun.
  apply bind_inv in Hrun. destruct Hrun as (c & s1 & Hc & Hrun).
  destruct (Hoperand st c s1 Hwf Hc) as (l1 & HR1 & Hover1).
  unfold Node.add_child, Node.new in Hrun.
  cbn [Node.label Node.children app] in Hrun.
  destruct (Hloop _ _ s1 n st' (proj1 Hover1) Hrun)
    as (l2 & (r & -> & HR2) & Hover2).
  exists (l1 ++ l2). split; [apply R_intro with (n := c); assumption|].
  eapply went_over_app; eassumption.
Qed.

End LoopAccepts.


Lemma fator_accepts fuel :
  accepts logica (parse_expressao_logica fuel) ->
  accepts fator (parse_fator (S fuel)).
Proof.
  intros Hlog st n st' Hwf Hrun. cbn [parse_fator] in Hrun.
  unfold bind at 1 in Hrun. unfold get at 1 in Hrun.
  destruct (str_in (Token.type (current_token st))
              ["NUMBER"; "IDENTIFIER"]%string) eqn:Hop.
  - apply bind_inv in Hrun. destruct Hrun as ([] & s & Hadv & Hret).
    injection Hret as <- <-.
    exists [current_token st]. split.
    + apply fator_operand. exact Hop.
    + apply advance_inv; auto.
      apply (str_in_not_eof _ _ Hop). reflexivity.
  - destruct (String.eqb (Token.type (current_token st)) "LPAREN");
      [|discriminate].
    apply bind_inv in Hrun. destruct Hrun as (c1 & s1 & He1 & Hrun).
    destruct (@eat_inv "LPAREN" _ _ _ Hwf eq_refl He1) as (Hlp & -> & Hover1).
    apply bind_inv in Hrun. destruct Hrun as (c2 & s2 & He2 & Hrun).
    destruct (Hlog s1 c2 s2 (proj1 Hover1) He2) as (l & HR & Hover2).
    apply bind_inv in Hrun. destruct Hrun as (c3 & s3 & He3 & Hret).
    destruct (@eat_inv "RPAREN" _ _ _ (proj1 Hover2) eq_refl He3) as (Hrp & -> & Hover3).
    injection Hret as <- <-.
    exists (current_token st :: l ++ [current_token s2]). split.
    + apply fator_group; assumption.
    + change (current_token st :: l ++ [current_token s2])
        with ([current_token st] ++ l ++ [current_token s2]).
      eapply went_over_app; [eassumption|].
      eapply went_over_app; eassumption.
Qed.

Lemma relacional_accepts fuel :
  accepts aritmetica (parse_expressao_aritmetica fuel) ->
  accepts relacional (parse_expressao_relacional (S fuel)).
Proof.
  intros Hari st n st' Hwf Hrun. cbn [parse_expressao_relacional] in Hrun.
  apply bind_inv in Hrun. destruct Hrun as (c & s1 & Hc & Hrun).
  destruct (Hari st c s1 Hwf Hc) as (l1 & HR1 & Hover1).
  unfold bind at 1 in Hrun. unfold get at 1 in Hrun.
  unfold Node.add_child, Node.new in Hrun.
  cbn [Node.label Node.children app] in Hrun.
  destruct (str_in (Token.type (current_token s1))
              ["GT"; "LT"; "GE"; "LE"; "EQ"; "NE"]%string) eqn:Hop.
  - pose proof (str_in_not_eof _ _ Hop eq_refl) as Hty.
    destruct (@wrap_operator_inv _ _ _ _ _ _ _ (proj1 Hover1) Hty Hrun)
      as (s0 & right & Hover0 & Hright & ->).
    destruct (Hari s0 right st' (proj1 Hover0) Hright)
      as (l2 & HR2 & Hover2).
    exists (l1 ++ current_token s1 :: l2). split.
    + apply relacional_two; assumption.
    + eapply went_over_app; [eassumption|].
      change (current_token s1 :: l2) with ([current_token s1] ++ l2).
      eapply went_over_app; eassumption.
  - injection Hrun as <- <-. exists l1.
    split; [apply relacional_one; assumption|assumption].
Qed.

(** Whatever an expression rule returns, it returns for tokens and a tree
    that the grammar relates. *)
Lemma expressions_accepted fuel :
  accepts fator (parse_fator fuel) /\
  (forall label acc,
     accepts (looped termo_loop label acc)
       (parse_termo_loop fuel (Node.mk label [acc]))) /\
  accepts termo (parse_termo fuel) /\
  (forall label acc,
     accepts (looped aritmetica_loop label acc)
       (parse_expressao_aritmetica_loop fuel (Node.mk label [acc]))) /\
  accepts aritmetica (parse_expressao_aritmetica fuel) /\
  accepts relacional (parse_expressao_relacional fuel) /\
  (forall label acc,
     accepts (looped logica_loop label acc)
       (parse_expressao_logica_loop fuel (Node.mk label [acc]))) /\
  accepts logica (parse_expressao_logica fuel).
Proof.
  induction fuel as [|fuel IH].
  { repeat apply conj; intros; apply accepts_out_of_fuel. }
  destruct IH as (Hfat & Hterl & Hter & Haril & Hari & Hrel & Hlogl & Hlog).
  repeat apply conj.
  - apply fator_accepts, Hlog.
  - apply loop_accepts with (OPERAND := parse_fator) (ops := multiplicative)
                            (oplabel := Token.value) (R_operand := fator);
      auto; try reflexivity.
    + apply termo_loop_done.
    + apply termo_loop_more.
  - apply rule_accepts with (LOOP := parse_termo_loop)
                            (OPERAND := parse_fator) (name := "Termo"%string)
                            (R_operand := fator) (R_loop := termo_loop);
      auto; try reflexivity.
    apply termo_intro.
  - apply loop_accepts with (OPERAND := parse_termo) (ops := additive)
                            (oplabel := Token.value) (R_operand := termo);
      auto; try reflexivity.
    + apply aritmetica_loop_done.
    + apply aritmetica_loop_more.
  - apply rule_accepts with (LOOP := parse_expressao_aritmetica_loop)
                            (OPERAND := parse_termo)
                            (name := "ExpressaoAritmetica"%string)
                            (R_operand := termo)
                            (R_loop := aritmetica_loop);
      auto; try reflexivity.
    apply aritmetica_intro.
  - apply relacional_accepts, Hari.
  - apply loop_accepts with (OPERAND := parse_expressao_relacional)
                            (ops := logical)
                            (oplabel := fun t => Some (Token.type t))
                            (R_operand := relacional);
      auto; try reflexivity.
    + apply logica_loop_done.
    + apply logica_loop_more.
  - apply rule_accepts with (LOOP := parse_expressao_logica_loop)
                            (OPERAND := parse_expressao_relacional)
                            (name := "ExpressaoLogica"%string)
                            (R_operand := relacional)
                            (R_loop := logica_loop);
      auto; try reflexivity.
    apply logica_intro.
Qed.


(** ** Statements and declarations *)

Lemma atribuicao_accepts fuel : accepts atribuicao (parse_atribuicao fuel).
Proof.
  intros st n st' Hwf Hrun. unfold parse_atribuicao in Hrun.
  apply bind_inv in Hrun. destruct Hrun as (c1 & s1 & He1 & Hrun).
  destruct (@eat_inv "IDENTIFIER" _ _ _ Hwf eq_refl He1)
    as (Hx & -> & Hover1).
  apply bind_inv in Hrun. destruct Hrun as (c2 & s2 & He2 & Hrun).
  destruct (@eat_inv "ASSIGN" _ _ _ (proj1 Hover1) eq_refl He2)
    as (Heq & -> & Hover2).
  apply bind_inv in Hrun. destruct Hrun as (c3 & s3 & He3 & Hret).
  injection Hret as <- <-.
  destruct (expressions_accepted fuel) as (_ & _ & _ & _ & _ & _ & _ & Hlog).
  destruct (Hlog s2 c3 s3 (proj1 Hover2) He3) as (l & HR & Hover3).
  exists (current_token st :: current_token s1 :: l). split.
  - apply atribuicao_intro; assumption.
  - change (current_token st :: current_token s1 :: l)
      with ([current_token st] ++ [current_token s1] ++ l).
    eapply went_over_app; [eassumption|].
    eapply went_over_app; eassumption.
Qed.

Lemma parse_decl_inv st n st' :
  wf ts st -> parse_decl st = Ok n st' ->
  exists d, declaration d /\ n = decl_node d /\
            went_over st st' (decl_tokens d).
Proof.
  intros Hwf Hrun. unfold parse_decl in Hrun.
  apply bind_inv in Hrun. destruct Hrun as (c1 & s1 & He1 & Hrun).
  destruct (@eat_inv "IDENTIFIER" _ _ _ Hwf eq_refl He1)
    as (Hx & -> & Hover1).
  apply bind_inv in Hrun. destruct Hrun as (c2 & s2 & He2 & Hrun).
  destruct (@eat_inv "COLON" _ _ _ (proj1 Hover1) eq_refl He2)
    as (Hc & -> & Hover2).
  unfold bind at 1 in Hrun. unfold get at 1 in Hrun.
  destruct (str_in (Token.type (current_token s2)) ["INT"; "FLOAT"]%string)
    eqn:Hty; [|discriminate].
  apply bind_inv in Hrun. destruct Hrun as (c3 & s3 & He3 & Hret).
  injection Hret as <- <-.
  destruct (@eat_inv _ _ _ _ (proj1 Hover2)
              (str_in_not_eof _ _ Hty eq_refl) He3) as (_ & -> & Hover3).
  exists (current_token st, current_token s1, current_token s2).
  split; [repeat apply conj; assumption|]. split; [reflexivity|].
  change (decl_tokens (current_token st, current_token s1, current_token s2))
    with ([current_token st] ++ [current_token s1] ++ [current_token s2]).
  eapply went_over_app; [eassumption|].
  eapply went_over_app; eassumption.
Qed.

Lemma parse_decls_loop_inv fuel :
  forall label children st n st',
    wf ts st ->
    parse_decls_loop fuel (Node.mk label children) st = Ok n st' ->
    exists ds,
      Forall declaration ds /\
      n = Node.mk label (children ++ map decl_node ds) /\
      went_over st st' (flat_map decl_tokens ds).
Proof.
  induction fuel as [|fuel IH]; intros label children st n st' Hwf Hrun;
    [discriminate|].
  cbn [parse_decls_loop] in Hrun.
  unfold bind at 1 in Hrun. unfold get at 1 in Hrun.
  destruct (negb (str_in (Token.type (current_token st))
                    ["FIMDECLS"; "EOF"]%string)).
  - apply bind_inv in Hrun. destruct Hrun as (colon & s0 & Hcolon & Hrun).
    assert (Hs0 : s0 = st).
    { destruct (String.eqb (Token.type (current_token st)) "IDENTIFIER").
      - rewrite (peek_is_colon_eq Hwf) in Hcolon. congruence.
      - unfold ret in Hcolon. congruence. }
    subst s0. destruct colon; [|discriminate].
    apply bind_inv in Hrun. destruct Hrun as (c & s1 & Hc & Hrun).
    destruct (parse_decl_inv Hwf Hc) as (d & Hd & -> & Hover1).
    unfold Node.add_child in Hrun. cbn [Node.label Node.children] in Hrun.
    destruct (IH _ _ _ _ _ (proj1 Hover1) Hrun) as (ds & Hds & -> & Hover2).
    exists (d :: ds). split; [constructor; assumption|]. split.
    + rewrite <- app_assoc. reflexivity.
    + cbn [flat_map]. eapply went_over_app; eassumption.
  - injection Hrun as <- <-. exists []. split; [constructor|].
    split; [cbn [map]; rewrite app_nil_r; reflexivity|].
    apply went_over_nil, Hwf.
Qed.

(** What a loop of statements adds to the children of its node. *)
Definition appended (label : option string) (children : list Node.t)
    (l : list Token.t) (n : Node.t) : Prop :=
  exists ns, n = Node.mk label (children ++ ns) /\ comandos_loop l ns.

Lemma comando_accepts fuel :
  accepts condicional (parse_if fuel) ->
  accepts comando (parse_comando (S fuel)).
Proof.
  intros Hif st n st' Hwf Hrun. cbn [parse_comando] in Hrun.
  unfold bind at 1 in Hrun. unfold get at 1 in Hrun.
  cbv zeta in Hrun.
  destruct (String.eqb (Token.type (current_token st)) "LEIA").
  { apply bind_inv in Hrun. destruct Hrun as (c1 & s1 & He1 & Hrun).
    destruct (@eat_inv "LEIA" _ _ _ Hwf eq_refl He1) as (H1 & -> & Hover1).
    apply bind_inv in Hrun. destruct Hrun as (c2 & s2 & He2 & Hret).
    destruct (@eat_inv "IDENTIFIER" _ _ _ (proj1 Hover1) eq_refl He2)
      as (H2 & -> & Hover2).
    injection Hret as <- <-.
    exists [current_token st; current_token s1]. split.
    - apply comando_leia; assumption.
    - change [current_token st; current_token s1]
        with ([current_token st] ++ [current_token s1]).
      eapply went_over_app; eassumption. }
  destruct (String.eqb (Token.type (current_token st)) "ESCREVA").
  { apply bind_inv in Hrun. destruct Hrun as (c1 & s1 & He1 & Hrun).
    destruct (@eat_inv "ESCREVA" _ _ _ Hwf eq_refl He1)
      as (H1 & -> & Hover1).
    apply bind_inv in Hrun. destruct Hrun as (c2 & s2 & He2 & Hrun).
    destruct (@eat_inv "LPAREN" _ _ _ (proj1 Hover1) eq_refl He2)
      as (H2 & -> & Hover2).
    unfold bind at 1 in Hrun. unfold get at 1 in Hrun.
    destruct (str_in (Token.type (current_token s2))
                ["IDENTIFIER"; "NUMBER"]%string) eqn:Hv; [|discriminate].
    apply bind_inv in Hrun. destruct Hrun as (c3 & s3 & He3 & Hrun).
    destruct (@eat_inv _ _ _ _ (proj1 Hover2)
                (str_in_not_eof _ _ Hv eq_refl) He3) as (_ & -> & Hover3).
    apply bind_inv in Hrun. destruct Hrun as (c4 & s4 & He4 & Hret).
    destruct (@eat_inv "RPAREN" _ _ _ (proj1 Hover3) eq_refl He4)
      as (H4 & -> & Hover4).
    injection Hret as <- <-.
    exists [current_token st; current_token s1; current_token s2;
            current_token s3]. split.
    - apply comando_escreva; assumption.
    - change [current_token st; current_token s1; current_token s2;
              current_token s3]
        with ([current_token st] ++ [current_token s1]
              ++ [current_token s2] ++ [current_token s3]).
      eapply went_over_app; [eassumption|].
      eapply went_over_app; [eassumption|].
      eapply went_over_app; eassumption. }
  destruct (String.eqb (Token.type (current_token st)) "SE").
  { apply bind_inv in Hrun. destruct Hrun as (c & s1 & Hc & Hret).
    injection Hret as <- <-.
    destruct (Hif st c s1 Hwf Hc) as (l & HR & Hover).
    exists l. split; [apply comando_se; assumption|assumption]. }
  destruct (String.eqb (Token.type (current_token st)) "IDENTIFIER");
    [|discriminate].
  unfold bind at 1 in Hrun. rewrite (peek_next_type_eq 1 Hwf) in Hrun.
  destruct (match option_map Token.type (nth_error ts (pos st + 1)) with
            | Some t => String.eqb t "ASSIGN"
            | None => false
            end); [|discriminate].
  apply bind_inv in Hrun. destruct Hrun as (c & s1 & Hc & Hret).
  injection Hret as <- <-.
  destruct (@atribuicao_accepts fuel st c s1 Hwf Hc) as (l & HR & Hover).
  exists l. split; [apply comando_atribuicao; assumption|assumption].
Qed.

Lemma if_accepts fuel :
  accepts comandos (parse_comandos fuel) ->
  accepts condicional (parse_if (S fuel)).
Proof.
  intros Hcmds st n st' Hwf Hrun. cbn [parse_if] in Hrun.
  apply bind_inv in Hrun. destruct Hrun as (c1 & s1 & He1 & Hrun).
  destruct (@eat_inv "SE" _ _ _ Hwf eq_refl He1) as (H1 & -> & Hover1).
  apply bind_inv in Hrun. destruct Hrun as (c2 & s2 & He2 & Hrun).
  destruct (expressions_accepted fuel) as (_ & _ & _ & _ & _ & _ & _ & Hlog).
  destruct (Hlog s1 c2 s2 (proj1 Hover1) He2) as (l & HR & Hover2).
  apply bind_inv in Hrun. destruct Hrun as (c3 & s3 & He3 & Hrun).
  destruct (@eat_inv "ENTAO" _ _ _ (proj1 Hover2) eq_refl He3)
    as (H3 & -> & Hover3).
  apply bind_inv in Hrun. destruct Hrun as (c4 & s4 & He4 & Hrun).
  destruct (@eat_inv "BLOCO" _ _ _ (proj1 Hover3) eq_refl He4)
    as (H4 & -> & Hover4).
  apply bind_inv in Hrun. destruct Hrun as (c5 & s5 & He5 & Hrun).
  destruct (Hcmds s4 c5 s5 (proj1 Hover4) He5) as (l' & HR' & Hover5).
  apply bind_inv in Hrun. destruct Hrun as (c6 & s6 & He6 & Hret).
  destruct (@eat_inv "FIMBLOCO" _ _ _ (proj1 Hover5) eq_refl He6)
    as (H6 & -> & Hover6).
  injection Hret as <- <-.
  exists (current_token st :: l ++ current_token s2 :: current_token s3
          :: l' ++ [current_token s5]). split.
  - apply condicional_intro; assumption.
  - change (current_token st :: l ++ current_token s2 :: current_token s3
            :: l' ++ [current_token s5])
      with ([current_token st] ++ l ++ [current_token s2]
            ++ [current_token s3] ++ l' ++ [current_token s5]).
    eapply went_over_app; [eassumption|].
    eapply went_over_app; [eassumption|].
    eapply went_over_app; [eassumption|].
    eapply went_over_app; [eassumption|].
    eapply went_over_app; eassumption.
Qed.

(** Whatever a statement rule returns, it returns for tokens and a tree
    that the grammar relates. *)
Lemma statements_accepted fuel :
  accepts comandos (parse_comandos fuel) /\
  (forall label children,
     accepts (appended label children)
       (parse_comandos_loop fuel (Node.mk label children))) /\
  accepts comando (parse_comando fuel) /\
  accepts condicional (parse_if fuel).
Proof.
  induction fuel as [|fuel IH].
  { repeat apply conj; intros; apply accepts_out_of_fuel. }
  destruct IH as (Hcmds & Hloop & Hcmd & Hif).
  repeat apply conj.
  - intros st n st' Hwf Hrun. cbn [parse_comandos] in Hrun.
    destruct (Hloop _ _ st n st' Hwf Hrun) as (l & (ns & -> & HR) & Hover).
    exists l. split; [apply comandos_intro; assumption|assumption].
  - intros label children st n st' Hwf Hrun.
    cbn [parse_comandos_loop] in Hrun.
    unfold bind at 1 in Hrun. unfold get at 1 in Hrun.
    destruct (negb (str_in (Token.type (current_token st))
                      ["FIMPROG"; "FIMBLOCO"; "FIMDECLS"; "EOF"]%string)).
    + apply bind_inv in Hrun. destruct Hrun as (c & s1 & Hc & Hrun).
      destruct (Hcmd st c s1 Hwf Hc) as (l & HR & Hover1).
      unfold Node.add_child in Hrun. cbn [Node.label Node.children] in Hrun.
      destruct (Hloop _ _ s1 n st' (proj1 Hover1) Hrun)
        as (l' & (ns & -> & HR') & Hover2).
      exists (l ++ l'). split; [|eapply went_over_app; eassumption].
      exists (c :: ns). split; [rewrite <- app_assoc; reflexivity|].
      apply comandos_loop_more; assumption.
    + injection Hrun as <- <-. exists []. split; [|apply went_over_nil, Hwf].
      exists []. split; [rewrite app_nil_r; reflexivity|].
      apply comandos_loop_done.
  - apply comando_accepts, Hif.
  - apply if_accepts, Hcmds.
Qed.

Lemma programa_accepts fuel : accepts programa (parse_programa fuel).
Proof.
  intros st n st' Hwf Hrun. unfold parse_programa in Hrun.
  apply bind_inv in Hrun. destruct Hrun as (c1 & s1 & He1 & Hrun).
  destruct (@eat_inv "INICIO" _ _ _ Hwf eq_refl He1) as (H1 & -> & Hover1).
  apply bind_inv in Hrun. destruct Hrun as (c2 & s2 & He2 & Hrun).
  destruct (@eat_inv "DECLS" _ _ _ (proj1 Hover1) eq_refl He2)
    as (H2 & -> & Hover2).
  apply bind_inv in Hrun. destruct Hrun as (c3 & s3 & He3 & Hrun).
  unfold parse_decls, Node.new in He3.
  destruct (parse_decls_loop_inv _ _ _ (proj1 Hover2) He3)
    as (ds & Hds & -> & Hover3).
  apply bind_inv in Hrun. destruct Hrun as (c4 & s4 & He4 & Hrun).
  destruct (@eat_inv "FIMDECLS" _ _ _ (proj1 Hover3) eq_refl He4)
    as (H4 & -> & Hover4).
  apply bind_inv in Hrun. destruct Hrun as (c5 & s5 & He5 & Hrun).
  destruct (@eat_inv "CODIGO" _ _ _ (proj1 Hover4) eq_refl He5)
    as (H5 & -> & Hover5).
  apply bind_inv in Hrun. destruct Hrun as (c6 & s6 & He6 & Hrun).
  destruct (statements_accepted fuel) as (Hcmds & _).
  destruct (Hcmds s5 c6 s6 (proj1 Hover5) He6) as (l & HR & Hover6).
  apply bind_inv in Hrun. destruct Hrun as (c7 & s7 & He7 & Hret).
  destruct (@eat_inv "FIMPROG" _ _ _ (proj1 Hover6) eq_refl He7)
    as (H7 & -> & Hover7).
  injection Hret as <- <-.
  exists (current_token st :: current_token s1 :: flat_map decl_tokens ds
          ++ current_token s3 :: current_token s4 :: l
          ++ [current_token s6]). split.
  - apply programa_intro; assumption.
  - change (current_token st :: current_token s1 :: flat_map decl_tokens ds
            ++ current_token s3 :: current_token s4 :: l
            ++ [current_token s6])
      with ([current_token st] ++ [current_token s1]
            ++ flat_map decl_tokens ds ++ [current_token s3]
            ++ [current_token s4] ++ l ++ [current_token s6]).
    eapply went_over_app; [eassumption|].
    eapply went_over_app; [eassumption|].
    eapply went_over_app; [eassumption|].
    eapply went_over_app; [eassumption|].
    eapply went_over_app; [eassumption|].
    eapply went_over_app; eassumption.
Qed.

End Accepted.

(** When [parse_expressao_logica] returns a tree, the tokens between the
    index it started from and the index it stopped at are an expression of
    the grammar, and the tree is the tree of that expression. *)
Theorem returned_expressions_are_expressions_of_the_grammar
    ts st fuel n st' :
  ParserFacts.eof_last ts -> ParserFacts.wf ts st ->
  Parser.parse_expressao_logica fuel st = Ok n st' ->
  exists l,
    logica l n /\
    skipn (Parser.pos st) ts = l ++ skipn (Parser.pos st') ts.
Proof.
  intros Heof Hwf Hrun.
  destruct (expressions_accepted Heof fuel)
    as (_ & _ & _ & _ & _ & _ & _ & Hlog).
  destruct (Hlog st n st' Hwf Hrun) as (l & HR & _ & Hl). eauto.
Qed.

Lemma returned_expressions_are_expressions_of_the_grammar_witness :
  exists l,
    logica l
      (Node.mk (Some "ExpressaoLogica"%string)
         [Node.mk (Some "ExpressaoRelacional"%string)
            [Node.mk (Some "<"%string)
               [Node.mk (Some "ExpressaoAritmetica"%string)
                  [Node.mk (Some "Termo"%string)
                     [Node.mk (Some "IDENTIFIER(a)"%string) []]];
                Node.mk (Some "ExpressaoAritmetica"%string)
                  [Node.mk (Some "Termo"%string)
                     [Node.mk (Some "NUMBER(1)"%string) []]]]]]) /\
    skipn 0 (tokens_of "a<1 entao") = l ++ skipn 3 (tokens_of "a<1 entao").
Proof.
  apply (@returned_expressions_are_expressions_of_the_grammar
           (tokens_of "a<1 entao")
           (parser_on (tokens_of "a<1 entao")
              (Token.mk "IDENTIFIER" (Some "a"%string) 1 1))
           20 _
           (Parser.mk (tokens_of "a<1 entao") 3
              (Token.mk "ENTAO" (Some "entao"%string) 1 5))).
  - exists (removelast (tokens_of "a<1 entao")), (Token.mk "EOF" None 1 9).
    split; vm_compute; reflexivity.
  - split; vm_compute; try reflexivity. lia.
  - vm_compute. reflexivity.
Defined.

(** When [parse_programa] returns a tree, the tokens between the index it
    started from and the index it stopped at are a program of the grammar,
    and the tree is the tree of that program. *)
Theorem returned_programs_are_programs_of_the_grammar ts st fuel root st' :
  ParserFacts.eof_last ts -> ParserFacts.wf ts st ->
  Parser.parse_programa fuel st = Ok root st' ->
  exists l,
    programa l root /\
    skipn (Parser.pos st) ts = l ++ skipn (Parser.pos st') ts.
Proof.
  intros Heof Hwf Hrun.
  destruct (@programa_accepts ts Heof fuel st root st' Hwf Hrun)
    as (l & HR & _ & Hl).
  eauto.
Qed.

Lemma returned_programs_are_programs_of_the_grammar_witness :
  exists l,
    programa l
      (Node.mk (Some "Programa"%string)
         [Node.mk (Some "INICIO(inicio)"%string) [];
          Node.mk (Some "DECLS(decls)"%string) [];
          Node.mk (Some "Decls"%string)
            [Node.mk (Some "Decl"%string)
               [Node.mk (Some "IDENTIFIER(x)"%string) [];
                Node.mk (Some "COLON(:)"%string) [];
                Node.mk (Some "INT(int)"%string) []]];
          Node.mk (Some "FIMDECLS(fimdecls)"%string) [];
          Node.mk (Some "CODIGO(codigo)"%string) [];
          Node.mk (Some "Comandos"%string)
            [Node.mk (Some "Comando"%string)
               [Node.mk (Some "LEIA(leia)"%string) [];
                Node.mk (Some "IDENTIFIER(x)"%string) []]];
          Node.mk (Some "FIMPROG(fimprog)"%string) []]) /\
    skipn 0 (tokens_of "inicio decls x:int fimdecls codigo leia x fimprog y")
    = l ++ skipn 10
             (tokens_of
                "inicio decls x:int fimdecls codigo leia x fimprog y").
Proof.
  apply (@returned_programs_are_programs_of_the_grammar
           (tokens_of "inicio decls x:int fimdecls codigo leia x fimprog y")
           (parser_on
              (tokens_of
                 "inicio decls x:int fimdecls codigo leia x fimprog y")
              (Token.mk "INICIO" (Some "inicio"%string) 1 1))
           50 _
           (Parser.mk
              (tokens_of
                 "inicio decls x:int fimdecls codigo leia x fimprog y")
              10 (Token.mk "IDENTIFIER" (Some "y"%string) 1 51))).
  - exists (removelast
              (tokens_of
                 "inicio decls x:int fimdecls codigo leia x fimprog y")),
           (Token.mk "EOF" None 1 51).
    split; vm_compute; reflexivity.
  - split; vm_compute; try reflexivity. lia.
  - vm_compute. reflexivity.
Defined.

(** When the analysis of a text succeeds with a tree, the tokens of the
    text start with a program of the grammar whose tree it is; what is
    after the program, the end marker at least, is not in the tree. *)
Theorem accepted_texts_start_with_a_program_of_the_grammar src fuel root :
  analyse fuel src = Success root ->
  exists toks lexer' l after,
    Lexer.tokenize fuel (Lexer.init src) = Ok toks lexer' /\
    toks = l ++ after /\ after <> [] /\ programa l root.
Proof.
  unfold analyse, Parser.init.
  destruct (Lexer.tokenize fuel (Lexer.init src)) as [toks lexer'|e|] eqn:Htok.
  2:{ destruct e; intros H; discriminate H. }
  2:{ intros H; discriminate H. }
  destruct (nth_error toks 0) as [t0|] eqn:Ht0;
    [|intros H; discriminate H].
  destruct (Parser.parse_programa fuel (Parser.mk toks 0 t0))
    as [root' st'|e|] eqn:Hrun.
  2:{ destruct e; intros H; discriminate H. }
  2:{ intros H; discriminate H. }
  intros [= ->].
  pose proof (eof_last_of_tokenize _ _ Htok) as Heof.
  destruct (@programa_accepts toks Heof fuel _ root st'
              (wf_parser_on toks Ht0) Hrun) as (l & HR & Hwf' & Hl).
  exists toks, lexer', l, (skipn (Parser.pos st') toks).
  repeat apply conj; auto.
  pose proof (ParserFacts.wf_pos Hwf') as Hlt.
  intros Hnil. apply (f_equal (@List.length _)) in Hnil.
  rewrite length_skipn in Hnil. cbn in Hnil. lia.
Qed.

Lemma accepted_texts_start_with_a_program_of_the_grammar_witness :
  exists toks lexer' l after,
    Lexer.tokenize 50
      (Lexer.init
         (list_ascii_of_string "inicio decls fimdecls codigo x=1 fimprog"))
    = Ok toks lexer' /\
    toks = l ++ after /\ after <> [] /\
    programa l
      (Node.mk (Some "Programa"%string)
         [Node.mk (Some "INICIO(inicio)"%string) [];
          Node.mk (Some "DECLS(decls)"%string) [];
          Node.mk (Some "Decls"%string) [];
          Node.mk (Some "FIMDECLS(fimdecls)"%string) [];
          Node.mk (Some "CODIGO(codigo)"%string) [];
          Node.mk (Some "Comandos"%string)
            [Node.mk (Some "Comando"%string)
               [Node.mk (Some "Atribuicao"%string)
                  [Node.mk (Some "IDENTIFIER(x)"%string) [];
                   Node.mk (Some "ASSIGN(=)"%string) [];
                   Node.mk (Some "ExpressaoLogica"%string)
                     [Node.mk (Some "ExpressaoRelacional"%string)
                        [Node.mk (Some "ExpressaoAritmetica"%string)
                           [Node.mk (Some "Termo"%string)
                              [Node.mk (Some "NUMBER(1)"%string) []]]]]]]];
          Node.mk (Some "FIMPROG(fimprog)"%string) []]).
Proof.
  apply (@accepted_texts_start_with_a_program_of_the_grammar
           (list_ascii_of_string "inicio decls fimdecls codigo x=1 fimprog")
           50).
  vm_compute. reflexivity.
Defined.
